(** * ackermann: dependency-ordered unit scheduler

    A shallow embedding of [src/ackermann/kahn.py] (the dynamic Kahn
    iterator) and of the lifecycle engine of [src/ackermann/config.py]
    ([Config.add_target], [Config.init], [Config.exit], [run],
    [ConfigUnit.__init__]).

    Modelling conventions.
    - A Python object reference to a unit is a value of an abstract type
      [Unit] with decidable equality (Python compares units by identity);
      the attributes of the object a reference points to are read through
      an object store [obj : Unit -> ConfigUnit Unit].
    - A Python [list] or [deque] is a Rocq [list].
    - A Python [set] is a duplicate-free list.  Python iterates a set in
      an order that the program does not control, so every loop over a
      set goes through a [SetOrder], an arbitrary permutation.
    - A [defaultdict(set)] is an insertion-ordered association list from
      units to *references* of set objects living in a heap, so that the
      shallow [dict.copy()] of [KahnIterator.copy] shares the set objects
      exactly as Python does.
    - Exceptions are explicit results; the recursion of [__next__] and
      of [add_target] is bounded by a fuel argument that stands for the
      interpreter's recursion limit. *)

From Stdlib Require Import List Bool Arith Lia Permutation.
From Stdlib Require String.
Import ListNotations.
Import String.StringSyntax.
Delimit Scope string_scope with string.
Local Open Scope string_scope.
Local Open Scope list_scope.

Set Implicit Arguments.

(** ** Units ([config.py], class [ConfigUnit]) *)

(** What [inspect] tells about the [func] argument of a unit. *)
Inductive FuncKind : Type :=
  | NoFunc          (* func is None *)
  | AsyncGenFunc    (* isasyncgenfunction(func) *)
  | CoroutineFunc   (* iscoroutinefunction(func) *)
  | GeneratorFunc   (* isgeneratorfunction(func) *)
  | PlainFunc.      (* any other callable *)

Record ConfigUnit (Unit : Type) : Type := mkConfigUnit {
  name : String.string;
  description : String.string;
  contains : list Unit;
  belongs : list Unit;
  depends : list Unit;
  before : list Unit;
  after : list Unit;
  conflicts : list Unit;
  exclusive : bool;
  func : FuncKind;
  is_async : bool;
  is_generator : bool
}.

(** [ConfigUnit.is_empty] *)
Definition is_empty {Unit} (u : ConfigUnit Unit) : bool :=
  match func u with NoFunc => true | _ => false end.

(** [ConfigUnit.__init__]; the relation arguments have already gone
    through [_param_to_list].  [ASYNC_UNIT] is the module-level unit of
    [units/base.py]. *)
Definition ConfigUnit_init {Unit} (ASYNC_UNIT : Unit)
    (name description : String.string)
    (contains belongs depends before after conflicts : list Unit)
    (exclusive : bool) (func : FuncKind) : ConfigUnit Unit :=
  let '(is_async, is_generator) :=
    match func with
    | NoFunc => (false, false)
    | AsyncGenFunc => (true, true)
    | CoroutineFunc => (true, false)
    | GeneratorFunc => (false, true)
    | PlainFunc => (false, false)
    end in
  let depends := if is_async then depends ++ [ASYNC_UNIT] else depends in
  let after := if is_async then after ++ [ASYNC_UNIT] else after in
  mkConfigUnit name description contains belongs depends before after
    conflicts exclusive func is_async is_generator.

(** ** Exceptions *)

Inductive Exn : Type :=
  | CycleException       (* exceptions.CycleException *)
  | StopInitException    (* exceptions.StopInitException *)
  | StopIteration
  | KeyError
  | PlainException       (* raise Exception(...) *)
  | RecursionError
  | IndexError
  | AssertionError
  | UnitException (code : nat).   (* anything else a unit action raises *)

(** What a call into a unit or a final action does: it returns a value
    or raises. *)
Inductive Outcome (A : Type) : Type :=
  | Returns (a : A)
  | Raises (e : Exn).
Arguments Returns {A} a.
Arguments Raises {A} e.

Section Model.

Context {Unit : Type}.
Variable Unit_eq_dec : forall x y : Unit, {x = y} + {x <> y}.

(** The object store: the attributes of the unit behind a reference. *)
Variable obj : Unit -> ConfigUnit Unit.

(** ** Python containers *)

Definition eqb_unit (x y : Unit) : bool :=
  if Unit_eq_dec x y then true else false.

(** [x in l] *)
Definition mem (x : Unit) (l : list Unit) : bool := existsb (eqb_unit x) l.

(** [deque.remove(x)] / [list.remove(x)]: drops the first occurrence;
    [None] is Python's [ValueError]. *)
Fixpoint remove_first (x : Unit) (l : list Unit) : option (list Unit) :=
  match l with
  | [] => None
  | y :: l' =>
      if eqb_unit x y then Some l'
      else match remove_first x l' with
           | Some r => Some (y :: r)
           | None => None
           end
  end.

(** [set.add(x)] *)
Definition set_add (x : Unit) (s : list Unit) : list Unit :=
  if mem x s then s else s ++ [x].

(** [set.remove(x)]: [None] is Python's [KeyError]. *)
Definition set_remove (x : Unit) (s : list Unit) : option (list Unit) :=
  if mem x s then Some (filter (fun y => negb (eqb_unit x y)) s) else None.

(** [set(iterable)] *)
Definition set_of_list (l : list Unit) : list Unit :=
  fold_left (fun s y => set_add y s) l [].

(** The order in which a [for] loop visits a set. *)
Record SetOrder : Type := mkSetOrder {
  iter_order :> list Unit -> list Unit;
  iter_order_perm : forall l, Permutation (iter_order l) l
}.

(** The heap of set objects: a reference is an index. *)
Definition Ref : Type := nat.
Definition Heap : Type := list (list Unit).

Definition heap_get (h : Heap) (r : Ref) : list Unit := nth r h [].

Fixpoint heap_set (h : Heap) (r : Ref) (s : list Unit) : Heap :=
  match h, r with
  | [], _ => []
  | _ :: h', 0 => s :: h'
  | x :: h', S r' => x :: heap_set h' r' s
  end.

Definition heap_alloc (h : Heap) (s : list Unit) : Ref * Heap :=
  (length h, h ++ [s]).

(** A [dict] keyed by units, in insertion order. *)
Definition Dict (V : Type) : Type := list (Unit * V).

Fixpoint dict_find {V} (d : Dict V) (k : Unit) : option V :=
  match d with
  | [] => None
  | (k', v) :: d' => if eqb_unit k k' then Some v else dict_find d' k
  end.

(** [d[k] = v]: an existing key keeps its position. *)
Fixpoint dict_set {V} (d : Dict V) (k : Unit) (v : V) : Dict V :=
  match d with
  | [] => [(k, v)]
  | (k', v') :: d' =>
      if eqb_unit k k' then (k', v) :: d' else (k', v') :: dict_set d' k v
  end.

(** [del d[k]]: [None] is Python's [KeyError]. *)
Fixpoint dict_del {V} (d : Dict V) (k : Unit) : option (Dict V) :=
  match d with
  | [] => None
  | (k', v) :: d' =>
      if eqb_unit k k' then Some d'
      else match dict_del d' k with
           | Some d'' => Some ((k', v) :: d'')
           | None => None
           end
  end.

(** [del d[k]] inside [try: ... except KeyError: pass]. *)
Definition dict_del_quiet {V} (d : Dict V) (k : Unit) : Dict V :=
  match dict_del d k with Some d' => d' | None => d end.

(** A [defaultdict(set)]: the values are references to set objects. *)
Definition SetDict : Type := Dict Ref.

(** [d[k]] on a [defaultdict(set)]: a missing key is inserted with a
    fresh empty set. *)
Definition dd_get (h : Heap) (d : SetDict) (k : Unit) : Ref * Heap * SetDict :=
  match dict_find d k with
  | Some r => (r, h, d)
  | None => let '(r, h') := heap_alloc h [] in (r, h', d ++ [(k, r)])
  end.

(** [d[k].add(x)] *)
Definition dd_add (h : Heap) (d : SetDict) (k x : Unit) : Heap * SetDict :=
  let '(r, h, d) := dd_get h d k in
  (heap_set h r (set_add x (heap_get h r)), d).

(** [d[k] = set(l)] *)
Definition dd_assign (h : Heap) (d : SetDict) (k : Unit) (l : list Unit)
  : Heap * SetDict :=
  let '(r, h) := heap_alloc h (set_of_list l) in (h, dict_set d k r).

(** [try: d[k].remove(x) except KeyError: pass] *)
Definition dd_discard (h : Heap) (d : SetDict) (k x : Unit) : Heap * SetDict :=
  let '(r, h, d) := dd_get h d k in
  match set_remove x (heap_get h r) with
  | Some s => (heap_set h r s, d)
  | None => (h, d)
  end.

(** [len(d[k])] *)
Definition dd_len (h : Heap) (d : SetDict) (k : Unit) : nat * Heap * SetDict :=
  let '(r, h, d) := dd_get h d k in (length (heap_get h r), h, d).

(** The contents seen under a key without touching the dictionary. *)
Definition dict_view (h : Heap) (d : SetDict) (k : Unit) : list Unit :=
  match dict_find d k with
  | Some r => heap_get h r
  | None => []
  end.

(** ** The iterator ([kahn.py], class [KahnIterator]) *)

Record KahnIterator : Type := mkKahn {
  k_after : SetDict;
  lst : list Unit;
  stack : list Unit;
  k_before : SetDict;
  nodes : list Unit
}.

(** What an observer sees of a dictionary and of an iterator: the
    contents of the sets instead of their references. *)
Definition dict_items (h : Heap) (d : SetDict) : list (Unit * list Unit) :=
  map (fun kr => (fst kr, heap_get h (snd kr))) d.

Record Snapshot : Type := mkSnapshot {
  s_after : list (Unit * list Unit);
  s_lst : list Unit;
  s_stack : list Unit;
  s_before : list (Unit * list Unit);
  s_nodes : list Unit
}.

Definition snapshot (h : Heap) (self : KahnIterator) : Snapshot :=
  mkSnapshot (dict_items h (k_after self)) (lst self) (stack self)
    (dict_items h (k_before self)) (nodes self).

(** The state right after the assignments of [__init__]. *)
Definition KahnIterator_empty : KahnIterator := mkKahn [] [] [] [] [].

(** [copy]: every container is copied one level deep, so the two
    dictionaries of the copy point to the same set objects. *)
Definition copy (self : KahnIterator) : KahnIterator :=
  mkKahn (k_after self) (lst self) (stack self) (k_before self) (nodes self).

(** *** [add_node] *)

(** Lines 60-62: [for unit in node.after: ... self.before[unit].add(node)] *)
Definition add_node_link (self_nodes self_lst : list Unit) (node : Unit)
    (neighbours : list Unit) (h : Heap) (d : SetDict) : Heap * SetDict :=
  fold_left
    (fun (st : Heap * SetDict) unit =>
       let '(h, d) := st in
       if mem unit self_nodes && negb (mem node self_lst)
       then dd_add h d unit node else (h, d))
    neighbours (h, d).

(** Lines 80-83: the stack nodes whose pending set is not empty. *)
Definition nodes_with_new_dependencys (h : Heap) (aft : SetDict)
    (stk : list Unit) : list Unit * Heap * SetDict :=
  fold_left
    (fun (st : list Unit * Heap * SetDict) stack_node =>
       let '(acc, h, aft) := st in
       let '(n, h, aft) := dd_len h aft stack_node in
       if 0 <? n then (acc ++ [stack_node], h, aft) else (acc, h, aft))
    stk ([], h, aft).

(** Lines 84-85; the removed node is on the stack, so no [ValueError]. *)
Definition stack_remove_all (stk : list Unit) (l : list Unit) : list Unit :=
  fold_left
    (fun stk x => match remove_first x stk with Some s => s | None => stk end)
    l stk.

Definition add_node (h : Heap) (self : KahnIterator) (node : Unit)
  : Heap * KahnIterator :=
  if mem node (lst self) then (h, self)
  else
    let '(h, bef) :=
      add_node_link (nodes self) (lst self) node (after (obj node))
        h (k_before self) in
    let '(h, aft) :=
      add_node_link (nodes self) (lst self) node (before (obj node))
        h (k_after self) in
    let '(h, aft) :=
      if 0 <? length (after (obj node))
      then dd_assign h aft node
             (filter (fun x => mem x (nodes self) && negb (mem x (lst self)))
                (after (obj node)))
      else (h, aft) in
    let '(h, bef) :=
      if 0 <? length (before (obj node))
      then dd_assign h bef node
             (filter (fun x => mem x (nodes self)) (before (obj node)))
      else (h, bef) in
    let '(ready, h, aft) :=
      if length (after (obj node)) =? 0 then (true, h, aft)
      else
        let '(r, h, aft) := dd_get h aft node in
        (forallb (fun x => mem x (lst self)) (heap_get h r), h, aft) in
    let stk := if ready then stack self ++ [node] else stack self in
    let nds := set_add node (nodes self) in
    let '(deps, h, aft) := nodes_with_new_dependencys h aft stk in
    let stk := stack_remove_all stk deps in
    (h, mkKahn aft (lst self) stk bef nds).

(** [__init__] *)
Definition KahnIterator_init (h : Heap) (units : list Unit)
  : Heap * KahnIterator :=
  fold_left (fun (st : Heap * KahnIterator) unit =>
               let '(h, k) := st in add_node h k unit)
    units (h, KahnIterator_empty).

(** *** [remove_node] *)

(** Lines 99-106 and 108-115: forget [node] in the set kept for each
    neighbour and drop a set that became empty. *)
Definition remove_node_unlink (node : Unit) (neighbours : list Unit)
    (h : Heap) (d : SetDict) : Heap * SetDict :=
  fold_left
    (fun (st : Heap * SetDict) unit =>
       let '(h, d) := st in
       let '(h, d) := dd_discard h d unit node in
       let '(n, h, d) := dd_len h d unit in
       if n =? 0 then (h, dict_del_quiet d unit) else (h, d))
    neighbours (h, d).

(** Lines 133-140: enqueue every known, not yet produced node whose
    pending set is empty. *)
Definition remove_node_rescan (ord : SetOrder) (self_lst : list Unit)
    (nds : list Unit) (h : Heap) (aft : SetDict) (stk : list Unit)
  : Heap * SetDict * list Unit :=
  fold_left
    (fun (st : Heap * SetDict * list Unit) node =>
       let '(h, aft, stk) := st in
       if mem node self_lst then (h, aft, stk)
       else
         let '(n, h, aft) := dd_len h aft node in
         if n =? 0 then (h, aft, stk ++ [node]) else (h, aft, stk))
    (ord nds) (h, aft, stk).

Definition remove_node (ord : SetOrder) (h : Heap) (self : KahnIterator)
    (node : Unit) : option Exn * Heap * KahnIterator :=
  if mem node (lst self) then (Some PlainException, h, self)
  else
    let '(h, bef) :=
      remove_node_unlink node (after (obj node)) h (k_before self) in
    let '(h, aft) :=
      remove_node_unlink node (before (obj node)) h (k_after self) in
    let aft := dict_del_quiet aft node in
    let bef := dict_del_quiet bef node in
    let stk := match remove_first node (stack self) with
               | Some s => s
               | None => stack self
               end in
    match set_remove node (nodes self) with
    | None => (Some KeyError, h, mkKahn aft (lst self) stk bef (nodes self))
    | Some nds =>
        let '(h, aft, stk) :=
          remove_node_rescan ord (lst self) nds h aft stk in
        (None, h, mkKahn aft (lst self) stk bef nds)
    end.

(** *** [__next__] *)

Inductive NextResult : Type :=
  | Produced (node : Unit)
  | Raised (e : Exn).

(** Line 153: [len(self.after) > 0 and any(len(x) > 0 for x in
    self.after.values())] *)
Definition has_pending (h : Heap) (aft : SetDict) : bool :=
  (0 <? length aft)
  && existsb (fun kr => 0 <? length (heap_get h (snd kr))) aft.

(** Lines 155-161: the rescue pass on an empty stack. *)
Definition rescue (h : Heap) (aft : SetDict) (stk : list Unit)
  : SetDict * list Unit :=
  let stk :=
    fold_left
      (fun stk (kr : Unit * Ref) =>
         if length (heap_get h (snd kr)) =? 0 then stk ++ [fst kr] else stk)
      aft stk in
  let aft := fold_left (fun aft unit => dict_del_quiet aft unit) stk aft in
  (aft, stk).

(** Lines 172-180: release the nodes waiting for [node]. *)
Definition release (node : Unit) (others : list Unit) (h : Heap)
    (aft : SetDict) (stk : list Unit) : Heap * SetDict * list Unit :=
  fold_left
    (fun (st : Heap * SetDict * list Unit) other =>
       let '(h, aft, stk) := st in
       let '(h, aft) := dd_discard h aft other node in
       let '(n, h, aft) := dd_len h aft other in
       if n =? 0 then (h, dict_del_quiet aft other, stk ++ [other])
       else (h, aft, stk))
    others (h, aft, stk).

(** Line 184, for one [parent]: the group is exclusive and a produced
    unit already belongs to it. *)
Definition group_taken (self_lst : list Unit) (parent : Unit) : bool :=
  exclusive (obj parent)
  && existsb (fun unit => mem parent (belongs (obj unit))) self_lst.

(** Lines 183-196: some group of [node] is already taken. *)
Definition excluded (self_lst : list Unit) (node : Unit) : bool :=
  existsb (group_taken self_lst) (belongs (obj node)).

(** Lines 152-165: the dictionary and the stack [next] goes on with,
    and whether the rescue pass found the stack still empty (a cycle). *)
Definition refill_stack (h : Heap) (self : KahnIterator)
  : SetDict * list Unit * bool :=
  match stack self with
  | [] =>
      if has_pending h (k_after self) then
        let '(aft, stk) := rescue h (k_after self) (stack self) in
        (aft, stk, match stk with [] => true | _ => false end)
      else (k_after self, stack self, false)
  | _ => (k_after self, stack self, false)
  end.

Fixpoint next (fuel : nat) (ord : SetOrder) (h : Heap) (self : KahnIterator)
  : NextResult * Heap * KahnIterator :=
  match fuel with
  | 0 => (Raised RecursionError, h, self)
  | S fuel' =>
      let '(aft, stk, cycle) := refill_stack h self in
      if cycle
      then (Raised CycleException, h,
            mkKahn aft (lst self) stk (k_before self) (nodes self))
      else
        match stk with
        | [] => (Raised StopIteration, h,
                 mkKahn aft (lst self) stk (k_before self) (nodes self))
        | node :: stk =>
            let '(r, h, bef) := dd_get h (k_before self) node in
            let '(h, aft, stk) :=
              release node (ord (heap_get h r)) h aft stk in
            if excluded (lst self) node
            then next fuel' ord h
                   (mkKahn aft (lst self) stk bef (nodes self))
            else (Produced node, h,
                  mkKahn aft (lst self ++ [node]) stk bef (nodes self))
        end
  end.

(** *** Sequences of calls on one iterator *)

Inductive Call : Type :=
  | AddNode (node : Unit)
  | RemoveNode (ord : SetOrder) (node : Unit)
  | Next (fuel : nat) (ord : SetOrder).

Inductive Answer : Type :=
  | Added
  | Removed (raised : option Exn)
  | Got (r : NextResult).

Definition call (c : Call) (st : Heap * KahnIterator)
  : Answer * (Heap * KahnIterator) :=
  match c with
  | AddNode node => (Added, add_node (fst st) (snd st) node)
  | RemoveNode ord node =>
      let '(e, h, k) := remove_node ord (fst st) (snd st) node in
      (Removed e, (h, k))
  | Next fuel ord =>
      let '(r, h, k) := next fuel ord (fst st) (snd st) in (Got r, (h, k))
  end.

Fixpoint perform (l : list Call) (st : Heap * KahnIterator)
  : list Answer * (Heap * KahnIterator) :=
  match l with
  | [] => ([], st)
  | c :: l' =>
      let '(r, st) := call c st in
      let '(rs, st) := perform l' st in
      (r :: rs, st)
  end.

(** The states an iterator built by [KahnIterator(units)] can be in
    after any sequence of [add_node], [remove_node] and [next] calls,
    whatever they return or raise. *)
Definition reachable (st : Heap * KahnIterator) : Prop :=
  exists (h0 : Heap) (units : list Unit) (l : list Call),
    st = snd (perform l (KahnIterator_init h0 units)).

(** ** The engine ([config.py], class [Config]) *)

(** A value a unit hands back from its setup phase (a takeover). *)
Inductive Value : Type :=
  | CallableValue (id : nat)      (* callable(v) is True *)
  | OtherValue (id : nat).

Definition callable (v : Value) : bool :=
  match v with CallableValue _ => true | OtherValue _ => false end.

(** The final action [Config.func]: a function, or a [Command] with
    its [is_async] and [trigger_startup_signals] attributes. *)
Inductive FinalTarget : Type :=
  | FinalFunction (is_coroutine : bool)
  | FinalCommand (cmd_is_async trigger_startup_signals : bool).

Definition iscoroutinefunction (f : option FinalTarget) : bool :=
  match f with Some (FinalFunction true) => true | _ => false end.

(** A suspended generator created by calling a two-phase unit. *)
Inductive Instance : Type :=
  | Generator (unit : Unit).

(** The calls the engine makes into code it does not own, in order. *)
Inductive Event : Type :=
  | EvSetup (unit : Unit)           (* unit(self) / first next(instance) *)
  | EvTeardown (unit : Unit)        (* next(instance) in exit *)
  | EvTakeover (v : Value)          (* wrapper_func(config) *)
  | EvFinal (f : FinalTarget)       (* func(config) *)
  | EvSignal (signal : String.string).  (* trigger_signal(signal) *)

(** The behaviour of the code behind the units and final actions.
    Each answer depends on the calls made so far.  The code is handed
    the engine in Python; what it may do to it (select targets, set the
    final action) is not part of an answer, so a property is stated
    only where it does not rest on the engine being left alone. *)
Record Behaviour : Type := mkBehaviour {
  (* the setup phase: the value yielded or returned *)
  setup : Unit -> list Event -> Outcome (option Value);
  (* resuming a suspended instance: [Returns tt] when it yields again *)
  resume : Instance -> list Event -> Outcome unit;
  takeover : Value -> list Event -> Outcome unit;
  final : FinalTarget -> list Event -> Outcome unit
}.

Variable beh : Behaviour.

(** [ASYNC_UNIT] of [units/base.py]. *)
Variable ASYNC_UNIT : Unit.

(** The fields of [Config] the lifecycle uses ([variables] and
    [signals] are left out), and the log of outgoing calls. *)
Record Config : Type := mkConfig {
  c_func : option FinalTarget;
  targets : list Unit;
  blacklisted_targets : list Unit;
  unit_iterator : KahnIterator;
  ran_units : list Unit;
  active_units : Dict (option Instance);
  entry_point : option Unit;
  calls : list Event
}.

Definition set_func (self : Config) (f : option FinalTarget) : Config :=
  mkConfig f (targets self) (blacklisted_targets self) (unit_iterator self)
    (ran_units self) (active_units self) (entry_point self) (calls self).

Definition set_targets (self : Config) (l : list Unit) : Config :=
  mkConfig (c_func self) l (blacklisted_targets self) (unit_iterator self)
    (ran_units self) (active_units self) (entry_point self) (calls self).

Definition set_blacklisted (self : Config) (l : list Unit) : Config :=
  mkConfig (c_func self) (targets self) l (unit_iterator self)
    (ran_units self) (active_units self) (entry_point self) (calls self).

Definition set_iterator (self : Config) (k : KahnIterator) : Config :=
  mkConfig (c_func self) (targets self) (blacklisted_targets self) k
    (ran_units self) (active_units self) (entry_point self) (calls self).

Definition set_ran (self : Config) (l : list Unit) : Config :=
  mkConfig (c_func self) (targets self) (blacklisted_targets self)
    (unit_iterator self) l (active_units self) (entry_point self)
    (calls self).

Definition set_active (self : Config) (d : Dict (option Instance))
  : Config :=
  mkConfig (c_func self) (targets self) (blacklisted_targets self)
    (unit_iterator self) (ran_units self) d (entry_point self) (calls self).

Definition set_entry_point (self : Config) (e : option Unit) : Config :=
  mkConfig (c_func self) (targets self) (blacklisted_targets self)
    (unit_iterator self) (ran_units self) (active_units self) e
    (calls self).

Definition record_call (self : Config) (e : Event) : Config :=
  mkConfig (c_func self) (targets self) (blacklisted_targets self)
    (unit_iterator self) (ran_units self) (active_units self)
    (entry_point self) (calls self ++ [e]).

(** A [for] loop whose body may raise: the first exception ends it. *)
Fixpoint for_each {A S : Type} (body : S -> A -> option Exn * S)
    (l : list A) (s : S) : option Exn * S :=
  match l with
  | [] => (None, s)
  | x :: l' =>
      match body s x with
      | (Some e, s') => (Some e, s')
      | (None, s') => for_each body l' s'
      end
  end.

(** [blacklist_target] *)
Definition blacklist_target (self : Config) (target : Unit) : Config :=
  let l := blacklisted_targets self ++ [target] in
  set_blacklisted self
    (fold_left (fun l unit => l ++ [unit]) (contains (obj target)) l).

(** Lines 373-378 of [add_target], for one [container]. *)
Definition exclude_others (ord : SetOrder) (target container : Unit)
    (st : Heap * Config) : option Exn * (Heap * Config) :=
  if exclusive (obj container) then
    for_each
      (fun (st : Heap * Config) other_unit =>
         let '(h, self) := st in
         if eqb_unit other_unit target then (None, (h, self))
         else
           match remove_node ord h (unit_iterator self) other_unit with
           | (Some e, h, k) => (Some e, (h, set_iterator self k))
           | (None, h, k) =>
               (None, (h, blacklist_target (set_iterator self k) other_unit))
           end)
      (contains (obj container)) st
  else (None, st).

(** [add_target] *)
Fixpoint add_target (fuel : nat) (ord : SetOrder) (h : Heap)
    (self : Config) (target : Unit) (force : bool)
  : option Exn * (Heap * Config) :=
  match fuel with
  | 0 => (Some RecursionError, (h, self))
  | S fuel' =>
      if mem target (targets self) then (None, (h, self))
      else if mem target (blacklisted_targets self) then (None, (h, self))
      else if force
              || existsb (fun container => mem container (targets self))
                   (belongs (obj target))
      then
        let self := set_targets self (targets self ++ [target]) in
        let '(h, k) := add_node h (unit_iterator self) target in
        let self := set_iterator self k in
        match
          for_each
            (fun (st : Heap * Config) dependency =>
               add_target fuel' ord (fst st) (snd st) dependency force)
            (depends (obj target) ++ contains (obj target)) (h, self)
        with
        | (Some e, st) => (Some e, st)
        | (None, st) =>
            for_each (fun st container => exclude_others ord target container st)
              (belongs (obj target)) st
        end
      else (None, (h, self))
  end.

(** [add_targets], also the loop of [__init__]. *)
Definition add_targets (fuel : nat) (ord : SetOrder) (l : list Unit)
    (st : Heap * Config) : option Exn * (Heap * Config) :=
  for_each (fun (st : Heap * Config) target =>
              add_target fuel ord (fst st) (snd st) target true)
    l st.

(** [Config.__init__(func=func, targets=targets)] *)
Definition Config_init (fuel : nat) (ord : SetOrder) (h : Heap)
    (func : option FinalTarget) (targets : option (list Unit))
  : option Exn * (Heap * Config) :=
  let self := mkConfig func [] [] KahnIterator_empty [] [] None [] in
  match targets with
  | Some l => add_targets fuel ord l (h, self)
  | None => (None, (h, self))
  end.

(** [subconfig]; [self.unit_iterator.lst[-1]] needs a produced unit. *)
Definition subconfig (self : Config) : Outcome Config :=
  match rev (lst (unit_iterator self)) with
  | [] => Raises IndexError
  | last_unit :: _ =>
      Returns (mkConfig (c_func self) (targets self)
                 (blacklisted_targets self) (copy (unit_iterator self))
                 (ran_units self) (active_units self) (Some last_unit)
                 (calls self))
  end.

(** *** [init] *)

Inductive InitResult : Type :=
  | InitReturn (v : option Value)
  | InitRaise (e : Exn)
  | InitUnfinished.     (* the step bound of the model ran out *)

(** Lines 174-192: the setup phase of one unit. *)
Definition setup_unit (self : Config) (unit : Unit)
  : Outcome (option Instance * option Value) * Config :=
  if mem unit (blacklisted_targets self) then (Returns (None, None), self)
  else if is_empty (obj unit) then (Returns (None, None), self)
  else
    let instance :=
      if is_generator (obj unit) then Some (Generator unit) else None in
    let out := setup beh unit (calls self) in
    let self := record_call self (EvSetup unit) in
    match out with
    | Returns result => (Returns (instance, result), self)
    | Raises e => (Raises e, self)
    end.

Fixpoint init (steps limit : nat) (ord : SetOrder) (h : Heap)
    (self : Config) : InitResult * (Heap * Config) :=
  match steps with
  | 0 => (InitUnfinished, (h, self))
  | S steps' =>
      match next limit ord h (unit_iterator self) with
      | (Raised StopIteration, h, k) =>
          (InitReturn None, (h, set_iterator self k))
      | (Raised e, h, k) => (InitRaise e, (h, set_iterator self k))
      | (Produced unit, h, k) =>
          let self := set_iterator self k in
          match setup_unit self unit with
          | (Raises StopInitException, self) =>
              (InitReturn None, (h, set_func self None))
          | (Raises e, self) => (InitRaise e, (h, self))
          | (Returns (instance, result), self) =>
              let self :=
                set_active self (dict_set (active_units self) unit instance) in
              let self := set_ran self (ran_units self ++ [unit]) in
              match result with
              | Some v => (InitReturn (Some v), (h, self))
              | None => init steps' limit ord h self
              end
          end
      end
  end.

(** *** [exit] *)

(** The body of the [while True] loop; [pending] is what is left of
    [ran_units], most recently run first. *)
Fixpoint exit_loop (pending : list Unit) (self : Config)
  : option Exn * Config :=
  match pending with
  | [] => (None, self)
  | unit :: rest =>
      let self := set_ran self (rev rest) in
      match dict_find (active_units self) unit with
      | None => (Some KeyError, self)
      | Some instance =>
          if match entry_point self with
             | Some e => eqb_unit unit e
             | None => false
             end
          then (None, self)
          else
            let '(raised, self) :=
              match instance with
              | Some inst =>
                  if is_empty (obj unit) then (None, self)
                  else
                    let out := resume beh inst (calls self) in
                    let self := record_call self (EvTeardown unit) in
                    match out with
                    | Returns _ => (None, self)
                    | Raises StopIteration => (None, self)
                    | Raises e => (Some e, self)
                    end
              | None => (None, self)
              end in
            match raised with
            | Some e => (Some e, self)
            | None =>
                match dict_del (active_units self) unit with
                | None => (Some KeyError, self)
                | Some d => exit_loop rest (set_active self d)
                end
            end
      end
  end.

Definition exit (self : Config) : option Exn * Config :=
  exit_loop (rev (ran_units self)) self.

(** *** [run] *)

(** [try: body finally: self.exit()] *)
Definition finally_exit (raised : option Exn) (self : Config)
  : option Exn * Config :=
  match exit self with
  | (Some e, self) => (Some e, self)
  | (None, self) => (raised, self)
  end.

Definition outcome_exn {A} (o : Outcome A) : option Exn :=
  match o with Returns _ => None | Raises e => Some e end.

(** [run(func, config, targets)] with [config] given, up to the call
    of [config.init()]: the targets and the function are taken over and
    a coroutine function selects [ASYNC_UNIT]. *)
Definition run_select (fuel : nat) (ord : SetOrder) (h : Heap)
    (func : option FinalTarget) (config : Config)
    (targets : option (list Unit)) : option Exn * (Heap * Config) :=
  match
    match targets with
    | Some l => add_targets fuel ord l (h, config)
    | None => (None, (h, config))
    end
  with
  | (Some e, st) => (Some e, st)
  | (None, (h, config)) =>
      let config :=
        match func with
        | Some f => set_func config (Some f)
        | None => config
        end in
      if iscoroutinefunction (c_func config)
      then add_target fuel ord h config ASYNC_UNIT true
      else (None, (h, config))
  end.

(** [run] after [wrapper_func = config.init()]. *)
Definition run_finish (wrapper_func : option Value) (config : Config)
  : option Exn * Config :=
  match wrapper_func, c_func config with
  | Some (CallableValue id), _ =>
      let v := CallableValue id in
      let out := takeover beh v (calls config) in
      let config := record_call config (EvTakeover v) in
      finally_exit (outcome_exn out) config
  | _, Some f =>
      let signals :=
        match f with
        | FinalCommand _ true => true
        | _ => false
        end in
      let config :=
        if signals then record_call config (EvSignal "ready") else config in
      if iscoroutinefunction (c_func config)
      then (Some AssertionError, config)
      else
        let out := final beh f (calls config) in
        let config := record_call config (EvFinal f) in
        let config :=
          if signals then record_call config (EvSignal "stopping")
          else config in
        finally_exit (outcome_exn out) config
  | _, None => exit config
  end.

Definition run (fuel steps limit : nat) (ord : SetOrder) (h : Heap)
    (func : option FinalTarget) (config : Config)
    (targets : option (list Unit)) : option Exn * (Heap * Config) :=
  match run_select fuel ord h func config targets with
  | (Some e, st) => (Some e, st)
  | (None, (h, config)) =>
      match init steps limit ord h config with
      | (InitRaise e, st) => (Some e, st)
      | (InitUnfinished, st) => (Some RecursionError, st)
      | (InitReturn wrapper_func, (h, config)) =>
          let '(e, config) := run_finish wrapper_func config in
          (e, (h, config))
      end
  end.

(** The units of [l] whose suspended instance [exit] resumes. *)
Definition torn_down (active : Dict (option Instance)) (unit : Unit) : bool :=
  match dict_find active unit with
  | Some (Some _) => negb (is_empty (obj unit))
  | _ => false
  end.

(** Some setup call made between the engine states [self] and [self']
    raised [StopInitException]: the call of [unit] that followed the
    calls [earlier]. *)
Definition stop_init_raised (self self' : Config) (unit : Unit) : Prop :=
  exists (earlier : list Unit) (later : list Event),
    calls self' = calls self ++ map EvSetup earlier ++ EvSetup unit :: later
    /\ setup beh unit (calls self ++ map EvSetup earlier)
       = Raises StopInitException.

End Model.

Arguments mkSetOrder {Unit} iter_order iter_order_perm.
Arguments KahnIterator_empty {Unit}.

(** Every loop over a set in insertion order, and in the opposite order. *)
Definition insertion_order {Unit} : @SetOrder Unit :=
  mkSetOrder (fun l => l) (fun l => Permutation_refl l).

Definition reversed_order {Unit} : @SetOrder Unit :=
  mkSetOrder (fun l => rev l) (fun l => Permutation_sym (Permutation_rev l)).

(** ** The hypotheses of the ordering claims *)

(** Every [after] edge is mirrored by a [before] edge and conversely,
    as [ConfigUnit.add_unit] arranges at registration. *)
Definition relation_consistent {Unit} (obj : Unit -> ConfigUnit Unit) : Prop :=
  forall u v, In v (after (obj u)) <-> In u (before (obj v)).

(** No chain of [after] edges comes back to its start: the units can be
    ranked so that a unit ranks above everything it runs after. *)
Definition acyclic {Unit} (obj : Unit -> ConfigUnit Unit) : Prop :=
  exists rank : Unit -> nat,
    forall u v, In v (after (obj u)) -> rank v < rank u.

(** ** Concrete unit sets *)

Module Examples.

Inductive U : Type := a | b | c | d | G | x | y | z.

Definition U_eq_dec : forall u v : U, {u = v} + {u <> v}.
Proof. decide equality. Defined.

(** The [Node] class of [test/test_kahn.py]. *)
Definition Node (before after belongs : list U) : ConfigUnit U :=
  mkConfigUnit String.EmptyString String.EmptyString [] belongs [] before after [] false NoFunc false false.

(** An exclusive group and a two-phase (generator) unit. *)
Definition Group (contains : list U) : ConfigUnit U :=
  mkConfigUnit String.EmptyString String.EmptyString contains [] [] [] [] [] true NoFunc false false.

Definition TwoPhase (depends before after belongs : list U) : ConfigUnit U :=
  mkConfigUnit String.EmptyString String.EmptyString [] belongs depends before after [] false GeneratorFunc
    false true.

(** [test_kahn_iterator_add_node]: b before a, c before a, c after b,
    d before c, each relation written on one side only. *)
Definition declared (u : U) : ConfigUnit U :=
  match u with
  | a => Node [] [] []
  | b => Node [a] [] []
  | c => Node [a] [b] []
  | d => Node [c] [] []
  | _ => Node [] [] []
  end.

(** The same relations with both sides filled in. *)
Definition mirrored (u : U) : ConfigUnit U :=
  match u with
  | a => Node [] [b; c] []
  | b => Node [a; c] [] []
  | c => Node [a] [b; d] []
  | d => Node [c] [] []
  | _ => Node [] [] []
  end.

(** a after b, b after c, c after a, both sides filled in. *)
Definition cycle3 (u : U) : ConfigUnit U :=
  match u with
  | a => Node [c] [b] []
  | b => Node [a] [c] []
  | c => Node [b] [a] []
  | _ => Node [] [] []
  end.

(** An exclusive group G with members x and y, and z after y. *)
Definition skipped_predecessor (u : U) : ConfigUnit U :=
  match u with
  | G => Group [x; y]
  | x => Node [] [] [G]
  | y => Node [z] [] [G]
  | z => Node [] [y] []
  | _ => Node [] [] []
  end.

(** An exclusive group G with members x and y, where x runs after y. *)
Definition rivals (u : U) : ConfigUnit U :=
  match u with
  | G => Group [x; y]
  | x => Node [] [y] [G]
  | y => Node [x] [] [G]
  | _ => Node [] [] []
  end.

(** An exclusive group G with members x and y and no other relation. *)
Definition plain_group (u : U) : ConfigUnit U :=
  match u with
  | G => Group [x; y]
  | x => Node [] [] [G]
  | y => Node [] [] [G]
  | _ => Node [] [] []
  end.

(** A two-phase unit a next to two units that wait for each other. *)
Definition stray_cycle (u : U) : ConfigUnit U :=
  match u with
  | a => TwoPhase [] [] [] []
  | c => TwoPhase [] [d] [d] []
  | d => TwoPhase [] [c] [c] []
  | _ => Node [] [] []
  end.

(** Two-phase units a and b, b after a. *)
Definition pair (u : U) : ConfigUnit U :=
  match u with
  | a => TwoPhase [] [b] [] []
  | b => TwoPhase [] [] [a] []
  | _ => Node [] [] []
  end.

(** d before a, where d shows up only after a has been produced. *)
Definition late (u : U) : ConfigUnit U :=
  match u with
  | a => Node [] [d] []
  | d => Node [a] [] []
  | _ => Node [] [] []
  end.

(** Units without any relation. *)
Definition unrelated (u : U) : ConfigUnit U := Node [] [] [].

(** Every setup yields [None], every teardown completes. *)
Definition quiet : @Behaviour U :=
  mkBehaviour (fun _ _ => Returns None) (fun _ _ => Raises StopIteration)
    (fun _ _ => Returns tt) (fun _ _ => Returns tt).

(** As [quiet], but the teardown of [b] fails. *)
Definition failing_teardown : @Behaviour U :=
  mkBehaviour (fun _ _ => Returns None)
    (fun i _ => match i with
                | Generator b => Raises (UnitException 1)
                | _ => Raises StopIteration
                end)
    (fun _ _ => Returns tt) (fun _ _ => Returns tt).

(** As [quiet], but the setup of [b] raises [StopInitException]. *)
Definition stopping_setup : @Behaviour U :=
  mkBehaviour (fun u _ => match u with
                          | b => Raises StopInitException
                          | _ => Returns None
                          end)
    (fun _ _ => Raises StopIteration)
    (fun _ _ => Returns tt) (fun _ _ => Returns tt).

(** x is built by [ConfigUnit.__init__] from a coroutine function, with
    G in the role of [ASYNC_UNIT]; G lists x in its [before] relation. *)
Definition coroutine_unit : ConfigUnit U :=
  ConfigUnit_init G String.EmptyString String.EmptyString [] [] [] [] [] [] false CoroutineFunc.

Definition with_coroutine (u : U) : ConfigUnit U :=
  match u with
  | x => coroutine_unit
  | G => mkConfigUnit String.EmptyString String.EmptyString [] [] [] [x] [] [] true NoFunc false false
  | _ => Node [] [] []
  end.

(** x is built from a coroutine function and belongs to the group a;
    G is in the role of [ASYNC_UNIT].  The lists are as the listeners
    of [add_unit] find them when x is registered: its relations are not
    yet written on the other side. *)
Definition member_coroutine : ConfigUnit U :=
  ConfigUnit_init G String.EmptyString String.EmptyString [] [a] [] [] [] []
    false CoroutineFunc.

Definition late_coroutine (u : U) : ConfigUnit U :=
  match u with
  | x => member_coroutine
  | a => mkConfigUnit String.EmptyString String.EmptyString [] [] [] [] [] []
           false NoFunc false false
  | G => mkConfigUnit String.EmptyString String.EmptyString [] [] [] [] [] []
           true NoFunc false false
  | _ => Node [] [] []
  end.

(** As [quiet], but calling x hands back a coroutine object, which is
    not callable. *)
Definition coroutine_call : @Behaviour U :=
  mkBehaviour (fun u _ => match u with
                          | x => Returns (Some (OtherValue 0))
                          | _ => Returns None
                          end)
    (fun _ _ => Raises StopIteration)
    (fun _ _ => Returns tt) (fun _ _ => Returns tt).

(** The engine of [pair] after a complete [init] pass. *)
Definition pair_built : @Heap U * @KahnIterator U :=
  KahnIterator_init U_eq_dec pair [] [a; b].

Definition pair_ready (beh : @Behaviour U) : @Config U :=
  snd (snd (init U_eq_dec pair beh 5 5 insertion_order (fst pair_built)
              (mkConfig None [a; b] [] (snd pair_built) [] [] None []))).

End Examples.


(** ** Vocabulary of the statements *)

(** [x] is at exactly one position of [l]. *)
Definition occurs_once {A} (x : A) (l : list A) : Prop :=
  exists l1 l2, l = l1 ++ x :: l2 /\ ~ In x l1 /\ ~ In x l2.

Section Vocabulary.
Context {Unit : Type}.
Variable Unit_eq_dec : forall x y : Unit, {x = y} + {x <> y}.
Variable obj : Unit -> ConfigUnit Unit.
Variable beh : @Behaviour Unit.

Local Abbreviation Heap := (@Heap Unit).
Local Abbreviation SetDict := (@SetDict Unit).
Local Abbreviation Config := (@Config Unit).
Local Abbreviation KahnIterator := (@KahnIterator Unit).
Local Abbreviation mem := (mem Unit_eq_dec).
Local Abbreviation dict_find := (dict_find Unit_eq_dec).
Local Abbreviation dict_view := (dict_view Unit_eq_dec).
Local Abbreviation excluded := (excluded Unit_eq_dec obj).

(** The produced units that belong to the group [G]. *)
Definition produced_members (G : Unit) (k : KahnIterator) : list Unit :=
  filter (fun u => mem G (belongs (obj u))) (lst k).

(** Every unit of the history has an entry in [active_units]. *)
Definition history_active (self : Config) : Prop :=
  forall u, In u (ran_units self) -> dict_find (active_units self) u <> None.

(** Resuming the suspended instances of the units of [l] never raises
    anything but [StopIteration]. *)
Definition teardown_quiet (self : Config) (l : list Unit) : Prop :=
  forall u i log e,
    In u l -> dict_find (active_units self) u = Some (Some i) ->
    resume beh i log = Raises e -> e = StopIteration.

(** How the history splits for [exit]: the units [post] come after the
    entry point, which is the last unit of [pre] if the history holds
    it. *)
Definition splits_at_entry_point (self : Config)
    (pre post : list Unit) : Prop :=
  ran_units self = pre ++ post
  /\ (forall u, In u post -> entry_point self <> Some u)
  /\ (pre = []
      \/ exists pre' e, pre = pre' ++ [e] /\ entry_point self = Some e).

(** None of the setup calls [called], made one after the other from
    the log [log] on, raises [StopInitException]. *)
Definition no_stop_init (log : list Event) (called : list Unit) : Prop :=
  forall l1 u l2,
    called = l1 ++ u :: l2 ->
    setup beh u (log ++ map EvSetup l1) <> Raises StopInitException.

(** The blacklist only grows and the known nodes only shrink. *)
Definition narrows (st st' : Heap * Config) : Prop :=
  incl (blacklisted_targets (snd st)) (blacklisted_targets (snd st'))
  /\ incl (nodes (unit_iterator (snd st')))
       (nodes (unit_iterator (snd st))).

(** [y] is out: blacklisted with all it contains, and unknown to the
    iterator. *)
Definition ruled_out (y : Unit) (st : Heap * Config) : Prop :=
  In y (blacklisted_targets (snd st))
  /\ incl (contains (obj y)) (blacklisted_targets (snd st))
  /\ ~ In y (nodes (unit_iterator (snd st))).

(** The selection and the blacklist only grow. *)
Definition grows (st st' : Heap * Config) : Prop :=
  incl (targets (snd st)) (targets (snd st'))
  /\ incl (blacklisted_targets (snd st)) (blacklisted_targets (snd st')).

(** The keys and the references of a dictionary. *)
Definition keys (d : SetDict) : list Unit := map fst d.
Definition refs (d : SetDict) : list Ref := map snd d.

(** A dictionary whose keys are distinct and whose references are
    distinct and allocated. *)
Definition dict_ok (h : Heap) (d : SetDict) : Prop :=
  NoDup (keys d) /\ NoDup (refs d)
  /\ forall r, In r (refs d) -> r < length h.

(** Two dictionaries that share no set object. *)
Definition apart (d1 d2 : SetDict) : Prop :=
  forall r, In r (refs d1) -> ~ In r (refs d2).

(** An operation on the dictionary [d] took the heap from [h] to [h']
    and [d] to [d']: it allocates, and writes only to the sets of [d]
    and to the ones it allocated. *)
Definition touches (h : Heap) (d : SetDict) (h' : Heap) (d' : SetDict) : Prop :=
  length h <= length h'
  /\ (forall r, In r (refs d') -> In r (refs d) \/ length h <= r)
  /\ (forall r, r < length h -> ~ In r (refs d) ->
                heap_get h' r = heap_get h r)
  /\ (dict_ok h d -> dict_ok h' d').

(** The two dictionaries of an iterator are well formed and share no
    set object. *)
Definition pair_ok (h : Heap) (aft bef : SetDict) : Prop :=
  dict_ok h aft /\ dict_ok h bef /\ apart aft bef.

(** What the iterator keeps true between calls.  Every known node
    has in its pending set each known unit of its [after] list that is
    neither produced nor ruled out by an exclusive group; and every
    node on the stack has an empty pending set. *)
Definition iterator_ok (st : Heap * KahnIterator) : Prop :=
  pair_ok (fst st) (k_after (snd st)) (k_before (snd st))
  /\ (forall o u,
         In o (nodes (snd st)) -> In u (after (obj o)) ->
         In u (nodes (snd st)) ->
         ~ In u (lst (snd st)) -> excluded (lst (snd st)) u = false ->
         In u (dict_view (fst st) (k_after (snd st)) o))
  /\ (forall s, In s (stack (snd st)) ->
                dict_view (fst st) (k_after (snd st)) s = []).

End Vocabulary.

(** ** More of the engine ([config.py]) *)

Section AsyncEngine.
Context {Unit : Type}.
Variable Unit_eq_dec : forall x y : Unit, {x = y} + {x <> y}.
Variable obj : Unit -> ConfigUnit Unit.
Variable beh : @Behaviour Unit.

(** Lines 235-262 of [Config.async_init]: the setup phase of one unit.
    Whether the engine awaits the call ([unit.is_async]) or makes it
    directly, it is one call into the unit, answered by [setup]. *)
Definition async_setup_unit (self : @Config Unit) (unit : Unit)
  : Outcome (option (@Instance Unit) * option Value) * @Config Unit :=
  if is_empty (obj unit) then (Returns (None, None), self)
  else if mem Unit_eq_dec unit (blacklisted_targets self)
  then (Returns (None, None), self)
  else
    let instance :=
      if is_generator (obj unit) then Some (Generator unit) else None in
    let out := setup beh unit (calls self) in
    let self := record_call self (EvSetup unit) in
    match out with
    | Returns result => (Returns (instance, result), self)
    | Raises e => (Raises e, self)
    end.

(** [Config.async_init]; [steps] bounds the passes of the loop. *)
Fixpoint async_init (steps limit : nat) (ord : @SetOrder Unit)
    (h : @Heap Unit) (self : @Config Unit)
  : InitResult * (@Heap Unit * @Config Unit) :=
  match steps with
  | 0 => (InitUnfinished, (h, self))
  | S steps' =>
      match next Unit_eq_dec obj limit ord h (unit_iterator self) with
      | (Raised StopIteration, h, k) =>
          (InitReturn None, (h, set_iterator self k))
      | (Raised e, h, k) => (InitRaise e, (h, set_iterator self k))
      | (Produced unit, h, k) =>
          let self := set_iterator self k in
          if mem Unit_eq_dec unit (ran_units self)
          then async_init steps' limit ord h self
          else
            match async_setup_unit self unit with
            | (Raises StopInitException, self) =>
                (InitReturn None, (h, set_func self None))
            | (Raises e, self) => (InitRaise e, (h, self))
            | (Returns (instance, result), self) =>
                let self :=
                  set_active self
                    (dict_set Unit_eq_dec (active_units self) unit instance) in
                let self := set_ran self (ran_units self ++ [unit]) in
                match result with
                | Some v => (InitReturn (Some v), (h, self))
                | None => async_init steps' limit ord h self
                end
            end
      end
  end.

End AsyncEngine.

Section SetFunc.
Context {Unit : Type}.
Variable Unit_eq_dec : forall x y : Unit, {x = y} + {x <> y}.
Variable obj : Unit -> ConfigUnit Unit.
Variable ASYNC_UNIT : Unit.

(** Line 401: [isinstance(func, Command) and func.is_async] *)
Definition is_async_command (func : option FinalTarget) : bool :=
  match func with
  | Some (FinalCommand true _) => true
  | _ => false
  end.

(** [Config.set_func]: the function can be set when none is set, and
    one that runs in an event loop selects [ASYNC_UNIT]. *)
Definition Config_set_func (fuel : nat) (ord : @SetOrder Unit)
    (h : @Heap Unit) (self : @Config Unit) (func : option FinalTarget)
  : option Exn * (@Heap Unit * @Config Unit) :=
  match c_func self with
  | Some _ => (Some PlainException, (h, self))
  | None =>
      let self := set_func self func in
      if iscoroutinefunction func || is_async_command func
      then add_target Unit_eq_dec obj fuel ord h self ASYNC_UNIT true
      else (None, (h, self))
  end.

End SetFunc.

(** ** Registering units ([config.py], [ConfigUnit.add_unit])

    Registration appends to the relation lists of units that already
    exist, so the object store is part of the state here.  Every unit
    owns its lists ([_param_to_list] copies what the constructor is
    given), so appending to a list of one unit changes no other
    attribute. *)

Section Registration.
Context {Unit : Type}.
Variable Unit_eq_dec : forall x y : Unit, {x = y} + {x <> y}.

Definition Store : Type := Unit -> ConfigUnit Unit.

Definition with_contains (c : ConfigUnit Unit) (l : list Unit)
  : ConfigUnit Unit :=
  mkConfigUnit (name c) (description c) l (belongs c) (depends c)
    (before c) (after c) (conflicts c) (exclusive c) (func c) (is_async c)
    (is_generator c).

Definition with_before (c : ConfigUnit Unit) (l : list Unit)
  : ConfigUnit Unit :=
  mkConfigUnit (name c) (description c) (contains c) (belongs c) (depends c)
    l (after c) (conflicts c) (exclusive c) (func c) (is_async c)
    (is_generator c).

Definition with_after (c : ConfigUnit Unit) (l : list Unit)
  : ConfigUnit Unit :=
  mkConfigUnit (name c) (description c) (contains c) (belongs c) (depends c)
    (before c) l (conflicts c) (exclusive c) (func c) (is_async c)
    (is_generator c).

(** The store with the object behind [u] replaced. *)
Definition store_set (s : Store) (u : Unit) (c : ConfigUnit Unit) : Store :=
  fun v => if eqb_unit Unit_eq_dec v u then c else s v.

(** [u.contains.append(x)], [u.before.append(x)], [u.after.append(x)] *)
Definition contains_append (s : Store) (u x : Unit) : Store :=
  store_set s u (with_contains (s u) (contains (s u) ++ [x])).

Definition before_append (s : Store) (u x : Unit) : Store :=
  store_set s u (with_before (s u) (before (s u) ++ [x])).

Definition after_append (s : Store) (u x : Unit) : Store :=
  store_set s u (with_after (s u) (after (s u) ++ [x])).

(** A loop that may go on for ever: [Unfinished] when the bound on the
    number of passes ran out. *)
Inductive Loop (St : Type) : Type :=
  | Finished (s : St)
  | Unfinished.
Arguments Finished {St} s.
Arguments Unfinished {St}.

(** [for x in items: body] where the body may append to the list it
    iterates: Python's list iterator keeps an index and reads the list
    as it is at each pass. *)
Fixpoint for_live {St A : Type} (fuel : nat) (items : St -> list A)
    (body : St -> A -> Loop St) (i : nat) (s : St) : Loop St :=
  match fuel with
  | 0 => Unfinished
  | S fuel' =>
      match nth_error (items s) i with
      | None => Finished s
      | Some x =>
          match body s x with
          | Finished s' => for_live fuel' items body (S i) s'
          | Unfinished => Unfinished
          end
      end
  end.

(** Lines 577-578: [for before in container.before:
    unit.before.append(before)]; the two lists are the same object when
    the unit lists itself in [belongs]. *)
Definition inherit_before (fuel : nat) (unit container : Unit) (s : Store)
  : Loop Store :=
  for_live fuel (fun s => before (s container))
    (fun s b => Finished (before_append s unit b)) 0 s.

(** Lines 579-580 *)
Definition inherit_after (fuel : nat) (unit container : Unit) (s : Store)
  : Loop Store :=
  for_live fuel (fun s => after (s container))
    (fun s a => Finished (after_append s unit a)) 0 s.

(** Lines 575-580: one pass of the loop over [unit.belongs]. *)
Definition join_container (fuel : nat) (unit : Unit) (acc : Loop Store)
    (container : Unit) : Loop Store :=
  match acc with
  | Unfinished => Unfinished
  | Finished s =>
      let s :=
        if mem Unit_eq_dec unit (contains (s container)) then s
        else contains_append s container unit in
      match inherit_before fuel unit container s with
      | Unfinished => Unfinished
      | Finished s => inherit_after fuel unit container s
      end
  end.

(** Lines 574-580.  Nothing writes to a [belongs] list, so the outer
    loop goes through the list as it is. *)
Definition join_containers (fuel : nat) (unit : Unit) (s : Store)
  : Loop Store :=
  fold_left (join_container fuel unit) (belongs (s unit)) (Finished s).

(** Lines 586-589, for one [contained]. *)
Definition mirror_before_contained (unit : Unit) (s : Store)
    (contained : Unit) : Store :=
  let s :=
    if negb (eqb_unit Unit_eq_dec unit contained)
       && negb (mem Unit_eq_dec unit (after (s contained)))
    then after_append s contained unit else s in
  if negb (eqb_unit Unit_eq_dec unit contained)
     && negb (mem Unit_eq_dec contained (before (s unit)))
  then before_append s unit contained else s.

(** Lines 582-589.  The outer loop iterates [unit.before] while the
    inner one appends to it; nothing writes to a [contains] list here,
    so the inner loop goes through the list as it is. *)
Definition mirror_before (fuel : nat) (unit : Unit) (s : Store)
  : Loop Store :=
  for_live fuel (fun s => before (s unit))
    (fun s other =>
       let s :=
         if mem Unit_eq_dec unit (after (s other)) then s
         else after_append s other unit in
       Finished
         (fold_left (mirror_before_contained unit) (contains (s other)) s))
    0 s.

(** Lines 595-598, for one [contained]. *)
Definition mirror_after_contained (unit : Unit) (s : Store)
    (contained : Unit) : Store :=
  let s :=
    if negb (eqb_unit Unit_eq_dec unit contained)
       && negb (mem Unit_eq_dec unit (before (s contained)))
    then before_append s contained unit else s in
  if negb (eqb_unit Unit_eq_dec unit contained)
     && negb (mem Unit_eq_dec contained (after (s unit)))
  then after_append s unit contained else s.

(** Lines 591-598 *)
Definition mirror_after (fuel : nat) (unit : Unit) (s : Store)
  : Loop Store :=
  for_live fuel (fun s => after (s unit))
    (fun s other =>
       let s :=
         if mem Unit_eq_dec unit (before (s other)) then s
         else before_append s other unit in
       Finished
         (fold_left (mirror_after_contained unit) (contains (s other)) s))
    0 s.

(** Lines 574-598: the three loops one after the other. *)
Definition mirror_relations (fuel : nat) (unit : Unit) (s : Store)
  : Loop Store :=
  match join_containers fuel unit s with
  | Unfinished => Unfinished
  | Finished s =>
      match mirror_before fuel unit s with
      | Unfinished => Unfinished
      | Finished s => mirror_after fuel unit s
      end
  end.

(** The class attributes [ConfigUnit.units] and [ConfigUnit.listener];
    the listeners are the [Config] objects ([Config.__init__] adds
    each one). *)
Record Registry : Type := mkRegistry {
  reg_units : list (String.string * Unit);
  reg_listener : list (@Config Unit)
}.

(** [add_listener] *)
Definition add_listener (reg : Registry) (listener : @Config Unit)
  : Registry :=
  mkRegistry (reg_units reg) (reg_listener reg ++ [listener]).

(** Lines 571-572: [for listener in cls.listener:
    listener.add_target(unit, force=False)], with the units as they are
    in the store at that moment. *)
Fixpoint notify_listeners (limit : nat) (ord : @SetOrder Unit) (s : Store)
    (h : @Heap Unit) (listeners : list (@Config Unit)) (unit : Unit)
  : option Exn * (@Heap Unit * list (@Config Unit)) :=
  match listeners with
  | [] => (None, (h, []))
  | listener :: rest =>
      match add_target Unit_eq_dec s limit ord h listener unit false with
      | (Some e, (h, listener)) => (Some e, (h, listener :: rest))
      | (None, (h, listener)) =>
          let '(e, (h, rest)) := notify_listeners limit ord s h rest unit in
          (e, (h, listener :: rest))
      end
  end.

Inductive AddUnit : Type :=
  | UnitAdded (reg : Registry) (s : Store) (h : @Heap Unit)
  | AddUnitRaised (e : Exn) (reg : Registry) (s : Store) (h : @Heap Unit)
  | AddUnitUnfinished.

(** [ConfigUnit.add_unit(unit, path)] *)
Definition add_unit (fuel limit : nat) (ord : @SetOrder Unit)
    (reg : Registry) (s : Store) (h : @Heap Unit) (unit : Unit)
    (path : String.string) : AddUnit :=
  match dict_find String.string_dec (reg_units reg) path with
  | Some _ => AddUnitRaised PlainException reg s h
  | None =>
      let units := dict_set String.string_dec (reg_units reg) path unit in
      match notify_listeners limit ord s h (reg_listener reg) unit with
      | (Some e, (h, listeners)) =>
          AddUnitRaised e (mkRegistry units listeners) s h
      | (None, (h, listeners)) =>
          match mirror_relations fuel unit s with
          | Unfinished => AddUnitUnfinished
          | Finished s =>
              UnitAdded
                (mkRegistry (dict_set String.string_dec units path unit)
                   listeners) s h
          end
      end
  end.

End Registration.

Arguments Finished {St} s.
Arguments Unfinished {St}.

(** ** Signals ([config.py], [Config.add_signal_handler] to
    [Config.async_trigger_signal])

    [Config.signals] is a [defaultdict(list)] from signal names to
    handlers.  A handler is a function object, compared by identity;
    what it does when called is answered by [handle], from the calls
    made so far. *)

(** Exceptions of the standard library raised by the parts below that
    [Exn] does not list. *)
Inductive Failure : Type :=
  | Failed (e : Exn)
  | ValueError
  | LookupError
  | TypeError.

Section Signals.
Variable Handler : Type.
Variable Handler_eq_dec : forall x y : Handler, {x = y} + {x <> y}.

(** [inspect.iscoroutinefunction(handler)] *)
Variable handler_is_coroutine : Handler -> bool.

(** The calls [handler(self, signal)] made so far. *)
Inductive HandlerCall : Type :=
  | Handled (handler : Handler) (signal : String.string).

Variable handle : Handler -> String.string -> list HandlerCall -> Outcome unit.

Definition Signals : Type := list (String.string * list Handler).

(** [self.signals[signal]]: a missing key is inserted with an empty
    list. *)
Definition signal_handlers (signals : Signals) (signal : String.string)
  : list Handler * Signals :=
  match dict_find String.string_dec signals signal with
  | Some l => (l, signals)
  | None => ([], signals ++ [(signal, [])])
  end.

(** [add_signal_handler]: [self.signals[signal].append(handler)] *)
Definition add_signal_handler (signals : Signals) (signal : String.string)
    (handler : Handler) : Signals :=
  let '(l, signals) := signal_handlers signals signal in
  dict_set String.string_dec signals signal (l ++ [handler]).

(** [remove_signal_handler]: [self.signals[signal].remove(handler)],
    a [ValueError] when the handler is not in the list. *)
Definition remove_signal_handler (signals : Signals) (signal : String.string)
    (handler : Handler) : option Failure * Signals :=
  let '(l, signals) := signal_handlers signals signal in
  match remove_first Handler_eq_dec handler l with
  | Some l' => (None, dict_set String.string_dec signals signal l')
  | None => (Some ValueError, signals)
  end.

(** The loop of both trigger functions: the handlers for which
    [called] holds are called one after the other; the first exception
    ends the loop. *)
Fixpoint call_handlers (called : Handler -> bool) (signal : String.string)
    (handlers : list Handler) (log : list HandlerCall)
  : option Exn * list HandlerCall :=
  match handlers with
  | [] => (None, log)
  | handler :: rest =>
      if called handler then
        match handle handler signal log with
        | Returns _ =>
            call_handlers called signal rest (log ++ [Handled handler signal])
        | Raises e => (Some e, log ++ [Handled handler signal])
        end
      else call_handlers called signal rest log
  end.

(** [trigger_signal]: only the handlers that are not coroutine
    functions are called. *)
Definition trigger_signal (signals : Signals) (signal : String.string)
    (log : list HandlerCall) : option Exn * Signals * list HandlerCall :=
  let '(l, signals) := signal_handlers signals signal in
  let '(e, log) :=
    call_handlers (fun handler => negb (handler_is_coroutine handler))
      signal l log in
  (e, signals, log).

(** [async_trigger_signal]: a coroutine function is awaited, another
    handler is called when [call_non_async] is set. *)
Definition async_trigger_signal (signals : Signals) (signal : String.string)
    (call_non_async : bool) (log : list HandlerCall)
  : option Exn * Signals * list HandlerCall :=
  let '(l, signals) := signal_handlers signals signal in
  let '(e, log) :=
    call_handlers
      (fun handler => handler_is_coroutine handler || call_non_async)
      signal l log in
  (e, signals, log).

(** [trigger_ready], [trigger_reloading], [trigger_stopping] *)
Definition trigger_ready (signals : Signals) (log : list HandlerCall)
  : option Exn * Signals * list HandlerCall :=
  trigger_signal signals "ready" log.

Definition trigger_reloading (signals : Signals) (log : list HandlerCall)
  : option Exn * Signals * list HandlerCall :=
  trigger_signal signals "reloading" log.

Definition trigger_stopping (signals : Signals) (log : list HandlerCall)
  : option Exn * Signals * list HandlerCall :=
  trigger_signal signals "stopping" log.

(** A sequence of [add_signal_handler] calls on a fresh [Config]. *)
Definition register_handlers (registrations : list (String.string * Handler))
  : Signals :=
  fold_left (fun signals r => add_signal_handler signals (fst r) (snd r))
    registrations [].

End Signals.

Arguments Handled {Handler} handler signal.

(** ** Configuration values ([config.py], [Config.__getitem__] to
    [Config.load_from_module]; [vars.py], class [ConfigVar])

    [Config.variables] is a [dict] from names to values of any kind;
    [V] is the type of these values. *)

(** The result of a call that may raise one of [Failure]. *)
Inductive Result (A : Type) : Type :=
  | Ok (a : A)
  | Error (f : Failure).
Arguments Ok {A} a.
Arguments Error {A} f.

Section ConfigVariables.
Variable V : Type.

Definition Variables : Type := list (String.string * V).

(** [Config.__getitem__] *)
Definition Config_getitem (variables : Variables) (key : String.string)
  : Outcome V :=
  match dict_find String.string_dec variables key with
  | Some value => Returns value
  | None => Raises KeyError
  end.

(** [Config.get] *)
Definition Config_get (variables : Variables) (key : String.string)
    (default : V) : V :=
  match Config_getitem variables key with
  | Returns value => value
  | Raises _ => default
  end.

(** [Config.has], also [Config.__contains__] *)
Definition Config_has (variables : Variables) (key : String.string) : bool :=
  match dict_find String.string_dec variables key with
  | Some _ => true
  | None => false
  end.

(** [Config.__setitem__] *)
Definition Config_setitem (variables : Variables) (key : String.string)
    (value : V) : Variables :=
  dict_set String.string_dec variables key value.

(** [Config.__delitem__] *)
Definition Config_delitem (variables : Variables) (key : String.string)
  : Outcome Variables :=
  match dict_del String.string_dec variables key with
  | Some variables' => Returns variables'
  | None => Raises KeyError
  end.

(** [Config.__len__] *)
Definition Config_len (variables : Variables) : nat := length variables.

(** [key.endswith(suffix)] *)
Definition endswith (suffix key : String.string) : bool :=
  (String.length suffix <=? String.length key)
  && String.eqb
       (String.substring (String.length key - String.length suffix)
          (String.length suffix) key)
       suffix.

(** Line 430: [key.startswith("__") and key.endswith("__")] *)
Definition is_dunder (key : String.string) : bool :=
  String.prefix "__" key && endswith "__" key.

(** [Config.load_from_module]; the module is given by the names
    [dir(module)] lists, each with the value [getattr] returns. *)
Definition load_from_module (variables : Variables)
    (module : list (String.string * V)) : Variables :=
  fold_left
    (fun variables attribute =>
       if is_dunder (fst attribute) then variables
       else Config_setitem variables (fst attribute) (snd attribute))
    module variables.

(** A [ConfigVar]: its name, and its [default] attribute, which only
    exists when the constructor was given one. *)
Record ConfigVar : Type := mkConfigVar {
  var_name : String.string;
  var_default : option V
}.

(** [ConfigVar.__init__]: the class keeps every variable by name in
    [_variables] and refuses a second one of the same name. *)
Definition ConfigVar_init (registry : list (String.string * ConfigVar))
    (name : String.string) (default : option V)
  : Result (ConfigVar * list (String.string * ConfigVar)) :=
  match dict_find String.string_dec registry name with
  | Some _ => Error (Failed PlainException)
  | None =>
      let self := mkConfigVar name default in
      Ok (self, dict_set String.string_dec registry name self)
  end.

(** [config = get_config()] when no config is passed; [current] is
    what [get_config()] returns, [None] when none was set. *)
Definition config_or_current (config current : option Variables)
  : option Variables :=
  match config with
  | Some c => Some c
  | None => current
  end.

(** [ConfigVar.get]: the value of the config, else the default, else
    [LookupError]; subscripting [None] is a [TypeError]. *)
Definition ConfigVar_get (self : ConfigVar) (config current : option Variables)
  : Result V :=
  match config_or_current config current with
  | None => Error TypeError
  | Some c =>
      match Config_getitem c (var_name self) with
      | Returns value => Ok value
      | Raises _ =>
          match var_default self with
          | Some default => Ok default
          | None => Error LookupError
          end
      end
  end.

(** [ConfigVar.set] *)
Definition ConfigVar_set (self : ConfigVar) (value : V)
    (config current : option Variables) : Result Variables :=
  match config_or_current config current with
  | None => Error TypeError
  | Some c => Ok (Config_setitem c (var_name self) value)
  end.

End ConfigVariables.

(** ** Vocabulary of the further properties *)

Section IteratorVocabulary.
Context {Unit : Type}.

(** The nodes [next] handed out in a sequence of answers. *)
Definition returned (answers : list (@Answer Unit)) : list Unit :=
  flat_map (fun a => match a with
                     | Got (Produced node) => [node]
                     | _ => []
                     end) answers.

(** Every set object a dictionary refers to is empty. *)
Definition sets_empty (h : @Heap Unit) (d : @SetDict Unit) : Prop :=
  forall k r, In (k, r) d -> heap_get h r = [].

(** A unit without ordering relation that belongs to no exclusive
    group. *)
Definition unconstrained (obj : Unit -> ConfigUnit Unit) (u : Unit) : Prop :=
  after (obj u) = [] /\ before (obj u) = []
  /\ forall g, In g (belongs (obj u)) -> exclusive (obj g) = false.

End IteratorVocabulary.

Section EngineVocabulary.
Context {Unit : Type}.
Variable Unit_eq_dec : forall x y : Unit, {x = y} + {x <> y}.
Variable obj : Unit -> ConfigUnit Unit.

(** The units whose setup phase [Config.init] calls: the ones that are
    not blacklisted and have a function. *)
Definition runnable (blacklist : list Unit) (u : Unit) : bool :=
  negb (mem Unit_eq_dec u blacklist) && negb (is_empty (obj u)).

(** What [init] answers when the setup phase of a unit raised [e]. *)
Definition init_answer (e : Exn) : InitResult :=
  match e with
  | StopInitException => InitReturn None
  | _ => InitRaise e
  end.

(** A unit the selection has dealt with: selected or blacklisted. *)
Definition settled (self : @Config Unit) (u : Unit) : Prop :=
  In u (targets self) \/ In u (blacklisted_targets self).

(** Everything [t] depends on or contains has been dealt with. *)
Definition requirements_settled (self : @Config Unit) (t : Unit) : Prop :=
  forall d, In d (depends (obj t) ++ contains (obj t)) -> settled self d.

(** Every selected target has its requirements dealt with. *)
Definition selection_closed (self : @Config Unit) : Prop :=
  forall t, In t (targets self) -> requirements_settled self t.

End EngineVocabulary.

Section RegistrationVocabulary.
Context {Unit : Type}.

(** The lists of [s'] are the lists of [s] with units appended, and
    the [belongs] lists have not changed. *)
Definition grown (s s' : @Store Unit) : Prop :=
  forall v,
    (exists l, before (s' v) = before (s v) ++ l)
    /\ (exists l, after (s' v) = after (s v) ++ l)
    /\ (exists l, contains (s' v) = contains (s v) ++ l)
    /\ belongs (s' v) = belongs (s v).

(** Every relation [unit] has is written on the other side too. *)
Definition own_relations_mirrored (s : @Store Unit) (unit : Unit) : Prop :=
  (forall g, In g (belongs (s unit)) -> In unit (contains (s g)))
  /\ (forall v, In v (before (s unit)) -> In unit (after (s v)))
  /\ (forall v, In v (after (s unit)) -> In unit (before (s v))).

(** No other unit names [unit] in its [before] or [after] list. *)
Definition unreferenced (s : @Store Unit) (unit : Unit) : Prop :=
  forall v, v <> unit ->
            ~ In unit (before (s v)) /\ ~ In unit (after (s v)).

(** The [before] and [after] lists of the units other than [unit]
    mirror each other. *)
Definition consistent_without (s : @Store Unit) (unit : Unit) : Prop :=
  forall u v, u <> unit -> v <> unit ->
              (In v (after (s u)) <-> In u (before (s v))).

(** What registration keeps true of the other units: apart from
    [unit] itself their [before] and [after] lists hold what they held
    in [s0], and where [unit] was added to one of them the unit stands
    in the opposite list of [unit]. *)
Definition tied (s0 s : @Store Unit) (unit : Unit) : Prop :=
  grown s0 s
  /\ (forall w x, w <> unit -> x <> unit ->
        (In x (after (s w)) <-> In x (after (s0 w)))
        /\ (In x (before (s w)) <-> In x (before (s0 w))))
  /\ (forall w, w <> unit -> In unit (after (s w)) ->
        In unit (after (s0 w)) \/ In w (before (s unit)))
  /\ (forall w, w <> unit -> In unit (before (s w)) ->
        In unit (before (s0 w)) \/ In w (after (s unit))).

End RegistrationVocabulary.

Section RegistrationBounds.
Context {Unit : Type}.
Variable Unit_eq_dec : forall x y : Unit, {x = y} + {x <> y}.

(** The units of [univ] that [l] does not hold yet. *)
Definition missing (univ l : list Unit) : nat :=
  length (filter (fun x => negb (mem Unit_eq_dec x l)) univ).

(** The [before] and [after] lists of the units other than [unit] are
    the same in [s] and [s'], and the [contains] lists have gained
    nothing but [unit]. *)
Definition others_kept (s s' : @Store Unit) (unit : Unit) : Prop :=
  (forall v, v <> unit ->
             before (s' v) = before (s v) /\ after (s' v) = after (s v))
  /\ (forall v x, In x (contains (s' v)) ->
                  In x (contains (s v)) \/ x = unit).

End RegistrationBounds.

(** ** More concrete units *)

Module Registrations.
Import Examples.

(** The unit d, declared to run before the exclusive group G of x and
    y, is about to be registered: nothing refers to d yet. *)
Definition newcomer (u : U) : ConfigUnit U :=
  match u with
  | G => Group [x; y]
  | x => Node [] [] [G]
  | y => Node [] [] [G]
  | d => Node [G] [] []
  | _ => Node [] [] []
  end.

(** Nothing is registered and nobody listens. *)
Definition nothing_registered : @Registry U := mkRegistry [] [].

End Registrations.

Section SignalVocabulary.
Variable Handler : Type.

(** The handlers a sequence of registrations gave to [signal], in the
    order of the registrations. *)
Definition registered_for (signal : String.string)
    (registrations : list (String.string * Handler)) : list Handler :=
  map snd
    (filter (fun r => if String.string_dec (fst r) signal then true else false)
       registrations).

End SignalVocabulary.

(** Handlers numbered 1, 2, ...; the even ones are coroutine
    functions. *)
Module Handlers.

Definition coroutine (handler : nat) : bool := Nat.even handler.

(** Every handler returns. *)
Definition obedient (handler : nat) (signal : String.string)
    (log : list (HandlerCall nat)) : Outcome unit :=
  Returns tt.

(** Handler 5 raises. *)
Definition fifth_fails (handler : nat) (signal : String.string)
    (log : list (HandlerCall nat)) : Outcome unit :=
  if handler =? 5 then Raises (UnitException 1) else Returns tt.

Definition registrations : list (String.string * nat) :=
  [("ready", 1); ("stopping", 3); ("ready", 2); ("ready", 5); ("ready", 7)].

End Handlers.

(** ** Where the units of an iterator come from *)

Section KnownVocabulary.
Context {Unit : Type}.

(** The units that were given to the iterator at some point. *)
Variable A : Unit -> Prop.

(** The size of the heap before the iterator was built. *)
Variable n0 : nat.

(** The set objects created since then hold added units only. *)
Definition heap_known (h : @Heap Unit) : Prop :=
  n0 <= length h
  /\ forall r u, n0 <= r -> In u (heap_get h r) -> A u.

(** A dictionary refers to set objects created since then. *)
Definition refs_from (d : @SetDict Unit) : Prop :=
  forall k r, In (k, r) d -> n0 <= r.

(** The keys of a dictionary are added units. *)
Definition keys_known (d : @SetDict Unit) : Prop :=
  forall k r, In (k, r) d -> A k.

(** Everything the iterator holds is an added unit. *)
Definition iterator_known (st : @Heap Unit * @KahnIterator Unit) : Prop :=
  heap_known (fst st)
  /\ refs_from (k_after (snd st))
  /\ refs_from (k_before (snd st))
  /\ keys_known (k_after (snd st))
  /\ (forall u, In u (stack (snd st)) -> A u)
  /\ (forall u, In u (nodes (snd st)) -> A u)
  /\ (forall u, In u (lst (snd st)) -> A u).

(** What an operation does to the dictionary it works on: the heap
    stays in order, and an entry of the dictionary afterwards was there
    before or is the entry of the key [k]. *)
Definition entry_step (h : @Heap Unit) (d : @SetDict Unit)
    (h' : @Heap Unit) (d' : @SetDict Unit) (k : Unit) : Prop :=
  heap_known h' /\ refs_from d'
  /\ forall e, In e d' -> In e d \/ fst e = k.

End KnownVocabulary.

Section SelectedVocabulary.
Context {Unit : Type}.

(** Everything the iterator of a configuration holds is one of its
    targets; [n0] is the size of the heap before the configuration was
    built. *)
Definition selected_only (n0 : nat) (st : @Heap Unit * @Config Unit)
  : Prop :=
  iterator_known (fun u => In u (targets (snd st))) n0
    (fst st, unit_iterator (snd st)).

End SelectedVocabulary.

(** * Properties *)

(** ** Membership and dictionaries *)

Section Containers.
Context {Unit : Type}.
Variable Unit_eq_dec : forall x y : Unit, {x = y} + {x <> y}.

Local Abbreviation eqb_unit := (eqb_unit Unit_eq_dec).
Local Abbreviation mem := (mem Unit_eq_dec).
Local Abbreviation dict_find := (dict_find Unit_eq_dec).
Local Abbreviation dict_set := (dict_set Unit_eq_dec).
Local Abbreviation dict_del := (dict_del Unit_eq_dec).

Lemma eqb_unit_eq (u v : Unit) : eqb_unit u v = true <-> u = v.
Proof.
  unfold eqb_unit.
  destruct (Unit_eq_dec u v); split; congruence.
Qed.

Lemma eqb_unit_neq (u v : Unit) : eqb_unit u v = false <-> u <> v.
Proof.
  unfold eqb_unit. destruct (Unit_eq_dec u v); split; congruence.
Qed.

Lemma eqb_unit_refl (u : Unit) : eqb_unit u u = true.
Proof. apply eqb_unit_eq; reflexivity. Qed.

Lemma mem_In (u : Unit) (l : list Unit) : mem u l = true <-> In u l.
Proof.
  unfold mem. rewrite existsb_exists. split.
  - intros [v [Hv E]]. apply eqb_unit_eq in E. subst. exact Hv.
  - intros H. exists u. split; [exact H | apply eqb_unit_refl].
Qed.

Lemma mem_not_In (u : Unit) (l : list Unit) : mem u l = false <-> ~ In u l.
Proof.
  rewrite <- mem_In. destruct (mem u l); split; congruence.
Qed.

Lemma dict_find_set_same {V} (d : Dict V) (k : Unit) (v : V) :
  dict_find (dict_set d k v) k = Some v.
Proof.
  induction d as [| [k' v'] d IH]; simpl.
  - rewrite eqb_unit_refl. reflexivity.
  - destruct (eqb_unit k k') eqn:E; simpl; rewrite E; auto.
Qed.

Lemma dict_find_set_other {V} (d : Dict V) (k k' : Unit) (v : V) :
  k' <> k -> dict_find (dict_set d k v) k' = dict_find d k'.
Proof.
  intros N. induction d as [| [k0 v0] d IH]; simpl.
  - apply eqb_unit_neq in N. rewrite N. reflexivity.
  - destruct (eqb_unit k k0) eqn:E; simpl.
    + apply eqb_unit_eq in E. subst k0.
      apply eqb_unit_neq in N. rewrite N. reflexivity.
    + destruct (eqb_unit k' k0); auto.
Qed.

Lemma dict_del_present {V} (d : Dict V) (k : Unit) :
  dict_find d k <> None -> exists d', dict_del d k = Some d'.
Proof.
  induction d as [| [k' v'] d IH]; simpl; intros H.
  - congruence.
  - destruct (eqb_unit k k'); eauto.
    destruct (IH H) as [d' E]. rewrite E. eauto.
Qed.

Lemma dict_find_del_other {V} (d d' : Dict V) (k k' : Unit) :
  dict_del d k = Some d' -> k' <> k -> dict_find d' k' = dict_find d k'.
Proof.
  revert d'. induction d as [| [k0 v0] d IH]; simpl; intros d' E N.
  - discriminate.
  - destruct (eqb_unit k k0) eqn:E0.
    + inversion E; subst. apply eqb_unit_eq in E0. subst k0.
      apply eqb_unit_neq in N. rewrite N. reflexivity.
    + destruct (dict_del d k) as [d'' |] eqn:E1; inversion E; subst.
      simpl. destruct (eqb_unit k' k0); auto.
Qed.

Lemma set_remove_spec (x : Unit) (s s' : list Unit) :
  set_remove Unit_eq_dec x s = Some s' ->
  ~ In x s' /\ incl s' s.
Proof.
  unfold set_remove. destruct (mem x s); [| discriminate].
  intros E. inversion E; subst. split.
  - intros H. apply filter_In in H. destruct H as [_ H].
    rewrite eqb_unit_refl in H. discriminate.
  - intros y H. apply filter_In in H. tauto.
Qed.

Lemma remove_first_incl (x : Unit) (l l' : list Unit) :
  remove_first Unit_eq_dec x l = Some l' -> incl l' l.
Proof.
  revert l'. induction l as [| y l IH]; simpl; intros l' H;
    [discriminate |].
  destruct (eqb_unit x y).
  - inversion H; subst. apply incl_tl, incl_refl.
  - destruct (remove_first Unit_eq_dec x l) as [r |]; inversion H; subst.
    intros z [-> | Hz]; [left; reflexivity | right; apply (IH r); auto].
Qed.

End Containers.

(** A loop that ends without exception has gone through every element:
    what each step establishes, and later steps keep, holds at the end. *)
Lemma for_each_steps {A S : Type} (body : S -> A -> option Exn * S)
    (R : S -> S -> Prop) (Q : A -> S -> Prop) :
  (forall s, R s s) ->
  (forall s1 s2 s3, R s1 s2 -> R s2 s3 -> R s1 s3) ->
  (forall x s s', Q x s -> R s s' -> Q x s') ->
  (forall s x s', body s x = (None, s') -> R s s' /\ Q x s') ->
  forall l s s',
    for_each body l s = (None, s') ->
    R s s' /\ forall x, In x l -> Q x s'.
Proof.
  intros Hrefl Htrans Hkeep Hstep.
  induction l as [| x l IH]; simpl; intros s s' H.
  - inversion H; subst. split; [apply Hrefl | contradiction].
  - destruct (body s x) as [[e |] s1] eqn:Eb; [discriminate |].
    destruct (Hstep _ _ _ Eb) as [R1 Q1].
    destruct (IH _ _ H) as [R2 Q2].
    split; [eapply Htrans; eauto |].
    intros y [-> | Hy]; [eapply Hkeep; eauto | auto].
Qed.


(** ** Lists *)

Lemma NoDup_occurs_once {A} (x : A) (l : list A) :
  NoDup l -> In x l -> occurs_once x l.
Proof.
  intros N H. destruct (in_split _ _ H) as [l1 [l2 E]]. subst l.
  exists l1, l2. split; [reflexivity |].
  apply NoDup_remove_2 in N. rewrite in_app_iff in N. tauto.
Qed.

Lemma NoDup_map_injective {A B} (f : A -> B) (l : list A) :
  (forall x y, f x = f y -> x = y) -> NoDup l -> NoDup (map f l).
Proof.
  intros Hf N. induction N as [| x l Hx N IH]; simpl; constructor; auto.
  rewrite in_map_iff. intros [y [E Hy]]. apply Hf in E. subst. auto.
Qed.

Lemma map_injective_eq {A B} (f : A -> B) (l l' : list A) :
  (forall x y, f x = f y -> x = y) -> map f l = map f l' -> l = l'.
Proof.
  intros Hf. revert l'. induction l as [| x l IH]; destruct l'; simpl;
    intros E; try discriminate; auto.
  inversion E. f_equal; auto.
Qed.

Lemma app_cons_eq_snoc {A} (l1 l2 l : list A) (x y : A) :
  l1 ++ x :: l2 = l ++ [y] ->
  (l2 = [] /\ l1 = l /\ x = y)
  \/ exists l2', l2 = l2' ++ [y] /\ l = l1 ++ x :: l2'.
Proof.
  intros E. destruct (exists_last (l := x :: l2)) as [m [w Em]];
    [discriminate |].
  destruct l2 as [| z l2].
  - left. apply app_inj_tail in E. tauto.
  - right. destruct (exists_last (l := z :: l2)) as [m' [w' Em']];
      [discriminate |].
    rewrite Em' in E. change (x :: m' ++ [w']) with ((x :: m') ++ [w']) in E.
    rewrite app_assoc in E. apply app_inj_tail in E. destruct E as [E1 E2].
    subst. exists m'. split; [exact Em' | reflexivity].
Qed.

Lemma NoDup_app_disjoint {A} (l1 l2 : list A) (x : A) :
  NoDup (l1 ++ l2) -> In x l1 -> ~ In x l2.
Proof.
  induction l1 as [| y l1 IH]; simpl; intros N H; [contradiction |].
  inversion N as [| ? ? Hy N']; subst. destruct H as [-> | H].
  - intros Hin. apply Hy. apply in_or_app. auto.
  - auto.
Qed.

Lemma existsb_false_filter {A} (f : A -> bool) (l : list A) :
  existsb f l = false -> filter f l = [].
Proof.
  induction l as [| x l IH]; simpl; intros H; [reflexivity |].
  apply orb_false_iff in H. destruct H as [Hx Hl]. rewrite Hx. auto.
Qed.

Lemma fold_left_snoc {A} (l acc : list A) :
  fold_left (fun acc x => acc ++ [x]) l acc = acc ++ l.
Proof.
  revert acc. induction l as [| x l IH]; simpl; intros acc.
  - rewrite app_nil_r. reflexivity.
  - rewrite IH, <- app_assoc. reflexivity.
Qed.

(** Case analysis on the pairs and tests a definition goes through. *)
Ltac break_match :=
  match goal with
  | |- context [match ?e with (_, _) => _ end] => destruct e eqn:?
  | |- context [if ?b then _ else _] => destruct b eqn:?
  | |- context [match ?e with Some _ => _ | None => _ end] =>
      destruct e eqn:?
  end.

Ltac break_match_in H :=
  match type of H with
  | context [match ?e with (_, _) => _ end] => destruct e eqn:?
  | context [if ?b then _ else _] => destruct b eqn:?
  | context [match ?e with Some _ => _ | None => _ end] => destruct e eqn:?
  end.

(** What every step of a loop guarantees, whether it raises or not,
    holds for the whole loop. *)
Lemma for_each_always {A S : Type} (body : S -> A -> option Exn * S)
    (R : S -> S -> Prop) :
  (forall s, R s s) ->
  (forall s1 s2 s3, R s1 s2 -> R s2 s3 -> R s1 s3) ->
  (forall s x e s', body s x = (e, s') -> R s s') ->
  forall l s e s', for_each body l s = (e, s') -> R s s'.
Proof.
  intros Hrefl Htrans Hstep.
  induction l as [| x l IH]; simpl; intros s e s' H.
  - inversion H; subst. apply Hrefl.
  - destruct (body s x) as [[e1 |] s1] eqn:Eb.
    + inversion H; subst. eapply Hstep; eauto.
    + eapply Htrans; [eapply Hstep; eauto | eapply IH; eauto].
Qed.

(** ** What [next] does to the produced list *)

Section Produced.
Context {Unit : Type}.
Variable Unit_eq_dec : forall x y : Unit, {x = y} + {x <> y}.
Variable obj : Unit -> ConfigUnit Unit.

Local Abbreviation next := (next Unit_eq_dec obj).
Local Abbreviation excluded := (excluded Unit_eq_dec obj).
Local Abbreviation produced_members := (produced_members Unit_eq_dec obj).

Lemma next_S (fuel : nat) (ord : SetOrder) (h : Heap) (self : KahnIterator) :
  next (S fuel) ord h self
  = let '(aft, stk, cycle) := refill_stack Unit_eq_dec h self in
    if cycle
    then (Raised CycleException, h,
          mkKahn aft (lst self) stk (k_before self) (nodes self))
    else
      match stk with
      | [] => (Raised StopIteration, h,
               mkKahn aft (lst self) stk (k_before self) (nodes self))
      | node :: stk =>
          let '(r, h, bef) := dd_get Unit_eq_dec h (k_before self) node in
          let '(h, aft, stk) :=
            release Unit_eq_dec node (ord (heap_get h r)) h aft stk in
          if excluded (lst self) node
          then next fuel ord h (mkKahn aft (lst self) stk bef (nodes self))
          else (Produced node, h,
                mkKahn aft (lst self ++ [node]) stk bef (nodes self))
      end.
Proof. reflexivity. Qed.

(** [next] leaves the known nodes alone and appends the node it
    returns, which no exclusive group rules out, to the produced list. *)
Lemma next_lst (ord : SetOrder) (fuel : nat) :
  forall h k r h' k',
    next fuel ord h k = (r, h', k') ->
    nodes k' = nodes k
    /\ match r with
       | Produced node =>
           lst k' = lst k ++ [node] /\ excluded (lst k) node = false
       | Raised _ => lst k' = lst k
       end.
Proof.
  induction fuel as [| fuel IH]; intros h k r h' k' H.
  - inversion H; subst. auto.
  - rewrite next_S in H.
    destruct (refill_stack Unit_eq_dec h k) as [[aft stk] cycle].
    destruct cycle; [inversion H; subst; auto |].
    destruct stk as [| node stk]; [inversion H; subst; auto |].
    destruct (dd_get Unit_eq_dec h (k_before k) node) as [[r0 h0] bef].
    destruct (release Unit_eq_dec node (ord (heap_get h0 r0)) h0 aft stk)
      as [[h1 aft1] stk1].
    destruct (excluded (lst k) node) eqn:Ex.
    + apply IH in H. simpl in H. exact H.
    + inversion H; subst. simpl. auto.
Qed.

Lemma add_node_lst (h : Heap) (k : KahnIterator) (node : Unit) :
  lst (snd (add_node Unit_eq_dec obj h k node)) = lst k.
Proof.
  unfold add_node. repeat break_match; reflexivity.
Qed.

Lemma remove_node_lst (ord : SetOrder) (h : Heap) (k : KahnIterator)
    (node : Unit) :
  lst (snd (remove_node Unit_eq_dec obj ord h k node)) = lst k.
Proof.
  unfold remove_node. repeat break_match; reflexivity.
Qed.

(** A property of the freshly built iterator that [add_node],
    [remove_node] and [next] preserve, whatever they return, holds in
    every reachable state. *)
Lemma reachable_invariant (P : Heap * KahnIterator -> Prop) :
  (forall h0, P (h0, KahnIterator_empty)) ->
  (forall h k node, P (h, k) -> P (add_node Unit_eq_dec obj h k node)) ->
  (forall ord h k node,
      P (h, k) ->
      P (snd (fst (remove_node Unit_eq_dec obj ord h k node)),
         snd (remove_node Unit_eq_dec obj ord h k node))) ->
  (forall fuel ord h k,
      P (h, k) ->
      P (snd (fst (next fuel ord h k)), snd (next fuel ord h k))) ->
  forall st, reachable Unit_eq_dec obj st -> P st.
Proof.
  intros Hinit Hadd Hremove Hnext st [h0 [units [l ->]]].
  assert (Hbuilt : P (KahnIterator_init Unit_eq_dec obj h0 units)).
  { unfold KahnIterator_init.
    assert (G : forall st, P st ->
                P (fold_left
                     (fun (st : Heap * KahnIterator) unit =>
                        let '(h, k) := st in
                        add_node Unit_eq_dec obj h k unit) units st)).
    { induction units as [| u units IH]; simpl; intros st Hst; auto.
      apply IH. destruct st as [h k]. apply Hadd. exact Hst. }
    apply G. apply Hinit. }
  revert Hbuilt. generalize (KahnIterator_init Unit_eq_dec obj h0 units).
  induction l as [| c l IH]; simpl; intros st Hst; [exact Hst |].
  destruct (call Unit_eq_dec obj c st) as [a st1] eqn:Ec.
  specialize (IH st1).
  destruct (perform Unit_eq_dec obj l st1) as [al st2]. simpl in *.
  apply IH. destruct st as [h k].
  destruct c as [node | ord node | fuel ord]; simpl in Ec.
  - inversion Ec; subst. apply Hadd. exact Hst.
  - specialize (Hremove ord h k node Hst).
    destruct (remove_node Unit_eq_dec obj ord h k node) as [[e h'] k'].
    inversion Ec; subst. exact Hremove.
  - specialize (Hnext fuel ord h k Hst).
    destruct (next fuel ord h k) as [[r h'] k'].
    inversion Ec; subst. exact Hnext.
Qed.

(** Of every exclusive group at most one member is ever produced. *)
Lemma one_member_produced (st : Heap * KahnIterator) (G : Unit) :
  reachable Unit_eq_dec obj st ->
  exclusive (obj G) = true ->
  length (produced_members G (snd st)) <= 1.
Proof.
  intros Hst. revert G. pattern st. revert st Hst.
  apply reachable_invariant; unfold produced_members; simpl.
  - auto.
  - intros h k node H G HG.
    rewrite (surjective_pairing (add_node Unit_eq_dec obj h k node)).
    simpl. rewrite add_node_lst. auto.
  - intros ord h k node H G HG. rewrite remove_node_lst. auto.
  - intros fuel ord h k H G HG.
    destruct (next fuel ord h k) as [[r h'] k'] eqn:En. simpl.
    apply next_lst in En. destruct En as [_ Hl].
    destruct r as [node | e]; [| rewrite Hl; auto].
    destruct Hl as [-> Hex]. rewrite filter_app, length_app. simpl.
    destruct (mem Unit_eq_dec G (belongs (obj node))) eqn:Hm;
      [| simpl; specialize (H G HG); lia].
    assert (Hnone :
              filter (fun u => mem Unit_eq_dec G (belongs (obj u))) (lst k)
              = []).
    { apply existsb_false_filter.
      unfold excluded in Hex.
      destruct (existsb (fun u => mem Unit_eq_dec G (belongs (obj u)))
                  (lst k)) eqn:Eb; [| reflexivity].
      exfalso. assert (existsb (group_taken Unit_eq_dec obj (lst k))
                         (belongs (obj node)) = true); [| congruence].
      apply existsb_exists. exists G. split.
      - apply mem_In in Hm. exact Hm.
      - unfold group_taken. rewrite HG, Eb. reflexivity. }
    rewrite Hnone. simpl. lia.
Qed.

End Produced.



(** ** Teardown: [exit] *)

Section Teardown.
Context {Unit : Type}.
Variable Unit_eq_dec : forall x y : Unit, {x = y} + {x <> y}.
Variable obj : Unit -> ConfigUnit Unit.
Variable beh : @Behaviour Unit.

Local Abbreviation eqb_unit := (eqb_unit Unit_eq_dec).
Local Abbreviation dict_find := (dict_find Unit_eq_dec).
Local Abbreviation dict_del := (dict_del Unit_eq_dec).
Local Abbreviation exit_loop := (exit_loop Unit_eq_dec obj beh).
Local Abbreviation exit := (exit Unit_eq_dec obj beh).
Local Abbreviation torn_down := (torn_down Unit_eq_dec obj).
Local Abbreviation history_active := (history_active Unit_eq_dec).
Local Abbreviation teardown_quiet := (teardown_quiet Unit_eq_dec beh).
Local Abbreviation splits_at_entry_point := (@splits_at_entry_point Unit).

Lemma torn_down_ext (d d' : Dict (option Instance)) (l : list Unit) :
  (forall u, In u l -> dict_find d' u = dict_find d u) ->
  filter (torn_down d') l = filter (torn_down d) l.
Proof.
  intros H. apply filter_ext_in. intros u Hu.
  unfold torn_down. rewrite (H u Hu). reflexivity.
Qed.

(** The loop of [exit] over a stretch [post] of units (most recent
    first) none of which is the entry point or fails to tear down. *)
Lemma exit_loop_segment (post rest : list Unit) :
  forall self : Config,
    NoDup post ->
    ran_units self = rev (post ++ rest) ->
    (forall u, In u post -> entry_point self <> Some u) ->
    (forall u, In u post -> dict_find (active_units self) u <> None) ->
    teardown_quiet self post ->
    exists self',
      exit_loop (post ++ rest) self = exit_loop rest self'
      /\ calls self'
         = calls self
           ++ map EvTeardown (filter (torn_down (active_units self)) post)
      /\ ran_units self' = rev rest
      /\ entry_point self' = entry_point self
      /\ c_func self' = c_func self
      /\ (forall v, ~ In v post ->
            dict_find (active_units self') v
            = dict_find (active_units self) v).
Proof.
  induction post as [| u post IH]; intros self ND Hran Hentry Hact Hquiet.
  - exists self. simpl in *. rewrite app_nil_r. repeat split; auto.
  - inversion ND as [| ? ? Hu ND']; subst.
    destruct (dict_find (active_units self) u) as [instance |] eqn:Eu;
      [| exfalso; apply (Hact u); simpl; auto].
    assert (Hentry_u :
              match entry_point self with
              | Some e => eqb_unit u e
              | None => false
              end = false).
    { destruct (entry_point self) as [e |] eqn:Ee; [| reflexivity].
      apply eqb_unit_neq. intros ->. apply (Hentry e); simpl; auto. }
    destruct (dict_del_present Unit_eq_dec (active_units self) u) as [d Ed];
      [congruence |].
    assert (Hd : forall v, v <> u ->
                           dict_find d v = dict_find (active_units self) v).
    { intros v Hv. eapply dict_find_del_other; eauto. }
    assert (Hstep :
              exists self1,
                exit_loop ((u :: post) ++ rest) self
                = exit_loop (post ++ rest) self1
                /\ calls self1
                   = calls self
                     ++ map EvTeardown
                          (filter (torn_down (active_units self)) [u])
                /\ ran_units self1 = rev (post ++ rest)
                /\ entry_point self1 = entry_point self
                /\ c_func self1 = c_func self
                /\ active_units self1 = d).
    { simpl. rewrite Eu, Hentry_u. unfold torn_down. rewrite Eu.
      destruct instance as [inst |].
      - destruct (is_empty (obj u)) eqn:Eempty; simpl.
        + rewrite Ed. eexists. split; [reflexivity |].
          simpl. rewrite app_nil_r. repeat split; reflexivity.
        + destruct (resume beh inst (calls self)) as [[] | e] eqn:Er.
          * simpl. rewrite Ed. eexists. split; [reflexivity |].
            simpl. repeat split; reflexivity.
          * assert (e = StopIteration).
            { eapply (Hquiet u inst); simpl; eauto. }
            subst e. simpl. rewrite Ed. eexists. split; [reflexivity |].
            simpl. repeat split; reflexivity.
      - simpl. rewrite Ed. eexists. split; [reflexivity |].
        simpl. rewrite app_nil_r. repeat split; reflexivity. }
    destruct Hstep as [self1 [E1 [Hc1 [Hr1 [He1 [Hf1 Ha1]]]]]].
    destruct (IH self1) as [self' [E' [Hc' [Hr' [He' [Hf' Ha']]]]]]; auto.
    + intros v Hv. rewrite He1. apply Hentry. simpl; auto.
    + intros v Hv. rewrite Ha1, Hd.
      * apply Hact. simpl; auto.
      * intros ->. contradiction.
    + intros v i log e Hv Hi. rewrite Ha1, Hd in Hi.
      * apply (Hquiet v i log e); simpl; auto.
      * intros ->. contradiction.
    + exists self'. rewrite E1, E'. split; [reflexivity |].
      rewrite Hc', Hc1, Ha1. split.
      { rewrite <- app_assoc, <- map_app. do 2 f_equal.
        change (u :: post) with ([u] ++ post). rewrite filter_app.
        f_equal. apply torn_down_ext. intros v Hv. apply Hd.
        intros ->. contradiction. }
      split; [exact Hr' |].
      split; [congruence |].
      split; [congruence |].
      intros v Hv. rewrite Ha', Ha1.
      * apply Hd. intros ->. apply Hv. simpl; auto.
      * intros Hin. apply Hv. simpl; auto.
Qed.

(** [exit] on a history without repetition whose later units tear down
    normally. *)
Lemma exit_after_entry_point (self : Config) (pre post : list Unit) :
  splits_at_entry_point self pre post ->
  NoDup (ran_units self) ->
  history_active self ->
  teardown_quiet self post ->
  exists self',
    exit self = (None, self')
    /\ calls self'
       = calls self
         ++ map EvTeardown (filter (torn_down (active_units self)) (rev post))
    /\ ran_units self' = removelast pre
    /\ (forall u, In u post -> torn_down (active_units self) u = true ->
          occurs_once (EvTeardown u)
            (map EvTeardown
               (filter (torn_down (active_units self)) (rev post))))
    /\ (forall e, entry_point self = Some e ->
          ~ In (EvTeardown e)
              (map EvTeardown
                 (filter (torn_down (active_units self)) (rev post)))).
Proof.
  intros [Hran [Hentry Hpre]] ND Hact Hquiet.
  assert (NDpost : NoDup post).
  { rewrite Hran in ND. apply NoDup_app_remove_l in ND. exact ND. }
  destruct (@exit_loop_segment (rev post) (rev pre) self)
    as [self1 [E1 [Hc1 [Hr1 [He1 [Hf1 Ha1]]]]]].
  - apply NoDup_rev. exact NDpost.
  - rewrite Hran, rev_app_distr, !rev_involutive. reflexivity.
  - intros u Hu. apply Hentry. apply in_rev. exact Hu.
  - intros u Hu. apply Hact. rewrite Hran. apply in_or_app. right.
    apply in_rev. exact Hu.
  - intros u i log e Hu. apply Hquiet. apply in_rev. exact Hu.
  - assert (Hexit : exit self = exit_loop (rev pre) self1).
    { unfold exit. rewrite Hran, rev_app_distr. exact E1. }
    assert (Hfinal : exists self',
               exit_loop (rev pre) self1 = (None, self')
               /\ calls self' = calls self1
               /\ ran_units self' = removelast pre).
    { destruct Hpre as [-> | [pre' [e [-> He]]]].
      - exists self1. simpl. repeat split. rewrite Hr1. reflexivity.
      - rewrite rev_app_distr. simpl.
        destruct (dict_find (active_units self1) e) as [inst |] eqn:Ee.
        + rewrite He1, He, eqb_unit_refl. eexists. split; [reflexivity |].
          simpl. rewrite rev_involutive, removelast_last. auto.
        + exfalso. rewrite Ha1 in Ee.
          * apply (Hact e); [| exact Ee].
            rewrite Hran. apply in_or_app. left. apply in_or_app. right.
            simpl; auto.
          * intros Hin. apply in_rev in Hin.
            apply (Hentry e Hin). exact He. }
    destruct Hfinal as [self' [E' [Hc' Hr']]].
    exists self'. rewrite Hexit, E'. split; [reflexivity |].
    split; [congruence |]. split; [exact Hr' |]. split.
    + intros u Hu Ht. apply NoDup_occurs_once.
      * apply NoDup_map_injective; [intros ? ? H; inversion H; auto |].
        apply NoDup_filter, NoDup_rev. exact NDpost.
      * apply in_map. apply filter_In. split; [| exact Ht].
        apply in_rev. rewrite rev_involutive. exact Hu.
    + intros e He Hin. apply in_map_iff in Hin.
      destruct Hin as [v [Ev Hv]]. inversion Ev; subst v.
      apply filter_In in Hv. destruct Hv as [Hv _].
      apply in_rev in Hv. apply (Hentry e Hv). exact He.
Qed.

(** C4. On a history without repetition whose units all have their
    entry in [active_units], and when no teardown phase raises anything
    but [StopIteration], [exit] returns normally, having resumed the
    suspended instances of the units recorded after the entry point in
    exactly the reverse of the order of the history, each of them
    exactly once; the entry point itself is popped and not resumed, and
    what was recorded before it stays in the history.  Without an entry
    point in the history the whole history is torn down. *)
Theorem exit_tears_down_in_reverse (self : Config) (pre post : list Unit) :
  splits_at_entry_point self pre post ->
  NoDup (ran_units self) ->
  history_active self ->
  teardown_quiet self post ->
  exists self',
    exit self = (None, self')
    /\ calls self'
       = calls self
         ++ map EvTeardown (filter (torn_down (active_units self)) (rev post))
    /\ ran_units self' = removelast pre
    /\ (forall u, In u post -> torn_down (active_units self) u = true ->
          occurs_once (EvTeardown u)
            (map EvTeardown
               (filter (torn_down (active_units self)) (rev post))))
    /\ (forall e, entry_point self = Some e ->
          ~ In (EvTeardown e)
              (map EvTeardown
                 (filter (torn_down (active_units self)) (rev post)))).
Proof. apply exit_after_entry_point. Qed.

(** C9, as the code has it.  On a history without repetition, when the
    teardown phase of [u] raises an exception [e] other than
    [StopIteration] and the units recorded after [u] tear down
    normally, [exit] resumes those later units in reverse order, then
    [u], and raises [e] at once: [u] has been popped but keeps its
    entry in [active_units], and the units [pre] recorded before [u]
    stay in the history, none of them resumed. *)
Theorem exit_stops_at_failing_teardown
    (self : Config) (pre post : list Unit) (u : Unit) (i : Instance)
    (e : Exn) :
  ran_units self = pre ++ u :: post ->
  NoDup (ran_units self) ->
  (forall v, In v (u :: post) -> entry_point self <> Some v) ->
  history_active self ->
  teardown_quiet self post ->
  dict_find (active_units self) u = Some (Some i) ->
  is_empty (obj u) = false ->
  resume beh i
    (calls self
     ++ map EvTeardown (filter (torn_down (active_units self)) (rev post)))
  = Raises e ->
  e <> StopIteration ->
  exists self',
    exit self = (Some e, self')
    /\ calls self'
       = calls self
         ++ map EvTeardown (filter (torn_down (active_units self)) (rev post))
         ++ [EvTeardown u]
    /\ ran_units self' = pre
    /\ dict_find (active_units self') u = Some (Some i)
    /\ (forall v, In v pre ->
          ~ In (EvTeardown v)
              (map EvTeardown
                 (filter (torn_down (active_units self)) (rev post))
               ++ [EvTeardown u])).
Proof.
  intros Hran ND Hentry Hact Hquiet Hi Hempty Hres He.
  assert (ND' : NoDup (u :: post)).
  { rewrite Hran in ND. apply NoDup_app_remove_l in ND. exact ND. }
  inversion ND' as [| ? ? Hu NDpost]; subst.
  destruct (@exit_loop_segment (rev post) (u :: rev pre) self)
    as [self1 [E1 [Hc1 [Hr1 [He1 [Hf1 Ha1]]]]]].
  - apply NoDup_rev. exact NDpost.
  - rewrite Hran. clear.
    rewrite rev_app_distr. simpl. rewrite !rev_involutive, <- app_assoc.
    reflexivity.
  - intros v Hv. apply Hentry. right. apply in_rev. exact Hv.
  - intros v Hv. apply Hact. rewrite Hran. apply in_or_app. right. right.
    apply in_rev. exact Hv.
  - intros v j log e' Hv. apply Hquiet. apply in_rev. exact Hv.
  - assert (Hexit : exit self = exit_loop (u :: rev pre) self1).
    { unfold exit. rewrite Hran, rev_app_distr. simpl.
      rewrite <- app_assoc. exact E1. }
    assert (Hu1 : dict_find (active_units self1) u = Some (Some i)).
    { rewrite Ha1; [exact Hi |]. intros Hin. apply in_rev in Hin. auto. }
    assert (Hentry_u :
              match entry_point self1 with
              | Some e0 => eqb_unit u e0
              | None => false
              end = false).
    { rewrite He1. destruct (entry_point self) as [e0 |] eqn:Ee;
        [| reflexivity].
      apply eqb_unit_neq. intros ->. apply (Hentry e0); simpl; auto. }
    assert (Hnot : forall v, In v pre -> ~ In v (u :: post)).
    { intros v Hv. rewrite Hran in ND.
      eapply NoDup_app_disjoint; eauto. }
    assert (Hquietly :
              forall v, In v pre ->
                ~ In (EvTeardown v)
                    (map EvTeardown
                       (filter (torn_down (active_units self)) (rev post))
                     ++ [EvTeardown u])).
    { intros v Hv Hin. apply in_app_or in Hin.
      destruct Hin as [Hin | [Hin | []]].
      - apply in_map_iff in Hin. destruct Hin as [w [Ew Hw]].
        inversion Ew; subst w. apply filter_In in Hw.
        destruct Hw as [Hw _]. apply in_rev in Hw.
        apply (Hnot v Hv). right. exact Hw.
      - inversion Hin; subst v. apply (Hnot u Hv). left. reflexivity. }
    eexists. rewrite Hexit. simpl. rewrite Hu1, Hentry_u, Hempty.
    rewrite Hc1, Hres.
    destruct e; try congruence; (split; [reflexivity |]); simpl;
      rewrite Hc1, <- app_assoc, rev_involutive; auto.
Qed.

End Teardown.

(** ** Setup: [init] *)

Section Setup.
Context {Unit : Type}.
Variable Unit_eq_dec : forall x y : Unit, {x = y} + {x <> y}.
Variable obj : Unit -> ConfigUnit Unit.
Variable beh : @Behaviour Unit.
Variable ASYNC_UNIT : Unit.

Local Abbreviation mem := (mem Unit_eq_dec).
Local Abbreviation dict_find := (dict_find Unit_eq_dec).
Local Abbreviation dict_set := (dict_set Unit_eq_dec).
Local Abbreviation next := (next Unit_eq_dec obj).
Local Abbreviation setup_unit := (setup_unit Unit_eq_dec obj beh).
Local Abbreviation init := (init Unit_eq_dec obj beh).
Local Abbreviation exit := (exit Unit_eq_dec obj beh).
Local Abbreviation run := (run Unit_eq_dec obj beh ASYNC_UNIT).
Local Abbreviation run_select := (run_select Unit_eq_dec obj ASYNC_UNIT).
Local Abbreviation history_active := (history_active Unit_eq_dec).
Local Abbreviation teardown_quiet := (teardown_quiet Unit_eq_dec beh).
Local Abbreviation torn_down := (torn_down Unit_eq_dec obj).
Local Abbreviation stop_init_raised := (stop_init_raised beh).
Local Abbreviation no_stop_init := (no_stop_init beh).

Lemma no_stop_init_nil (log : list Event) : no_stop_init log [].
Proof. intros l1 u l2 E. destruct l1; discriminate. Qed.

Lemma no_stop_init_cons (log : list Event) (u : Unit) (called : list Unit) :
  setup beh u log <> Raises StopInitException ->
  no_stop_init (log ++ [EvSetup u]) called ->
  no_stop_init log (u :: called).
Proof.
  intros Hu H l1 v l2 E. destruct l1 as [| w l1]; simpl in *.
  - inversion E; subst. rewrite app_nil_r. exact Hu.
  - inversion E; subst.
    change (EvSetup w :: map EvSetup l1)
      with ([EvSetup w] ++ map EvSetup l1).
    rewrite app_assoc. eapply H. reflexivity.
Qed.

(** The setup phase of one unit either makes no call or exactly one. *)
Lemma setup_unit_spec (self : Config) (unit : Unit) :
  (setup_unit self unit = (Returns (None, None), self))
  \/ (exists instance,
        setup_unit self unit
        = (match setup beh unit (calls self) with
           | Returns result => Returns (instance, result)
           | Raises e => Raises e
           end, record_call self (EvSetup unit))).
Proof.
  unfold setup_unit.
  destruct (mem unit (blacklisted_targets self)); [left; reflexivity |].
  destruct (is_empty (obj unit)); [left; reflexivity |].
  right. eexists.
  destruct (setup beh unit (calls self)); reflexivity.
Qed.

Lemma history_active_record (self self2 : Config) (unit : Unit)
    (instance : option Instance) :
  ran_units self2 = ran_units self ++ [unit] ->
  active_units self2 = dict_set (active_units self) unit instance ->
  history_active self -> history_active self2.
Proof.
  intros Hr Ha H u Hu. rewrite Hr in Hu. rewrite Ha.
  apply in_app_or in Hu.
  destruct (Unit_eq_dec u unit) as [-> | N].
  - rewrite dict_find_set_same. discriminate.
  - rewrite dict_find_set_other by exact N.
    destruct Hu as [Hu | [Hu | []]]; [apply H; exact Hu | congruence].
Qed.

Lemma init_S (steps limit : nat) (ord : SetOrder) (h : Heap) (self : Config) :
  init (S steps) limit ord h self
  = match next limit ord h (unit_iterator self) with
    | (Raised StopIteration, h, k) =>
        (InitReturn None, (h, set_iterator self k))
    | (Raised e, h, k) => (InitRaise e, (h, set_iterator self k))
    | (Produced unit, h, k) =>
        let self := set_iterator self k in
        match setup_unit self unit with
        | (Raises StopInitException, self) =>
            (InitReturn None, (h, set_func self None))
        | (Raises e, self) => (InitRaise e, (h, self))
        | (Returns (instance, result), self) =>
            let self :=
              set_active self (dict_set (active_units self) unit instance) in
            let self := set_ran self (ran_units self ++ [unit]) in
            match result with
            | Some v => (InitReturn (Some v), (h, self))
            | None => init steps limit ord h self
            end
        end
    end.
Proof. reflexivity. Qed.

(** What one [init] pass does to the engine. *)
Lemma init_spec (ord : SetOrder) (limit steps : nat) :
  forall h self r h' self',
    init steps limit ord h self = (r, (h', self')) ->
    exists pre called,
      ran_units self' = ran_units self ++ pre
      /\ calls self' = calls self ++ map EvSetup called
      /\ entry_point self' = entry_point self
      /\ (history_active self -> history_active self')
      /\ ((c_func self' = c_func self /\ no_stop_init (calls self) called)
          \/ exists called0 u,
               called = called0 ++ [u]
               /\ no_stop_init (calls self) called0
               /\ setup beh u (calls self ++ map EvSetup called0)
                  = Raises StopInitException
               /\ r = InitReturn None
               /\ c_func self' = None
               /\ lst (unit_iterator self')
                  = lst (unit_iterator self) ++ pre ++ [u]).
Proof.
  induction steps as [| steps IH]; intros h self r h' self' H.
  - inversion H; subst. exists [], []. simpl. rewrite !app_nil_r.
    repeat split; auto. left. split; [reflexivity | apply no_stop_init_nil].
  - rewrite init_S in H.
    destruct (next limit ord h (unit_iterator self)) as [[res h1] k1] eqn:En.
    apply next_lst in En. destruct En as [_ Hlst].
    destruct res as [unit | e].
    2:{ assert (Hself : self' = set_iterator self k1)
          by (destruct e; inversion H; reflexivity).
        subst self'. exists [], []. simpl. rewrite !app_nil_r.
        repeat split; auto. left.
        split; [reflexivity | apply no_stop_init_nil]. }
    destruct Hlst as [Hlst _]. cbv beta iota zeta in H.
    destruct (setup_unit_spec (set_iterator self k1) unit)
      as [Es | [instance Es]]; rewrite Es in H; clear Es.
    + (* blacklisted or empty: no call *)
      simpl in H. apply IH in H.
      destruct H as [pre [called [Hr [Hc [He [Ha Hs]]]]]]. simpl in *.
      exists (unit :: pre), called. rewrite Hr, Hc, He, <- app_assoc.
      repeat split; auto.
      * intros Hact. apply Ha.
        eapply history_active_record; [| | exact Hact]; reflexivity.
      * destruct Hs as [Hs | [called0 [u [E [Hn [Hu [Hres [Hf Hl]]]]]]]];
          [left; exact Hs |].
        right. exists called0, u. repeat split; auto.
        rewrite Hl, Hlst, <- app_assoc. reflexivity.
    + simpl in H.
      destruct (setup beh unit (calls self)) as [result | e] eqn:Eu.
      * destruct result as [v |].
        -- inversion H; subst. exists [unit], [unit]. simpl.
           repeat split; auto.
           ++ intros Hact.
              eapply history_active_record; [| | exact Hact]; reflexivity.
           ++ left. split; [reflexivity |].
              apply no_stop_init_cons; [congruence | apply no_stop_init_nil].
        -- apply IH in H.
           destruct H as [pre [called [Hr [Hc [He [Ha Hs]]]]]]. simpl in *.
           exists (unit :: pre), (unit :: called).
           rewrite Hr, Hc, He, <- !app_assoc. simpl.
           repeat split; auto.
           ++ intros Hact. apply Ha.
              eapply history_active_record; [| | exact Hact]; reflexivity.
           ++ destruct Hs
                as [[Hf Hs] | [called0 [u [E [Hn [Hu [Hres [Hf Hl]]]]]]]].
              ** left. split; [exact Hf |].
                 apply no_stop_init_cons; [congruence | exact Hs].
              ** right. exists (unit :: called0), u. subst called.
                 repeat split; auto.
                 --- apply no_stop_init_cons; [congruence | exact Hn].
                 --- simpl. rewrite <- app_assoc in Hu. exact Hu.
                 --- rewrite Hl, Hlst, <- app_assoc. reflexivity.
      * destruct (match e with StopInitException => true | _ => false end)
          eqn:Estop.
        -- destruct e; try discriminate. inversion H; subst.
           exists [], [unit]. simpl. rewrite !app_nil_r.
           repeat split; auto. right. exists [], unit. simpl.
           rewrite app_nil_r. repeat split; auto.
           apply no_stop_init_nil.
        -- assert (Hself : self' = record_call (set_iterator self k1)
                                     (EvSetup unit))
             by (destruct e; try discriminate; inversion H; reflexivity).
           subst self'. exists [], [unit]. simpl. rewrite !app_nil_r.
           repeat split; auto. left. split; [reflexivity |].
           apply no_stop_init_cons; [| apply no_stop_init_nil].
           rewrite Eu. destruct e; try discriminate; congruence.
Qed.

(** C7. When a setup call made by [init] raises [StopInitException],
    that call is the last thing [init] does: it returns [None] with the
    final action cleared; the unit that raised is the last one the
    iterator produced and is not recorded in the history, which holds
    every unit produced before it in this pass.  A following [exit]
    (no entry point; the history without repetition; no teardown phase
    raising anything but [StopIteration]) resumes the suspended
    instances of the whole history in reverse order and empties it.  A
    [run] whose [init] pass ends this way goes straight to [exit]: it
    calls neither the final action, nor a takeover, nor a signal
    handler. *)
Theorem stop_init_ends_init
    (ord : SetOrder) (steps limit : nat) (h h1 : Heap)
    (self self1 : Config) (r : InitResult) (u : Unit) :
  init steps limit ord h self = (r, (h1, self1)) ->
  stop_init_raised self self1 u ->
  r = InitReturn None
  /\ c_func self1 = None
  /\ (exists earlier,
        calls self1 = calls self ++ map EvSetup earlier ++ [EvSetup u])
  /\ (exists pre,
        ran_units self1 = ran_units self ++ pre
        /\ lst (unit_iterator self1)
           = lst (unit_iterator self) ++ pre ++ [u])
  /\ (history_active self -> entry_point self = None ->
      NoDup (ran_units self1) ->
      teardown_quiet self1 (ran_units self1) ->
      exists self2,
        exit self1 = (None, self2)
        /\ calls self2
           = calls self1
             ++ map EvTeardown
                  (filter (torn_down (active_units self1))
                     (rev (ran_units self1)))
        /\ ran_units self2 = [])
  /\ (forall fuel h0 func config targets,
        run_select fuel ord h0 func config targets = (None, (h, self)) ->
        run fuel steps limit ord h0 func config targets
        = (fst (exit self1), (h1, snd (exit self1)))).
Proof.
  intros Hinit [earlier [later [Hcalls Hraise]]].
  destruct (init_spec _ _ _ _ _ Hinit)
    as [pre [called [Hr [Hc [He [Ha Hs]]]]]].
  rewrite Hc in Hcalls. apply app_inv_head in Hcalls.
  assert (Hsplit : exists l2, called = earlier ++ u :: l2).
  { apply map_eq_app in Hcalls.
    destruct Hcalls as [l1 [l2 [E [E1 E2]]]].
    destruct l2 as [| w l2]; [discriminate |].
    simpl in E2. inversion E2; subst.
    apply map_injective_eq in E1; [| intros ? ? Hxy; inversion Hxy; auto].
    subst. eauto. }
  destruct Hsplit as [l2 Ecalled].
  destruct Hs as [[_ Hn] | [called0 [u0 [E [Hn [Hu [Hres [Hf Hl]]]]]]]].
  - exfalso. exact (Hn _ _ _ Ecalled Hraise).
  - rewrite E in Ecalled. symmetry in Ecalled.
    apply app_cons_eq_snoc in Ecalled.
    destruct Ecalled as [[E1 [E2 E3]] | [l2' [-> Ec]]];
      [| exfalso; exact (Hn _ _ _ Ec Hraise)].
    subst l2 called0 u0.
    split; [exact Hres |]. split; [exact Hf |].
    split; [exists earlier; rewrite Hc, E, map_app; reflexivity |].
    split; [exists pre; auto |]. split.
    + intros Hact Hentry ND Hquiet.
      destruct (@exit_after_entry_point _ Unit_eq_dec obj beh self1 []
                  (ran_units self1))
        as [self2 [E2 [Hc2 [Hr2 _]]]]; auto.
      * repeat split; auto. intros v _. rewrite He, Hentry. discriminate.
      * exists self2. auto.
    + intros fuel h0 func config targets Hsel.
      unfold run. rewrite Hsel, Hinit, Hres. unfold run_finish.
      rewrite Hf. destruct (exit self1). reflexivity.
Qed.

End Setup.

(** ** Selection: [add_target] *)

Section Selection.
Context {Unit : Type}.
Variable Unit_eq_dec : forall x y : Unit, {x = y} + {x <> y}.
Variable obj : Unit -> ConfigUnit Unit.

Local Abbreviation Heap := (@Heap Unit).
Local Abbreviation Config := (@Config Unit).
Local Abbreviation KahnIterator := (@KahnIterator Unit).
Local Abbreviation SetOrder := (@SetOrder Unit).
Local Abbreviation eqb_unit := (eqb_unit Unit_eq_dec).
Local Abbreviation mem := (mem Unit_eq_dec).
Local Abbreviation remove_node := (remove_node Unit_eq_dec obj).
Local Abbreviation blacklist_target := (blacklist_target obj).
Local Abbreviation exclude_others := (exclude_others Unit_eq_dec obj).
Local Abbreviation add_target := (add_target Unit_eq_dec obj).
Local Abbreviation narrows := (@narrows Unit).
Local Abbreviation ruled_out := (ruled_out obj).

(** A [remove_node] that returns has taken the node out of the known
    nodes; one that raises leaves them as they were. *)
Lemma remove_node_nodes (ord : SetOrder) (h : Heap) (k : KahnIterator)
    (node : Unit) (e : option Exn) (h' : Heap) (k' : KahnIterator) :
  remove_node ord h k node = (e, h', k') ->
  incl (nodes k') (nodes k) /\ (e = None -> ~ In node (nodes k')).
Proof.
  unfold remove_node. intros H.
  repeat break_match_in H; inversion H; subst; simpl;
    try (split; [apply incl_refl | discriminate]).
  match goal with
  | E : set_remove _ _ _ = Some _ |- _ =>
      apply set_remove_spec in E; destruct E
  end.
  split; auto.
Qed.

Lemma blacklist_target_spec (self : Config) (target : Unit) :
  blacklisted_targets (blacklist_target self target)
  = blacklisted_targets self ++ target :: contains (obj target)
  /\ unit_iterator (blacklist_target self target) = unit_iterator self.
Proof.
  unfold blacklist_target. simpl. rewrite fold_left_snoc, <- app_assoc.
  auto.
Qed.

Lemma narrows_refl (st : Heap * Config) : narrows st st.
Proof. split; apply incl_refl. Qed.

Lemma narrows_trans (s1 s2 s3 : Heap * Config) :
  narrows s1 s2 -> narrows s2 s3 -> narrows s1 s3.
Proof. intros [A B] [C D]. split; eapply incl_tran; eauto. Qed.

Lemma ruled_out_narrows (y : Unit) (st st' : Heap * Config) :
  ruled_out y st -> narrows st st' -> ruled_out y st'.
Proof.
  intros [A [B C]] [D E]. repeat split; auto.
  - eapply incl_tran; eauto.
Qed.

Lemma exclude_others_spec (ord : SetOrder) (target container : Unit)
    (st st' : Heap * Config) :
  exclude_others ord target container st = (None, st') ->
  narrows st st'
  /\ (exclusive (obj container) = true ->
      forall y, In y (contains (obj container)) -> y <> target ->
                ruled_out y st').
Proof.
  unfold exclude_others. destruct (exclusive (obj container)).
  2:{ intros H. inversion H; subst. split;
        [apply narrows_refl | discriminate]. }
  intros H.
  apply (for_each_steps _ narrows
           (fun y st => y <> target -> ruled_out y st)) in H.
  - destruct H as [HR HQ]. split; [exact HR | auto].
  - apply narrows_refl.
  - apply narrows_trans.
  - intros y s s' Hy HR N. eapply ruled_out_narrows; eauto.
  - clear. intros [h self] y [h' self'] Hb.
    destruct (eqb_unit y target) eqn:Ey.
    + inversion Hb; subst. split; [apply narrows_refl |].
      apply eqb_unit_eq in Ey. congruence.
    + destruct (remove_node ord h (unit_iterator self) y)
        as [[e h1] k1] eqn:Er.
      apply remove_node_nodes in Er. destruct Er as [Hincl Hout].
      destruct e as [e |]; inversion Hb; subst.
      destruct (blacklist_target_spec (set_iterator self k1) y)
        as [Hbl Hit].
      unfold narrows, ruled_out. cbn [fst snd]. rewrite Hbl, Hit. simpl.
      repeat split.
      * apply incl_appl, incl_refl.
      * exact Hincl.
      * apply in_or_app. right. left. reflexivity.
      * apply incl_appr, incl_tl, incl_refl.
      * auto.
Qed.

Lemma add_target_S (fuel : nat) (ord : SetOrder) (h : Heap) (self : Config)
    (target : Unit) (force : bool) :
  add_target (S fuel) ord h self target force
  = if mem target (targets self) then (None, (h, self))
    else if mem target (blacklisted_targets self) then (None, (h, self))
    else if force
            || existsb (fun container => mem container (targets self))
                 (belongs (obj target))
    then
      let self := set_targets self (targets self ++ [target]) in
      let '(h, k) :=
        add_node Unit_eq_dec obj h (unit_iterator self) target in
      let self := set_iterator self k in
      match
        for_each
          (fun (st : Heap * Config) dependency =>
             add_target fuel ord (fst st) (snd st) dependency force)
          (depends (obj target) ++ contains (obj target)) (h, self)
      with
      | (Some e, st) => (Some e, st)
      | (None, st) =>
          for_each
            (fun st container => exclude_others ord target container st)
            (belongs (obj target)) st
      end
    else (None, (h, self)).
Proof. reflexivity. Qed.

(** A forced [add_target] of a unit that is neither selected nor
    blacklisted, when it returns, has ruled out every other member of
    every exclusive group the unit belongs to. *)
Lemma add_target_rules_out_rivals (fuel : nat) (ord : SetOrder) (h h' : Heap)
    (self self' : Config) (x : Unit) :
  mem x (targets self) = false ->
  mem x (blacklisted_targets self) = false ->
  add_target fuel ord h self x true = (None, (h', self')) ->
  forall G y,
    In G (belongs (obj x)) -> exclusive (obj G) = true ->
    In y (contains (obj G)) -> y <> x ->
    ruled_out y (h', self').
Proof.
  intros Ht Hb H G y HG Hex Hy N.
  destruct fuel as [| fuel]; [discriminate |].
  rewrite add_target_S, Ht, Hb in H. simpl in H.
  destruct (add_node Unit_eq_dec obj h (unit_iterator self) x) as [h0 k0].
  match type of H with
  | match ?loop with _ => _ end = _ => destruct loop as [[e |] st1]
  end; [discriminate |].
  apply (for_each_steps _ narrows
           (fun G st =>
              exclusive (obj G) = true ->
              forall y, In y (contains (obj G)) -> y <> x ->
                        ruled_out y st)) in H.
  - destruct H as [_ HQ]. exact (HQ G HG Hex y Hy N).
  - apply narrows_refl.
  - apply narrows_trans.
  - intros G0 s s' HQ HR Hex0 y0 Hy0 N0.
    eapply ruled_out_narrows; eauto.
  - intros s G0 s' Hs. apply exclude_others_spec in Hs. exact Hs.
Qed.


End Selection.

(** ** The heap of pending sets *)

Section PendingSets.
Context {Unit : Type}.
Variable Unit_eq_dec : forall x y : Unit, {x = y} + {x <> y}.

Local Abbreviation Heap := (@Heap Unit).
Local Abbreviation SetDict := (@SetDict Unit).
Local Abbreviation eqb_unit := (eqb_unit Unit_eq_dec).
Local Abbreviation mem := (mem Unit_eq_dec).
Local Abbreviation dict_find := (dict_find Unit_eq_dec).
Local Abbreviation dict_set := (dict_set Unit_eq_dec).
Local Abbreviation dict_del := (dict_del Unit_eq_dec).
Local Abbreviation dict_del_quiet := (dict_del_quiet Unit_eq_dec).
Local Abbreviation dict_view := (dict_view Unit_eq_dec).
Local Abbreviation set_add := (set_add Unit_eq_dec).
Local Abbreviation set_remove := (set_remove Unit_eq_dec).
Local Abbreviation set_of_list := (set_of_list Unit_eq_dec).
Local Abbreviation dd_get := (dd_get Unit_eq_dec).
Local Abbreviation dd_add := (dd_add Unit_eq_dec).
Local Abbreviation dd_assign := (dd_assign Unit_eq_dec).
Local Abbreviation dd_discard := (dd_discard Unit_eq_dec).
Local Abbreviation dd_len := (dd_len Unit_eq_dec).
Local Abbreviation keys := (@keys Unit).
Local Abbreviation refs := (@refs Unit).
Local Abbreviation dict_ok := (@dict_ok Unit).
Local Abbreviation apart := (@apart Unit).
Local Abbreviation touches := (@touches Unit).

(** *** Sets *)

Lemma set_add_In (x u : Unit) (s : list Unit) :
  In u (set_add x s) <-> In u s \/ u = x.
Proof.
  unfold set_add. destruct (mem x s) eqn:E.
  - apply mem_In in E. split; [auto | intros [H | ->]; auto].
  - rewrite in_app_iff. simpl. intuition.
Qed.

Lemma set_of_list_In (u : Unit) (l : list Unit) :
  In u (set_of_list l) <-> In u l.
Proof.
  unfold set_of_list.
  assert (G : forall acc, In u (fold_left (fun s y => set_add y s) l acc)
                          <-> In u acc \/ In u l).
  { induction l as [| x l IH]; simpl; intros acc; [tauto |].
    rewrite IH, set_add_In. intuition. }
  rewrite G. simpl. tauto.
Qed.

Lemma without_In (x u : Unit) (s : list Unit) :
  In u (filter (fun y => negb (eqb_unit x y)) s) <-> In u s /\ u <> x.
Proof.
  rewrite filter_In. split; intros [H1 H2]; split; auto.
  - intros ->. rewrite eqb_unit_refl in H2. discriminate.
  - apply negb_true_iff, eqb_unit_neq. congruence.
Qed.

(** *** The heap *)

Lemma heap_set_length (h : Heap) (r : Ref) (s : list Unit) :
  length (heap_set h r s) = length h.
Proof.
  revert r. induction h as [| x h IH]; intros [| r]; simpl; auto.
Qed.

Lemma heap_get_set_same (h : Heap) (r : Ref) (s : list Unit) :
  r < length h -> heap_get (heap_set h r s) r = s.
Proof.
  unfold heap_get. revert r.
  induction h as [| x h IH]; intros [| r]; simpl; intros H; try lia; auto.
  apply IH. lia.
Qed.

Lemma heap_get_set_other (h : Heap) (r r' : Ref) (s : list Unit) :
  r <> r' -> heap_get (heap_set h r s) r' = heap_get h r'.
Proof.
  unfold heap_get. revert r r'.
  induction h as [| x h IH]; intros [| r] [| r']; simpl; intros H;
    try congruence; auto.
Qed.

Lemma heap_get_alloc_old (h : Heap) (r : Ref) (s : list Unit) :
  r < length h -> heap_get (h ++ [s]) r = heap_get h r.
Proof. intros H. unfold heap_get. apply app_nth1. exact H. Qed.

Lemma heap_get_alloc_new (h : Heap) (s : list Unit) :
  heap_get (h ++ [s]) (length h) = s.
Proof. unfold heap_get. apply nth_middle. Qed.

(** *** Dictionaries of references *)

Lemma dict_find_In (d : SetDict) (k : Unit) (r : Ref) :
  dict_find d k = Some r -> In (k, r) d.
Proof.
  induction d as [| [k' r'] d IH]; simpl; [discriminate |].
  destruct (eqb_unit k k') eqn:E.
  - apply eqb_unit_eq in E. intros H. inversion H; subst. auto.
  - auto.
Qed.

Lemma dict_find_ref (d : SetDict) (k : Unit) (r : Ref) :
  dict_find d k = Some r -> In r (refs d).
Proof.
  intros H. apply dict_find_In in H.
  apply (in_map snd) in H. exact H.
Qed.

Lemma dict_find_none (d : SetDict) (k : Unit) :
  dict_find d k = None <-> ~ In k (keys d).
Proof.
  induction d as [| [k' r'] d IH]; simpl; [tauto |].
  destruct (eqb_unit k k') eqn:E.
  - apply eqb_unit_eq in E. subst. split; [discriminate | tauto].
  - apply eqb_unit_neq in E. rewrite IH. intuition.
Qed.

Lemma dict_find_app (d d' : SetDict) (k : Unit) :
  dict_find (d ++ d') k
  = match dict_find d k with
    | Some r => Some r
    | None => dict_find d' k
    end.
Proof.
  induction d as [| [k' r'] d IH]; simpl; [reflexivity |].
  destruct (eqb_unit k k'); auto.
Qed.

Lemma refs_injective (d : SetDict) (k k' : Unit) (r : Ref) :
  NoDup (refs d) -> dict_find d k = Some r -> dict_find d k' = Some r ->
  k = k'.
Proof.
  intros N H H'. apply dict_find_In in H. apply dict_find_In in H'.
  clear - N H H'. induction d as [| [k0 r0] d IH]; simpl in *;
    [contradiction |].
  inversion N as [| ? ? Hr N']; subst.
  destruct H as [H | H], H' as [H' | H'].
  - congruence.
  - inversion H; subst. exfalso. apply Hr.
    apply (in_map snd) in H'. exact H'.
  - inversion H'; subst. exfalso. apply Hr.
    apply (in_map snd) in H. exact H.
  - auto.
Qed.

Lemma touches_refl (h : Heap) (d : SetDict) : touches h d h d.
Proof. unfold touches. intuition. Qed.

Lemma touches_trans (h h1 h2 : Heap) (d d1 d2 : SetDict) :
  touches h d h1 d1 -> touches h1 d1 h2 d2 -> touches h d h2 d2.
Proof.
  intros [A1 [A2 [A3 A4]]] [B1 [B2 [B3 B4]]].
  split; [lia |]. split; [| split].
  - intros r Hr. destruct (B2 r Hr) as [H | H]; [auto | right; lia].
  - intros r Hr Hn. rewrite B3; [apply A3; auto | lia |].
    intros Hin. destruct (A2 r Hin); [contradiction | lia].
  - auto.
Qed.

(** What an operation on one dictionary means for the other one. *)
Lemma touches_frame (h h' : Heap) (d d' d2 : SetDict) :
  touches h d h' d' -> dict_ok h d2 -> apart d d2 ->
  dict_ok h' d2 /\ apart d' d2
  /\ forall k, dict_view h' d2 k = dict_view h d2 k.
Proof.
  intros [A1 [A2 [A3 A4]]] [K [N B]] Hap. repeat split; auto.
  - intros r Hr. specialize (B r Hr). lia.
  - intros r Hr Hr2. destruct (A2 r Hr) as [H | H].
    + exact (Hap r H Hr2).
    + specialize (B r Hr2). lia.
  - intros k. unfold dict_view.
    destruct (dict_find d2 k) as [r |] eqn:E; [| reflexivity].
    apply dict_find_ref in E. apply A3; [auto |].
    intros Hin. exact (Hap r Hin E).
Qed.

Lemma apart_sym (d1 d2 : SetDict) : apart d1 d2 -> apart d2 d1.
Proof. intros H r H2 H1. exact (H r H1 H2). Qed.

(** *** The operations on a [defaultdict(set)] *)

Lemma dd_get_spec (h h' : Heap) (d d' : SetDict) (k : Unit) (r : Ref) :
  dict_ok h d ->
  dd_get h d k = (r, h', d') ->
  touches h d h' d'
  /\ dict_ok h' d'
  /\ dict_find d' k = Some r
  /\ heap_get h' r = dict_view h d k
  /\ forall k', dict_view h' d' k' = dict_view h d k'.
Proof.
  intros Hok. pose proof Hok as [K [N B]]. unfold dd_get, dict_view.
  destruct (dict_find d k) as [r0 |] eqn:E; intros H; inversion H; subst.
  - rewrite E. split; [apply touches_refl |]. auto.
  - assert (Hok' : dict_ok (h ++ [[]]) (d ++ [(k, length h)])).
    { unfold dict_ok, keys, refs. rewrite !map_app, length_app. simpl.
      repeat split.
      - apply NoDup_app; auto.
        + repeat constructor. simpl. tauto.
        + intros a Ha [<- | []]. apply dict_find_none in E. auto.
      - apply NoDup_app; auto.
        + repeat constructor. simpl. tauto.
        + intros a Ha [<- | []]. specialize (B _ Ha). lia.
      - intros r Hr. apply in_app_or in Hr.
        destruct Hr as [Hr | [<- | []]]; [specialize (B r Hr) |]; lia. }
    assert (Ht : touches h d (h ++ [[]]) (d ++ [(k, length h)])).
    { split; [rewrite length_app; simpl; lia |]. split; [| split].
      - intros r Hr. unfold refs in Hr. rewrite map_app in Hr.
        apply in_app_or in Hr. destruct Hr as [Hr | [<- | []]]; auto.
      - intros r Hr _. apply heap_get_alloc_old. exact Hr.
      - intros _. exact Hok'. }
    split; [exact Ht |]. split; [exact Hok' |]. split; [| split].
    + rewrite dict_find_app, E. simpl. rewrite eqb_unit_refl. reflexivity.
    + apply heap_get_alloc_new.
    + intros k'. rewrite dict_find_app.
      destruct (dict_find d k') as [r' |] eqn:E'.
      * apply heap_get_alloc_old. apply B.
        apply dict_find_ref in E'. exact E'.
      * simpl. destruct (eqb_unit k' k); [| reflexivity].
        apply heap_get_alloc_new.
Qed.

(** Writing the set behind the key [k]. *)
Lemma heap_set_key (h : Heap) (d : SetDict) (k : Unit) (r : Ref)
    (s : list Unit) :
  dict_ok h d -> dict_find d k = Some r ->
  touches h d (heap_set h r s) d
  /\ dict_ok (heap_set h r s) d
  /\ dict_view (heap_set h r s) d k = s
  /\ forall k', k' <> k ->
                dict_view (heap_set h r s) d k' = dict_view h d k'.
Proof.
  intros Hok E. pose proof Hok as [K [N B]].
  assert (Hok' : dict_ok (heap_set h r s) d).
  { repeat split; auto. intros r' Hr'. rewrite heap_set_length. auto. }
  split; [| split; [exact Hok' | split]].
  - split; [rewrite heap_set_length; lia |]. split; [auto | split; [| auto]].
    intros r' Hr' Hn. apply heap_get_set_other. intros ->.
    apply Hn. eapply dict_find_ref; eauto.
  - unfold dict_view. rewrite E. apply heap_get_set_same.
    apply B. eapply dict_find_ref; eauto.
  - intros k' Hk'. unfold dict_view.
    destruct (dict_find d k') as [r' |] eqn:E'; [| reflexivity].
    apply heap_get_set_other. intros ->.
    apply Hk'. eapply refs_injective; eauto.
Qed.

Lemma dd_add_spec (h h' : Heap) (d d' : SetDict) (k x : Unit) :
  dict_ok h d ->
  dd_add h d k x = (h', d') ->
  touches h d h' d'
  /\ dict_ok h' d'
  /\ dict_view h' d' k = set_add x (dict_view h d k)
  /\ forall k', k' <> k -> dict_view h' d' k' = dict_view h d k'.
Proof.
  intros Hok. unfold dd_add.
  destruct (dd_get h d k) as [[r h1] d1] eqn:Eg. intros H.
  inversion H; subst.
  destruct (dd_get_spec _ Hok Eg) as [T1 [Hok1 [E1 [Hg Hv]]]].
  destruct (heap_set_key k (set_add x (heap_get h1 r)) Hok1 E1)
    as [T2 [Hok2 [Hk Ho]]].
  split; [eapply touches_trans; eauto |].
  split; [exact Hok2 |]. split.
  - rewrite Hk, Hg. reflexivity.
  - intros k' Hk'. rewrite Ho, Hv; auto.
Qed.

Lemma dd_discard_spec (h h' : Heap) (d d' : SetDict) (k x : Unit) :
  dict_ok h d ->
  dd_discard h d k x = (h', d') ->
  touches h d h' d'
  /\ dict_ok h' d'
  /\ (forall u, In u (dict_view h' d' k) <-> In u (dict_view h d k) /\ u <> x)
  /\ forall k', k' <> k -> dict_view h' d' k' = dict_view h d k'.
Proof.
  intros Hok. unfold dd_discard.
  destruct (dd_get h d k) as [[r h1] d1] eqn:Eg.
  destruct (dd_get_spec _ Hok Eg) as [T1 [Hok1 [E1 [Hg Hv]]]].
  unfold set_remove. destruct (mem x (heap_get h1 r)) eqn:Em;
    intros H; inversion H; subst.
  - destruct (heap_set_key k
                (filter (fun y => negb (eqb_unit x y)) (heap_get h1 r))
                Hok1 E1) as [T2 [Hok2 [Hk Ho]]].
    split; [eapply touches_trans; eauto |].
    split; [exact Hok2 |]. split.
    + intros u. rewrite Hk, without_In, Hg. tauto.
    + intros k' Hk'. rewrite Ho, Hv; auto.
  - split; [exact T1 |]. split; [exact Hok1 |]. split.
    + intros u. rewrite Hv. apply mem_not_In in Em. rewrite Hg in Em.
      split; [| tauto]. intros Hu. split; [exact Hu |].
      intros ->. contradiction.
    + intros k' _. apply Hv.
Qed.

Lemma dd_len_spec (h h' : Heap) (d d' : SetDict) (k : Unit) (n : nat) :
  dict_ok h d ->
  dd_len h d k = (n, h', d') ->
  touches h d h' d'
  /\ dict_ok h' d'
  /\ n = length (dict_view h d k)
  /\ forall k', dict_view h' d' k' = dict_view h d k'.
Proof.
  intros Hok. unfold dd_len.
  destruct (dd_get h d k) as [[r h1] d1] eqn:Eg. intros H.
  inversion H; subst.
  destruct (dd_get_spec _ Hok Eg) as [T1 [Hok1 [E1 [Hg Hv]]]].
  split; [exact T1 |]. split; [exact Hok1 |].
  split; [rewrite Hg; reflexivity | exact Hv].
Qed.

Lemma dict_set_refs (d : SetDict) (k : Unit) (r r' : Ref) :
  In r' (refs (dict_set d k r)) -> In r' (refs d) \/ r' = r.
Proof.
  induction d as [| [k0 r0] d IH]; simpl.
  - intros [<- | []]. auto.
  - destruct (eqb_unit k k0); simpl; intros [H | H]; auto.
    apply IH in H. tauto.
Qed.

Lemma dict_set_keys (d : SetDict) (k k' : Unit) (r : Ref) :
  In k' (keys (dict_set d k r)) -> In k' (keys d) \/ k' = k.
Proof.
  induction d as [| [k0 r0] d IH]; simpl.
  - intros [<- | []]. auto.
  - destruct (eqb_unit k k0); simpl; intros [H | H]; auto.
    apply IH in H. tauto.
Qed.

Lemma dict_set_ok (h : Heap) (d : SetDict) (k : Unit) (r : Ref) :
  dict_ok h d -> ~ In r (refs d) -> r < length h ->
  dict_ok h (dict_set d k r).
Proof.
  intros [K [N B]] Hr Hlt. split; [| split].
  - clear N B Hr. induction d as [| [k0 r0] d IH]; simpl.
    + repeat constructor. simpl. tauto.
    + inversion K as [| ? ? Hk K']; subst.
      destruct (eqb_unit k k0) eqn:E; simpl; [constructor; auto |].
      constructor; auto. intros Hin. apply dict_set_keys in Hin.
      apply eqb_unit_neq in E. destruct Hin; [contradiction | congruence].
  - clear K B. induction d as [| [k0 r0] d IH]; simpl.
    + repeat constructor. simpl. tauto.
    + inversion N as [| ? ? Hk N']; subst. simpl in Hr.
      destruct (eqb_unit k k0); simpl; constructor; auto.
      intros Hin. apply dict_set_refs in Hin. intuition.
  - intros r' Hr'. apply dict_set_refs in Hr'.
    destruct Hr' as [Hr' | ->]; auto.
Qed.

Lemma dd_assign_spec (h h' : Heap) (d d' : SetDict) (k : Unit)
    (l : list Unit) :
  dict_ok h d ->
  dd_assign h d k l = (h', d') ->
  touches h d h' d'
  /\ dict_ok h' d'
  /\ dict_view h' d' k = set_of_list l
  /\ forall k', k' <> k -> dict_view h' d' k' = dict_view h d k'.
Proof.
  intros Hok. pose proof Hok as [K [N B]]. unfold dd_assign. simpl.
  intros H. inversion H; subst.
  assert (Hfresh : ~ In (length h) (refs d)).
  { intros Hin. specialize (B _ Hin). lia. }
  assert (Hok' : dict_ok (h ++ [set_of_list l]) (dict_set d k (length h))).
  { apply dict_set_ok; auto.
    - split; [exact K | split; [exact N |]].
      intros r Hr. rewrite length_app. specialize (B r Hr). lia.
    - rewrite length_app. simpl. lia. }
  split; [| split; [exact Hok' | split]].
  - split; [rewrite length_app; simpl; lia |]. split; [| split; auto].
    + intros r Hr. apply dict_set_refs in Hr. destruct Hr; [auto | lia].
    + intros r Hr _. apply heap_get_alloc_old. exact Hr.
  - unfold dict_view. rewrite dict_find_set_same. apply heap_get_alloc_new.
  - intros k' Hk'. unfold dict_view. rewrite dict_find_set_other by exact Hk'.
    destruct (dict_find d k') as [r |] eqn:E; [| reflexivity].
    apply heap_get_alloc_old. apply B. eapply dict_find_ref; eauto.
Qed.

Lemma dict_del_shape (d d' : SetDict) (k : Unit) :
  dict_del d k = Some d' ->
  exists l1 r l2, d = l1 ++ (k, r) :: l2 /\ d' = l1 ++ l2.
Proof.
  revert d'. induction d as [| [k0 r0] d IH]; simpl; intros d' H.
  - discriminate.
  - destruct (eqb_unit k k0) eqn:E.
    + apply eqb_unit_eq in E. subst. inversion H; subst.
      exists [], r0, d'. auto.
    + destruct (dict_del d k) as [d'' |]; inversion H; subst.
      destruct (IH _ eq_refl) as [l1 [r [l2 [E1 E2]]]]. subst.
      exists ((k0, r0) :: l1), r, l2. auto.
Qed.

Lemma dict_del_quiet_spec (h : Heap) (d : SetDict) (k : Unit) :
  dict_ok h d ->
  touches h d h (dict_del_quiet d k)
  /\ dict_ok h (dict_del_quiet d k)
  /\ dict_view h (dict_del_quiet d k) k = []
  /\ forall k', k' <> k ->
                dict_view h (dict_del_quiet d k) k' = dict_view h d k'.
Proof.
  intros Hok. pose proof Hok as [K [N B]]. unfold dict_del_quiet.
  destruct (dict_del d k) as [d' |] eqn:E.
  - destruct (dict_del_shape _ _ E) as [l1 [r [l2 [E1 E2]]]]. subst.
    unfold keys, refs in *. rewrite map_app in *. simpl in *.
    assert (Hok' : dict_ok h (l1 ++ l2)).
    { unfold dict_ok, keys, refs. rewrite !map_app. split; [| split].
      - eapply NoDup_remove_1; eauto.
      - eapply NoDup_remove_1; eauto.
      - intros r' Hr'. apply B. apply in_app_or in Hr'.
        apply in_or_app. simpl. tauto. }
    split; [| split; [exact Hok' | split]].
    + split; [lia |]. split; [| split; auto].
      intros r' Hr'. left. unfold refs in *. rewrite map_app in *.
      apply in_app_or in Hr'. apply in_or_app. simpl. tauto.
    + unfold dict_view.
      assert (Hnone : dict_find (l1 ++ l2) k = None).
      { apply dict_find_none. unfold keys. rewrite map_app.
        apply NoDup_remove_2 in K. exact K. }
      rewrite Hnone. reflexivity.
    + intros k' Hk'. unfold dict_view.
      rewrite (dict_find_del_other Unit_eq_dec _ E Hk'). reflexivity.
  - split; [apply touches_refl |]. split; [exact Hok |]. split; [| auto].
    unfold dict_view.
    assert (Hnone : dict_find d k = None).
    { clear - E. induction d as [| [k0 r0] d IH]; simpl in *; auto.
      destruct (eqb_unit k k0); [discriminate |].
      destruct (dict_del d k); [discriminate | auto]. }
    rewrite Hnone. reflexivity.
Qed.

Lemma nil_no_member {A} (l : list A) : (forall x, ~ In x l) -> l = [].
Proof.
  destruct l as [| x l]; [reflexivity |]. intros H.
  exfalso. apply (H x). simpl; auto.
Qed.

(** The three statements of the loops of [remove_node] and of [next]:
    drop [x] from the set of [k] and forget the set if it is empty. *)
Lemma discard_and_prune (h h1 h2 : Heap) (d d1 d2 : SetDict) (k x : Unit)
    (n : nat) :
  dict_ok h d ->
  dd_discard h d k x = (h1, d1) ->
  dd_len h1 d1 k = (n, h2, d2) ->
  let d3 := if n =? 0 then dict_del_quiet d2 k else d2 in
  touches h d h2 d3
  /\ dict_ok h2 d3
  /\ (forall k' u,
         In u (dict_view h2 d3 k')
         <-> In u (dict_view h d k') /\ ~ (u = x /\ k' = k))
  /\ ((n =? 0) = true -> dict_view h2 d3 k = []).
Proof.
  intros Hok E1 E2.
  destruct (dd_discard_spec _ _ Hok E1) as [T1 [Hok1 [Hk1 Ho1]]].
  destruct (dd_len_spec _ Hok1 E2) as [T2 [Hok2 [Hn Hv2]]].
  destruct (dict_del_quiet_spec k Hok2) as [T3 [Hok3 [Hk3 Ho3]]].
  assert (Hview2 : forall k' u,
             In u (dict_view h2 d2 k')
             <-> In u (dict_view h d k') /\ ~ (u = x /\ k' = k)).
  { intros k' u. rewrite Hv2. destruct (Unit_eq_dec k' k) as [-> | Nk].
    - rewrite Hk1. intuition.
    - rewrite Ho1 by exact Nk. intuition. }
  destruct (n =? 0) eqn:En; simpl.
  - apply Nat.eqb_eq in En. subst n.
    assert (Hempty : dict_view h1 d1 k = []).
    { destruct (dict_view h1 d1 k); [reflexivity | discriminate]. }
    split; [eapply touches_trans; eauto; eapply touches_trans; eauto |].
    split; [exact Hok3 |]. split; [| auto].
    intros k' u. destruct (Unit_eq_dec k' k) as [-> | Nk].
    + rewrite Hk3. rewrite <- Hview2, Hv2, Hempty. tauto.
    + rewrite Ho3 by exact Nk. apply Hview2.
  - split; [eapply touches_trans; eauto |].
    split; [exact Hok2 |]. split; [exact Hview2 | discriminate].
Qed.

End PendingSets.

Arguments dd_get_spec {Unit Unit_eq_dec h h' d d' k r} _ _.
Arguments dd_add_spec {Unit Unit_eq_dec h h' d d' k x} _ _.
Arguments dd_discard_spec {Unit Unit_eq_dec h h' d d' k x} _ _.
Arguments dd_len_spec {Unit Unit_eq_dec h h' d d' k n} _ _.
Arguments dd_assign_spec {Unit Unit_eq_dec h h' d d' k l} _ _.
Arguments dict_del_quiet_spec {Unit} Unit_eq_dec {h d} k _.
Arguments discard_and_prune {Unit Unit_eq_dec h h1 h2 d d1 d2 k x n} _ _ _.
Arguments touches_frame {Unit} Unit_eq_dec {h h' d d' d2} _ _ _.
Arguments touches_trans {Unit h h1 h2 d d1 d2} _ _.
Arguments touches_refl {Unit} h d.

(** ** The loops of the iterator *)

Section Loops.
Context {Unit : Type}.
Variable Unit_eq_dec : forall x y : Unit, {x = y} + {x <> y}.

Local Abbreviation Heap := (@Heap Unit).
Local Abbreviation SetDict := (@SetDict Unit).
Local Abbreviation SetOrder := (@SetOrder Unit).
Local Abbreviation eqb_unit := (eqb_unit Unit_eq_dec).
Local Abbreviation mem := (mem Unit_eq_dec).
Local Abbreviation remove_first := (remove_first Unit_eq_dec).
Local Abbreviation dict_find := (dict_find Unit_eq_dec).
Local Abbreviation dict_del_quiet := (dict_del_quiet Unit_eq_dec).
Local Abbreviation dict_view := (dict_view Unit_eq_dec).
Local Abbreviation dd_add := (dd_add Unit_eq_dec).
Local Abbreviation dd_discard := (dd_discard Unit_eq_dec).
Local Abbreviation dd_len := (dd_len Unit_eq_dec).
Local Abbreviation dict_ok := (@dict_ok Unit).
Local Abbreviation touches := (@touches Unit).
Local Abbreviation add_node_link := (add_node_link Unit_eq_dec).
Local Abbreviation nodes_with_new_dependencys :=
  (nodes_with_new_dependencys Unit_eq_dec).
Local Abbreviation stack_remove_all := (stack_remove_all Unit_eq_dec).
Local Abbreviation remove_node_unlink := (remove_node_unlink Unit_eq_dec).
Local Abbreviation remove_node_rescan := (remove_node_rescan Unit_eq_dec).
Local Abbreviation rescue := (rescue Unit_eq_dec).
Local Abbreviation release := (release Unit_eq_dec).

(** Lines 60-65 of [add_node] add [node] to the sets of the known
    neighbours and change nothing else. *)
Lemma add_node_link_spec (nds l : list Unit) (node : Unit)
    (neighbours : list Unit) :
  forall (h h' : Heap) (d d' : SetDict),
    dict_ok h d ->
    add_node_link nds l node neighbours h d = (h', d') ->
    touches h d h' d'
    /\ dict_ok h' d'
    /\ forall k u,
         In u (dict_view h' d' k)
         <-> In u (dict_view h d k)
             \/ (u = node /\ In k neighbours
                 /\ mem k nds && negb (mem node l) = true).
Proof.
  unfold add_node_link.
  induction neighbours as [| unit neighbours IH]; simpl;
    intros h h' d d' Hok H.
  - inversion H; subst. split; [apply touches_refl |].
    split; [exact Hok |]. intros k u. tauto.
  - destruct (mem unit nds && negb (mem node l)) eqn:Ec.
    + destruct (dd_add h d unit node) as [h1 d1] eqn:Ea.
      destruct (dd_add_spec Hok Ea) as [T1 [Hok1 [Hk Ho]]].
      destruct (IH _ _ _ _ Hok1 H) as [T2 [Hok2 Hv]].
      split; [eapply touches_trans; eauto |]. split; [exact Hok2 |].
      intros k u. rewrite Hv.
      destruct (Unit_eq_dec k unit) as [-> | Nk].
      * rewrite Hk, set_add_In. rewrite Ec. intuition.
      * rewrite Ho by exact Nk. intuition. congruence.
    + destruct (IH _ _ _ _ Hok H) as [T2 [Hok2 Hv]].
      split; [exact T2 |]. split; [exact Hok2 |].
      intros k u. rewrite Hv. intuition. subst. congruence.
Qed.

(** Lines 80-83 of [add_node] pick the stack nodes whose pending set
    is not empty. *)
Lemma nodes_with_new_dependencys_spec (stk : list Unit) :
  forall (h h' : Heap) (aft aft' : SetDict) (acc deps : list Unit),
    dict_ok h aft ->
    fold_left
      (fun (st : list Unit * Heap * SetDict) stack_node =>
         let '(acc, h, aft) := st in
         let '(n, h, aft) := dd_len h aft stack_node in
         if 0 <? n then (acc ++ [stack_node], h, aft) else (acc, h, aft))
      stk (acc, h, aft) = (deps, h', aft') ->
    touches h aft h' aft'
    /\ dict_ok h' aft'
    /\ (forall k, dict_view h' aft' k = dict_view h aft k)
    /\ deps
       = acc ++ filter (fun s => 0 <? length (dict_view h aft s)) stk.
Proof.
  induction stk as [| s stk IH]; simpl;
    intros h h' aft aft' acc deps Hok H.
  - inversion H; subst. rewrite app_nil_r.
    split; [apply touches_refl | auto].
  - destruct (dd_len h aft s) as [[n h1] aft1] eqn:El.
    destruct (dd_len_spec Hok El) as [T1 [Hok1 [Hn Hv1]]].
    assert (Hf : filter (fun s => 0 <? length (dict_view h1 aft1 s)) stk
                 = filter (fun s => 0 <? length (dict_view h aft s)) stk).
    { apply filter_ext. intros k. rewrite Hv1. reflexivity. }
    destruct (0 <? n) eqn:En;
      destruct (IH _ _ _ _ _ _ Hok1 H) as [T2 [Hok2 [Hv2 Hd]]];
      (split; [eapply touches_trans; eauto |]);
      (split; [exact Hok2 |]);
      (split; [intros k; rewrite Hv2; apply Hv1 |]);
      rewrite Hd, Hf, <- Hn, En.
    + rewrite <- app_assoc. reflexivity.
    + reflexivity.
Qed.

Lemma remove_first_head_other (x y : Unit) (l : list Unit) :
  x <> y ->
  match remove_first x (y :: l) with Some s => s | None => y :: l end
  = y :: match remove_first x l with Some s => s | None => l end.
Proof.
  intros N. simpl.
  destruct (eqb_unit x y) eqn:E; [apply eqb_unit_eq in E; congruence |].
  destruct (remove_first x l); reflexivity.
Qed.

(** Lines 84-85 of [add_node]: removing, one occurrence at a time, the
    stack nodes picked by a test leaves the nodes that fail the test. *)
Lemma stack_remove_all_filter (P : Unit -> bool) (stk : list Unit) :
  stack_remove_all stk (filter P stk) = filter (fun s => negb (P s)) stk.
Proof.
  unfold stack_remove_all.
  induction stk as [| s stk IH]; simpl; [reflexivity |].
  destruct (P s) eqn:Ps; simpl.
  - rewrite eqb_unit_refl. exact IH.
  - rewrite <- IH. clear IH.
    assert (G : forall (l stk0 : list Unit),
               (forall x, In x l -> x <> s) ->
               fold_left
                 (fun stk x =>
                    match remove_first x stk with
                    | Some s0 => s0
                    | None => stk
                    end) l (s :: stk0)
               = s :: fold_left
                        (fun stk x =>
                           match remove_first x stk with
                           | Some s0 => s0
                           | None => stk
                           end) l stk0).
    { induction l as [| x l IHl]; intros stk0 Hl; [reflexivity |].
      cbn [fold_left]. rewrite remove_first_head_other.
      - apply IHl. intros y Hy. apply Hl. simpl; auto.
      - apply Hl. simpl; auto. }
    apply G. intros x Hx. apply filter_In in Hx. intros ->.
    destruct Hx as [_ Hx]. congruence.
Qed.

(** Lines 99-115 of [remove_node] drop [node] from the sets of its
    neighbours and change nothing else. *)
Lemma remove_node_unlink_spec (node : Unit) (neighbours : list Unit) :
  forall (h h' : Heap) (d d' : SetDict),
    dict_ok h d ->
    remove_node_unlink node neighbours h d = (h', d') ->
    touches h d h' d'
    /\ dict_ok h' d'
    /\ forall k u,
         In u (dict_view h' d' k)
         <-> In u (dict_view h d k) /\ ~ (u = node /\ In k neighbours).
Proof.
  unfold remove_node_unlink.
  induction neighbours as [| unit neighbours IH]; simpl;
    intros h h' d d' Hok H.
  - inversion H; subst. split; [apply touches_refl |].
    split; [exact Hok |]. intros k u. tauto.
  - destruct (dd_discard h d unit node) as [h1 d1] eqn:E1.
    destruct (dd_len h1 d1 unit) as [[n h2] d2] eqn:E2.
    destruct (discard_and_prune Hok E1 E2) as [T [Hok3 [Hv _]]].
    assert (H' : fold_left
                   (fun (st : Heap * SetDict) unit =>
                      let '(h, d) := st in
                      let '(h, d) := dd_discard h d unit node in
                      let '(n, h, d) := dd_len h d unit in
                      if n =? 0 then (h, dict_del_quiet d unit) else (h, d))
                   neighbours
                   (h2, if n =? 0 then dict_del_quiet d2 unit else d2)
                 = (h', d'))
      by (destruct (n =? 0); exact H).
    destruct (IH _ _ _ _ Hok3 H') as [T' [Hok' Hv']].
    split; [eapply touches_trans; eauto |]. split; [exact Hok' |].
    intros k u. rewrite Hv', Hv. intuition; subst; tauto.
Qed.

(** Lines 133-140 of [remove_node] push nodes whose pending set is
    empty. *)
Lemma remove_node_rescan_spec (ord : SetOrder) (self_lst nds : list Unit) :
  forall (h h' : Heap) (aft aft' : SetDict) (stk stk' : list Unit),
    dict_ok h aft ->
    remove_node_rescan ord self_lst nds h aft stk = (h', aft', stk') ->
    touches h aft h' aft'
    /\ dict_ok h' aft'
    /\ (forall k, dict_view h' aft' k = dict_view h aft k)
    /\ exists pushed,
         stk' = stk ++ pushed
         /\ forall s, In s pushed -> dict_view h aft s = [].
Proof.
  unfold remove_node_rescan. generalize (ord nds) as l.
  induction l as [| node l IH]; simpl;
    intros h h' aft aft' stk stk' Hok H.
  - inversion H; subst. split; [apply touches_refl |].
    split; [exact Hok |]. split; [auto |].
    exists []. rewrite app_nil_r. split; [reflexivity | contradiction].
  - destruct (mem node self_lst).
    + apply (IH _ _ _ _ _ _ Hok H).
    + destruct (dd_len h aft node) as [[n h1] aft1] eqn:El.
      destruct (dd_len_spec Hok El) as [T1 [Hok1 [Hn Hv1]]].
      destruct (n =? 0) eqn:En;
        destruct (IH _ _ _ _ _ _ Hok1 H)
        as [T2 [Hok2 [Hv2 [pushed [Es Hp]]]]];
        (split; [eapply touches_trans; eauto |]);
        (split; [exact Hok2 |]);
        (split; [intros k; rewrite Hv2; apply Hv1 |]).
      * exists (node :: pushed). rewrite Es, <- app_assoc.
        split; [reflexivity |]. intros s [<- | Hs].
        -- apply Nat.eqb_eq in En. subst n.
           destruct (dict_view h aft node); [reflexivity | discriminate].
        -- rewrite <- Hv1. auto.
      * exists pushed. split; [exact Es |].
        intros s Hs. rewrite <- Hv1. auto.
Qed.

Lemma In_dict_find (d : SetDict) (k : Unit) (r : Ref) :
  NoDup (map fst d) -> In (k, r) d -> dict_find d k = Some r.
Proof.
  induction d as [| [k0 r0] d IH]; simpl; intros N H; [contradiction |].
  inversion N as [| ? ? Hk N']; subst.
  destruct H as [H | H].
  - inversion H; subst. rewrite eqb_unit_refl. reflexivity.
  - destruct (eqb_unit k k0) eqn:E; [| auto].
    apply eqb_unit_eq in E. subst. exfalso. apply Hk.
    apply (in_map fst) in H. exact H.
Qed.

(** Lines 155-161 of [next]: the rescue pass pushes keys whose pending
    set is empty and forgets the pending sets of the stack nodes, all
    of them empty. *)
Lemma rescue_spec (h : Heap) (aft aft' : SetDict) (stk stk' : list Unit) :
  dict_ok h aft ->
  (forall s, In s stk -> dict_view h aft s = []) ->
  rescue h aft stk = (aft', stk') ->
  touches h aft h aft'
  /\ dict_ok h aft'
  /\ (forall k, dict_view h aft' k = dict_view h aft k)
  /\ forall s, In s stk' -> dict_view h aft s = [].
Proof.
  intros Hok Hstk. unfold rescue. intros H. inversion H; subst. clear H.
  set (stk1 := fold_left
                 (fun stk (kr : Unit * Ref) =>
                    if length (heap_get h (snd kr)) =? 0
                    then stk ++ [fst kr] else stk) aft stk).
  assert (Hstk1 : forall s, In s stk1 -> dict_view h aft s = []).
  { subst stk1.
    assert (G : forall (l : SetDict) (acc : list Unit),
               incl l aft ->
               (forall s, In s acc -> dict_view h aft s = []) ->
               forall s,
                 In s (fold_left
                         (fun stk (kr : Unit * Ref) =>
                            if length (heap_get h (snd kr)) =? 0
                            then stk ++ [fst kr] else stk) l acc) ->
                 dict_view h aft s = []).
    { induction l as [| [k r] l IH]; simpl; intros acc Hl Hacc s Hs;
        [auto |].
      apply (IH _ (fun x Hx => Hl x (or_intror Hx))) in Hs; [exact Hs |].
      intros s0 Hs0. destruct (length (heap_get h r) =? 0) eqn:En;
        [| auto].
      apply in_app_or in Hs0. destruct Hs0 as [Hs0 | [<- | []]]; [auto |].
      unfold dict_view. destruct Hok as [K _].
      erewrite In_dict_find; [| exact K | apply Hl; left; reflexivity].
      apply Nat.eqb_eq in En.
      destruct (heap_get h r); [reflexivity | discriminate]. }
    apply G; [apply incl_refl | exact Hstk]. }
  clearbody stk1.
  assert (G : forall (l : list Unit) (d : SetDict),
             dict_ok h d ->
             (forall k, dict_view h d k = dict_view h aft k) ->
             (forall s, In s l -> dict_view h aft s = []) ->
             touches h d h (fold_left (fun aft unit => dict_del_quiet aft unit) l d)
             /\ dict_ok h (fold_left (fun aft unit => dict_del_quiet aft unit) l d)
             /\ forall k,
                  dict_view h
                    (fold_left (fun aft unit => dict_del_quiet aft unit) l d) k
                  = dict_view h aft k).
  { induction l as [| s l IH]; simpl; intros d Hd Hv Hl.
    - split; [apply touches_refl | auto].
    - destruct (dict_del_quiet_spec Unit_eq_dec s Hd) as [T [Hd' [Hs Ho]]].
      destruct (IH (dict_del_quiet d s) Hd') as [T' [Hok' Hv']].
      + intros k. destruct (Unit_eq_dec k s) as [-> | N].
        * rewrite Hs. symmetry. apply Hl. auto.
        * rewrite Ho by exact N. apply Hv.
      + intros s0 Hs0. apply Hl. auto.
      + split; [eapply touches_trans; eauto | auto]. }
  destruct (G stk1 aft Hok (fun k => eq_refl) Hstk1) as [T [Hok' Hv]].
  auto.
Qed.

(** Lines 172-180 of [next] drop [node] from the pending sets of the
    nodes [others] and push those whose set has become empty. *)
Lemma release_spec (node : Unit) (others : list Unit) :
  forall (h h' : Heap) (aft aft' : SetDict) (stk stk' : list Unit),
    dict_ok h aft ->
    release node others h aft stk = (h', aft', stk') ->
    touches h aft h' aft'
    /\ dict_ok h' aft'
    /\ (forall k u,
           In u (dict_view h' aft' k)
           <-> In u (dict_view h aft k) /\ ~ (u = node /\ In k others))
    /\ exists pushed,
         stk' = stk ++ pushed
         /\ forall s, In s pushed -> dict_view h' aft' s = [].
Proof.
  unfold release.
  induction others as [| other others IH]; simpl;
    intros h h' aft aft' stk stk' Hok H.
  - inversion H; subst. split; [apply touches_refl |].
    split; [exact Hok |]. split; [intros k u; tauto |].
    exists []. rewrite app_nil_r. split; [reflexivity | contradiction].
  - destruct (dd_discard h aft other node) as [h1 d1] eqn:E1.
    destruct (dd_len h1 d1 other) as [[n h2] d2] eqn:E2.
    destruct (discard_and_prune Hok E1 E2) as [T [Hok3 [Hv Hempty]]].
    assert (H' : fold_left
                   (fun (st : Heap * SetDict * list Unit) other =>
                      let '(h, aft, stk) := st in
                      let '(h, aft) := dd_discard h aft other node in
                      let '(n, h, aft) := dd_len h aft other in
                      if n =? 0
                      then (h, dict_del_quiet aft other, stk ++ [other])
                      else (h, aft, stk))
                   others
                   (h2, if n =? 0 then dict_del_quiet d2 other else d2,
                    if n =? 0 then stk ++ [other] else stk)
                 = (h', aft', stk'))
      by (destruct (n =? 0); exact H).
    destruct (IH _ _ _ _ _ _ Hok3 H')
      as [T' [Hok' [Hv' [pushed [Es Hp]]]]].
    split; [eapply touches_trans; eauto |]. split; [exact Hok' |].
    split.
    + intros k u. rewrite Hv', Hv. intuition; subst; tauto.
    + destruct (n =? 0) eqn:En.
      * exists (other :: pushed). rewrite Es, <- app_assoc.
        split; [reflexivity |]. intros s [<- | Hs]; [| auto].
        apply nil_no_member. intros u Hu. apply Hv' in Hu.
        rewrite (Hempty eq_refl) in Hu. destruct Hu as [[] _].
      * exists pushed. auto.
Qed.

End Loops.

Arguments add_node_link_spec {Unit} Unit_eq_dec
  {nds l node neighbours h h' d d'} _ _.
Arguments nodes_with_new_dependencys_spec {Unit} Unit_eq_dec
  {stk h h' aft aft' acc deps} _ _.
Arguments remove_node_unlink_spec {Unit} Unit_eq_dec
  {node neighbours h h' d d'} _ _.
Arguments remove_node_rescan_spec {Unit} Unit_eq_dec
  {ord self_lst nds h h' aft aft' stk stk'} _ _.
Arguments rescue_spec {Unit} Unit_eq_dec {h aft aft' stk stk'} _ _ _.
Arguments release_spec {Unit} Unit_eq_dec
  {node others h h' aft aft' stk stk'} _ _.

(** ** Topological soundness of [next] *)

Section Soundness.
Context {Unit : Type}.
Variable Unit_eq_dec : forall x y : Unit, {x = y} + {x <> y}.
Variable obj : Unit -> ConfigUnit Unit.

Local Abbreviation Heap := (@Heap Unit).
Local Abbreviation SetDict := (@SetDict Unit).
Local Abbreviation SetOrder := (@SetOrder Unit).
Local Abbreviation KahnIterator := (@KahnIterator Unit).
Local Abbreviation eqb_unit := (eqb_unit Unit_eq_dec).
Local Abbreviation mem := (mem Unit_eq_dec).
Local Abbreviation dict_view := (dict_view Unit_eq_dec).
Local Abbreviation dict_ok := (@dict_ok Unit).
Local Abbreviation touches := (@touches Unit).
Local Abbreviation apart := (@apart Unit).
Local Abbreviation set_add := (set_add Unit_eq_dec).
Local Abbreviation excluded := (excluded Unit_eq_dec obj).
Local Abbreviation group_taken := (group_taken Unit_eq_dec obj).
Local Abbreviation add_node := (add_node Unit_eq_dec obj).
Local Abbreviation remove_node := (remove_node Unit_eq_dec obj).
Local Abbreviation refill_stack := (refill_stack Unit_eq_dec).
Local Abbreviation next := (next Unit_eq_dec obj).
Local Abbreviation pair_ok := (@pair_ok Unit).
Local Abbreviation iterator_ok := (iterator_ok Unit_eq_dec obj).

Lemma step_after (h h' : Heap) (aft aft' bef : SetDict) :
  pair_ok h aft bef -> touches h aft h' aft' -> dict_ok h' aft' ->
  pair_ok h' aft' bef.
Proof.
  intros [A [B C]] T Hok.
  destruct (touches_frame Unit_eq_dec T B C) as [B' [C' _]].
  split; [exact Hok | split; [exact B' | exact C']].
Qed.

Lemma step_before (h h' : Heap) (aft bef bef' : SetDict) :
  pair_ok h aft bef -> touches h bef h' bef' -> dict_ok h' bef' ->
  pair_ok h' aft bef'
  /\ forall k, dict_view h' aft k = dict_view h aft k.
Proof.
  intros [A [B C]] T Hok.
  destruct (touches_frame Unit_eq_dec T A (apart_sym C)) as [A' [C' V]].
  split; [| exact V].
  split; [exact A' | split; [exact Hok | apply apart_sym; exact C']].
Qed.

Lemma excluded_more (l l' : list Unit) (u : Unit) :
  excluded l u = true -> excluded (l ++ l') u = true.
Proof.
  unfold excluded. rewrite !existsb_exists.
  intros [p [Hp Ht]]. exists p. split; [exact Hp |].
  unfold group_taken in *. apply andb_true_iff in Ht.
  destruct Ht as [He Hm]. rewrite He, existsb_app, Hm. reflexivity.
Qed.

Lemma acyclic_no_self_after :
  acyclic obj -> forall u, ~ In u (after (obj u)).
Proof. intros [rank H] u Hu. specialize (H u u Hu). lia. Qed.

Lemma empty_iterator_ok (h0 : Heap) : iterator_ok (h0, KahnIterator_empty).
Proof.
  unfold iterator_ok, pair_ok, dict_ok, apart. simpl.
  repeat split; try constructor; simpl; try contradiction.
  all: intros; contradiction.
Qed.

(** [add_node] keeps the iterator in order. *)
Lemma add_node_ok (h h' : Heap) (k k' : KahnIterator) (node : Unit) :
  relation_consistent obj ->
  (forall u, ~ In u (after (obj u))) ->
  iterator_ok (h, k) ->
  add_node h k node = (h', k') ->
  iterator_ok (h', k').
Proof.
  intros Hcons Hirr [Hp [HI HE]] H. simpl in *.
  unfold add_node in H.
  destruct (mem node (lst k)) eqn:Em.
  { inversion H; subst. split; [exact Hp | split; assumption]. }
  destruct (add_node_link Unit_eq_dec (nodes k) (lst k) node
              (after (obj node)) h (k_before k)) as [h1 bef1] eqn:E1.
  destruct (add_node_link Unit_eq_dec (nodes k) (lst k) node
              (before (obj node)) h1 (k_after k)) as [h2 aft2] eqn:E2.
  destruct (if 0 <? length (after (obj node))
            then dd_assign Unit_eq_dec h2 aft2 node
                   (filter
                      (fun x => mem x (nodes k) && negb (mem x (lst k)))
                      (after (obj node)))
            else (h2, aft2)) as [h3 aft3] eqn:E3.
  destruct (if 0 <? length (before (obj node))
            then dd_assign Unit_eq_dec h3 bef1 node
                   (filter (fun x => mem x (nodes k)) (before (obj node)))
            else (h3, bef1)) as [h4 bef4] eqn:E4.
  destruct (if length (after (obj node)) =? 0
            then (true, h4, aft3)
            else
              let '(r, h, aft) := dd_get Unit_eq_dec h4 aft3 node in
              (forallb (fun x => mem x (lst k)) (heap_get h r), h, aft))
    as [[ready h5] aft5] eqn:E5.
  destruct (nodes_with_new_dependencys Unit_eq_dec h5 aft5
              (if ready then stack k ++ [node] else stack k))
    as [[deps h6] aft6] eqn:E6.
  inversion H; subst h' k'. clear H. simpl.
  (* lines 60-62 *)
  destruct (add_node_link_spec Unit_eq_dec (proj1 (proj2 Hp)) E1)
    as [T1 [Hok1 _]].
  destruct (step_before Hp T1 Hok1) as [Hp1 V1].
  (* lines 63-65 *)
  destruct (add_node_link_spec Unit_eq_dec (proj1 Hp1) E2)
    as [T2 [Hok2 V2]].
  pose proof (step_after Hp1 T2 Hok2) as Hp2.
  (* lines 67-70 *)
  assert (S3 : touches h2 aft2 h3 aft3 /\ dict_ok h3 aft3
               /\ (forall k', k' <> node ->
                     dict_view h3 aft3 k' = dict_view h2 aft2 k')
               /\ (after (obj node) <> [] ->
                   dict_view h3 aft3 node
                   = set_of_list Unit_eq_dec
                       (filter
                          (fun x => mem x (nodes k) && negb (mem x (lst k)))
                          (after (obj node))))).
  { destruct (after (obj node)) as [| a l] eqn:Ea; simpl in E3.
    - inversion E3; subst. split; [apply touches_refl |].
      split; [exact (proj1 Hp2) |]. split; [auto | congruence].
    - destruct (dd_assign_spec (proj1 Hp2) E3) as [T [Hok [Hn Ho]]].
      auto. }
  destruct S3 as [T3 [Hok3 [V3 V3n]]].
  pose proof (step_after Hp2 T3 Hok3) as Hp3.
  (* lines 71-72 *)
  assert (S4 : touches h3 bef1 h4 bef4 /\ dict_ok h4 bef4).
  { destruct (0 <? length (before (obj node))).
    - destruct (dd_assign_spec (proj1 (proj2 Hp3)) E4) as [T [Hok _]].
      auto.
    - inversion E4; subst. split; [apply touches_refl |].
      exact (proj1 (proj2 Hp3)). }
  destruct S4 as [T4 Hok4].
  destruct (step_before Hp3 T4 Hok4) as [Hp4 V4].
  (* line 74 *)
  assert (S5 : touches h4 aft3 h5 aft5 /\ dict_ok h5 aft5
               /\ forall k', dict_view h5 aft5 k' = dict_view h4 aft3 k').
  { destruct (length (after (obj node)) =? 0).
    - inversion E5; subst. split; [apply touches_refl |].
      split; [exact (proj1 Hp4) | auto].
    - destruct (dd_get Unit_eq_dec h4 aft3 node) as [[r hh] aa] eqn:Eg.
      inversion E5; subst.
      destruct (dd_get_spec (proj1 Hp4) Eg) as [T [Hok [_ [_ V]]]].
      auto. }
  destruct S5 as [T5 [Hok5 V5]].
  pose proof (step_after Hp4 T5 Hok5) as Hp5.
  (* lines 80-85 *)
  destruct (nodes_with_new_dependencys_spec Unit_eq_dec (proj1 Hp5) E6)
    as [T6 [Hok6 [V6 Hdeps]]].
  pose proof (step_after Hp5 T6 Hok6) as Hp6.
  simpl in Hdeps. subst deps. rewrite stack_remove_all_filter.
  assert (Vfinal : forall k', dict_view h6 aft6 k' = dict_view h3 aft3 k').
  { intros k'. rewrite V6, V5, V4. reflexivity. }
  split; [exact Hp6 |]. split.
  - intros o u Ho Hu Hun Hul Hue. rewrite Vfinal.
    apply set_add_In in Ho. apply set_add_In in Hun.
    destruct (Unit_eq_dec o node) as [-> | No].
    + (* the node itself: lines 67-70 *)
      rewrite V3n by (intros E; rewrite E in Hu; contradiction).
      apply set_of_list_In, filter_In. split; [exact Hu |].
      apply andb_true_iff. split.
      * apply mem_In. destruct Hun as [Hun | ->]; [exact Hun |].
        exfalso. exact (Hirr _ Hu).
      * apply negb_true_iff, mem_not_In. exact Hul.
    + rewrite V3 by exact No. apply V2.
      destruct Ho as [Ho | Ho]; [| contradiction].
      destruct (Unit_eq_dec u node) as [-> | Nu].
      * right. split; [reflexivity |]. split.
        -- apply Hcons. exact Hu.
        -- apply andb_true_iff. split; [apply mem_In; exact Ho |].
           rewrite Em. reflexivity.
      * left. rewrite V1. apply HI; auto.
        destruct Hun as [Hun | Hun]; [exact Hun | contradiction].
  - intros s Hs. apply filter_In in Hs. destruct Hs as [_ Hs].
    apply negb_true_iff, Nat.ltb_ge in Hs. rewrite V6.
    destruct (dict_view h5 aft5 s); [reflexivity | simpl in Hs; lia].
Qed.

(** [remove_node] keeps the iterator in order, whether it returns or
    raises. *)
Lemma remove_node_ok (ord : SetOrder) (h h' : Heap) (k k' : KahnIterator)
    (node : Unit) (e : option Exn) :
  iterator_ok (h, k) ->
  remove_node ord h k node = (e, h', k') ->
  iterator_ok (h', k').
Proof.
  intros [Hp [HI HE]] H. simpl in *. unfold remove_node in H.
  destruct (mem node (lst k)) eqn:Em.
  { inversion H; subst. split; [exact Hp | split; assumption]. }
  destruct (remove_node_unlink Unit_eq_dec node (after (obj node)) h
              (k_before k)) as [h1 bef1] eqn:E1.
  destruct (remove_node_unlink Unit_eq_dec node (before (obj node)) h1
              (k_after k)) as [h2 aft2] eqn:E2.
  (* lines 99-106 *)
  destruct (remove_node_unlink_spec Unit_eq_dec (proj1 (proj2 Hp)) E1)
    as [T1 [Hok1 _]].
  destruct (step_before Hp T1 Hok1) as [Hp1 V1].
  (* lines 108-115 *)
  destruct (remove_node_unlink_spec Unit_eq_dec (proj1 Hp1) E2)
    as [T2 [Hok2 V2]].
  pose proof (step_after Hp1 T2 Hok2) as Hp2.
  (* lines 117-124 *)
  destruct (dict_del_quiet_spec Unit_eq_dec node (proj1 Hp2))
    as [T3 [Hok3 [V3n V3]]].
  pose proof (step_after Hp2 T3 Hok3) as Hp3.
  destruct (dict_del_quiet_spec Unit_eq_dec node (proj1 (proj2 Hp3)))
    as [T4 [Hok4 _]].
  destruct (step_before Hp3 T4 Hok4) as [Hp4 V4].
  set (aft3 := dict_del_quiet Unit_eq_dec aft2 node) in *.
  set (bef4 := dict_del_quiet Unit_eq_dec bef1 node) in *.
  (* lines 125-128 *)
  set (stk := match remove_first Unit_eq_dec node (stack k) with
              | Some s => s
              | None => stack k
              end) in *.
  assert (Hstk : incl stk (stack k)).
  { subst stk. destruct (remove_first Unit_eq_dec node (stack k)) eqn:Er.
    - eapply remove_first_incl; eauto.
    - apply incl_refl. }
  assert (Hshrink : forall o u,
             In u (dict_view h (k_after k) o) -> u <> node -> o <> node ->
             In u (dict_view h2 aft3 o)).
  { intros o u Hu Nu No. rewrite V3 by exact No. apply V2.
    rewrite V1. split; [exact Hu | tauto]. }
  assert (Hempty : forall s,
             dict_view h (k_after k) s = [] -> dict_view h2 aft3 s = []).
  { intros s Hs. apply nil_no_member. intros u Hu.
    destruct (Unit_eq_dec s node) as [-> | Ns].
    - rewrite V3n in Hu. contradiction.
    - rewrite V3 in Hu by exact Ns. apply V2 in Hu.
      rewrite V1, Hs in Hu. tauto. }
  destruct (set_remove Unit_eq_dec node (nodes k)) as [nds |] eqn:Es.
  - (* line 130 and the re-scan *)
    destruct (remove_node_rescan Unit_eq_dec ord (lst k) nds h2 aft3 stk)
      as [[h5 aft5] stk5] eqn:E5.
    inversion H; subst h' k' e. clear H. simpl.
    destruct (remove_node_rescan_spec Unit_eq_dec (proj1 Hp4) E5)
      as [T5 [Hok5 [V5 [pushed [Epushed Hpushed]]]]].
    pose proof (step_after Hp4 T5 Hok5) as Hp5.
    apply set_remove_spec in Es. destruct Es as [Hout Hincl].
    split; [exact Hp5 |]. split.
    + intros o u Ho Hu Hun Hul Hue. rewrite V5.
      apply Hshrink.
      * apply HI; auto.
      * intros ->. contradiction.
      * intros ->. contradiction.
    + intros s Hs. rewrite V5. subst stk5. apply in_app_or in Hs.
      destruct Hs as [Hs | Hs]; [| auto].
      apply Hempty, HE, Hstk, Hs.
  - (* [self.nodes.remove(node)] raises *)
    inversion H; subst h' k' e. clear H. simpl.
    assert (Hout : ~ In node (nodes k)).
    { unfold set_remove in Es. destruct (mem node (nodes k)) eqn:Emn;
        [discriminate |]. apply mem_not_In in Emn. exact Emn. }
    split; [exact Hp4 |]. split.
    + intros o u Ho Hu Hun Hul Hue. apply Hshrink.
      * apply HI; auto.
      * intros ->. contradiction.
      * intros ->. contradiction.
    + intros s Hs. apply Hempty, HE, Hstk, Hs.
Qed.

(** [next] keeps the iterator in order, and a known node it returns
    has no known unit in its [after] list that is neither produced nor
    ruled out. *)
Lemma next_ok (ord : SetOrder) (fuel : nat) :
  forall (h h' : Heap) (k k' : KahnIterator) (r : NextResult),
    iterator_ok (h, k) ->
    next fuel ord h k = (r, h', k') ->
    iterator_ok (h', k')
    /\ forall z,
         r = Produced z -> In z (nodes k) ->
         forall u, In u (after (obj z)) -> In u (nodes k) ->
                   In u (lst k) \/ excluded (lst k) u = true.
Proof.
  induction fuel as [| fuel IH]; intros h h' k k' r Hok H.
  - inversion H; subst. split; [exact Hok | discriminate].
  - rewrite next_S in H. destruct Hok as [Hp [HI HE]]. simpl in *.
    destruct (refill_stack h k) as [[aft1 stk1] cycle] eqn:Er.
    (* lines 152-165 *)
    assert (S1 : pair_ok h aft1 (k_before k)
                 /\ (forall o, dict_view h aft1 o = dict_view h (k_after k) o)
                 /\ (forall s, In s stk1 -> dict_view h aft1 s = [])).
    { unfold refill_stack in Er.
      destruct (stack k) as [| s0 stk0] eqn:Estack.
      - destruct (has_pending h (k_after k)).
        + destruct (rescue Unit_eq_dec h (k_after k) []) as [a s] eqn:Ers.
          inversion Er; subst.
          destruct (rescue_spec Unit_eq_dec (proj1 Hp)
                      (fun s (Hs : In s []) => match Hs with end) Ers)
            as [T [Hok [V Hs]]].
          split; [exact (step_after Hp T Hok) |].
          split; [exact V |]. intros s0 Hs0. rewrite V. auto.
        + inversion Er; subst. split; [exact Hp |].
          split; [auto | contradiction].
      - inversion Er; subst. split; [exact Hp |]. split; [auto |].
        intros s Hs. apply HE. exact Hs. }
    destruct S1 as [Hp1 [V1 HE1]].
    assert (Kept : iterator_ok
                     (h, mkKahn aft1 (lst k) stk1 (k_before k) (nodes k))).
    { split; [exact Hp1 |]. split; simpl.
      - intros o u Ho Hu Hun Hul Hue. rewrite V1. apply HI; auto.
      - exact HE1. }
    destruct cycle.
    { inversion H; subst. split; [exact Kept | discriminate]. }
    destruct stk1 as [| node stk1].
    { inversion H; subst. split; [exact Kept | discriminate]. }
    destruct (dd_get Unit_eq_dec h (k_before k) node) as [[r0 h2] bef2]
      eqn:Eg.
    destruct (release Unit_eq_dec node (ord (heap_get h2 r0)) h2 aft1 stk1)
      as [[h3 aft3] stk3] eqn:Erel.
    (* line 172 *)
    destruct (dd_get_spec (proj1 (proj2 Hp1)) Eg) as [T2 [Hok2 _]].
    destruct (step_before Hp1 T2 Hok2) as [Hp2 V2].
    (* lines 172-180 *)
    destruct (release_spec Unit_eq_dec (proj1 Hp2) Erel)
      as [T3 [Hok3 [V3 [pushed [Epushed Hpushed]]]]].
    pose proof (step_after Hp2 T3 Hok3) as Hp3.
    assert (HE3 : forall s, In s stk3 -> dict_view h3 aft3 s = []).
    { intros s Hs. subst stk3. apply in_app_or in Hs.
      destruct Hs as [Hs | Hs]; [| auto].
      apply nil_no_member. intros u Hu. apply V3 in Hu.
      rewrite V2, (HE1 s (or_intror Hs)) in Hu. tauto. }
    assert (Hnode : In node (nodes k) ->
                    forall u, In u (after (obj node)) -> In u (nodes k) ->
                              In u (lst k) \/ excluded (lst k) u = true).
    { intros Hn u Hu Hun.
      destruct (mem u (lst k)) eqn:Eml;
        [apply mem_In in Eml; left; exact Eml |].
      destruct (excluded (lst k) u) eqn:Eex; [right; reflexivity |].
      exfalso. apply mem_not_In in Eml.
      pose proof (HI node u Hn Hu Hun Eml Eex) as Hin.
      rewrite <- V1, (HE1 node (or_introl eq_refl)) in Hin. exact Hin. }
    destruct (excluded (lst k) node) eqn:Ex.
    + (* the node is dropped *)
      apply IH in H; [exact H |].
      split; [exact Hp3 |]. split; simpl; [| exact HE3].
      intros o u Ho Hu Hun Hul Hue. apply V3. rewrite V2, V1.
      split; [apply HI; auto |].
      intros [-> _]. congruence.
    + (* the node is produced *)
      inversion H; subst h' k' r. clear H.
      split.
      * split; [exact Hp3 |]. split; simpl; [| exact HE3].
        intros o u Ho Hu Hun Hul Hue. apply V3. rewrite V2, V1.
        split.
        -- apply HI; auto.
           ++ intros Hin. apply Hul. apply in_or_app. left. exact Hin.
           ++ destruct (excluded (lst k) u) eqn:E; [| reflexivity].
              apply (excluded_more _ [node]) in E. congruence.
        -- intros [-> _]. apply Hul. apply in_or_app. right.
           left. reflexivity.
      * intros z Hz. inversion Hz; subst z. exact Hnode.
Qed.

(** Every reachable state of the iterator is in order. *)
Lemma reachable_ok (st : Heap * KahnIterator) :
  relation_consistent obj -> acyclic obj ->
  reachable Unit_eq_dec obj st -> iterator_ok st.
Proof.
  intros Hcons Hacyc. revert st. apply reachable_invariant.
  - apply empty_iterator_ok.
  - intros h k node Hok.
    destruct (add_node h k node) as [h' k'] eqn:E.
    eapply add_node_ok; eauto. apply acyclic_no_self_after. exact Hacyc.
  - intros ord h k node Hok.
    destruct (remove_node ord h k node) as [[e h'] k'] eqn:E. simpl.
    eapply remove_node_ok; eauto.
  - intros fuel ord h k Hok.
    destruct (next fuel ord h k) as [[r h'] k'] eqn:E. simpl.
    eapply next_ok; eauto.
Qed.

(** A known unit that [next] returns has waited for the known units of
    its [after] list. *)
Lemma returned_unit_has_waited
    (ord : SetOrder) (fuel : nat) (st : Heap * KahnIterator)
    (z u : Unit) (h' : Heap) (k' : KahnIterator) :
  acyclic obj ->
  relation_consistent obj ->
  reachable Unit_eq_dec obj st ->
  next fuel ord (fst st) (snd st) = (Produced z, h', k') ->
  In z (nodes (snd st)) ->
  In u (after (obj z)) ->
  In u (nodes (snd st)) ->
  In u (lst (snd st)) \/ excluded (lst (snd st)) u = true.
Proof.
  intros Hacyc Hcons Hreach H Hz Hu Hun.
  pose proof (reachable_ok Hcons Hacyc Hreach) as Hok.
  destruct st as [h k]. simpl in *.
  destruct (next_ok _ _ Hok H) as [_ Hsound].
  exact (Hsound z eq_refl Hz u Hu Hun).
Qed.

(** C1, as the code has it.  For an acyclic, relation-consistent set
    of units and an iterator in any state reached by [add_node],
    [remove_node] and [next] calls: when [next] returns a unit the
    iterator knows, every unit listed in that unit's [after] relation
    that the iterator knows has already been produced, or is ruled out
    by an exclusive group one of whose members has been produced. *)
Theorem next_respects_after
    (ord : SetOrder) (fuel : nat) (st : Heap * KahnIterator)
    (z u : Unit) (h' : Heap) (k' : KahnIterator) :
  acyclic obj ->
  relation_consistent obj ->
  reachable Unit_eq_dec obj st ->
  next fuel ord (fst st) (snd st) = (Produced z, h', k') ->
  In z (nodes (snd st)) ->
  In u (after (obj z)) ->
  In u (nodes (snd st)) ->
  In u (lst (snd st)) \/ excluded (lst (snd st)) u = true.
Proof. apply returned_unit_has_waited. Qed.

End Soundness.

(** ** The selection only grows *)

Section AsyncUnits.
Context {Unit : Type}.
Variable Unit_eq_dec : forall x y : Unit, {x = y} + {x <> y}.
Variable obj : Unit -> ConfigUnit Unit.
Variable ASYNC_UNIT : Unit.

Local Abbreviation Heap := (@Heap Unit).
Local Abbreviation Config := (@Config Unit).
Local Abbreviation KahnIterator := (@KahnIterator Unit).
Local Abbreviation SetOrder := (@SetOrder Unit).
Local Abbreviation mem := (mem Unit_eq_dec).
Local Abbreviation add_target := (add_target Unit_eq_dec obj).
Local Abbreviation exclude_others := (exclude_others Unit_eq_dec obj).
Local Abbreviation excluded := (excluded Unit_eq_dec obj).
Local Abbreviation next := (next Unit_eq_dec obj).
Local Abbreviation grows := (@grows Unit).

Lemma grows_refl (st : Heap * Config) : grows st st.
Proof. split; apply incl_refl. Qed.

Lemma grows_trans (s1 s2 s3 : Heap * Config) :
  grows s1 s2 -> grows s2 s3 -> grows s1 s3.
Proof. intros [A B] [C D]. split; eapply incl_tran; eauto. Qed.

Lemma exclude_others_grows (ord : SetOrder) (target container : Unit)
    (st st' : Heap * Config) (e : option Exn) :
  exclude_others ord target container st = (e, st') -> grows st st'.
Proof.
  unfold exclude_others. destruct (exclusive (obj container)).
  2:{ intros H. inversion H; subst. apply grows_refl. }
  apply for_each_always; [apply grows_refl | apply grows_trans |].
  clear. intros [h self] y e [h' self'] Hb.
  destruct (eqb_unit Unit_eq_dec y target).
  - inversion Hb; subst. apply grows_refl.
  - destruct (remove_node Unit_eq_dec obj ord h (unit_iterator self) y)
      as [[e1 h1] k1].
    destruct e1; inversion Hb; subst.
    + split; simpl; apply incl_refl.
    + split; simpl; [apply incl_refl |].
      rewrite fold_left_snoc. apply incl_appl, incl_appl, incl_refl.
Qed.

Lemma add_target_grows (ord : SetOrder) (fuel : nat) :
  forall (h h' : Heap) (self self' : Config) (target : Unit)
         (force : bool) (e : option Exn),
    add_target fuel ord h self target force = (e, (h', self')) ->
    grows (h, self) (h', self').
Proof.
  induction fuel as [| fuel IH]; intros h h' self self' target force e H.
  - inversion H; subst. apply grows_refl.
  - rewrite add_target_S in H.
    destruct (mem target (targets self));
      [inversion H; subst; apply grows_refl |].
    destruct (mem target (blacklisted_targets self));
      [inversion H; subst; apply grows_refl |].
    destruct (force
              || existsb (fun container => mem container (targets self))
                   (belongs (obj target)));
      [| inversion H; subst; apply grows_refl].
    cbv zeta in H.
    destruct (add_node Unit_eq_dec obj h
                (unit_iterator
                   (set_targets self (targets self ++ [target]))) target)
      as [h0 k0].
    match type of H with
    | match ?loop with _ => _ end = _ => destruct loop as [e1 st1] eqn:E1
    end.
    assert (G1 : grows (h, self) st1).
    { apply (grows_trans (s2 := (h0, set_iterator
                                       (set_targets self
                                          (targets self ++ [target])) k0))).
      - split; simpl; [apply incl_appl |]; apply incl_refl.
      - revert E1.
        apply for_each_always; [apply grows_refl | apply grows_trans |].
        intros [h1 s1] x e2 [h2 s2] Hx. simpl in Hx. eapply IH; eauto. }
    destruct e1 as [e1 |]; [inversion H; subst; exact G1 |].
    eapply grows_trans; [exact G1 |].
    revert H. apply for_each_always; [apply grows_refl | apply grows_trans |].
    intros s x e2 s' Hx. eapply exclude_others_grows; eauto.
Qed.

(** A forced [add_target] that returns leaves its target selected or
    blacklisted. *)
Lemma add_target_settles (ord : SetOrder) (fuel : nat) (h h' : Heap)
    (self self' : Config) (target : Unit) :
  add_target fuel ord h self target true = (None, (h', self')) ->
  In target (targets self') \/ In target (blacklisted_targets self').
Proof.
  intros H. pose proof (add_target_grows _ _ _ _ _ _ H) as [Gt Gb].
  simpl in *. destruct fuel as [| fuel]; [discriminate |].
  rewrite add_target_S in H.
  destruct (mem target (targets self)) eqn:Et.
  { apply mem_In in Et. left. apply Gt. exact Et. }
  destruct (mem target (blacklisted_targets self)) eqn:Eb.
  { apply mem_In in Eb. right. apply Gb. exact Eb. }
  simpl in H.
  destruct (add_node Unit_eq_dec obj h (unit_iterator self) target)
    as [h0 k0].
  match type of H with
  | match ?loop with _ => _ end = _ => destruct loop as [e1 st1] eqn:E1
  end.
  destruct e1 as [e1 |]; [discriminate |].
  assert (G1 : grows (h0, set_iterator
                            (set_targets self (targets self ++ [target]))
                            k0) st1).
  { revert E1.
    apply for_each_always; [apply grows_refl | apply grows_trans |].
    intros [h1 s1] x e2 [h2 s2] Hx. simpl in Hx.
    eapply add_target_grows; eauto. }
  assert (G2 : grows st1 (h', self')).
  { revert H.
    apply for_each_always; [apply grows_refl | apply grows_trans |].
    intros s x e2 s' Hx. eapply exclude_others_grows; eauto. }
  left. apply G2, G1. simpl. apply in_or_app. right. left. reflexivity.
Qed.

(** A forced [add_target] of a unit that is neither selected nor
    blacklisted, when it returns, has settled every unit of its
    [depends] list. *)
Lemma add_target_settles_depends (ord : SetOrder) (fuel : nat)
    (h h' : Heap) (self self' : Config) (target dependency : Unit) :
  mem target (targets self) = false ->
  mem target (blacklisted_targets self) = false ->
  add_target fuel ord h self target true = (None, (h', self')) ->
  In dependency (depends (obj target)) ->
  In dependency (targets self')
  \/ In dependency (blacklisted_targets self').
Proof.
  intros Et Eb H Hd. destruct fuel as [| fuel]; [discriminate |].
  rewrite add_target_S, Et, Eb in H. simpl in H.
  destruct (add_node Unit_eq_dec obj h (unit_iterator self) target)
    as [h0 k0].
  match type of H with
  | match ?loop with _ => _ end = _ => destruct loop as [e1 st1] eqn:E1
  end.
  destruct e1 as [e1 |]; [discriminate |].
  apply (for_each_steps _ grows
           (fun x st =>
              In x (targets (snd st))
              \/ In x (blacklisted_targets (snd st)))) in E1.
  - destruct E1 as [_ HQ].
    assert (G2 : grows st1 (h', self')).
    { revert H.
      apply for_each_always; [apply grows_refl | apply grows_trans |].
      intros s x e2 s' Hx. eapply exclude_others_grows; eauto. }
    destruct (HQ dependency) as [Hin | Hin].
    + apply in_or_app. left. exact Hd.
    + left. apply G2. exact Hin.
    + right. apply G2. exact Hin.
  - apply grows_refl.
  - apply grows_trans.
  - intros x s s' [Hx | Hx] [Gt Gb]; [left; apply Gt | right; apply Gb];
      exact Hx.
  - intros [h1 s1] x [h2 s2] Hx. simpl in Hx. split.
    + eapply add_target_grows; eauto.
    + eapply add_target_settles; eauto.
Qed.

End AsyncUnits.
(** ** Set orders on small sets *)

Section SetOrders.
Context {Unit : Type}.
Variable ord : @SetOrder Unit.

Lemma iter_order_nil : ord [] = [].
Proof. apply Permutation_nil, Permutation_sym, iter_order_perm. Qed.

Lemma iter_order_one (u : Unit) : ord [u] = [u].
Proof. apply Permutation_length_1_inv, Permutation_sym, iter_order_perm. Qed.

Lemma iter_order_two (u v : Unit) :
  ord [u; v] = [u; v] \/ ord [u; v] = [v; u].
Proof. apply Permutation_length_2_inv, Permutation_sym, iter_order_perm. Qed.

Lemma iter_order_In (l : list Unit) (u : Unit) : In u (ord l) <-> In u l.
Proof.
  split; apply Permutation_in;
    [ apply iter_order_perm | apply Permutation_sym, iter_order_perm ].
Qed.

End SetOrders.

(** Evaluate a run on concrete units for an arbitrary set order: the
    loops over sets of at most two elements are split by cases. *)
Ltac run_sets :=
  repeat (cbv - [iter_order];
          match goal with
          | |- context [iter_order ?o []] => rewrite (iter_order_nil o)
          | |- context [iter_order ?o [?u]] => rewrite (iter_order_one o u)
          | |- context [iter_order ?o [?u; ?v]] =>
              let E := fresh "E" in
              destruct (iter_order_two o u v) as [E | E]; rewrite E; clear E
          end);
  cbv - [iter_order].

(** ** Runs of the iterator on concrete units *)

Section Runs.
Import Examples.

(** C6, as the code has it.  With b before a, c before a, c after b,
    inserting d (d before c) once b has been produced makes the
    iteration continue with d, c, a, after which it is exhausted: the
    produced list is b, d, c, a.  This holds with both sides of every
    relation filled in, whatever the order in which a, b and c are
    handed to the iterator, and with each relation written on one side
    only, as [test_kahn.py] declares them, when c is handed over last;
    in both cases for every order in which the sets are visited and
    every recursion budget. *)
Theorem insert_before_pending_node :
  forall (ord : SetOrder) (fuel : nat),
    Forall
      (fun given : (U -> ConfigUnit U) * list U =>
         let run :=
           perform U_eq_dec (fst given)
             [Next (S fuel) ord; AddNode d; Next (S fuel) ord;
              Next (S fuel) ord; Next (S fuel) ord; Next (S fuel) ord]
             (KahnIterator_init U_eq_dec (fst given) [] (snd given)) in
         fst run =
           [Got (Produced b); Added; Got (Produced d); Got (Produced c);
            Got (Produced a); Got (Raised StopIteration)]
         /\ lst (snd (snd run)) = [b; d; c; a])
      [(mirrored, [a; b; c]); (mirrored, [a; c; b]); (mirrored, [b; a; c]);
       (mirrored, [b; c; a]); (mirrored, [c; a; b]); (mirrored, [c; b; a]);
       (declared, [a; b; c]); (declared, [b; a; c])].
Proof.
  intros ord fuel.
  repeat constructor; run_sets; reflexivity.
Qed.

(** C6, counterexample.  The relations are written on one side only,
    as [test_kahn.py] declares them, and the units are handed over as
    b, c, a.  When a is added, b and c are known, but the lists of a
    name neither of them, so a is ready at once: after b, and with d
    inserted before c is produced, the iteration goes on with a, d, c. *)
Lemma one_sided_relation_is_missed :
  let run :=
    perform U_eq_dec declared
      [Next 5 insertion_order; AddNode d; Next 5 insertion_order;
       Next 5 insertion_order; Next 5 insertion_order;
       Next 5 insertion_order]
      (KahnIterator_init U_eq_dec declared [] [b; c; a]) in
  In a (before (declared b)) /\ In a (before (declared c))
  /\ In b (after (declared c)) /\ In c (before (declared d))
  /\ fst run =
       [Got (Produced b); Added; Got (Produced a); Got (Produced d);
        Got (Produced c); Got (Raised StopIteration)]
  /\ lst (snd (snd run)) = [b; a; d; c]
  /\ lst (snd (snd run)) <> [b; d; c; a].
Proof.
  vm_compute. repeat split; auto. discriminate.
Qed.

(** C2. For a after b, b after c, c after a (both sides of every
    relation filled in), whatever the order in which the three units
    are handed to the iterator, the first [next] raises
    [CycleException]; nothing has been produced and the iterator is
    left as it was, so every later call raises it again. *)
Theorem three_cycle_raises :
  forall (ord : SetOrder) (fuel : nat),
    Forall
      (fun units =>
         let st := KahnIterator_init U_eq_dec cycle3 [] units in
         next U_eq_dec cycle3 (S fuel) ord (fst st) (snd st)
         = (Raised CycleException, fst st, snd st)
         /\ lst (snd st) = [])
      [[a; b; c]; [a; c; b]; [b; a; c]; [b; c; a]; [c; a; b]; [c; b; a]].
Proof.
  intros ord fuel.
  repeat constructor; run_sets; reflexivity.
Qed.

(** C5 (the code departs from the claim).  [copy] duplicates the two
    dictionaries but not the sets stored in them: one [next] on the copy
    empties pending sets of the original. *)
Theorem copy_shares_pending_sets :
  forall (ord : SetOrder) (fuel : nat),
    let st := KahnIterator_init U_eq_dec declared [] [a; b; c] in
    let original := snd st in
    let stepped :=
      next U_eq_dec declared (S fuel) ord (fst st) (copy original) in
    fst (fst stepped) = Produced b
    /\ s_after (snapshot (fst st) original)
       = [(a, [b; c]); (b, []); (c, [b])]
    /\ s_after (snapshot (snd (fst stepped)) original)
       = [(a, [c]); (b, []); (c, [])].
Proof.
  intros ord fuel. run_sets; repeat split; reflexivity.
Qed.

(** Three ways in which the iterator produces a node twice: a ready
    node is enqueued again by the re-scan of [remove_node]; a produced
    node is enqueued again when a node registered before it is released;
    a produced node whose empty pending set lingers is enqueued again
    by the rescue pass. *)
Lemma ready_node_requeued_by_removal :
  forall (ord : SetOrder) (fuel : nat),
    fst (perform U_eq_dec unrelated
           [RemoveNode ord b; Next (S fuel) ord; Next (S fuel) ord]
           (KahnIterator_init U_eq_dec unrelated [] [a; b]))
    = [Removed None; Got (Produced a); Got (Produced a)].
Proof. intros ord fuel. run_sets; reflexivity. Qed.

Lemma produced_node_requeued_by_late_insertion :
  forall (ord : SetOrder) (fuel : nat),
    fst (perform U_eq_dec late
           [Next (S fuel) ord; AddNode d; Next (S fuel) ord;
            Next (S fuel) ord]
           (KahnIterator_init U_eq_dec late [] [a]))
    = [Got (Produced a); Added; Got (Produced d); Got (Produced a)].
Proof. intros ord fuel. run_sets; reflexivity. Qed.

Lemma produced_node_requeued_by_rescue :
  forall (ord : SetOrder) (fuel : nat),
    fst (perform U_eq_dec stray_cycle
           [Next (S fuel) ord; Next (S fuel) ord; Next (S fuel) ord]
           (KahnIterator_init U_eq_dec stray_cycle [] [a; c; d]))
    = [Got (Produced a); Got (Produced a); Got (Raised CycleException)].
Proof. intros ord fuel. run_sets; reflexivity. Qed.

(** C8 (the code departs from the claim).  An engine whose targets are
    a two-phase unit a and two units waiting for each other sets a up
    twice and records it twice in its history before [init] raises
    [CycleException]. *)
Theorem unit_set_up_twice :
  forall (ord : SetOrder) (fuel steps limit : nat),
    let built :=
      Config_init U_eq_dec stray_cycle (S fuel) ord [] None
        (Some [a; c; d]) in
    let ran :=
      init U_eq_dec stray_cycle quiet (S (S (S steps))) (S limit) ord
        (fst (snd built)) (snd (snd built)) in
    fst built = None
    /\ fst ran = InitRaise CycleException
    /\ ran_units (snd (snd ran)) = [a; a]
    /\ calls (snd (snd ran)) = [EvSetup a; EvSetup a].
Proof.
  intros ord fuel steps limit. run_sets; repeat split; reflexivity.
Qed.

(** C1, counterexample.  x and y belong to the exclusive group G and z
    runs after y.  Once x has been produced, [next] drops y, releases z
    and returns it, although y is listed in [z.after], is known to the
    iterator and has not been produced. *)
Lemma successor_of_skipped_unit_is_returned :
  acyclic skipped_predecessor
  /\ relation_consistent skipped_predecessor
  /\ let run :=
       perform U_eq_dec skipped_predecessor
         [Next 1000 insertion_order; Next 1000 insertion_order]
         (KahnIterator_init U_eq_dec skipped_predecessor [] [x; y; z]) in
     fst run = [Got (Produced x); Got (Produced z)]
     /\ In y (after (skipped_predecessor z))
     /\ In y (nodes (snd (snd run)))
     /\ ~ In y (lst (snd (snd run))).
Proof.
  split; [| split].
  - exists (fun u => match u with z => 1 | _ => 0 end).
    intros u v; destruct u; simpl; intuition (subst; lia).
  - intros u v; destruct u, v; simpl; intuition congruence.
  - vm_compute. repeat split; auto.
    intros [H | [H | []]]; discriminate H.
Qed.


(** The selection of C3's scenario on a fresh engine: the other member
    was never handed to the iterator and [remove_node] raises
    [KeyError] before anything is blacklisted. *)
Lemma selecting_member_of_fresh_group_raises :
  forall (ord : SetOrder) (fuel : nat),
    let built :=
      Config_init U_eq_dec plain_group (S fuel) ord [] None (Some [x]) in
    fst built = Some KeyError
    /\ targets (snd (snd built)) = [x]
    /\ blacklisted_targets (snd (snd built)) = [].
Proof. intros ord fuel. run_sets; repeat split; reflexivity. Qed.

(** C9, counterexample.  a and b are two-phase units, b after a; the
    teardown of b raises.  [exit] passes the exception on: a stays in
    the history with its suspended instance and is never resumed. *)
Lemma failing_teardown_stops_exit :
  let built :=
    Config_init U_eq_dec pair 1000 insertion_order [] None (Some [a; b]) in
  let ran :=
    init U_eq_dec pair failing_teardown 1000 1000 insertion_order
      (fst (snd built)) (snd (snd built)) in
  let left := exit U_eq_dec pair failing_teardown (snd (snd ran)) in
  fst ran = InitReturn None
  /\ ran_units (snd (snd ran)) = [a; b]
  /\ fst left = Some (UnitException 1)
  /\ calls (snd left) = [EvSetup a; EvSetup b; EvTeardown b]
  /\ ran_units (snd left) = [a]
  /\ dict_find U_eq_dec (active_units (snd left)) a
     = Some (Some (Generator a)).
Proof. vm_compute. repeat split. Qed.

(** C10 (the code departs from the claim).  The group a is selected
    when the coroutine unit x, which belongs to a, is registered:
    [add_unit] has the engine [add_target(x, force=False)].  x is built
    by [ConfigUnit.__init__] with [ASYNC_UNIT] (here G) in its [depends]
    and [after] lists and is selected, being a member of a, but the
    [add_target] of its dependency passes [force=False] on and selects
    nothing: [ASYNC_UNIT] is neither selected nor blacklisted.  The
    synchronous [init] then calls x itself and returns the coroutine
    object.  The forced [add_target] of x selects [ASYNC_UNIT]. *)
Theorem weakly_selected_async_unit_is_set_up_by_init :
  forall (ord : SetOrder) (fuel steps limit : nat),
    let built :=
      Config_init U_eq_dec late_coroutine (S fuel) ord [] None (Some [a]) in
    let weak :=
      add_target U_eq_dec late_coroutine (S (S fuel)) ord (fst (snd built))
        (snd (snd built)) x false in
    let forced :=
      add_target U_eq_dec late_coroutine (S (S fuel)) ord (fst (snd built))
        (snd (snd built)) x true in
    let ran :=
      init U_eq_dec late_coroutine coroutine_call (S (S (S steps)))
        (S limit) ord (fst (snd weak)) (snd (snd weak)) in
    is_async (late_coroutine x) = true
    /\ depends (late_coroutine x) = [G]
    /\ after (late_coroutine x) = [G]
    /\ fst built = None
    /\ fst weak = None
    /\ targets (snd (snd weak)) = [a; x]
    /\ blacklisted_targets (snd (snd weak)) = []
    /\ fst ran = InitReturn (Some (OtherValue 0))
    /\ calls (snd (snd ran)) = [EvSetup x]
    /\ ran_units (snd (snd ran)) = [a; x]
    /\ fst forced = None
    /\ targets (snd (snd forced)) = [a; x; G].
Proof.
  intros ord fuel steps limit. run_sets; repeat split; reflexivity.
Qed.

End Runs.

(** ** The general statements at work on concrete units *)

Section Witnesses.
Import Examples.

Lemma mirrored_acyclic : acyclic mirrored.
Proof.
  exists (fun u => match u with a => 2 | c => 1 | _ => 0 end).
  intros u v; destruct u; simpl; intuition (subst; lia).
Defined.

Lemma mirrored_consistent : relation_consistent mirrored.
Proof.
  intros u v; destruct u, v; simpl; intuition congruence.
Defined.

(** Topological soundness when c is returned after b. *)
Lemma next_respects_after_witness :
  let st :=
    snd (perform U_eq_dec mirrored [Next 5 insertion_order]
           (KahnIterator_init U_eq_dec mirrored [] [a; b; c])) in
  acyclic mirrored
  /\ relation_consistent mirrored
  /\ fst (fst (next U_eq_dec mirrored 5 insertion_order (fst st) (snd st)))
     = Produced c
  /\ (In b (lst (snd st))
      \/ excluded U_eq_dec mirrored (lst (snd st)) b = true).
Proof.
  intros st.
  split; [exact mirrored_acyclic |].
  split; [exact mirrored_consistent |].
  split; [vm_compute; reflexivity |].
  eapply (@next_respects_after U U_eq_dec mirrored insertion_order 5 st c b).
  - exact mirrored_acyclic.
  - exact mirrored_consistent.
  - exists [], [a; b; c], [Next 5 insertion_order]. reflexivity.
  - vm_compute. reflexivity.
  - vm_compute. tauto.
  - vm_compute. tauto.
  - vm_compute. tauto.
Defined.


(** Both behaviours below set a and b up without a takeover. *)
Ltac pair_ready_facts beh :=
  assert (Hran : ran_units (pair_ready beh) = [a; b])
    by (vm_compute; reflexivity);
  assert (Hactive : active_units (pair_ready beh)
                    = [(a, Some (Generator a)); (b, Some (Generator b))])
    by (vm_compute; reflexivity);
  assert (Hentry : entry_point (pair_ready beh) = None)
    by (vm_compute; reflexivity);
  assert (Hcalls : calls (pair_ready beh) = [EvSetup a; EvSetup b])
    by (vm_compute; reflexivity);
  assert (Hact : history_active U_eq_dec (pair_ready beh))
    by (intros u Hu; rewrite Hran in Hu; rewrite Hactive;
        destruct Hu as [<- | [<- | []]]; discriminate).

(** Teardown in reverse: b is torn down, then a. *)
Lemma exit_tears_down_in_reverse_witness :
  exists self',
    exit U_eq_dec pair quiet (pair_ready quiet) = (None, self')
    /\ calls self'
       = [EvSetup a; EvSetup b; EvTeardown b; EvTeardown a]
    /\ ran_units self' = [].
Proof.
  pair_ready_facts (@quiet).
  destruct (@exit_tears_down_in_reverse U U_eq_dec pair quiet
              (pair_ready quiet) [] [a; b])
    as [self' [E [Hc [Hr _]]]].
  - split; [exact Hran |]. split; [| left; reflexivity].
    intros u _. rewrite Hentry. discriminate.
  - rewrite Hran. repeat constructor; simpl; intuition discriminate.
  - exact Hact.
  - intros u i log e _ _ H. simpl in H. inversion H. reflexivity.
  - exists self'. split; [exact E |]. split; [| exact Hr].
    rewrite Hc, Hcalls, Hactive. reflexivity.
Defined.

(** A failing teardown: the teardown of b raises and a is left
    alone. *)
Lemma exit_stops_at_failing_teardown_witness :
  exists self',
    exit U_eq_dec pair failing_teardown (pair_ready failing_teardown)
    = (Some (UnitException 1), self')
    /\ calls self' = [EvSetup a; EvSetup b; EvTeardown b]
    /\ ran_units self' = [a].
Proof.
  pair_ready_facts (@failing_teardown).
  destruct (@exit_stops_at_failing_teardown U U_eq_dec pair failing_teardown
              (pair_ready failing_teardown) [a] [] b (Generator b)
              (UnitException 1))
    as [self' [E [Hc [Hr _]]]].
  - exact Hran.
  - rewrite Hran. repeat constructor; simpl; intuition discriminate.
  - intros v _. rewrite Hentry. discriminate.
  - exact Hact.
  - intros v i log e [].
  - rewrite Hactive. reflexivity.
  - reflexivity.
  - reflexivity.
  - discriminate.
  - exists self'. split; [exact E |]. split; [| exact Hr].
    rewrite Hc, Hcalls. reflexivity.
Defined.

(** Stopping the initialization: the setup of b raises
    [StopInitException] after a has been set up. *)
Lemma stop_init_ends_init_witness :
  let config :=
    mkConfig (Some (FinalFunction false)) [a; b] [] (snd pair_built)
      [] [] None [] in
  let ran :=
    init U_eq_dec pair stopping_setup 5 5 insertion_order (fst pair_built)
      config in
  stop_init_raised stopping_setup config (snd (snd ran)) b
  /\ fst ran = InitReturn None
  /\ c_func (snd (snd ran)) = None
  /\ ran_units (snd (snd ran)) = [a]
  /\ run U_eq_dec pair stopping_setup G 5 5 5 insertion_order
       (fst pair_built) None config None
     = (fst (exit U_eq_dec pair stopping_setup (snd (snd ran))),
        (fst (snd ran), snd (exit U_eq_dec pair stopping_setup (snd (snd ran))))).
Proof.
  intros config ran.
  assert (Hraised : stop_init_raised stopping_setup config (snd (snd ran)) b).
  { exists [a], []. split; reflexivity. }
  destruct (@stop_init_ends_init U U_eq_dec pair stopping_setup G
              insertion_order 5 5 (fst pair_built) (fst (snd ran)) config
              (snd (snd ran))
              (fst ran) b)
    as [Hr [Hf [_ [_ [_ Hrun]]]]].
  - reflexivity.
  - exact Hraised.
  - split; [exact Hraised |]. split; [exact Hr |]. split; [exact Hf |].
    split; [reflexivity |].
    apply Hrun. reflexivity.
Defined.

End Witnesses.

(** * Further properties *)

(** ** The iterator between calls *)

Section IteratorFacts.
Context {Unit : Type}.
Variable Unit_eq_dec : forall x y : Unit, {x = y} + {x <> y}.
Variable obj : Unit -> ConfigUnit Unit.

Local Abbreviation Heap := (@Heap Unit).
Local Abbreviation SetDict := (@SetDict Unit).
Local Abbreviation SetOrder := (@SetOrder Unit).
Local Abbreviation KahnIterator := (@KahnIterator Unit).
Local Abbreviation eqb_unit := (eqb_unit Unit_eq_dec).
Local Abbreviation mem := (mem Unit_eq_dec).
Local Abbreviation dict_find := (dict_find Unit_eq_dec).
Local Abbreviation dd_get := (dd_get Unit_eq_dec).
Local Abbreviation dd_len := (dd_len Unit_eq_dec).
Local Abbreviation excluded := (excluded Unit_eq_dec obj).
Local Abbreviation has_pending := (@has_pending Unit).
Local Abbreviation rescue := (rescue Unit_eq_dec).
Local Abbreviation refill_stack := (refill_stack Unit_eq_dec).
Local Abbreviation add_node := (add_node Unit_eq_dec obj).
Local Abbreviation remove_node := (remove_node Unit_eq_dec obj).
Local Abbreviation next := (next Unit_eq_dec obj).
Local Abbreviation call := (call Unit_eq_dec obj).
Local Abbreviation perform := (perform Unit_eq_dec obj).
Local Abbreviation KahnIterator_init := (KahnIterator_init Unit_eq_dec obj).
Local Abbreviation unconstrained := (unconstrained obj).

(** *** The produced list is the history of [next] *)

Lemma call_lst (c : Call) (st : Heap * KahnIterator) :
  lst (snd (snd (call c st)))
  = lst (snd st) ++ returned [fst (call c st)].
Proof.
  destruct st as [h k]. destruct c as [node | ord node | fuel ord]; simpl.
  - rewrite app_nil_r. apply add_node_lst.
  - pose proof (remove_node_lst Unit_eq_dec obj ord h k node) as E.
    destruct (remove_node ord h k node) as [[e h'] k']. simpl in *.
    rewrite app_nil_r. exact E.
  - destruct (next fuel ord h k) as [[r h'] k'] eqn:En. simpl.
    apply next_lst in En. destruct En as [_ Hl].
    destruct r as [node | e]; simpl.
    + apply Hl.
    + rewrite app_nil_r. exact Hl.
Qed.

(** X1. Whatever sequence of [add_node], [remove_node] and [next]
    calls is made on an iterator, its [lst] afterwards is its [lst]
    before followed by the nodes the [next] calls returned, in the order
    of the calls: nothing else ever enters the list and nothing leaves
    it. *)
Theorem lst_is_history_of_returned_nodes
    (l : list Call) (st : Heap * KahnIterator) :
  lst (snd (snd (perform l st)))
  = lst (snd st) ++ returned (fst (perform l st)).
Proof.
  revert st. induction l as [| c l IH]; intros st; simpl.
  - rewrite app_nil_r. reflexivity.
  - pose proof (call_lst c st) as Hc.
    destruct (call c st) as [a st1]. simpl in Hc.
    specialize (IH st1).
    destruct (perform l st1) as [rs st2]. simpl in *.
    rewrite IH, Hc, <- app_assoc. f_equal.
    rewrite app_nil_r. reflexivity.
Qed.

(** *** An exhausted or blocked iterator stays so *)

Lemma rescue_nothing (h : Heap) (aft aft' : SetDict) :
  rescue h aft [] = (aft', []) -> aft' = aft.
Proof.
  unfold rescue. intros H. apply pair_equal_spec in H.
  destruct H as [H1 H2]. rewrite H2 in H1. simpl in H1. congruence.
Qed.

Lemma next_stuck (ord : SetOrder) (fuel : nat) :
  forall h k e h' k',
    next fuel ord h k = (Raised e, h', k') ->
    e = StopIteration \/ e = CycleException ->
    stack k' = []
    /\ refill_stack h' k'
       = (k_after k', [],
          match e with CycleException => true | _ => false end).
Proof.
  induction fuel as [| fuel IH]; intros h k e h' k' H He.
  - inversion H; subst. destruct He; discriminate.
  - rewrite next_S in H.
    assert (Hgo : forall aft node stk,
               (let '(r, h, bef) := dd_get h (k_before k) node in
                let '(h, aft, stk) :=
                  release Unit_eq_dec node (ord (heap_get h r)) h aft stk in
                if excluded (lst k) node
                then next fuel ord h (mkKahn aft (lst k) stk bef (nodes k))
                else (Produced node, h,
                      mkKahn aft (lst k ++ [node]) stk bef (nodes k)))
               = (Raised e, h', k') ->
               stack k' = []
               /\ refill_stack h' k'
                  = (k_after k', [],
                     match e with CycleException => true | _ => false end)).
    { intros aft node stk G.
      destruct (dd_get h (k_before k) node) as [[r0 h0] bef].
      destruct (release Unit_eq_dec node (ord (heap_get h0 r0)) h0 aft stk)
        as [[h1 aft1] stk1].
      destruct (excluded (lst k) node); [| discriminate].
      eapply IH; eauto. }
    unfold refill_stack in H.
    destruct (stack k) as [| node stk0] eqn:Es.
    + destruct (has_pending h (k_after k)) eqn:Ep.
      * destruct (rescue h (k_after k) []) as [aft stk] eqn:Er.
        destruct stk as [| node stk]; [| eapply Hgo; exact H].
        inversion H; subst. simpl. split; [reflexivity |].
        pose proof (rescue_nothing Er) as ->.
        unfold refill_stack. cbn [stack k_after]. rewrite Ep, Er. reflexivity.
      * inversion H; subst. simpl. split; [reflexivity |].
        unfold refill_stack. cbn [stack k_after]. rewrite Ep. reflexivity.
    + eapply Hgo; exact H.
Qed.

(** X2. Once [next] has raised [StopIteration] (no node left) or
    [CycleException] (only nodes that wait for each other), every
    further [next] raises the same exception and changes nothing, as
    long as no node is added or removed in between. *)
Theorem exhausted_or_blocked_iterator_stays_so
    (fuel fuel' : nat) (ord ord' : SetOrder) (h h' : Heap)
    (k k' : KahnIterator) (e : Exn) :
  next fuel ord h k = (Raised e, h', k') ->
  e = StopIteration \/ e = CycleException ->
  next (S fuel') ord' h' k' = (Raised e, h', k').
Proof.
  intros H He. destruct (next_stuck _ _ _ _ H He) as [Hs Hr].
  rewrite next_S, Hr.
  destruct k' as [aft l stk bef nds]. simpl in *. subst stk.
  destruct He; subst e; reflexivity.
Qed.

(** *** Removing a node *)

Lemma remove_node_raises (ord : SetOrder) (h : Heap) (k : KahnIterator)
    (node : Unit) :
  fst (fst (remove_node ord h k node))
  = if mem node (lst k) then Some PlainException
    else if mem node (nodes k) then None else Some KeyError.
Proof.
  unfold remove_node, set_remove.
  destruct (mem node (lst k)); [reflexivity |].
  repeat break_match; reflexivity.
Qed.

(** X3. A node can be taken out of the iterator only once: after a
    [remove_node] that returned, removing the same node again raises
    [KeyError] (from [self.nodes.remove(node)]), whatever happened to
    the other nodes. *)
Theorem node_is_removed_only_once
    (ord ord' : SetOrder) (h h' : Heap) (k k' : KahnIterator) (node : Unit) :
  remove_node ord h k node = (None, h', k') ->
  fst (fst (remove_node ord' h' k' node)) = Some KeyError.
Proof.
  intros H. rewrite remove_node_raises.
  pose proof (remove_node_raises ord h k node) as Hr.
  pose proof (remove_node_lst Unit_eq_dec obj ord h k node) as Hl.
  pose proof (remove_node_nodes Unit_eq_dec obj _ _ _ _ H) as [_ Hn].
  rewrite H in Hr, Hl. simpl in Hr, Hl. rewrite Hl.
  destruct (mem node (lst k)); [discriminate |].
  destruct (mem node (nodes k')) eqn:Em; [| reflexivity].
  apply mem_In in Em. exfalso. apply Hn; auto.
Qed.

(** *** Units without constraints *)

Lemma heap_get_alloc_nil (h : Heap) (r : Ref) :
  heap_get h r = [] -> heap_get (h ++ [[]]) r = [].
Proof.
  unfold heap_get. intros H.
  destruct (Nat.lt_ge_cases r (length h)) as [L | L].
  - rewrite app_nth1; auto.
  - rewrite app_nth2 by lia.
    destruct (r - length h) as [| [| n]]; reflexivity.
Qed.

Lemma sets_empty_alloc (h : Heap) (d : SetDict) :
  sets_empty h d -> sets_empty (h ++ [[]]) d.
Proof. intros H k r Hin. apply heap_get_alloc_nil. eapply H; eauto. Qed.

Lemma dd_get_empty (h h' : Heap) (d d' d2 : SetDict) (k : Unit) (r : Ref) :
  sets_empty h d -> sets_empty h d2 ->
  dd_get h d k = (r, h', d') ->
  heap_get h' r = [] /\ sets_empty h' d' /\ sets_empty h' d2.
Proof.
  intros Hd Hd2. unfold dd_get.
  destruct (dict_find d k) as [r0 |] eqn:Ef; intros H; inversion H; subst.
  - split; [| auto]. eapply Hd. eapply dict_find_In; eauto.
  - split; [apply heap_get_alloc_new |].
    split; [| apply sets_empty_alloc; exact Hd2].
    intros k' r' Hin. apply in_app_or in Hin.
    destruct Hin as [Hin | [Hin | []]].
    + apply heap_get_alloc_nil. eapply Hd; eauto.
    + inversion Hin; subst. apply heap_get_alloc_new.
Qed.

Lemma dd_len_empty (h h' : Heap) (d d' d2 : SetDict) (k : Unit) (n : nat) :
  sets_empty h d -> sets_empty h d2 ->
  dd_len h d k = (n, h', d') ->
  n = 0 /\ sets_empty h' d' /\ sets_empty h' d2.
Proof.
  intros Hd Hd2. unfold dd_len.
  destruct (dd_get h d k) as [[r h1] d1] eqn:Eg. intros H.
  inversion H; subst. clear H.
  destruct (@dd_get_empty _ _ _ _ _ _ _ Hd Hd2 Eg) as [Hr [H1 H2]].
  rewrite Hr. auto.
Qed.

Lemma nodes_with_new_dependencys_empty (bef : SetDict) (stk : list Unit) :
  forall acc h aft,
    sets_empty h aft -> sets_empty h bef ->
    exists h' aft',
      fold_left
        (fun (st : list Unit * Heap * SetDict) stack_node =>
           let '(acc, h, aft) := st in
           let '(n, h, aft) := dd_len h aft stack_node in
           if 0 <? n then (acc ++ [stack_node], h, aft) else (acc, h, aft))
        stk (acc, h, aft)
      = (acc, h', aft')
      /\ sets_empty h' aft' /\ sets_empty h' bef.
Proof.
  induction stk as [| x stk IH]; intros acc h aft Ha Hb; simpl.
  - eauto.
  - destruct (dd_len h aft x) as [[n h1] aft1] eqn:El.
    destruct (@dd_len_empty _ _ _ _ _ _ _ Ha Hb El) as [-> [Ha1 Hb1]]. simpl.
    apply IH; auto.
Qed.

Lemma unconstrained_not_excluded (l : list Unit) (u : Unit) :
  unconstrained u -> excluded l u = false.
Proof.
  intros [_ [_ Hg]]. unfold excluded.
  destruct (existsb (group_taken Unit_eq_dec obj l) (belongs (obj u))) eqn:E;
    [| reflexivity].
  apply existsb_exists in E. destruct E as [g [Hin Ht]].
  unfold group_taken in Ht. rewrite (Hg g Hin) in Ht. discriminate.
Qed.

Lemma add_node_unconstrained (h : Heap) (k : KahnIterator) (node : Unit) :
  unconstrained node -> lst k = [] ->
  sets_empty h (k_after k) -> sets_empty h (k_before k) ->
  exists h' k',
    add_node h k node = (h', k')
    /\ stack k' = stack k ++ [node] /\ lst k' = []
    /\ sets_empty h' (k_after k') /\ sets_empty h' (k_before k').
Proof.
  intros [Hafter [Hbefore _]] Hl Ha Hb.
  unfold add_node, add_node_link, nodes_with_new_dependencys.
  rewrite Hl, Hafter, Hbefore. simpl.
  destruct (@nodes_with_new_dependencys_empty (k_before k)
              (stack k ++ [node]) [] h (k_after k) Ha Hb)
    as [h' [aft' [E [Ha' Hb']]]].
  rewrite E. simpl. eauto 10.
Qed.

Lemma init_unconstrained (units : list Unit) :
  forall h k,
    (forall u, In u units -> unconstrained u) -> lst k = [] ->
    sets_empty h (k_after k) -> sets_empty h (k_before k) ->
    exists h' k',
      fold_left (fun (st : Heap * KahnIterator) unit =>
                   let '(h, k) := st in add_node h k unit)
        units (h, k) = (h', k')
      /\ stack k' = stack k ++ units /\ lst k' = []
      /\ sets_empty h' (k_after k') /\ sets_empty h' (k_before k').
Proof.
  induction units as [| u units IH]; intros h k Hu Hl Ha Hb; simpl.
  - exists h, k. rewrite app_nil_r. auto.
  - destruct (@add_node_unconstrained h k u (Hu u (or_introl eq_refl)) Hl Ha Hb)
      as [h1 [k1 [E [Hs [Hl1 [Ha1 Hb1]]]]]].
    rewrite E.
    destruct (IH h1 k1) as [h2 [k2 [E2 [Hs2 R]]]]; auto.
    { intros v Hv. apply Hu. right. exact Hv. }
    exists h2, k2. rewrite E2, Hs2, Hs, <- app_assoc. auto.
Qed.

Lemma next_unconstrained (fuel : nat) (ord : SetOrder) (h : Heap)
    (k : KahnIterator) (node : Unit) (stk : list Unit) :
  stack k = node :: stk -> unconstrained node ->
  sets_empty h (k_after k) -> sets_empty h (k_before k) ->
  exists h' k',
    next (S fuel) ord h k = (Produced node, h', k')
    /\ stack k' = stk
    /\ sets_empty h' (k_after k') /\ sets_empty h' (k_before k').
Proof.
  intros Hs Hu Ha Hb. rewrite next_S. unfold refill_stack. rewrite Hs.
  destruct (dd_get h (k_before k) node) as [[r h1] bef1] eqn:Eg.
  destruct (@dd_get_empty _ _ _ _ _ _ _ Hb Ha Eg) as [Hr [Hb1 Ha1]].
  rewrite Hr, iter_order_nil. simpl.
  rewrite (@unconstrained_not_excluded (lst k) node Hu). eauto 10.
Qed.

Lemma next_nothing_left (fuel : nat) (ord : SetOrder) (h : Heap)
    (k : KahnIterator) :
  stack k = [] -> sets_empty h (k_after k) ->
  next (S fuel) ord h k = (Raised StopIteration, h, k).
Proof.
  intros Hs Ha. rewrite next_S. unfold refill_stack. rewrite Hs.
  assert (Hp : has_pending h (k_after k) = false).
  { unfold has_pending. apply andb_false_iff. right.
    destruct (existsb _ (k_after k)) eqn:E; [| reflexivity].
    apply existsb_exists in E. destruct E as [[u r] [Hin Hlen]].
    simpl in Hlen. rewrite (Ha u r Hin) in Hlen. discriminate. }
  rewrite Hp. destruct k; simpl in *; subst; reflexivity.
Qed.

Lemma drain_unconstrained (fuel : nat) (ord : SetOrder) (stk : list Unit) :
  forall h k,
    stack k = stk -> (forall u, In u stk -> unconstrained u) ->
    sets_empty h (k_after k) -> sets_empty h (k_before k) ->
    fst (perform (repeat (Next (S fuel) ord) (S (length stk))) (h, k))
    = map (fun u => Got (Produced u)) stk ++ [Got (Raised StopIteration)].
Proof.
  induction stk as [| node stk IH]; intros h k Hs Hu Ha Hb.
  - cbn [length repeat perform call fst snd].
    rewrite (@next_nothing_left fuel ord h k Hs Ha). reflexivity.
  - destruct (@next_unconstrained fuel ord h k node stk Hs
                (Hu node (or_introl eq_refl)) Ha Hb) as [h1 [k1 [E [Hs1 [Ha1 Hb1]]]]].
    change (repeat (Next (S fuel) ord) (S (length (node :: stk))))
      with (Next (S fuel) ord
              :: repeat (Next (S fuel) ord) (S (length stk))).
    cbn [perform call fst snd]. rewrite E.
    specialize (IH h1 k1 Hs1 (fun v Hv => Hu v (or_intror Hv)) Ha1 Hb1).
    destruct (perform (repeat (Next (S fuel) ord) (S (length stk)))
                (h1, k1)) as [rs st2].
    simpl in *. rewrite IH. reflexivity.
Qed.

(** X4. Units that have no [before] and no [after] relation and
    belong to no exclusive group are handed out by an iterator built
    from them in exactly the order of the list given to
    [KahnIterator(units)], a unit listed twice being handed out twice,
    and the next call raises [StopIteration]. *)
Theorem unconstrained_units_come_out_in_the_order_given
    (units : list Unit) (h0 : Heap) (fuel : nat) (ord : SetOrder) :
  (forall u, In u units -> unconstrained u) ->
  fst (perform (repeat (Next (S fuel) ord) (S (length units)))
         (KahnIterator_init h0 units))
  = map (fun u => Got (Produced u)) units ++ [Got (Raised StopIteration)].
Proof.
  intros Hu. unfold KahnIterator_init.
  destruct (@init_unconstrained units h0 KahnIterator_empty Hu eq_refl)
    as [h1 [k1 [E [Hs [_ [Ha Hb]]]]]]; try (intros ? ? []).
  rewrite E. apply drain_unconstrained; auto.
Qed.

End IteratorFacts.

(** ** The engine: setup passes *)

Section EngineFacts.
Context {Unit : Type}.
Variable Unit_eq_dec : forall x y : Unit, {x = y} + {x <> y}.
Variable obj : Unit -> ConfigUnit Unit.
Variable beh : @Behaviour Unit.
Variable ASYNC_UNIT : Unit.

Local Abbreviation Heap := (@Heap Unit).
Local Abbreviation Config := (@Config Unit).
Local Abbreviation SetOrder := (@SetOrder Unit).
Local Abbreviation mem := (mem Unit_eq_dec).
Local Abbreviation dict_set := (dict_set Unit_eq_dec).
Local Abbreviation next := (next Unit_eq_dec obj).
Local Abbreviation setup_unit := (setup_unit Unit_eq_dec obj beh).
Local Abbreviation init := (init Unit_eq_dec obj beh).
Local Abbreviation exit := (exit Unit_eq_dec obj beh).
Local Abbreviation run := (run Unit_eq_dec obj beh ASYNC_UNIT).
Local Abbreviation run_select := (run_select Unit_eq_dec obj ASYNC_UNIT).
Local Abbreviation runnable := (runnable Unit_eq_dec obj).

Lemma setup_unit_cases (self : Config) (unit : Unit) :
  (runnable (blacklisted_targets self) unit = false
   /\ setup_unit self unit = (Returns (None, None), self))
  \/ (runnable (blacklisted_targets self) unit = true
      /\ exists instance,
           setup_unit self unit
           = (match setup beh unit (calls self) with
              | Returns result => Returns (instance, result)
              | Raises e => Raises e
              end, record_call self (EvSetup unit))).
Proof.
  unfold setup_unit, runnable.
  destruct (mem unit (blacklisted_targets self)); [left; auto |].
  destruct (is_empty (obj unit)); [left; auto |].
  right. split; [reflexivity |]. eexists.
  destruct (setup beh unit (calls self)); reflexivity.
Qed.

(** What one [init] pass calls and records. *)
Lemma init_pass
    (ord : SetOrder) (limit steps : nat) :
  forall (h : Heap) (self : Config) (r : InitResult) (h' : Heap)
         (self' : Config),
    init steps limit ord h self = (r, (h', self')) ->
    exists produced,
      lst (unit_iterator self') = lst (unit_iterator self) ++ produced
      /\ blacklisted_targets self' = blacklisted_targets self
      /\ calls self'
         = calls self
           ++ map EvSetup
                (filter (runnable (blacklisted_targets self)) produced)
      /\ (ran_units self' = ran_units self ++ produced
          \/ exists pre u e,
               produced = pre ++ [u]
               /\ ran_units self' = ran_units self ++ pre
               /\ runnable (blacklisted_targets self) u = true
               /\ setup beh u
                    (calls self
                     ++ map EvSetup
                          (filter (runnable (blacklisted_targets self)) pre))
                  = Raises e
               /\ r = init_answer e).
Proof.
  induction steps as [| steps IH]; intros h self r h' self' H.
  - inversion H; subst. exists []. simpl. rewrite !app_nil_r. auto.
  - rewrite init_S in H.
    destruct (next limit ord h (unit_iterator self)) as [[res h1] k1] eqn:En.
    apply next_lst in En. destruct En as [_ Hlst].
    destruct res as [unit | e].
    2:{ assert (Hself : self' = set_iterator self k1)
          by (destruct e; inversion H; reflexivity).
        subst self'. exists []. simpl. rewrite !app_nil_r. auto. }
    destruct Hlst as [Hlst _]. cbv beta iota zeta in H.
    destruct (setup_unit_cases (set_iterator self k1) unit)
      as [[Hrun Es] | [Hrun [instance Es]]]; rewrite Es in H; clear Es;
      simpl in Hrun.
    + (* skipped: blacklisted or empty *)
      simpl in H. apply IH in H.
      destruct H as [produced [Hl [Hb [Hc Hr]]]]. simpl in *.
      exists (unit :: produced). rewrite Hl, Hlst, <- app_assoc. simpl.
      rewrite Hrun. repeat split; auto.
      destruct Hr as [Hr | [pre [u [e [Hp [Hr [Hu [Hs Hres]]]]]]]].
      * left. rewrite Hr, <- app_assoc. reflexivity.
      * right. exists (unit :: pre), u, e. subst produced. simpl.
        rewrite Hrun, Hr, <- app_assoc. auto.
    + destruct (setup beh unit (calls (set_iterator self k1)))
        as [result | e] eqn:Eo; simpl in Eo.
      * destruct result as [v |].
        -- inversion H; subst. simpl. exists [unit]. simpl.
           rewrite Hrun. auto.
        -- apply IH in H.
           destruct H as [produced [Hl [Hb [Hc Hr]]]]. simpl in *.
           exists (unit :: produced). rewrite Hl, Hlst, <- app_assoc. simpl.
           rewrite Hrun, Hc, <- app_assoc. repeat split; auto.
           destruct Hr as [Hr | [pre [u [e [Hp [Hr [Hu [Hs Hres]]]]]]]].
           ++ left. rewrite Hr, <- app_assoc. reflexivity.
           ++ right. exists (unit :: pre), u, e. subst produced. simpl.
              rewrite Hrun, Hr, <- !app_assoc. simpl.
              rewrite <- app_assoc in Hs. auto.
      * exists [unit]. 
        assert (Hst : self' = (if match e with StopInitException => true
                                           | _ => false end
                               then set_func
                                      (record_call (set_iterator self k1)
                                         (EvSetup unit)) None
                               else record_call (set_iterator self k1)
                                      (EvSetup unit))
                      /\ r = init_answer e)
          by (destruct e; inversion H; subst; auto).
        destruct Hst as [-> ->].
        assert (G : forall P : Config -> Prop,
                   P (set_func (record_call (set_iterator self k1)
                                  (EvSetup unit)) None) ->
                   P (record_call (set_iterator self k1) (EvSetup unit)) ->
                   P (if match e with StopInitException => true
                               | _ => false end
                      then set_func
                             (record_call (set_iterator self k1)
                                (EvSetup unit)) None
                      else record_call (set_iterator self k1)
                             (EvSetup unit)))
          by (intros P P1 P2; destruct e; assumption).
        apply G; simpl; rewrite Hrun; repeat split; auto;
          right; exists [], unit, e; simpl; rewrite !app_nil_r; auto.
Qed.


(** X6. When [config.init()] raises inside [run] (the setup phase of
    a unit raised something other than [StopInitException], or the
    iterator found a cycle), [run] raises the same exception without
    calling [exit]: no teardown phase runs, and the units that were set
    up stay recorded in [ran_units]. *)
Theorem run_tears_nothing_down_when_init_raises
    (fuel steps limit : nat) (ord : SetOrder) (h h1 h2 : Heap)
    (func : option FinalTarget) (config c1 c2 : Config)
    (targets : option (list Unit)) (e : Exn) :
  run_select fuel ord h func config targets = (None, (h1, c1)) ->
  init steps limit ord h1 c1 = (InitRaise e, (h2, c2)) ->
  run fuel steps limit ord h func config targets = (Some e, (h2, c2))
  /\ (forall u, In (EvTeardown u) (calls c2) -> In (EvTeardown u) (calls c1))
  /\ incl (ran_units c1) (ran_units c2).
Proof.
  intros Hs Hi. unfold run. rewrite Hs, Hi. split; [reflexivity |].
  apply init_pass in Hi.
  destruct Hi as [produced [_ [_ [Hc Hr]]]]. split.
  - intros u Hu. rewrite Hc in Hu. apply in_app_or in Hu.
    destruct Hu as [Hu | Hu]; [exact Hu |].
    apply in_map_iff in Hu. destruct Hu as [v [Hv _]]. discriminate.
  - destruct Hr as [Hr | [pre [u [e' [_ [Hr _]]]]]]; rewrite Hr;
      apply incl_appl, incl_refl.
Qed.

End EngineFacts.

(** ** The engine: selecting targets *)

Section SelectionFacts.
Context {Unit : Type}.
Variable Unit_eq_dec : forall x y : Unit, {x = y} + {x <> y}.
Variable obj : Unit -> ConfigUnit Unit.

Local Abbreviation Heap := (@Heap Unit).
Local Abbreviation Config := (@Config Unit).
Local Abbreviation SetOrder := (@SetOrder Unit).
Local Abbreviation mem := (mem Unit_eq_dec).
Local Abbreviation add_target := (add_target Unit_eq_dec obj).
Local Abbreviation exclude_others := (exclude_others Unit_eq_dec obj).
Local Abbreviation grows := (@grows Unit).
Local Abbreviation settled := (@settled Unit).
Local Abbreviation requirements_settled := (requirements_settled obj).
Local Abbreviation selection_closed := (selection_closed obj).

Lemma settled_grows (s s' : Heap * Config) (u : Unit) :
  grows s s' -> settled (snd s) u -> settled (snd s') u.
Proof. intros [A B] [H | H]; [left | right]; auto. Qed.

Lemma requirements_settled_grows (s s' : Heap * Config) (t : Unit) :
  grows s s' -> requirements_settled (snd s) t ->
  requirements_settled (snd s') t.
Proof. intros G H d Hd. eapply settled_grows; eauto. Qed.

Lemma exclude_others_targets (ord : SetOrder) (target container : Unit)
    (st st' : Heap * Config) (e : option Exn) :
  exclude_others ord target container st = (e, st') ->
  targets (snd st') = targets (snd st).
Proof.
  unfold exclude_others. destruct (exclusive (obj container)).
  2:{ intros H. inversion H; subst. reflexivity. }
  apply for_each_always
    with (R := fun s s' : Heap * Config => targets (snd s') = targets (snd s));
    [reflexivity | intros; congruence |].
  clear. intros [h self] y e [h' self'] Hb.
  destruct (eqb_unit Unit_eq_dec y target).
  - inversion Hb; subst. reflexivity.
  - destruct (remove_node Unit_eq_dec obj ord h (unit_iterator self) y)
      as [[e1 h1] k1].
    destruct e1; inversion Hb; subst; reflexivity.
Qed.

(** The targets a forced [add_target] adds have their requirements
    dealt with when it returns. *)
Lemma add_target_new_targets (ord : SetOrder) (fuel : nat) :
  forall (h h' : Heap) (self self' : Config) (target : Unit),
    add_target fuel ord h self target true = (None, (h', self')) ->
    forall t, In t (targets self') ->
              In t (targets self) \/ requirements_settled self' t.
Proof.
  induction fuel as [| fuel IH]; intros h h' self self' target H;
    [discriminate |].
  rewrite add_target_S in H.
  destruct (mem target (targets self));
    [inversion H; subst; auto |].
  destruct (mem target (blacklisted_targets self));
    [inversion H; subst; auto |].
  cbn [orb] in H. cbv zeta in H.
  destruct (add_node Unit_eq_dec obj h
              (unit_iterator
                 (set_targets self (targets self ++ [target]))) target)
    as [h0 k0].
  match type of H with
  | match ?loop with _ => _ end = _ => destruct loop as [e1 st1] eqn:E1
  end.
  destruct e1 as [e1 |]; [discriminate |].
  (* the dependencies *)
  apply for_each_steps
    with (R := fun s s' : Heap * Config =>
                 grows s s'
                 /\ forall t, In t (targets (snd s')) ->
                              In t (targets (snd s))
                              \/ requirements_settled (snd s') t)
         (Q := fun d (s : Heap * Config) => settled (snd s) d) in E1.
  - destruct E1 as [[G1 N1] Q1].
    (* the exclusive groups *)
    assert (G2 : grows st1 (h', self')).
    { revert H.
      apply for_each_always; [apply grows_refl | apply grows_trans |].
      intros s x e2 s' Hx. eapply exclude_others_grows; eauto. }
    assert (T2 : targets self' = targets (snd st1)).
    { revert H.
      apply for_each_always
        with (R := fun s s' : Heap * Config =>
                     targets (snd s') = targets (snd s));
        [reflexivity | intros; congruence |].
      intros s x e2 s' Hx. eapply exclude_others_targets; eauto. }
    intros t Ht. rewrite T2 in Ht.
    destruct (N1 t Ht) as [Hold | Hnew].
    + simpl in Hold. apply in_app_or in Hold.
      destruct Hold as [Hold | [<- | []]]; [left; exact Hold |].
      right. intros d Hd.
      apply (settled_grows (s := st1) (s' := (h', self'))); auto.
    + right.
      apply (requirements_settled_grows (s := st1) (s' := (h', self')));
        auto.
  - intros s. split; [apply grows_refl | auto].
  - intros s1 s2 s3 [Ga Na] [Gb Nb].
    split; [eapply grows_trans; eauto |].
    intros t Ht. destruct (Nb t Ht) as [Hin | Hrs]; [| auto].
    destruct (Na t Hin) as [Hin1 | Hrs]; [auto |].
    right. eapply requirements_settled_grows; eauto.
  - intros x s s' Hq [G _]. eapply settled_grows; eauto.
  - intros [hs ss] x [hs' ss'] Hb. simpl in Hb.
    assert (G : grows (hs, ss) (hs', ss'))
      by (eapply add_target_grows; eauto).
    split; [split; [exact G |] |].
    + eapply IH; eauto.
    + eapply add_target_settles; eauto.
Qed.

(** X7. Selecting a target with [add_target(target, force=True)]
    keeps the selection closed: if every selected target had each unit
    of its [depends] and [contains] lists selected or blacklisted
    before the call, the same holds when the call returns, for the old
    targets and for every target the call added, and [target] itself is
    then selected or blacklisted. *)
Theorem forced_add_target_keeps_the_selection_closed
    (ord : SetOrder) (fuel : nat) (h h' : Heap) (self self' : Config)
    (target : Unit) :
  selection_closed self ->
  add_target fuel ord h self target true = (None, (h', self')) ->
  selection_closed self' /\ settled self' target.
Proof.
  intros Hc H.
  assert (G : grows (h, self) (h', self'))
    by (eapply add_target_grows; eauto).
  split.
  - intros t Ht.
    destruct (@add_target_new_targets ord fuel h h' self self' target H t Ht)
      as [Hold | Hnew];
      [| exact Hnew].
    apply (requirements_settled_grows (s := (h, self)) (s' := (h', self')));
      auto.
  - eapply add_target_settles; eauto.
Qed.

Lemma exclude_others_func (ord : SetOrder) (target container : Unit)
    (st st' : Heap * Config) (e : option Exn) :
  exclude_others ord target container st = (e, st') ->
  c_func (snd st') = c_func (snd st).
Proof.
  unfold exclude_others. destruct (exclusive (obj container)).
  2:{ intros H. inversion H; subst. reflexivity. }
  apply for_each_always
    with (R := fun s s' : Heap * Config => c_func (snd s') = c_func (snd s));
    [reflexivity | intros; congruence |].
  clear. intros [h self] y e [h' self'] Hb.
  destruct (eqb_unit Unit_eq_dec y target).
  - inversion Hb; subst. reflexivity.
  - destruct (remove_node Unit_eq_dec obj ord h (unit_iterator self) y)
      as [[e1 h1] k1].
    destruct e1; inversion Hb; subst; reflexivity.
Qed.

(** [add_target] leaves the function of the config alone. *)
Lemma add_target_func (ord : SetOrder) (fuel : nat) :
  forall (h h' : Heap) (self self' : Config) (target : Unit) (force : bool)
         (e : option Exn),
    add_target fuel ord h self target force = (e, (h', self')) ->
    c_func self' = c_func self.
Proof.
  induction fuel as [| fuel IH]; intros h h' self self' target force e H.
  - inversion H; subst. reflexivity.
  - rewrite add_target_S in H.
    destruct (mem target (targets self)); [inversion H; subst; auto |].
    destruct (mem target (blacklisted_targets self));
      [inversion H; subst; auto |].
    destruct (force
              || existsb (fun container => mem container (targets self))
                   (belongs (obj target)));
      [| inversion H; subst; auto].
    cbv zeta in H.
    destruct (add_node Unit_eq_dec obj h
                (unit_iterator
                   (set_targets self (targets self ++ [target]))) target)
      as [h0 k0].
    match type of H with
    | match ?loop with _ => _ end = _ => destruct loop as [e1 st1] eqn:E1
    end.
    assert (F1 : c_func (snd st1) = c_func self).
    { apply for_each_always
        with (R := fun s s' : Heap * Config =>
                     c_func (snd s') = c_func (snd s)) in E1;
        [exact E1 | reflexivity | intros; congruence |].
      intros [h1 s1] x e2 [h2 s2] Hx. simpl in Hx. simpl.
      eapply IH; eauto. }
    destruct e1 as [e1 |]; [inversion H; subst; exact F1 |].
    apply for_each_always
      with (R := fun s s' : Heap * Config =>
                   c_func (snd s') = c_func (snd s)) in H;
      [simpl in H; congruence | reflexivity | intros; congruence |].
    intros s x e2 s' Hx. eapply exclude_others_func; eauto.
Qed.

(** X17. The function of a config is set once: when
    [set_func(func)] has returned, the config holds [func]; if [func] is
    a coroutine function or an asynchronous command, [ASYNC_UNIT] is
    then selected or blacklisted; and every further [set_func] raises
    and changes nothing. *)
Theorem set_func_sets_the_function_once
    (ASYNC_UNIT : Unit) (fuel fuel' : nat) (ord ord' : SetOrder)
    (h h' : Heap) (self self' : Config) (func : FinalTarget)
    (again : option FinalTarget) :
  Config_set_func Unit_eq_dec obj ASYNC_UNIT fuel ord h self (Some func)
  = (None, (h', self')) ->
  c_func self' = Some func
  /\ (iscoroutinefunction (Some func) || is_async_command (Some func) = true
      -> settled self' ASYNC_UNIT)
  /\ Config_set_func Unit_eq_dec obj ASYNC_UNIT fuel' ord' h' self' again
     = (Some PlainException, (h', self')).
Proof.
  unfold Config_set_func. intros H.
  destruct (c_func self) eqn:Ef; [discriminate |].
  assert (Hf : c_func self' = Some func).
  { destruct (iscoroutinefunction (Some func)
              || is_async_command (Some func)).
    - apply add_target_func in H. exact H.
    - inversion H; subst. reflexivity. }
  split; [exact Hf |]. split; [| rewrite Hf; reflexivity].
  intros Ha. rewrite Ha in H. eapply add_target_settles; eauto.
Qed.

End SelectionFacts.

(** ** The engine: the asynchronous setup pass *)

Section AsyncFacts.
Context {Unit : Type}.
Variable Unit_eq_dec : forall x y : Unit, {x = y} + {x <> y}.
Variable obj : Unit -> ConfigUnit Unit.
Variable beh : @Behaviour Unit.

Local Abbreviation Heap := (@Heap Unit).
Local Abbreviation Config := (@Config Unit).
Local Abbreviation SetOrder := (@SetOrder Unit).
Local Abbreviation mem := (mem Unit_eq_dec).
Local Abbreviation next := (next Unit_eq_dec obj).
Local Abbreviation async_setup_unit := (async_setup_unit Unit_eq_dec obj beh).
Local Abbreviation async_init := (async_init Unit_eq_dec obj beh).

Lemma NoDup_snoc {A} (l : list A) (x : A) :
  NoDup l -> ~ In x l -> NoDup (l ++ [x]).
Proof.
  intros N H. apply (Permutation_NoDup (l := x :: l)).
  - apply Permutation_cons_append.
  - constructor; assumption.
Qed.

Lemma async_init_S (steps limit : nat) (ord : SetOrder) (h : Heap)
    (self : Config) :
  async_init (S steps) limit ord h self
  = match next limit ord h (unit_iterator self) with
    | (Raised StopIteration, h, k) =>
        (InitReturn None, (h, set_iterator self k))
    | (Raised e, h, k) => (InitRaise e, (h, set_iterator self k))
    | (Produced unit, h, k) =>
        let self := set_iterator self k in
        if mem unit (ran_units self)
        then async_init steps limit ord h self
        else
          match async_setup_unit self unit with
          | (Raises StopInitException, self) =>
              (InitReturn None, (h, set_func self None))
          | (Raises e, self) => (InitRaise e, (h, self))
          | (Returns (instance, result), self) =>
              let self :=
                set_active self
                  (dict_set Unit_eq_dec (active_units self) unit instance) in
              let self := set_ran self (ran_units self ++ [unit]) in
              match result with
              | Some v => (InitReturn (Some v), (h, self))
              | None => async_init steps limit ord h self
              end
          end
    end.
Proof. reflexivity. Qed.

Lemma async_setup_unit_cases (self : Config) (unit : Unit) :
  async_setup_unit self unit = (Returns (None, None), self)
  \/ exists instance,
       async_setup_unit self unit
       = (match setup beh unit (calls self) with
          | Returns result => Returns (instance, result)
          | Raises e => Raises e
          end, record_call self (EvSetup unit)).
Proof.
  unfold async_setup_unit.
  destruct (is_empty (obj unit)); [left; reflexivity |].
  destruct (mem unit (blacklisted_targets self)); [left; reflexivity |].
  right. eexists. destruct (setup beh unit (calls self)); reflexivity.
Qed.

(** X8. [Config.async_init] never sets a unit up twice and never
    records one twice, even when the iterator hands a unit out again:
    if [ran_units] holds no unit twice before the pass, it holds none
    twice afterwards, the setup calls of the pass go to distinct units,
    and none of them goes to a unit that was already in [ran_units]. *)
Theorem async_init_sets_no_unit_up_twice
    (ord : SetOrder) (limit steps : nat) :
  forall (h : Heap) (self : Config) (r : InitResult) (h' : Heap)
         (self' : Config),
    async_init steps limit ord h self = (r, (h', self')) ->
    NoDup (ran_units self) ->
    NoDup (ran_units self')
    /\ incl (ran_units self) (ran_units self')
    /\ exists called,
         calls self' = calls self ++ map EvSetup called
         /\ NoDup called
         /\ forall u, In u called -> ~ In u (ran_units self).
Proof.
  induction steps as [| steps IH]; intros h self r h' self' H ND.
  - inversion H; subst. split; [exact ND |].
    split; [apply incl_refl |]. exists []. simpl. rewrite app_nil_r.
    split; [reflexivity |]. split; [constructor | contradiction].
  - rewrite async_init_S in H.
    destruct (next limit ord h (unit_iterator self)) as [[res h1] k1].
    destruct res as [unit | e].
    2:{ assert (Hself : self' = set_iterator self k1)
          by (destruct e; inversion H; reflexivity).
        subst self'. simpl. split; [exact ND |].
        split; [apply incl_refl |]. exists []. simpl. rewrite app_nil_r.
        split; [reflexivity |]. split; [constructor | contradiction]. }
    cbv beta iota zeta in H.
    destruct (mem unit (ran_units (set_iterator self k1))) eqn:Em.
    { apply IH in H; [| exact ND]. exact H. }
    simpl in Em.
    assert (Hnew : ~ In unit (ran_units self)).
    { apply (mem_not_In Unit_eq_dec). exact Em. }
    assert (ND1 : NoDup (ran_units self ++ [unit])).
    { apply NoDup_snoc; assumption. }
    destruct (async_setup_unit_cases (set_iterator self k1) unit)
      as [Es | [instance Es]]; rewrite Es in H; clear Es.
    + (* empty or blacklisted: recorded, not called *)
      apply IH in H; [| exact ND1]. simpl in H.
      destruct H as [ND' [Hi [called [Hc [Hn Hd]]]]].
      split; [exact ND' |].
      split; [eapply incl_tran; [apply incl_appl, incl_refl | exact Hi] |].
      exists called. repeat split; auto.
      intros u Hu Hin. apply (Hd u Hu). apply in_or_app. auto.
    + destruct (setup beh unit (calls (set_iterator self k1)))
        as [result | e].
      * destruct result as [v |].
        -- inversion H; subst. simpl. split; [exact ND1 |].
           split; [apply incl_appl, incl_refl |].
           exists [unit]. simpl. split; [reflexivity |].
           split; [constructor; [intros [] | constructor] |].
           intros u [<- | []]. exact Hnew.
        -- apply IH in H; [| exact ND1]. simpl in H.
           destruct H as [ND' [Hi [called [Hc [Hn Hd]]]]].
           split; [exact ND' |].
           split;
             [eapply incl_tran; [apply incl_appl, incl_refl | exact Hi] |].
           exists (unit :: called). simpl.
           rewrite Hc, <- app_assoc. split; [reflexivity |].
           split.
           ++ constructor; [| exact Hn].
              intros Hin. apply (Hd unit Hin).
              apply in_or_app. right. left. reflexivity.
           ++ intros u [<- | Hu]; [exact Hnew |].
              intros Hin. apply (Hd u Hu). apply in_or_app. auto.
      * assert (Hst : ran_units self' = ran_units self
                      /\ calls self' = calls self ++ [EvSetup unit])
          by (destruct e; inversion H; subst; auto).
        destruct Hst as [Hr Hc]. rewrite Hr, Hc.
        split; [exact ND |]. split; [apply incl_refl |].
        exists [unit]. simpl. split; [reflexivity |].
        split; [constructor; [intros [] | constructor] |].
        intros u [<- | []]. exact Hnew.
Qed.

End AsyncFacts.

(** ** Registration: [ConfigUnit.add_unit] *)

Section LiveLoops.
Context {St A : Type}.
Variable items : St -> list A.
Variable body : St -> A -> Loop St.

(** What every pass keeps holds when the loop has finished, and the
    index has then run past the end of the list. *)
Lemma for_live_invariant (Inv : nat -> St -> Prop) :
  (forall i s x s',
      Inv i s -> nth_error (items s) i = Some x -> body s x = Finished s' ->
      Inv (S i) s') ->
  forall fuel i s s',
    Inv i s -> for_live fuel items body i s = Finished s' ->
    exists n, Inv n s' /\ nth_error (items s') n = None.
Proof.
  intros Hstep. induction fuel as [| fuel IH]; intros i s s' Hi H;
    [discriminate |].
  simpl in H. destruct (nth_error (items s) i) as [x |] eqn:En.
  - destruct (body s x) as [s1 |] eqn:Eb; [| discriminate].
    eapply IH; [| exact H]. eapply Hstep; eauto.
  - inversion H; subst. eauto.
Qed.

(** A loop whose passes all finish and decrease a measure finishes. *)
Lemma for_live_finishes (V : nat -> St -> nat) (Inv : St -> Prop) :
  (forall i s x,
      Inv s -> nth_error (items s) i = Some x ->
      exists s', body s x = Finished s' /\ Inv s' /\ V (S i) s' < V i s) ->
  forall fuel i s,
    Inv s -> V i s < fuel ->
    exists s', for_live fuel items body i s = Finished s' /\ Inv s'.
Proof.
  intros Hstep. induction fuel as [| fuel IH]; intros i s Hi Hv; [lia |].
  simpl. destruct (nth_error (items s) i) as [x |] eqn:En.
  - destruct (Hstep i s x Hi En) as [s1 [Eb [Hi1 Hv1]]]. rewrite Eb.
    apply IH; [exact Hi1 | lia].
  - eauto.
Qed.

End LiveLoops.

Section LiveLoopsFuel.
Context {St A : Type}.
Variable items : St -> list A.

(** A loop that finished within a bound finishes the same way within
    any larger one, also when its body is given the larger bound. *)
Lemma for_live_more_fuel (body : nat -> St -> A -> Loop St) :
  (forall fuel fuel' s x s',
      body fuel s x = Finished s' -> fuel <= fuel' ->
      body fuel' s x = Finished s') ->
  forall fuel fuel' n i s s',
    for_live n items (body fuel) i s = Finished s' ->
    fuel <= fuel' -> n <= fuel' ->
    for_live fuel' items (body fuel') i s = Finished s'.
Proof.
  intros Hb fuel fuel' n. revert fuel'.
  assert (G : forall m, n <= m -> forall fuel', fuel <= fuel' ->
              forall i s s',
                for_live n items (body fuel) i s = Finished s' ->
                for_live m items (body fuel') i s = Finished s').
  { induction n as [| n IH]; intros m Hm fuel' Hf i s s' H;
      [discriminate |].
    destruct m as [| m]; [lia |]. simpl in *.
    destruct (nth_error (items s) i) as [x |]; [| exact H].
    destruct (body fuel s x) as [s1 |] eqn:Eb; [| discriminate].
    rewrite (Hb _ _ _ _ _ Eb Hf). apply IH; auto. lia. }
  intros fuel' i s s' H Hf Hn. eapply G; eauto.
Qed.

End LiveLoopsFuel.

(** Writing the same entry of [ConfigUnit.units] a second time. *)
Lemma registry_set_twice {Unit : Type} (d : list (String.string * Unit))
    (path : String.string) (unit : Unit) :
  dict_set String.string_dec (dict_set String.string_dec d path unit)
    path unit
  = dict_set String.string_dec d path unit.
Proof.
  induction d as [| [p u] d IH]; simpl.
  - rewrite (eqb_unit_refl String.string_dec). reflexivity.
  - destruct (eqb_unit String.string_dec path p) eqn:E; simpl;
      rewrite E; [reflexivity | rewrite IH; reflexivity].
Qed.

Section RegistrationFacts.
Context {Unit : Type}.
Variable Unit_eq_dec : forall x y : Unit, {x = y} + {x <> y}.

Local Abbreviation Store := (@Store Unit).
Local Abbreviation eqb_unit := (eqb_unit Unit_eq_dec).
Local Abbreviation mem := (mem Unit_eq_dec).
Local Abbreviation store_set := (store_set Unit_eq_dec).
Local Abbreviation contains_append := (contains_append Unit_eq_dec).
Local Abbreviation before_append := (before_append Unit_eq_dec).
Local Abbreviation after_append := (after_append Unit_eq_dec).
Local Abbreviation inherit_before := (inherit_before Unit_eq_dec).
Local Abbreviation inherit_after := (inherit_after Unit_eq_dec).
Local Abbreviation join_container := (join_container Unit_eq_dec).
Local Abbreviation join_containers := (join_containers Unit_eq_dec).
Local Abbreviation mirror_before_contained :=
  (mirror_before_contained Unit_eq_dec).
Local Abbreviation mirror_after_contained :=
  (mirror_after_contained Unit_eq_dec).
Local Abbreviation mirror_before := (mirror_before Unit_eq_dec).
Local Abbreviation mirror_after := (mirror_after Unit_eq_dec).
Local Abbreviation mirror_relations := (mirror_relations Unit_eq_dec).
Local Abbreviation add_unit := (add_unit Unit_eq_dec).
Local Abbreviation missing := (missing Unit_eq_dec).
Local Abbreviation notify_listeners := (notify_listeners Unit_eq_dec).

(** *** Appending to one list of one unit *)

Lemma store_set_same (s : Store) (u : Unit) (c : ConfigUnit Unit) :
  store_set s u c u = c.
Proof. unfold store_set. rewrite eqb_unit_refl. reflexivity. Qed.

Lemma store_set_other (s : Store) (u v : Unit) (c : ConfigUnit Unit) :
  v <> u -> store_set s u c v = s v.
Proof.
  intros N. unfold store_set.
  destruct (eqb_unit v u) eqn:E; [| reflexivity].
  apply eqb_unit_eq in E. contradiction.
Qed.

Lemma before_of_before_append (s : Store) (u x v : Unit) :
  before (before_append s u x v)
  = if eqb_unit v u then before (s u) ++ [x] else before (s v).
Proof.
  unfold before_append, store_set. destruct (eqb_unit v u); reflexivity.
Qed.

Lemma after_of_before_append (s : Store) (u x v : Unit) :
  after (before_append s u x v) = after (s v).
Proof.
  unfold before_append, store_set. destruct (eqb_unit v u) eqn:E;
    [apply eqb_unit_eq in E; subst |]; reflexivity.
Qed.

Lemma contains_of_before_append (s : Store) (u x v : Unit) :
  contains (before_append s u x v) = contains (s v).
Proof.
  unfold before_append, store_set. destruct (eqb_unit v u) eqn:E;
    [apply eqb_unit_eq in E; subst |]; reflexivity.
Qed.

Lemma belongs_of_before_append (s : Store) (u x v : Unit) :
  belongs (before_append s u x v) = belongs (s v).
Proof.
  unfold before_append, store_set. destruct (eqb_unit v u) eqn:E;
    [apply eqb_unit_eq in E; subst |]; reflexivity.
Qed.

Lemma after_of_after_append (s : Store) (u x v : Unit) :
  after (after_append s u x v)
  = if eqb_unit v u then after (s u) ++ [x] else after (s v).
Proof.
  unfold after_append, store_set. destruct (eqb_unit v u); reflexivity.
Qed.

Lemma before_of_after_append (s : Store) (u x v : Unit) :
  before (after_append s u x v) = before (s v).
Proof.
  unfold after_append, store_set. destruct (eqb_unit v u) eqn:E;
    [apply eqb_unit_eq in E; subst |]; reflexivity.
Qed.

Lemma contains_of_after_append (s : Store) (u x v : Unit) :
  contains (after_append s u x v) = contains (s v).
Proof.
  unfold after_append, store_set. destruct (eqb_unit v u) eqn:E;
    [apply eqb_unit_eq in E; subst |]; reflexivity.
Qed.

Lemma belongs_of_after_append (s : Store) (u x v : Unit) :
  belongs (after_append s u x v) = belongs (s v).
Proof.
  unfold after_append, store_set. destruct (eqb_unit v u) eqn:E;
    [apply eqb_unit_eq in E; subst |]; reflexivity.
Qed.

Lemma contains_of_contains_append (s : Store) (u x v : Unit) :
  contains (contains_append s u x v)
  = if eqb_unit v u then contains (s u) ++ [x] else contains (s v).
Proof.
  unfold contains_append, store_set. destruct (eqb_unit v u); reflexivity.
Qed.

Lemma before_of_contains_append (s : Store) (u x v : Unit) :
  before (contains_append s u x v) = before (s v).
Proof.
  unfold contains_append, store_set. destruct (eqb_unit v u) eqn:E;
    [apply eqb_unit_eq in E; subst |]; reflexivity.
Qed.

Lemma after_of_contains_append (s : Store) (u x v : Unit) :
  after (contains_append s u x v) = after (s v).
Proof.
  unfold contains_append, store_set. destruct (eqb_unit v u) eqn:E;
    [apply eqb_unit_eq in E; subst |]; reflexivity.
Qed.

Lemma belongs_of_contains_append (s : Store) (u x v : Unit) :
  belongs (contains_append s u x v) = belongs (s v).
Proof.
  unfold contains_append, store_set. destruct (eqb_unit v u) eqn:E;
    [apply eqb_unit_eq in E; subst |]; reflexivity.
Qed.

Ltac store_simpl :=
  repeat rewrite ?before_of_before_append, ?after_of_before_append,
    ?contains_of_before_append, ?belongs_of_before_append,
    ?after_of_after_append, ?before_of_after_append,
    ?contains_of_after_append, ?belongs_of_after_append,
    ?contains_of_contains_append, ?before_of_contains_append,
    ?after_of_contains_append, ?belongs_of_contains_append in *.

(** *** Lists only grow *)

Lemma grown_refl (s : Store) : grown s s.
Proof.
  intros v. repeat split; try (exists []; rewrite app_nil_r; reflexivity).
Qed.

Lemma grown_trans (s1 s2 s3 : Store) : grown s1 s2 -> grown s2 s3 -> grown s1 s3.
Proof.
  intros H1 H2 v.
  destruct (H1 v) as [[b1 B1] [[a1 A1] [[c1 C1] G1]]].
  destruct (H2 v) as [[b2 B2] [[a2 A2] [[c2 C2] G2]]].
  repeat split.
  - exists (b1 ++ b2). rewrite B2, B1, app_assoc. reflexivity.
  - exists (a1 ++ a2). rewrite A2, A1, app_assoc. reflexivity.
  - exists (c1 ++ c2). rewrite C2, C1, app_assoc. reflexivity.
  - congruence.
Qed.

Lemma grown_before_append (s : Store) (u x : Unit) :
  grown s (before_append s u x).
Proof.
  intros v. store_simpl. repeat split;
    try (exists []; rewrite app_nil_r; reflexivity).
  destruct (eqb_unit v u) eqn:E.
  - apply eqb_unit_eq in E. subst. exists [x]. reflexivity.
  - exists []. rewrite app_nil_r. reflexivity.
Qed.

Lemma grown_after_append (s : Store) (u x : Unit) :
  grown s (after_append s u x).
Proof.
  intros v. store_simpl. repeat split;
    try (exists []; rewrite app_nil_r; reflexivity).
  destruct (eqb_unit v u) eqn:E.
  - apply eqb_unit_eq in E. subst. exists [x]. reflexivity.
  - exists []. rewrite app_nil_r. reflexivity.
Qed.

Lemma grown_contains_append (s : Store) (u x : Unit) :
  grown s (contains_append s u x).
Proof.
  intros v. store_simpl. repeat split;
    try (exists []; rewrite app_nil_r; reflexivity).
  destruct (eqb_unit v u) eqn:E.
  - apply eqb_unit_eq in E. subst. exists [x]. reflexivity.
  - exists []. rewrite app_nil_r. reflexivity.
Qed.

Lemma grown_before_In (s s' : Store) (v x : Unit) :
  grown s s' -> In x (before (s v)) -> In x (before (s' v)).
Proof.
  intros G H. destruct (G v) as [[l E] _]. rewrite E.
  apply in_or_app. auto.
Qed.

Lemma grown_after_In (s s' : Store) (v x : Unit) :
  grown s s' -> In x (after (s v)) -> In x (after (s' v)).
Proof.
  intros G H. destruct (G v) as [_ [[l E] _]]. rewrite E.
  apply in_or_app. auto.
Qed.

Lemma grown_contains_In (s s' : Store) (v x : Unit) :
  grown s s' -> In x (contains (s v)) -> In x (contains (s' v)).
Proof.
  intros G H. destruct (G v) as [_ [_ [[l E] _]]]. rewrite E.
  apply in_or_app. auto.
Qed.

Lemma grown_belongs (s s' : Store) (v : Unit) :
  grown s s' -> belongs (s' v) = belongs (s v).
Proof. intros G. apply (G v). Qed.

Lemma nth_error_prefix {B} (l l' : list B) (j : nat) (x : B) :
  nth_error l j = Some x -> nth_error (l ++ l') j = Some x.
Proof.
  intros H. rewrite nth_error_app1; [exact H |].
  apply nth_error_Some. congruence.
Qed.

(** *** What registration keeps true of the other units *)

Ltac eqb_cases :=
  repeat match goal with
         | H : context [eqb_unit ?a ?b] |- _ =>
             let E := fresh "E" in
             destruct (eqb_unit a b) eqn:E;
             [apply eqb_unit_eq in E | apply eqb_unit_neq in E]
         | |- context [eqb_unit ?a ?b] =>
             let E := fresh "E" in
             destruct (eqb_unit a b) eqn:E;
             [apply eqb_unit_eq in E | apply eqb_unit_neq in E]
         end.

Lemma tied_refl (s : Store) (unit : Unit) : tied s s unit.
Proof.
  split; [apply grown_refl |]. split; [intros; tauto |]. split; auto.
Qed.

Lemma tied_own_before (s0 s : Store) (unit x : Unit) :
  tied s0 s unit -> tied s0 (before_append s unit x) unit.
Proof.
  intros [G [A [R2 R3]]].
  split; [eapply grown_trans; [exact G | apply grown_before_append] |].
  split; [| split].
  - intros w y Hw Hy. store_simpl. eqb_cases; [contradiction |].
    apply A; auto.
  - intros w Hw H. store_simpl. rewrite eqb_unit_refl.
    destruct (R2 w Hw H); [auto |]. right. apply in_or_app. auto.
  - intros w Hw H. store_simpl. eqb_cases; [contradiction |].
    apply R3; auto.
Qed.

Lemma tied_own_after (s0 s : Store) (unit x : Unit) :
  tied s0 s unit -> tied s0 (after_append s unit x) unit.
Proof.
  intros [G [A [R2 R3]]].
  split; [eapply grown_trans; [exact G | apply grown_after_append] |].
  split; [| split].
  - intros w y Hw Hy. store_simpl. eqb_cases; [contradiction |].
    apply A; auto.
  - intros w Hw H. store_simpl. eqb_cases; [contradiction |].
    apply R2; auto.
  - intros w Hw H. store_simpl. rewrite eqb_unit_refl.
    destruct (R3 w Hw H); [auto |]. right. apply in_or_app. auto.
Qed.

Lemma tied_contains (s0 s : Store) (unit c x : Unit) :
  tied s0 s unit -> tied s0 (contains_append s c x) unit.
Proof.
  intros [G [A [R2 R3]]].
  split; [eapply grown_trans; [exact G | apply grown_contains_append] |].
  split; [| split]; intros; store_simpl; auto.
Qed.

Lemma tied_other_after (s0 s : Store) (unit other : Unit) :
  tied s0 s unit -> In other (before (s unit)) ->
  tied s0 (after_append s other unit) unit.
Proof.
  intros T Hin. destruct (Unit_eq_dec other unit) as [-> | N];
    [apply tied_own_after; exact T |].
  destruct T as [G [A [R2 R3]]].
  split; [eapply grown_trans; [exact G | apply grown_after_append] |].
  split; [| split].
  - intros w y Hw Hy. store_simpl. split; [| apply A; auto].
    destruct (eqb_unit w other) eqn:E; [| apply A; auto].
    apply eqb_unit_eq in E. subst w. rewrite in_app_iff. simpl.
    split; [intros [H | [H | []]]; [apply A; auto | congruence] |].
    intros H. left. apply A; auto.
  - intros w Hw H. store_simpl.
    destruct (eqb_unit w other) eqn:E; [| apply R2; auto].
    apply eqb_unit_eq in E. subst w. auto.
  - intros w Hw H. store_simpl.
    destruct (eqb_unit unit other) eqn:E;
      [apply eqb_unit_eq in E; congruence |].
    apply R3; auto.
Qed.

Lemma tied_other_before (s0 s : Store) (unit other : Unit) :
  tied s0 s unit -> In other (after (s unit)) ->
  tied s0 (before_append s other unit) unit.
Proof.
  intros T Hin. destruct (Unit_eq_dec other unit) as [-> | N];
    [apply tied_own_before; exact T |].
  destruct T as [G [A [R2 R3]]].
  split; [eapply grown_trans; [exact G | apply grown_before_append] |].
  split; [| split].
  - intros w y Hw Hy. store_simpl. split; [apply A; auto |].
    destruct (eqb_unit w other) eqn:E; [| apply A; auto].
    apply eqb_unit_eq in E. subst w. rewrite in_app_iff. simpl.
    split; [intros [H | [H | []]]; [apply A; auto | congruence] |].
    intros H. left. apply A; auto.
  - intros w Hw H. store_simpl.
    destruct (eqb_unit unit other) eqn:E;
      [apply eqb_unit_eq in E; congruence |].
    apply R2; auto.
  - intros w Hw H. store_simpl.
    destruct (eqb_unit w other) eqn:E; [| apply R3; auto].
    apply eqb_unit_eq in E. subst w. auto.
Qed.

Lemma mirror_before_contained_spec (unit : Unit) (s0 s : Store)
    (contained : Unit) :
  tied s0 s unit ->
  tied s0 (mirror_before_contained unit s contained) unit
  /\ grown s (mirror_before_contained unit s contained).
Proof.
  intros T. unfold mirror_before_contained.
  destruct (eqb_unit unit contained) eqn:E; simpl;
    [split; [exact T | apply grown_refl] |].
  apply eqb_unit_neq in E.
  set (s1 := if negb (mem unit (after (s contained)))
             then after_append s contained unit else s).
  assert (G1 : grown s s1).
  { unfold s1. destruct (negb (mem unit (after (s contained))));
      [apply grown_after_append | apply grown_refl]. }
  assert (B1 : forall v, before (s1 v) = before (s v)).
  { intros v. unfold s1. destruct (negb (mem unit (after (s contained))));
      store_simpl; reflexivity. }
  destruct (negb (mem contained (before (s1 unit)))) eqn:Em.
  - (* contained is appended to unit.before *)
    split; [| eapply grown_trans; [exact G1 | apply grown_before_append]].
    assert (T1 : tied s0 (after_append (before_append s unit contained)
                            contained unit) unit).
    { apply tied_other_after; [apply tied_own_before; exact T |].
      store_simpl. rewrite eqb_unit_refl. apply in_or_app. simpl. auto. }
    destruct T as [G [A [R2 R3]]]. destruct T1 as [G' [A' [R2' R3']]].
    split; [eapply grown_trans; [exact G |];
            eapply grown_trans; [exact G1 | apply grown_before_append] |].
    split; [| split].
    + intros w y Hw Hy. store_simpl.
      destruct (eqb_unit w unit) eqn:Ew;
        [apply eqb_unit_eq in Ew; contradiction |].
      unfold s1. destruct (negb (mem unit (after (s contained))));
        [specialize (A' w y Hw Hy); store_simpl; rewrite Ew in A'; exact A'
        | apply A; auto].
    + intros w Hw H. store_simpl. rewrite eqb_unit_refl, B1.
      unfold s1 in H. destruct (negb (mem unit (after (s contained)))).
      * store_simpl. destruct (eqb_unit w contained) eqn:Ec.
        -- apply eqb_unit_eq in Ec. subst w. right.
           apply in_or_app. simpl. auto.
        -- destruct (R2 w Hw H); [auto |]. right. apply in_or_app. auto.
      * destruct (R2 w Hw H); [auto |]. right. apply in_or_app. auto.
    + intros w Hw H. store_simpl.
      destruct (eqb_unit w unit) eqn:Ew;
        [apply eqb_unit_eq in Ew; contradiction |].
      rewrite B1 in H. destruct (R3 w Hw H) as [H0 | H0]; [auto |].
      right. eapply grown_after_In; [exact G1 | exact H0].
  - (* contained already is in unit.before *)
    split; [| exact G1].
    apply negb_false_iff in Em. apply mem_In in Em. rewrite B1 in Em.
    unfold s1. destruct (negb (mem unit (after (s contained))));
      [apply tied_other_after; assumption | exact T].
Qed.

Lemma mirror_after_contained_spec (unit : Unit) (s0 s : Store)
    (contained : Unit) :
  tied s0 s unit ->
  tied s0 (mirror_after_contained unit s contained) unit
  /\ grown s (mirror_after_contained unit s contained).
Proof.
  intros T. unfold mirror_after_contained.
  destruct (eqb_unit unit contained) eqn:E; simpl;
    [split; [exact T | apply grown_refl] |].
  apply eqb_unit_neq in E.
  set (s1 := if negb (mem unit (before (s contained)))
             then before_append s contained unit else s).
  assert (G1 : grown s s1).
  { unfold s1. destruct (negb (mem unit (before (s contained))));
      [apply grown_before_append | apply grown_refl]. }
  assert (B1 : forall v, after (s1 v) = after (s v)).
  { intros v. unfold s1. destruct (negb (mem unit (before (s contained))));
      store_simpl; reflexivity. }
  destruct (negb (mem contained (after (s1 unit)))) eqn:Em.
  - (* contained is appended to unit.after *)
    split; [| eapply grown_trans; [exact G1 | apply grown_after_append]].
    assert (T1 : tied s0 (before_append (after_append s unit contained)
                            contained unit) unit).
    { apply tied_other_before; [apply tied_own_after; exact T |].
      store_simpl. rewrite eqb_unit_refl. apply in_or_app. simpl. auto. }
    destruct T as [G [A [R2 R3]]]. destruct T1 as [G' [A' [R2' R3']]].
    split; [eapply grown_trans; [exact G |];
            eapply grown_trans; [exact G1 | apply grown_after_append] |].
    split; [| split].
    + intros w y Hw Hy. store_simpl.
      destruct (eqb_unit w unit) eqn:Ew;
        [apply eqb_unit_eq in Ew; contradiction |].
      unfold s1. destruct (negb (mem unit (before (s contained))));
        [specialize (A' w y Hw Hy); store_simpl; rewrite Ew in A'; exact A'
        | apply A; auto].
    + intros w Hw H. store_simpl.
      destruct (eqb_unit w unit) eqn:Ew;
        [apply eqb_unit_eq in Ew; contradiction |].
      rewrite B1 in H. destruct (R2 w Hw H) as [H0 | H0]; [auto |].
      right. eapply grown_before_In; [exact G1 | exact H0].
    + intros w Hw H. store_simpl. rewrite eqb_unit_refl, B1.
      unfold s1 in H. destruct (negb (mem unit (before (s contained)))).
      * store_simpl. destruct (eqb_unit w contained) eqn:Ec.
        -- apply eqb_unit_eq in Ec. subst w. right.
           apply in_or_app. simpl. auto.
        -- destruct (R3 w Hw H); [auto |]. right. apply in_or_app. auto.
      * destruct (R3 w Hw H); [auto |]. right. apply in_or_app. auto.
  - (* contained already is in unit.after *)
    split; [| exact G1].
    apply negb_false_iff in Em. apply mem_In in Em. rewrite B1 in Em.
    unfold s1. destruct (negb (mem unit (before (s contained))));
      [apply tied_other_before; assumption | exact T].
Qed.


Lemma fold_mirror_before_spec (unit : Unit) (s0 : Store) (l : list Unit) :
  forall s,
    tied s0 s unit ->
    tied s0 (fold_left (mirror_before_contained unit) l s) unit
    /\ grown s (fold_left (mirror_before_contained unit) l s).
Proof.
  induction l as [| c l IH]; intros s T; simpl.
  - split; [exact T | apply grown_refl].
  - destruct (@mirror_before_contained_spec unit s0 s c T) as [T1 G1].
    destruct (IH _ T1) as [T2 G2].
    split; [exact T2 | eapply grown_trans; eauto].
Qed.

Lemma fold_mirror_after_spec (unit : Unit) (s0 : Store) (l : list Unit) :
  forall s,
    tied s0 s unit ->
    tied s0 (fold_left (mirror_after_contained unit) l s) unit
    /\ grown s (fold_left (mirror_after_contained unit) l s).
Proof.
  induction l as [| c l IH]; intros s T; simpl.
  - split; [exact T | apply grown_refl].
  - destruct (@mirror_after_contained_spec unit s0 s c T) as [T1 G1].
    destruct (IH _ T1) as [T2 G2].
    split; [exact T2 | eapply grown_trans; eauto].
Qed.

(** *** The three loops *)

Lemma grown_nth_before (s s' : Store) (u : Unit) (j : nat) :
  grown s s' -> j < length (before (s u)) ->
  nth_error (before (s' u)) j = nth_error (before (s u)) j.
Proof.
  intros G H. destruct (G u) as [[l E] _]. rewrite E.
  apply nth_error_app1. exact H.
Qed.

Lemma grown_nth_after (s s' : Store) (u : Unit) (j : nat) :
  grown s s' -> j < length (after (s u)) ->
  nth_error (after (s' u)) j = nth_error (after (s u)) j.
Proof.
  intros G H. destruct (G u) as [_ [[l E] _]]. rewrite E.
  apply nth_error_app1. exact H.
Qed.

Lemma nth_error_lt {B} (l : list B) (j : nat) (x : B) :
  nth_error l j = Some x -> j < length l.
Proof. intros H. apply nth_error_Some. congruence. Qed.

Lemma inherit_before_spec (fuel : nat) (unit c : Unit) (s0 s s' : Store) :
  inherit_before fuel unit c s = Finished s' ->
  tied s0 s unit -> tied s0 s' unit /\ grown s s'.
Proof.
  unfold inherit_before. intros H T.
  apply for_live_invariant
    with (Inv := fun (_ : nat) st => tied s0 st unit /\ grown s st) in H.
  - destruct H as [n [H _]]. exact H.
  - intros i st x st' [T1 G1] _ Hb. inversion Hb; subst.
    split; [apply tied_own_before; exact T1 |].
    eapply grown_trans; [exact G1 | apply grown_before_append].
  - split; [exact T | apply grown_refl].
Qed.

Lemma inherit_after_spec (fuel : nat) (unit c : Unit) (s0 s s' : Store) :
  inherit_after fuel unit c s = Finished s' ->
  tied s0 s unit -> tied s0 s' unit /\ grown s s'.
Proof.
  unfold inherit_after. intros H T.
  apply for_live_invariant
    with (Inv := fun (_ : nat) st => tied s0 st unit /\ grown s st) in H.
  - destruct H as [n [H _]]. exact H.
  - intros i st x st' [T1 G1] _ Hb. inversion Hb; subst.
    split; [apply tied_own_after; exact T1 |].
    eapply grown_trans; [exact G1 | apply grown_after_append].
  - split; [exact T | apply grown_refl].
Qed.

Lemma join_containers_fold (fuel : nat) (unit : Unit) (s : Store) :
  join_containers fuel unit s
  = fold_left (join_container fuel unit) (belongs (s unit)) (Finished s).
Proof. reflexivity. Qed.

Lemma join_fold_unfinished (fuel : nat) (unit : Unit) (l : list Unit) :
  fold_left (join_container fuel unit) l Unfinished = Unfinished.
Proof. induction l; simpl; auto. Qed.

Lemma join_fold_spec (fuel : nat) (unit : Unit) (s0 : Store)
    (l : list Unit) :
  forall s s',
    fold_left (join_container fuel unit) l (Finished s) = Finished s' ->
    tied s0 s unit ->
    tied s0 s' unit /\ grown s s'
    /\ forall g, In g l -> In unit (contains (s' g)).
Proof.
  induction l as [| c l IH]; intros s s' H T; simpl in H.
  - inversion H; subst. split; [exact T |].
    split; [apply grown_refl | contradiction].
  - set (s1 := if mem unit (contains (s c)) then s
               else contains_append s c unit) in *.
    assert (T1 : tied s0 s1 unit).
    { unfold s1. destruct (mem unit (contains (s c)));
        [exact T | apply tied_contains; exact T]. }
    assert (G1 : grown s s1).
    { unfold s1. destruct (mem unit (contains (s c)));
        [apply grown_refl | apply grown_contains_append]. }
    assert (C1 : In unit (contains (s1 c))).
    { unfold s1. destruct (mem unit (contains (s c))) eqn:Em.
      - apply mem_In in Em. exact Em.
      - store_simpl. rewrite eqb_unit_refl. apply in_or_app. simpl. auto. }
    destruct (inherit_before fuel unit c s1) as [s2 |] eqn:E2.
    2:{ rewrite join_fold_unfinished in H. discriminate. }
    destruct (@inherit_before_spec fuel unit c s0 s1 s2 E2 T1) as [T2 G2].
    destruct (inherit_after fuel unit c s2) as [s3 |] eqn:E3.
    2:{ rewrite join_fold_unfinished in H. discriminate. }
    destruct (@inherit_after_spec fuel unit c s0 s2 s3 E3 T2) as [T3 G3].
    destruct (IH s3 s' H T3) as [T4 [G4 C4]].
    assert (G : grown s1 s').
    { eapply grown_trans; [exact G2 |].
      eapply grown_trans; [exact G3 | exact G4]. }
    split; [exact T4 |].
    split; [eapply grown_trans; [exact G1 | exact G] |].
    intros g [<- | Hg]; [| auto].
    eapply grown_contains_In; [exact G | exact C1].
Qed.

Lemma mirror_before_spec (fuel : nat) (unit : Unit) (s0 s s' : Store) :
  mirror_before fuel unit s = Finished s' ->
  tied s0 s unit ->
  tied s0 s' unit /\ grown s s'
  /\ forall v, In v (before (s' unit)) -> In unit (after (s' v)).
Proof.
  unfold mirror_before. intros H T.
  apply for_live_invariant
    with (Inv := fun i st =>
                   tied s0 st unit /\ grown s st
                   /\ forall j v, j < i ->
                                  nth_error (before (st unit)) j = Some v ->
                                  In unit (after (st v))) in H.
  - destruct H as [n [[T' [G' Hidx]] Hn]].
    split; [exact T' |]. split; [exact G' |].
    intros v Hv. apply In_nth_error in Hv. destruct Hv as [j Hj].
    apply (Hidx j v); [| exact Hj].
    apply nth_error_None in Hn. apply nth_error_lt in Hj. lia.
  - intros i st x st' [T1 [G1 Hidx]] Hx Hb. inversion Hb; subst st'.
    clear Hb.
    set (s1 := if mem unit (after (st x)) then st
               else after_append st x unit) in *.
    assert (T2 : tied s0 s1 unit).
    { unfold s1. destruct (mem unit (after (st x))); [exact T1 |].
      apply tied_other_after; [exact T1 |].
      eapply nth_error_In; eauto. }
    assert (G2 : grown st s1).
    { unfold s1. destruct (mem unit (after (st x)));
        [apply grown_refl | apply grown_after_append]. }
    assert (C2 : In unit (after (s1 x))).
    { unfold s1. destruct (mem unit (after (st x))) eqn:Em.
      - apply mem_In in Em. exact Em.
      - store_simpl. rewrite eqb_unit_refl. apply in_or_app. simpl. auto. }
    destruct (@fold_mirror_before_spec unit s0 (contains (s1 x)) s1 T2)
      as [T3 G3].
    assert (G : grown st
                  (fold_left (mirror_before_contained unit)
                     (contains (s1 x)) s1))
      by (eapply grown_trans; eauto).
    subst s1.
    split; [exact T3 |].
    split; [eapply grown_trans; [exact G1 | exact G] |].
    intros j v Hj Hv.
    pose proof (@nth_error_lt _ _ _ _ Hx) as Hlen.
    assert (Hv' : nth_error (before (st unit)) j = Some v).
    { rewrite <- Hv. symmetry. apply grown_nth_before; [exact G | lia]. }
    clear Hv. rename Hv' into Hv.
    destruct (Nat.eq_dec j i) as [-> | Nj].
    + rewrite Hx in Hv. inversion Hv; subst v.
      eapply grown_after_In; [exact G3 | exact C2].
    + eapply grown_after_In; [exact G |].
      apply (Hidx j v); [lia | exact Hv].
  - split; [exact T |]. split; [apply grown_refl |]. intros j v Hj. lia.
Qed.

Lemma mirror_after_contained_before (unit : Unit) (s : Store) (c : Unit) :
  before (mirror_after_contained unit s c unit) = before (s unit).
Proof.
  unfold mirror_after_contained.
  destruct (eqb_unit unit c) eqn:E; simpl; [reflexivity |].
  repeat match goal with
         | |- context [if ?b then _ else _] => destruct b
         end; store_simpl; rewrite ?E; reflexivity.
Qed.

Lemma fold_mirror_after_before (unit : Unit) (l : list Unit) :
  forall s,
    before (fold_left (mirror_after_contained unit) l s unit)
    = before (s unit).
Proof.
  induction l as [| c l IH]; intros s; simpl; [reflexivity |].
  rewrite IH. apply mirror_after_contained_before.
Qed.

Lemma mirror_after_spec (fuel : nat) (unit : Unit) (s0 s s' : Store) :
  mirror_after fuel unit s = Finished s' ->
  tied s0 s unit ->
  (forall v, In v (before (s unit)) -> In unit (after (s v))) ->
  tied s0 s' unit /\ grown s s'
  /\ (forall v, In v (before (s' unit)) -> In unit (after (s' v)))
  /\ forall v, In v (after (s' unit)) -> In unit (before (s' v)).
Proof.
  unfold mirror_after. intros H T P2.
  apply for_live_invariant
    with (Inv := fun i st =>
                   tied s0 st unit /\ grown s st
                   /\ (forall v, In v (before (st unit)) ->
                                 In unit (after (st v)))
                   /\ forall j v, j < i ->
                                  nth_error (after (st unit)) j = Some v ->
                                  In unit (before (st v))) in H.
  - destruct H as [n [[T' [G' [P2' Hidx]]] Hn]].
    split; [exact T' |]. split; [exact G' |]. split; [exact P2' |].
    intros v Hv. apply In_nth_error in Hv. destruct Hv as [j Hj].
    apply (Hidx j v); [| exact Hj].
    apply nth_error_None in Hn. apply nth_error_lt in Hj. lia.
  - intros i st x st' [T1 [G1 [Q1 Hidx]]] Hx Hb. inversion Hb; subst st'.
    clear Hb.
    set (s1 := if mem unit (before (st x)) then st
               else before_append st x unit) in *.
    assert (T2 : tied s0 s1 unit).
    { unfold s1. destruct (mem unit (before (st x))); [exact T1 |].
      apply tied_other_before; [exact T1 |].
      eapply nth_error_In; eauto. }
    assert (G2 : grown st s1).
    { unfold s1. destruct (mem unit (before (st x)));
        [apply grown_refl | apply grown_before_append]. }
    assert (C2 : In unit (before (s1 x))).
    { unfold s1. destruct (mem unit (before (st x))) eqn:Em.
      - apply mem_In in Em. exact Em.
      - store_simpl. rewrite eqb_unit_refl. apply in_or_app. simpl. auto. }
    assert (Q2 : forall v, In v (before (s1 unit)) ->
                           In unit (after (s1 v))).
    { intros v Hv. eapply grown_after_In; [exact G2 |].
      unfold s1 in Hv. destruct (mem unit (before (st x)));
        [apply Q1; exact Hv |].
      store_simpl. destruct (eqb_unit unit x) eqn:Ex; [| apply Q1; exact Hv].
      apply eqb_unit_eq in Ex. subst x.
      apply in_app_or in Hv. destruct Hv as [Hv | [<- | []]];
        [apply Q1; exact Hv |].
      eapply nth_error_In; eauto. }
    destruct (@fold_mirror_after_spec unit s0 (contains (s1 x)) s1 T2)
      as [T3 G3].
    assert (G : grown st
                  (fold_left (mirror_after_contained unit)
                     (contains (s1 x)) s1))
      by (eapply grown_trans; eauto).
    subst s1.
    split; [exact T3 |].
    split; [eapply grown_trans; [exact G1 | exact G] |].
    split.
    + intros v Hv. rewrite fold_mirror_after_before in Hv.
      eapply grown_after_In; [exact G3 | apply Q2; exact Hv].
    + intros j v Hj Hv.
      pose proof (@nth_error_lt _ _ _ _ Hx) as Hlen.
      assert (Hv' : nth_error (after (st unit)) j = Some v).
      { rewrite <- Hv. symmetry. apply grown_nth_after; [exact G | lia]. }
      clear Hv. rename Hv' into Hv.
      destruct (Nat.eq_dec j i) as [-> | Nj].
      * rewrite Hx in Hv. inversion Hv; subst v.
        eapply grown_before_In; [exact G3 | exact C2].
      * eapply grown_before_In; [exact G |].
        apply (Hidx j v); [lia | exact Hv].
  - split; [exact T |]. split; [apply grown_refl |].
    split; [exact P2 |]. intros j v Hj. lia.
Qed.

(** When the three loops have finished, every relation of the unit is
    written on the other side too, and the other units have gained
    nothing but the unit. *)
Lemma mirror_relations_spec (fuel : nat) (unit : Unit) (s s' : Store) :
  mirror_relations fuel unit s = Finished s' ->
  own_relations_mirrored s' unit /\ tied s s' unit.
Proof.
  unfold mirror_relations. intros H.
  destruct (join_containers fuel unit s) as [s1 |] eqn:E1; [| discriminate].
  destruct (mirror_before fuel unit s1) as [s2 |] eqn:E2; [| discriminate].
  rewrite join_containers_fold in E1.
  destruct (@join_fold_spec fuel unit s (belongs (s unit)) s s1 E1
              (tied_refl s unit)) as [T1 [G1 C1]].
  destruct (@mirror_before_spec fuel unit s s1 s2 E2 T1) as [T2 [G2 P2]].
  destruct (@mirror_after_spec fuel unit s s2 s' H T2 P2)
    as [T3 [G3 [P2' P3]]].
  split; [| exact T3].
  split; [| split; assumption].
  intros g Hg.
  assert (G : grown s1 s') by (eapply grown_trans; eauto).
  rewrite (@grown_belongs s s' unit (@grown_trans s s1 s' G1 G)) in Hg.
  eapply grown_contains_In; [exact G | apply C1; exact Hg].
Qed.

(** Registering a unit no other unit refers to keeps the store
    mirrored. *)
Lemma mirror_relations_consistent (fuel : nat) (unit : Unit)
    (s s' : Store) :
  mirror_relations fuel unit s = Finished s' ->
  unreferenced s unit -> consistent_without s unit ->
  relation_consistent s'.
Proof.
  intros H Hfresh Hold.
  destruct (@mirror_relations_spec fuel unit s s' H)
    as [[P1 [P2 P3]] [G [A [R2 R3]]]].
  intros u v.
  destruct (Unit_eq_dec u unit) as [-> | Nu];
    destruct (Unit_eq_dec v unit) as [-> | Nv].
  - split; [apply P3 | apply P2].
  - split; [apply P3 |]. intros H1.
    destruct (R3 v Nv H1) as [H0 | H0]; [| exact H0].
    exfalso. apply (proj1 (Hfresh v Nv)). exact H0.
  - split; [| apply P2]. intros H1.
    destruct (R2 u Nu H1) as [H0 | H0]; [| exact H0].
    exfalso. apply (proj2 (Hfresh u Nu)). exact H0.
  - destruct (A u v Nu Nv) as [A1 _]. destruct (A v u Nv Nu) as [_ A2].
    rewrite A1, A2. apply Hold; assumption.
Qed.

(** *** The loops finish *)

Lemma others_kept_refl (s : Store) (unit : Unit) : others_kept s s unit.
Proof. split; [intros v _; auto | auto]. Qed.

Lemma others_kept_trans (s1 s2 s3 : Store) (unit : Unit) :
  others_kept s1 s2 unit -> others_kept s2 s3 unit ->
  others_kept s1 s3 unit.
Proof.
  intros [H1 C1] [H2 C2]. split.
  - intros v Hv. destruct (H1 v Hv), (H2 v Hv). split; congruence.
  - intros v x Hx. destruct (C2 v x Hx) as [H | H]; auto.
Qed.

Lemma others_kept_own_before (s : Store) (unit x : Unit) :
  others_kept s (before_append s unit x) unit.
Proof.
  split.
  - intros v Hv. store_simpl. eqb_cases; [contradiction | auto].
  - intros v y Hy. store_simpl. auto.
Qed.

Lemma others_kept_own_after (s : Store) (unit x : Unit) :
  others_kept s (after_append s unit x) unit.
Proof.
  split.
  - intros v Hv. store_simpl. eqb_cases; [contradiction | auto].
  - intros v y Hy. store_simpl. auto.
Qed.

Lemma others_kept_contains (s : Store) (unit c : Unit) :
  others_kept s (contains_append s c unit) unit.
Proof.
  split.
  - intros v Hv. store_simpl. auto.
  - intros v y Hy. store_simpl. eqb_cases; [subst | auto].
    apply in_app_or in Hy. destruct Hy as [Hy | [<- | []]]; auto.
Qed.

Lemma inherit_before_finishes (fuel : nat) (unit c : Unit) (s : Store) :
  c <> unit -> length (before (s c)) < fuel ->
  exists s', inherit_before fuel unit c s = Finished s'
             /\ others_kept s s' unit.
Proof.
  intros Hc Hf. unfold inherit_before.
  apply for_live_finishes
    with (V := fun i (st : Store) => length (before (st c)) - i)
         (Inv := fun st : Store => others_kept s st unit).
  - intros i st x K Hx. eexists. split; [reflexivity |].
    split; [eapply others_kept_trans;
            [exact K | apply others_kept_own_before] |].
    apply nth_error_lt in Hx. store_simpl.
    destruct (eqb_unit c unit) eqn:E;
      [apply eqb_unit_eq in E; contradiction |].
    lia.
  - apply others_kept_refl.
  - lia.
Qed.

Lemma inherit_after_finishes (fuel : nat) (unit c : Unit) (s : Store) :
  c <> unit -> length (after (s c)) < fuel ->
  exists s', inherit_after fuel unit c s = Finished s'
             /\ others_kept s s' unit.
Proof.
  intros Hc Hf. unfold inherit_after.
  apply for_live_finishes
    with (V := fun i (st : Store) => length (after (st c)) - i)
         (Inv := fun st : Store => others_kept s st unit).
  - intros i st x K Hx. eexists. split; [reflexivity |].
    split; [eapply others_kept_trans;
            [exact K | apply others_kept_own_after] |].
    apply nth_error_lt in Hx. store_simpl.
    destruct (eqb_unit c unit) eqn:E;
      [apply eqb_unit_eq in E; contradiction |].
    lia.
  - apply others_kept_refl.
  - lia.
Qed.

Lemma join_fold_finishes (fuel : nat) (unit : Unit) (s : Store)
    (l : list Unit) :
  ~ In unit l ->
  (forall c, In c l ->
             length (before (s c)) < fuel /\ length (after (s c)) < fuel) ->
  forall st,
    others_kept s st unit ->
    exists s', fold_left (join_container fuel unit) l (Finished st)
               = Finished s'
               /\ others_kept s s' unit.
Proof.
  induction l as [| c l IH]; intros Hn Hb st K; simpl.
  - eauto.
  - assert (Hc : c <> unit) by (intros ->; apply Hn; left; reflexivity).
    set (s1 := if mem unit (contains (st c)) then st
               else contains_append st c unit).
    assert (K1 : others_kept s s1 unit).
    { unfold s1. destruct (mem unit (contains (st c))); [exact K |].
      eapply others_kept_trans; [exact K | apply others_kept_contains]. }
    destruct (Hb c (or_introl eq_refl)) as [Lb La].
    destruct (@inherit_before_finishes fuel unit c s1 Hc) as [s2 [E2 K2]].
    { rewrite (proj1 (proj1 K1 c Hc)). exact Lb. }
    rewrite E2.
    assert (K2' : others_kept s s2 unit)
      by (eapply others_kept_trans; eauto).
    destruct (@inherit_after_finishes fuel unit c s2 Hc) as [s3 [E3 K3]].
    { rewrite (proj2 (proj1 K2' c Hc)). exact La. }
    rewrite E3. apply IH.
    + intros Hin. apply Hn. right. exact Hin.
    + intros c' Hc'. apply Hb. right. exact Hc'.
    + eapply others_kept_trans; eauto.
Qed.

Lemma missing_le (univ l : list Unit) : missing univ l <= length univ.
Proof. unfold missing. apply filter_length_le. Qed.

Lemma missing_append (univ l : list Unit) (x : Unit) :
  In x univ -> ~ In x l -> missing univ (l ++ [x]) < missing univ l.
Proof.
  unfold missing. intros Hu Hl.
  induction univ as [| y univ IH]; simpl in *; [contradiction |].
  destruct (mem y l) eqn:Ey.
  - assert (Eyx : mem y (l ++ [x]) = true).
    { apply mem_In. apply mem_In in Ey. apply in_or_app. auto. }
    rewrite Eyx. simpl. destruct Hu as [-> | Hu]; [| auto].
    apply mem_In in Ey. contradiction.
  - simpl. destruct (mem y (l ++ [x])) eqn:Eyx; simpl.
    + assert (length
                (filter (fun x0 => negb (mem x0 (l ++ [x]))) univ)
              <= length (filter (fun x0 => negb (mem x0 l)) univ));
        [| lia].
      clear. induction univ as [| z univ IH]; simpl; [lia |].
      destruct (mem z l) eqn:Ez.
      * assert (Ezx : mem z (l ++ [x]) = true).
        { apply mem_In. apply mem_In in Ez. apply in_or_app. auto. }
        rewrite Ezx. simpl. exact IH.
      * simpl. destruct (mem z (l ++ [x])); simpl; lia.
    + destruct Hu as [-> | Hu].
      * exfalso. apply mem_not_In in Eyx. apply Eyx.
        apply in_or_app. right. left. reflexivity.
      * apply IH in Hu. lia.
Qed.

Lemma mirror_before_contained_measure (unit : Unit) (univ : list Unit)
    (s : Store) (c : Unit) :
  In c (unit :: univ) ->
  (forall v, contains (mirror_before_contained unit s c v) = contains (s v))
  /\ length (before (s unit))
     <= length (before (mirror_before_contained unit s c unit))
  /\ length (before (mirror_before_contained unit s c unit))
     + missing univ (before (mirror_before_contained unit s c unit))
     <= length (before (s unit)) + missing univ (before (s unit)).
Proof.
  intros Hc. unfold mirror_before_contained.
  destruct (eqb_unit unit c) eqn:E; simpl; [auto |].
  apply eqb_unit_neq in E.
  destruct Hc as [Hc | Hc]; [congruence |].
  set (s1 := if negb (mem unit (after (s c)))
             then after_append s c unit else s).
  assert (B1 : forall v, before (s1 v) = before (s v)).
  { intros v. unfold s1. destruct (negb (mem unit (after (s c))));
      store_simpl; reflexivity. }
  assert (C1 : forall v, contains (s1 v) = contains (s v)).
  { intros v. unfold s1. destruct (negb (mem unit (after (s c))));
      store_simpl; reflexivity. }
  destruct (negb (mem c (before (s1 unit)))) eqn:Em.
  - apply negb_true_iff, mem_not_In in Em. rewrite B1 in Em.
    split; [intros v; store_simpl; apply C1 |].
    store_simpl. rewrite eqb_unit_refl, B1, length_app. simpl.
    pose proof (@missing_append univ (before (s unit)) c Hc Em). lia.
  - split; [exact C1 |]. rewrite B1. lia.
Qed.

Lemma fold_mirror_before_measure (unit : Unit) (univ l : list Unit) :
  incl l (unit :: univ) ->
  forall s,
    (forall v, contains (fold_left (mirror_before_contained unit) l s v)
               = contains (s v))
    /\ length (before (s unit))
       <= length (before (fold_left (mirror_before_contained unit) l s unit))
    /\ length (before (fold_left (mirror_before_contained unit) l s unit))
       + missing univ
           (before (fold_left (mirror_before_contained unit) l s unit))
       <= length (before (s unit)) + missing univ (before (s unit)).
Proof.
  induction l as [| c l IH]; intros Hl s; simpl; [auto |].
  destruct (@mirror_before_contained_measure unit univ s c
              (Hl c (or_introl eq_refl))) as [C1 [L1 Q1]].
  destruct (IH (fun x Hx => Hl x (or_intror Hx))
              (mirror_before_contained unit s c)) as [C2 [L2 Q2]].
  split; [intros v; rewrite C2; apply C1 |]. split; lia.
Qed.

Lemma mirror_before_finishes (fuel : nat) (unit : Unit) (univ : list Unit)
    (s : Store) :
  (forall v, incl (contains (s v)) (unit :: univ)) ->
  length (before (s unit)) + length univ < fuel ->
  exists s', mirror_before fuel unit s = Finished s'
             /\ forall v, contains (s' v) = contains (s v).
Proof.
  intros Hu Hf. unfold mirror_before.
  apply for_live_finishes
    with (V := fun i (st : Store) =>
                 (length (before (st unit)) - i)
                 + missing univ (before (st unit)))
         (Inv := fun st : Store => forall v, contains (st v) = contains (s v)).
  - intros i st x K Hx. eexists. split; [reflexivity |].
    cbv zeta.
    set (s1 := if mem unit (after (st x)) then st
               else after_append st x unit).
    assert (B1 : forall v, before (s1 v) = before (st v)).
    { intros v. unfold s1. destruct (mem unit (after (st x)));
        store_simpl; reflexivity. }
    assert (C1 : forall v, contains (s1 v) = contains (st v)).
    { intros v. unfold s1. destruct (mem unit (after (st x)));
        store_simpl; reflexivity. }
    destruct (@fold_mirror_before_measure unit univ (contains (s1 x)))
      with (s := s1) as [C2 [L2 Q2]].
    { rewrite C1, K. apply Hu. }
    rewrite B1 in L2, Q2. apply nth_error_lt in Hx.
    split;
      [intros v; etransitivity; [apply C2 |]; rewrite C1; apply K |].
    assert (G : length
                  (before
                     (fold_left (mirror_before_contained unit)
                        (contains (s1 x)) s1 unit)) - S i
                + missing univ
                    (before
                       (fold_left (mirror_before_contained unit)
                          (contains (s1 x)) s1 unit))
                < length (before (st unit)) - i
                  + missing univ (before (st unit))) by lia.
    exact G.
  - auto.
  - pose proof (missing_le univ (before (s unit))). lia.
Qed.

Lemma mirror_after_contained_measure (unit : Unit) (univ : list Unit)
    (s : Store) (c : Unit) :
  In c (unit :: univ) ->
  (forall v, contains (mirror_after_contained unit s c v) = contains (s v))
  /\ length (after (s unit))
     <= length (after (mirror_after_contained unit s c unit))
  /\ length (after (mirror_after_contained unit s c unit))
     + missing univ (after (mirror_after_contained unit s c unit))
     <= length (after (s unit)) + missing univ (after (s unit)).
Proof.
  intros Hc. unfold mirror_after_contained.
  destruct (eqb_unit unit c) eqn:E; simpl; [auto |].
  apply eqb_unit_neq in E.
  destruct Hc as [Hc | Hc]; [congruence |].
  set (s1 := if negb (mem unit (before (s c)))
             then before_append s c unit else s).
  assert (B1 : forall v, after (s1 v) = after (s v)).
  { intros v. unfold s1. destruct (negb (mem unit (before (s c))));
      store_simpl; reflexivity. }
  assert (C1 : forall v, contains (s1 v) = contains (s v)).
  { intros v. unfold s1. destruct (negb (mem unit (before (s c))));
      store_simpl; reflexivity. }
  destruct (negb (mem c (after (s1 unit)))) eqn:Em.
  - apply negb_true_iff, mem_not_In in Em. rewrite B1 in Em.
    split; [intros v; store_simpl; apply C1 |].
    store_simpl. rewrite eqb_unit_refl, B1, length_app. simpl.
    pose proof (@missing_append univ (after (s unit)) c Hc Em). lia.
  - split; [exact C1 |]. rewrite B1. lia.
Qed.

Lemma fold_mirror_after_measure (unit : Unit) (univ l : list Unit) :
  incl l (unit :: univ) ->
  forall s,
    (forall v, contains (fold_left (mirror_after_contained unit) l s v)
               = contains (s v))
    /\ length (after (s unit))
       <= length (after (fold_left (mirror_after_contained unit) l s unit))
    /\ length (after (fold_left (mirror_after_contained unit) l s unit))
       + missing univ
           (after (fold_left (mirror_after_contained unit) l s unit))
       <= length (after (s unit)) + missing univ (after (s unit)).
Proof.
  induction l as [| c l IH]; intros Hl s; simpl; [auto |].
  destruct (@mirror_after_contained_measure unit univ s c
              (Hl c (or_introl eq_refl))) as [C1 [L1 Q1]].
  destruct (IH (fun x Hx => Hl x (or_intror Hx))
              (mirror_after_contained unit s c)) as [C2 [L2 Q2]].
  split; [intros v; rewrite C2; apply C1 |]. split; lia.
Qed.

Lemma mirror_after_finishes (fuel : nat) (unit : Unit) (univ : list Unit)
    (s : Store) :
  (forall v, incl (contains (s v)) (unit :: univ)) ->
  length (after (s unit)) + length univ < fuel ->
  exists s', mirror_after fuel unit s = Finished s'
             /\ forall v, contains (s' v) = contains (s v).
Proof.
  intros Hu Hf. unfold mirror_after.
  apply for_live_finishes
    with (V := fun i (st : Store) =>
                 (length (after (st unit)) - i)
                 + missing univ (after (st unit)))
         (Inv := fun st : Store => forall v, contains (st v) = contains (s v)).
  - intros i st x K Hx. eexists. split; [reflexivity |].
    cbv zeta.
    set (s1 := if mem unit (before (st x)) then st
               else before_append st x unit).
    assert (B1 : forall v, after (s1 v) = after (st v)).
    { intros v. unfold s1. destruct (mem unit (before (st x)));
        store_simpl; reflexivity. }
    assert (C1 : forall v, contains (s1 v) = contains (st v)).
    { intros v. unfold s1. destruct (mem unit (before (st x)));
        store_simpl; reflexivity. }
    destruct (@fold_mirror_after_measure unit univ (contains (s1 x)))
      with (s := s1) as [C2 [L2 Q2]].
    { rewrite C1, K. apply Hu. }
    rewrite B1 in L2, Q2. apply nth_error_lt in Hx.
    split;
      [intros v; etransitivity; [apply C2 |]; rewrite C1; apply K |].
    assert (G : length
                  (after
                     (fold_left (mirror_after_contained unit)
                        (contains (s1 x)) s1 unit)) - S i
                + missing univ
                    (after
                       (fold_left (mirror_after_contained unit)
                          (contains (s1 x)) s1 unit))
                < length (after (st unit)) - i
                  + missing univ (after (st unit))) by lia.
    exact G.
  - auto.
  - pose proof (missing_le univ (after (s unit))). lia.
Qed.

(** *** A larger bound changes nothing *)

Lemma inherit_before_more_fuel (fuel fuel' : nat) (unit c : Unit)
    (s s' : Store) :
  inherit_before fuel unit c s = Finished s' -> fuel <= fuel' ->
  inherit_before fuel' unit c s = Finished s'.
Proof.
  unfold inherit_before. intros H L.
  apply (@for_live_more_fuel Store Unit (fun st => before (st c))
           (fun (_ : nat) st b => Finished (before_append st unit b)))
    with (fuel := fuel) (n := fuel); auto.
Qed.

Lemma inherit_after_more_fuel (fuel fuel' : nat) (unit c : Unit)
    (s s' : Store) :
  inherit_after fuel unit c s = Finished s' -> fuel <= fuel' ->
  inherit_after fuel' unit c s = Finished s'.
Proof.
  unfold inherit_after. intros H L.
  apply (@for_live_more_fuel Store Unit (fun st => after (st c))
           (fun (_ : nat) st a => Finished (after_append st unit a)))
    with (fuel := fuel) (n := fuel); auto.
Qed.

Lemma join_fold_more_fuel (fuel fuel' : nat) (unit : Unit) (l : list Unit) :
  fuel <= fuel' ->
  forall acc s',
    fold_left (join_container fuel unit) l acc = Finished s' ->
    fold_left (join_container fuel' unit) l acc = Finished s'.
Proof.
  intros L. induction l as [| c l IH]; intros acc s' H; simpl in *;
    [exact H |].
  destruct acc as [st |];
    [| simpl in H; rewrite join_fold_unfinished in H; discriminate].
  simpl in *.
  set (s1 := if mem unit (contains (st c)) then st
             else contains_append st c unit) in *.
  destruct (inherit_before fuel unit c s1) as [s2 |] eqn:E2;
    [| rewrite join_fold_unfinished in H; discriminate].
  rewrite (@inherit_before_more_fuel fuel fuel' unit c s1 s2 E2 L).
  destruct (inherit_after fuel unit c s2) as [s3 |] eqn:E3;
    [| rewrite join_fold_unfinished in H; discriminate].
  rewrite (@inherit_after_more_fuel fuel fuel' unit c s2 s3 E3 L).
  apply IH. exact H.
Qed.

Lemma mirror_before_more_fuel (fuel fuel' : nat) (unit : Unit)
    (s s' : Store) :
  mirror_before fuel unit s = Finished s' -> fuel <= fuel' ->
  mirror_before fuel' unit s = Finished s'.
Proof.
  unfold mirror_before. intros H L.
  apply (@for_live_more_fuel Store Unit (fun st => before (st unit))
           (fun (_ : nat) st other =>
              let st :=
                if mem unit (after (st other)) then st
                else after_append st other unit in
              Finished
                (fold_left (mirror_before_contained unit)
                   (contains (st other)) st)))
    with (fuel := fuel) (n := fuel); auto.
Qed.

Lemma mirror_after_more_fuel (fuel fuel' : nat) (unit : Unit)
    (s s' : Store) :
  mirror_after fuel unit s = Finished s' -> fuel <= fuel' ->
  mirror_after fuel' unit s = Finished s'.
Proof.
  unfold mirror_after. intros H L.
  apply (@for_live_more_fuel Store Unit (fun st => after (st unit))
           (fun (_ : nat) st other =>
              let st :=
                if mem unit (before (st other)) then st
                else before_append st other unit in
              Finished
                (fold_left (mirror_after_contained unit)
                   (contains (st other)) st)))
    with (fuel := fuel) (n := fuel); auto.
Qed.

Lemma relation_lengths_bound (s : Store) (l : list Unit) (c : Unit) :
  In c l ->
  length (before (s c)) + length (after (s c))
  <= fold_right
       (fun c acc => length (before (s c)) + length (after (s c)) + acc)
       0 l.
Proof.
  induction l as [| x l IH]; simpl; [contradiction |].
  intros [-> | H]; [lia | apply IH in H; lia].
Qed.

(** The three loops finish when the unit does not list itself in
    [belongs] and the [contains] lists draw on finitely many units. *)
Lemma mirror_relations_finishes (unit : Unit) (univ : list Unit)
    (s : Store) :
  ~ In unit (belongs (s unit)) ->
  (forall v, incl (contains (s v)) univ) ->
  exists s' N,
    forall fuel, N <= fuel -> mirror_relations fuel unit s = Finished s'.
Proof.
  intros Hself Hu.
  set (N1 := S (fold_right
                  (fun c acc =>
                     length (before (s c)) + length (after (s c)) + acc)
                  0 (belongs (s unit)))).
  destruct (@join_fold_finishes N1 unit s (belongs (s unit)) Hself)
    with (st := s) as [s1 [E1 K1]].
  { intros c Hc.
    pose proof (@relation_lengths_bound s (belongs (s unit)) c Hc).
    unfold N1. lia. }
  { apply others_kept_refl. }
  assert (Hu1 : forall v, incl (contains (s1 v)) (unit :: univ)).
  { intros v x Hx. destruct (proj2 K1 v x Hx) as [H | ->].
    - right. apply (Hu v). exact H.
    - left. reflexivity. }
  set (N2 := S (length (before (s1 unit)) + length univ)).
  destruct (@mirror_before_finishes N2 unit univ s1 Hu1) as [s2 [E2 C2]];
    [unfold N2; lia |].
  assert (Hu2 : forall v, incl (contains (s2 v)) (unit :: univ)).
  { intros v. rewrite C2. apply Hu1. }
  set (N3 := S (length (after (s2 unit)) + length univ)).
  destruct (@mirror_after_finishes N3 unit univ s2 Hu2) as [s3 [E3 C3]];
    [unfold N3; lia |].
  exists s3, (N1 + N2 + N3). intros fuel Hf.
  unfold mirror_relations. rewrite join_containers_fold.
  rewrite (@join_fold_more_fuel N1 fuel unit (belongs (s unit))
             ltac:(lia) (Finished s) s1 E1).
  rewrite (@mirror_before_more_fuel N2 fuel unit s1 s2 E2 ltac:(lia)).
  apply (@mirror_after_more_fuel N3 fuel unit s2 s3 E3). lia.
Qed.

(** *** [add_unit] as a whole *)

Lemma add_unit_returns (limit : nat) (ord : @SetOrder Unit)
    (reg : Registry) (s : Store) (h h1 : @Heap Unit) (unit : Unit)
    (path : String.string) (univ : list Unit)
    (listeners : list (@Config Unit)) :
  dict_find String.string_dec (reg_units reg) path = None ->
  notify_listeners limit ord s h (reg_listener reg) unit
  = (None, (h1, listeners)) ->
  ~ In unit (belongs (s unit)) ->
  (forall v, incl (contains (s v)) univ) ->
  exists s' N,
    (forall fuel, N <= fuel ->
       mirror_relations fuel unit s = Finished s'
       /\ add_unit fuel limit ord reg s h unit path
          = UnitAdded
              (mkRegistry
                 (dict_set String.string_dec (reg_units reg) path unit)
                 listeners) s' h1).
Proof.
  intros Hpath Hnotify Hself Hu.
  destruct (@mirror_relations_finishes unit univ s Hself Hu) as [s' [N HN]].
  exists s', N. intros fuel Hf. split; [apply HN; exact Hf |].
  unfold add_unit. rewrite Hpath, Hnotify, (HN fuel Hf), registry_set_twice.
  reflexivity.
Qed.

(** X9. Registering a new unit keeps the relation graph mirrored.
    Let [path] be free, let the listeners take the notification without
    raising, let the unit not list itself in [belongs] and let the
    [contains] lists draw on finitely many units.  If no other unit
    names the new unit in its [before] or [after] list yet, and the
    [before] and [after] lists of the other units mirror each other,
    then [add_unit] returns (for every large enough bound on the loop
    passes, with the same result), the unit is registered under [path],
    and in the resulting store every [after] entry has its [before]
    entry on the other side and conversely, for all units. *)
Theorem add_unit_of_a_new_unit_keeps_the_relations_mirrored
    (limit : nat) (ord : @SetOrder Unit) (reg : Registry) (s : Store)
    (h h1 : @Heap Unit) (unit : Unit) (path : String.string)
    (univ : list Unit) (listeners : list (@Config Unit)) :
  dict_find String.string_dec (reg_units reg) path = None ->
  notify_listeners limit ord s h (reg_listener reg) unit
  = (None, (h1, listeners)) ->
  ~ In unit (belongs (s unit)) ->
  (forall v, incl (contains (s v)) univ) ->
  unreferenced s unit ->
  consistent_without s unit ->
  exists s' N,
    (forall fuel, N <= fuel ->
       add_unit fuel limit ord reg s h unit path
       = UnitAdded
           (mkRegistry
              (dict_set String.string_dec (reg_units reg) path unit)
              listeners) s' h1)
    /\ relation_consistent s'.
Proof.
  intros Hpath Hnotify Hself Hu Hfresh Hold.
  destruct (@add_unit_returns limit ord reg s h h1 unit path univ listeners
              Hpath Hnotify Hself Hu) as [s' [N HN]].
  exists s', N. split; [intros fuel Hf; apply (HN fuel Hf) |].
  destruct (HN N (le_n N)) as [Hm _].
  eapply mirror_relations_consistent; eauto.
Qed.

(** X10. Whatever the store looked like, when [add_unit] has
    returned every relation of the registered unit is written on the
    other side too: the unit is in the [contains] list of each unit of
    its [belongs] list, in the [after] list of each unit of its [before]
    list and in the [before] list of each unit of its [after] list
    (these lists as they are after the call, with what the unit
    inherited from its containers and their members).  Apart from the
    unit itself, the [before] and [after] lists of the other units hold
    what they held before. *)
Theorem add_unit_writes_the_relations_of_the_unit_on_both_sides
    (limit : nat) (ord : @SetOrder Unit) (reg : Registry) (s : Store)
    (h h1 : @Heap Unit) (unit : Unit) (path : String.string)
    (univ : list Unit) (listeners : list (@Config Unit)) :
  dict_find String.string_dec (reg_units reg) path = None ->
  notify_listeners limit ord s h (reg_listener reg) unit
  = (None, (h1, listeners)) ->
  ~ In unit (belongs (s unit)) ->
  (forall v, incl (contains (s v)) univ) ->
  exists s' N,
    (forall fuel, N <= fuel ->
       add_unit fuel limit ord reg s h unit path
       = UnitAdded
           (mkRegistry
              (dict_set String.string_dec (reg_units reg) path unit)
              listeners) s' h1)
    /\ own_relations_mirrored s' unit
    /\ forall w x, w <> unit -> x <> unit ->
                   (In x (after (s' w)) <-> In x (after (s w)))
                   /\ (In x (before (s' w)) <-> In x (before (s w))).
Proof.
  intros Hpath Hnotify Hself Hu.
  destruct (@add_unit_returns limit ord reg s h h1 unit path univ listeners
              Hpath Hnotify Hself Hu) as [s' [N HN]].
  exists s', N. split; [intros fuel Hf; apply (HN fuel Hf) |].
  destruct (HN N (le_n N)) as [Hm _].
  destruct (@mirror_relations_spec N unit s s' Hm) as [P [_ [A _]]].
  split; [exact P | exact A].
Qed.

(** X11. A path is registered only once: after an [add_unit] that
    returned, every [add_unit] with the same path raises (the
    [Exception] of line 568) and changes nothing, whatever unit it is
    given. *)
Theorem path_is_registered_only_once
    (fuel fuel' limit limit' : nat) (ord ord' : @SetOrder Unit)
    (reg reg' : Registry) (s s' : Store) (h h' : @Heap Unit)
    (unit unit' : Unit) (path : String.string) :
  add_unit fuel limit ord reg s h unit path = UnitAdded reg' s' h' ->
  add_unit fuel' limit' ord' reg' s' h' unit' path
  = AddUnitRaised PlainException reg' s' h'.
Proof.
  unfold add_unit. intros H.
  destruct (dict_find String.string_dec (reg_units reg) path);
    [discriminate |].
  destruct (notify_listeners limit ord s h (reg_listener reg) unit)
    as [[e |] [h1 ls]]; [discriminate |].
  destruct (mirror_relations fuel unit s) as [s1 |]; [| discriminate].
  inversion H; subst. simpl.
  rewrite (dict_find_set_same String.string_dec). reflexivity.
Qed.

End RegistrationFacts.

(** ** Signals *)

Section StringKeys.
Context {V : Type}.

Lemma string_dict_find_app (d d' : list (String.string * V))
    (k : String.string) :
  dict_find String.string_dec (d ++ d') k
  = match dict_find String.string_dec d k with
    | Some v => Some v
    | None => dict_find String.string_dec d' k
    end.
Proof.
  induction d as [| [k' v'] d IH]; simpl; [reflexivity |].
  destruct (eqb_unit String.string_dec k k'); auto.
Qed.

End StringKeys.

Section SignalFacts.
Variable Handler : Type.
Variable Handler_eq_dec : forall x y : Handler, {x = y} + {x <> y}.
Variable handler_is_coroutine : Handler -> bool.
Variable handle :
  Handler -> String.string -> list (HandlerCall Handler) -> Outcome unit.

Local Abbreviation Signals := (Signals Handler).
Local Abbreviation signal_handlers := (@signal_handlers Handler).
Local Abbreviation add_signal_handler := (@add_signal_handler Handler).
Local Abbreviation remove_signal_handler :=
  (remove_signal_handler Handler_eq_dec).
Local Abbreviation call_handlers := (call_handlers handle).
Local Abbreviation trigger_signal :=
  (trigger_signal handler_is_coroutine handle).
Local Abbreviation async_trigger_signal :=
  (async_trigger_signal handler_is_coroutine handle).
Local Abbreviation register_handlers := (@register_handlers Handler).
Local Abbreviation registered_for := (@registered_for Handler).

(** The list [self.signals[signal]] evaluates to. *)
Lemma signal_handlers_fst (signals : Signals) (signal : String.string) :
  fst (signal_handlers signals signal)
  = match dict_find String.string_dec signals signal with
    | Some l => l
    | None => []
    end.
Proof.
  unfold signal_handlers.
  destruct (dict_find String.string_dec signals signal); reflexivity.
Qed.

Lemma signal_handlers_snd (signals : Signals) (signal s : String.string) :
  fst (signal_handlers (snd (signal_handlers signals signal)) s)
  = fst (signal_handlers signals s).
Proof.
  rewrite !signal_handlers_fst. unfold signal_handlers.
  destruct (dict_find String.string_dec signals signal) eqn:E; simpl;
    [reflexivity |].
  rewrite string_dict_find_app. simpl.
  destruct (dict_find String.string_dec signals s) eqn:Es; [reflexivity |].
  destruct (eqb_unit String.string_dec s signal); reflexivity.
Qed.

Lemma add_signal_handler_same (signals : Signals) (signal : String.string)
    (handler : Handler) :
  fst (signal_handlers (add_signal_handler signals signal handler) signal)
  = fst (signal_handlers signals signal) ++ [handler].
Proof.
  rewrite !signal_handlers_fst. unfold add_signal_handler, signal_handlers.
  destruct (dict_find String.string_dec signals signal) eqn:E;
    rewrite (dict_find_set_same String.string_dec); reflexivity.
Qed.

Lemma add_signal_handler_other (signals : Signals)
    (signal s : String.string) (handler : Handler) :
  s <> signal ->
  fst (signal_handlers (add_signal_handler signals signal handler) s)
  = fst (signal_handlers signals s).
Proof.
  intros N. rewrite !signal_handlers_fst.
  unfold add_signal_handler.
  pose proof (signal_handlers_snd signals signal s) as H.
  rewrite !signal_handlers_fst in H.
  destruct (signal_handlers signals signal) as [l sg]. simpl in H.
  rewrite (dict_find_set_other String.string_dec) by exact N. exact H.
Qed.

Lemma registered_for_snoc (signal s : String.string) (handler : Handler)
    (registrations : list (String.string * Handler)) :
  registered_for signal (registrations ++ [(s, handler)])
  = registered_for signal registrations
    ++ (if String.string_dec s signal then [handler] else []).
Proof.
  unfold registered_for. rewrite filter_app, map_app. simpl.
  destruct (String.string_dec s signal); reflexivity.
Qed.

(** The handlers a fresh [Config] holds for a signal after a sequence
    of [add_signal_handler] calls. *)
Lemma handlers_after_registrations
    (registrations : list (String.string * Handler))
    (signal : String.string) :
  fst (signal_handlers (register_handlers registrations) signal)
  = registered_for signal registrations.
Proof.
  induction registrations as [| [s handler] registrations IH]
    using rev_ind; [reflexivity |].
  unfold register_handlers in *. rewrite fold_left_app. simpl.
  rewrite registered_for_snoc.
  destruct (String.string_dec s signal) as [-> | N].
  - rewrite add_signal_handler_same, IH. reflexivity.
  - rewrite add_signal_handler_other by congruence.
    rewrite IH, app_nil_r. reflexivity.
Qed.

Lemma call_handlers_all_return (called : Handler -> bool)
    (signal : String.string) (handlers : list Handler) :
  (forall handler log,
      In handler handlers -> called handler = true ->
      handle handler signal log = Returns tt) ->
  forall log,
    call_handlers called signal handlers log
    = (None,
       log ++ map (fun handler => Handled handler signal)
                (filter called handlers)).
Proof.
  induction handlers as [| handler rest IH]; intros Hret log; simpl.
  - rewrite app_nil_r. reflexivity.
  - destruct (called handler) eqn:Ec.
    + rewrite (Hret handler log (or_introl eq_refl) Ec).
      rewrite IH
        by (intros hd l Hin Hc; apply Hret; [right; exact Hin | exact Hc]).
      simpl. rewrite <- app_assoc. reflexivity.
    + apply IH. intros hd l Hin Hc. apply Hret; [right; exact Hin | exact Hc].
Qed.

Lemma call_handlers_raise (called : Handler -> bool)
    (signal : String.string) (earlier later : list Handler)
    (handler : Handler) (e : Exn) :
  (forall hd log,
      In hd earlier -> called hd = true ->
      handle hd signal log = Returns tt) ->
  called handler = true ->
  forall log,
    handle handler signal
      (log ++ map (fun hd => Handled hd signal) (filter called earlier))
    = Raises e ->
    call_handlers called signal (earlier ++ handler :: later) log
    = (Some e,
       log ++ map (fun hd => Handled hd signal) (filter called earlier)
           ++ [Handled handler signal]).
Proof.
  intros Hret Hc. induction earlier as [| hd rest IH]; intros log He;
    simpl in *.
  - rewrite app_nil_r in He. rewrite Hc, He. reflexivity.
  - destruct (called hd) eqn:Ec.
    + rewrite (Hret hd log (or_introl eq_refl) Ec). simpl in He.
      rewrite IH.
      * rewrite <- app_assoc. reflexivity.
      * intros h1 l Hin Hc1. apply Hret; [right; exact Hin | exact Hc1].
      * rewrite <- app_assoc. exact He.
    + apply IH; [| exact He].
      intros h1 l Hin Hc1. apply Hret; [right; exact Hin | exact Hc1].
Qed.



(** X14. [remove_signal_handler] undoes [add_signal_handler] for a
    handler that was not registered for the signal before: the signal
    has the handlers it had, in the same order, and the other signals
    are untouched.  (The first occurrence is what [list.remove] takes
    out, so a handler registered twice loses its earlier place.) *)
Theorem remove_signal_handler_undoes_add_signal_handler
    (signals : Signals) (signal : String.string) (handler : Handler) :
  ~ In handler (fst (signal_handlers signals signal)) ->
  fst (remove_signal_handler
         (add_signal_handler signals signal handler) signal handler) = None
  /\ forall s,
       fst (signal_handlers
              (snd (remove_signal_handler
                      (add_signal_handler signals signal handler)
                      signal handler)) s)
       = fst (signal_handlers signals s).
Proof.
  intros Hnew.
  pose proof (add_signal_handler_same signals signal handler) as Hadd.
  unfold remove_signal_handler.
  pose proof (signal_handlers_snd
                (add_signal_handler signals signal handler) signal) as Hsnd.
  destruct (signal_handlers (add_signal_handler signals signal handler)
              signal) as [l sg]. simpl in Hadd, Hsnd. subst l.
  assert (Hrm : remove_first Handler_eq_dec handler
                  (fst (signal_handlers signals signal) ++ [handler])
                = Some (fst (signal_handlers signals signal))).
  { revert Hnew. generalize (fst (signal_handlers signals signal)).
    induction l as [| x l IH]; simpl; intros Hn.
    - rewrite eqb_unit_refl. reflexivity.
    - destruct (eqb_unit Handler_eq_dec handler x) eqn:E.
      + apply eqb_unit_eq in E. subst. exfalso. apply Hn. auto.
      + rewrite IH; [reflexivity | intros H; apply Hn; auto]. }
  rewrite Hrm. simpl. split; [reflexivity |].
  intros s. rewrite signal_handlers_fst.
  destruct (String.string_dec s signal) as [-> | N].
  - rewrite (dict_find_set_same String.string_dec). reflexivity.
  - rewrite (dict_find_set_other String.string_dec) by exact N.
    rewrite <- signal_handlers_fst, Hsnd.
    apply add_signal_handler_other. exact N.
Qed.

End SignalFacts.

(** ** Configuration values *)

Section VariableFacts.
Variable V : Type.

Local Abbreviation Variables := (Variables V).
Local Abbreviation ConfigVar := (ConfigVar V).

Lemma string_dict_find_absent (d : list (String.string * V))
    (k : String.string) :
  ~ In k (map fst d) -> dict_find String.string_dec d k = None.
Proof.
  induction d as [| [k' v] d IH]; simpl; intros H; [reflexivity |].
  destruct (eqb_unit String.string_dec k k') eqn:E.
  - apply eqb_unit_eq in E. subst. exfalso. apply H. auto.
  - apply IH. intros Hin. apply H. auto.
Qed.

(** What a lookup finds after [load_from_module]. *)
Lemma load_from_module_lookup (module : list (String.string * V)) :
  NoDup (map fst module) ->
  forall (variables : Variables) (key : String.string),
    dict_find String.string_dec (load_from_module variables module) key
    = match dict_find String.string_dec module key with
      | Some value =>
          if is_dunder key then dict_find String.string_dec variables key
          else Some value
      | None => dict_find String.string_dec variables key
      end.
Proof.
  unfold load_from_module.
  induction module as [| [k0 v0] module IH]; intros ND variables key;
    simpl; [reflexivity |].
  inversion ND as [| ? ? Hk0 ND']; subst.
  rewrite (IH ND'). clear IH.
  destruct (eqb_unit String.string_dec key k0) eqn:E.
  - apply eqb_unit_eq in E. subst key.
    rewrite (string_dict_find_absent _ _ Hk0).
    destruct (is_dunder k0); [reflexivity |].
    unfold Config_setitem. apply (dict_find_set_same String.string_dec).
  - apply eqb_unit_neq in E.
    assert (Hkeep : dict_find String.string_dec
                      (if is_dunder k0 then variables
                       else Config_setitem variables k0 v0) key
                    = dict_find String.string_dec variables key).
    { destruct (is_dunder k0); [reflexivity |].
      unfold Config_setitem.
      apply (dict_find_set_other String.string_dec). exact E. }
    destruct (dict_find String.string_dec module key) as [value |];
      [destruct (is_dunder key); [exact Hkeep | reflexivity] | exact Hkeep].
Qed.

(** X15. After [load_from_module(module)] a lookup of a name gives
    the value the module has for it, unless the name both starts and
    ends with two underscores or the module does not have it; in these
    two cases it gives what the config held before (or the default of
    [get]).  So a name that only starts with two underscores is loaded
    like any other. *)
Theorem load_from_module_takes_all_but_the_dunder_names
    (module : list (String.string * V)) (variables : Variables)
    (key : String.string) (default : V) :
  NoDup (map fst module) ->
  Config_get (load_from_module variables module) key default
  = match dict_find String.string_dec module key with
    | Some value =>
        if String.prefix "__" key && endswith "__" key
        then Config_get variables key default
        else value
    | None => Config_get variables key default
    end.
Proof.
  intros ND. unfold Config_get, Config_getitem.
  rewrite (@load_from_module_lookup module ND variables key).
  destruct (dict_find String.string_dec module key) as [value |];
    [| reflexivity].
  unfold is_dunder. destruct (String.prefix "__" key && endswith "__" key);
    reflexivity.
Qed.

(** X16. [ConfigVar.set] followed by [ConfigVar.get] on the
    resulting config gives the value that was set, whether the variable
    has a default or not, and leaves what [get] answers for every
    variable of another name as it was: the config value if there is
    one, else the default, else [LookupError]. *)
Theorem ConfigVar_get_after_set
    (self other : ConfigVar) (value : V) (config : Variables)
    (current current' : option Variables) :
  exists config',
    ConfigVar_set self value (Some config) current = Ok config'
    /\ ConfigVar_get self (Some config') current' = Ok value
    /\ (var_name other <> var_name self ->
        ConfigVar_get other (Some config') current'
        = ConfigVar_get other (Some config) current'
        /\ ConfigVar_get other (Some config) current'
           = match dict_find String.string_dec config (var_name other),
                   var_default other with
             | Some v, _ => Ok v
             | None, Some d => Ok d
             | None, None => Error LookupError
             end).
Proof.
  eexists. split; [reflexivity |].
  unfold ConfigVar_get, Config_getitem, Config_setitem. simpl.
  rewrite (dict_find_set_same String.string_dec). split; [reflexivity |].
  intros N. rewrite (dict_find_set_other String.string_dec) by exact N.
  split; [reflexivity |].
  destruct (dict_find String.string_dec config (var_name other));
    [reflexivity |].
  destruct (var_default other); reflexivity.
Qed.

End VariableFacts.

(** ** The iterator hands out added units only *)

Section KnownNodes.
Context {Unit : Type}.
Variable Unit_eq_dec : forall x y : Unit, {x = y} + {x <> y}.
Variable obj : Unit -> ConfigUnit Unit.
Variable A : Unit -> Prop.
Variable n0 : nat.

Local Abbreviation Heap := (@Heap Unit).
Local Abbreviation SetDict := (@SetDict Unit).
Local Abbreviation SetOrder := (@SetOrder Unit).
Local Abbreviation KahnIterator := (@KahnIterator Unit).
Local Abbreviation eqb_unit := (eqb_unit Unit_eq_dec).
Local Abbreviation mem := (mem Unit_eq_dec).
Local Abbreviation dict_find := (dict_find Unit_eq_dec).
Local Abbreviation dict_set := (dict_set Unit_eq_dec).
Local Abbreviation dict_del := (dict_del Unit_eq_dec).
Local Abbreviation dict_del_quiet := (dict_del_quiet Unit_eq_dec).
Local Abbreviation set_add := (set_add Unit_eq_dec).
Local Abbreviation set_remove := (set_remove Unit_eq_dec).
Local Abbreviation set_of_list := (set_of_list Unit_eq_dec).
Local Abbreviation dd_get := (dd_get Unit_eq_dec).
Local Abbreviation dd_add := (dd_add Unit_eq_dec).
Local Abbreviation dd_assign := (dd_assign Unit_eq_dec).
Local Abbreviation dd_discard := (dd_discard Unit_eq_dec).
Local Abbreviation dd_len := (dd_len Unit_eq_dec).
Local Abbreviation heap_known := (heap_known A n0).
Local Abbreviation refs_from := (@refs_from Unit n0).
Local Abbreviation keys_known := (keys_known A).
Local Abbreviation iterator_known := (iterator_known A n0).
Local Abbreviation entry_step := (entry_step A n0).

(** *** The heap *)

Lemma heap_get_alloc_In (h : Heap) (s : list Unit) (r : Ref) (u : Unit) :
  In u (heap_get (h ++ [s]) r) -> In u (heap_get h r) \/ In u s.
Proof.
  unfold heap_get. intros H.
  destruct (Nat.lt_ge_cases r (length h)) as [L | L].
  - rewrite app_nth1 in H by exact L. auto.
  - rewrite app_nth2 in H by lia.
    destruct (r - length h) as [| [| n]]; simpl in H; tauto.
Qed.

Lemma heap_get_set_In (h : Heap) (r r' : Ref) (s : list Unit) (u : Unit) :
  In u (heap_get (heap_set h r s) r') -> In u s \/ In u (heap_get h r').
Proof.
  unfold heap_get. revert r r'.
  induction h as [| x h IH]; intros r r' H; simpl in *.
  - destruct r'; simpl in H; contradiction.
  - destruct r as [| r]; destruct r' as [| r']; simpl in *; auto.
    apply IH in H. exact H.
Qed.

Lemma heap_known_alloc (h : Heap) (s : list Unit) :
  heap_known h -> (forall u, In u s -> A u) -> heap_known (h ++ [s]).
Proof.
  intros [L K] Hs. split; [rewrite length_app; lia |].
  intros r u Hr Hu. apply heap_get_alloc_In in Hu.
  destruct Hu as [Hu | Hu]; [eapply K; eauto | auto].
Qed.

Lemma heap_known_set (h : Heap) (r : Ref) (s : list Unit) :
  heap_known h -> (forall u, In u s -> A u) -> heap_known (heap_set h r s).
Proof.
  intros [L K] Hs. split; [rewrite heap_set_length; exact L |].
  intros r' u Hr Hu. apply heap_get_set_In in Hu.
  destruct Hu as [Hu | Hu]; [auto | eapply K; eauto].
Qed.

(** *** Entries of a dictionary *)

Lemma dict_find_entry (d : SetDict) (k : Unit) (r : Ref) :
  dict_find d k = Some r -> In (k, r) d.
Proof.
  induction d as [| [k' r'] d IH]; simpl; [discriminate |].
  destruct (eqb_unit k k') eqn:E.
  - apply eqb_unit_eq in E. intros H. inversion H; subst. auto.
  - auto.
Qed.

Lemma dict_set_entries (d : SetDict) (k : Unit) (r : Ref) :
  forall e, In e (dict_set d k r) -> In e d \/ e = (k, r).
Proof.
  induction d as [| [k' r'] d IH]; simpl; intros e H.
  - destruct H as [H | []]. auto.
  - destruct (eqb_unit k k') eqn:E.
    + apply eqb_unit_eq in E. subst.
      destruct H as [H | H]; [right; auto | left; auto].
    + destruct H as [H | H]; [left; auto |].
      destruct (IH e H); auto.
Qed.

Lemma dict_del_entries (d : SetDict) (k : Unit) :
  forall e, In e (dict_del_quiet d k) -> In e d.
Proof.
  unfold dict_del_quiet.
  assert (G : forall d', dict_del d k = Some d' ->
                         forall e, In e d' -> In e d).
  { induction d as [| [k' r'] d IH]; simpl; intros d' H e He;
      [discriminate |].
    destruct (eqb_unit k k').
    - inversion H; subst. auto.
    - destruct (dict_del d k) as [d'' |]; inversion H; subst.
      destruct He as [He | He]; [auto | right; eapply IH; eauto]. }
  destruct (dict_del d k) as [d' |] eqn:E; [| auto].
  intros e He. eapply G; eauto.
Qed.

Lemma dict_find_fresh (d : SetDict) (k : Unit) (r : Ref) :
  dict_find d k = None -> dict_find (d ++ [(k, r)]) k = Some r.
Proof.
  induction d as [| [k' r'] d IH]; simpl; intros H.
  - rewrite eqb_unit_refl. reflexivity.
  - destruct (eqb_unit k k'); [discriminate | auto].
Qed.

Lemma dict_del_fresh (d : SetDict) (k : Unit) (r : Ref) :
  dict_find d k = None -> dict_del_quiet (d ++ [(k, r)]) k = d.
Proof.
  unfold dict_del_quiet. intros H.
  assert (G : dict_del (d ++ [(k, r)]) k = Some d).
  { induction d as [| [k' r'] d IH]; simpl in *.
    - rewrite eqb_unit_refl. reflexivity.
    - destruct (eqb_unit k k'); [discriminate |].
      rewrite IH by exact H. reflexivity. }
  rewrite G. reflexivity.
Qed.

(** *** The operations on a [defaultdict(set)] *)

Lemma dd_get_known (h h' : Heap) (d d' : SetDict) (k : Unit) (r : Ref) :
  heap_known h -> refs_from d ->
  dd_get h d k = (r, h', d') ->
  entry_step h d h' d' k
  /\ n0 <= r
  /\ (forall u, In u (heap_get h' r) -> A u)
  /\ dict_find d' k = Some r
  /\ (dict_find d k = None ->
      heap_get h' r = [] /\ d' = d ++ [(k, r)] /\ h' = h ++ [[]]).
Proof.
  intros Hh Hd. unfold dd_get.
  destruct (dict_find d k) as [r0 |] eqn:Ef; intros H; inversion H; subst.
  - pose proof (@dict_find_entry _ _ _ Ef) as Hin.
    split; [split; [exact Hh | split; [exact Hd | auto]] |].
    split; [eapply Hd; eauto |].
    split; [intros u Hu; eapply (proj2 Hh); [eapply Hd |]; eauto |].
    split; [exact Ef | discriminate].
  - assert (Hh' : heap_known (h ++ [[]]))
      by (apply heap_known_alloc; [exact Hh | intros u []]).
    split.
    { split; [exact Hh' |]. split.
      - intros k' r' Hin. apply in_app_or in Hin.
        destruct Hin as [Hin | [Hin | []]]; [eapply Hd; eauto |].
        inversion Hin; subst. apply Hh.
      - intros e He. apply in_app_or in He.
        destruct He as [He | [<- | []]]; auto. }
    split; [apply Hh |].
    rewrite heap_get_alloc_new.
    split; [intros u [] |].
    split; [apply dict_find_fresh; exact Ef | auto].
Qed.

Lemma dd_add_known (h h' : Heap) (d d' : SetDict) (k x : Unit) :
  heap_known h -> refs_from d -> A x ->
  dd_add h d k x = (h', d') ->
  entry_step h d h' d' k.
Proof.
  intros Hh Hd Hx. unfold dd_add.
  destruct (dd_get h d k) as [[r h1] d1] eqn:Eg. intros H.
  inversion H; subst. clear H.
  destruct (@dd_get_known _ _ _ _ _ _ Hh Hd Eg) as [[Hh1 [Hd1 He1]] [_ [Hm _]]].
  split; [| split; [exact Hd1 | exact He1]].
  apply heap_known_set; [exact Hh1 |].
  intros u Hu. apply set_add_In in Hu. destruct Hu as [Hu | ->]; auto.
Qed.

Lemma dd_discard_known (h h' : Heap) (d d' : SetDict) (k x : Unit) :
  heap_known h -> refs_from d ->
  dd_discard h d k x = (h', d') ->
  entry_step h d h' d' k.
Proof.
  intros Hh Hd. unfold dd_discard.
  destruct (dd_get h d k) as [[r h1] d1] eqn:Eg.
  destruct (@dd_get_known _ _ _ _ _ _ Hh Hd Eg) as [[Hh1 [Hd1 He1]] [_ [Hm _]]].
  destruct (set_remove x (heap_get h1 r)) as [s |] eqn:Es;
    intros H; inversion H; subst; clear H.
  - split; [| split; [exact Hd1 | exact He1]].
    apply heap_known_set; [exact Hh1 |].
    intros u Hu. apply set_remove_spec in Es. apply Hm, Es, Hu.
  - split; [exact Hh1 | split; [exact Hd1 | exact He1]].
Qed.

Lemma dd_len_known (h h' : Heap) (d d' : SetDict) (k : Unit) (n : nat) :
  heap_known h -> refs_from d ->
  dd_len h d k = (n, h', d') ->
  entry_step h d h' d' k
  /\ (dict_find d k = None -> n = 0 /\ d' = d ++ [(k, length h)]).
Proof.
  intros Hh Hd. unfold dd_len.
  destruct (dd_get h d k) as [[r h1] d1] eqn:Eg. intros H.
  inversion H; subst. clear H.
  destruct (@dd_get_known _ _ _ _ _ _ Hh Hd Eg) as [S [_ [_ [_ Hnew]]]].
  split; [exact S |]. intros Ef.
  destruct (Hnew Ef) as [E1 [E2 E3]]. rewrite E1. split; [reflexivity |].
  unfold dd_get in Eg. rewrite Ef in Eg. inversion Eg; subst. reflexivity.
Qed.

Lemma dd_assign_known (h h' : Heap) (d d' : SetDict) (k : Unit)
    (l : list Unit) :
  heap_known h -> refs_from d -> (forall u, In u l -> A u) ->
  dd_assign h d k l = (h', d') ->
  entry_step h d h' d' k.
Proof.
  intros Hh Hd Hl. unfold dd_assign, heap_alloc. intros H.
  inversion H; subst. clear H. split; [| split].
  - apply heap_known_alloc; [exact Hh |].
    intros u Hu. apply Hl. apply (set_of_list_In Unit_eq_dec). exact Hu.
  - intros k' r' Hin. apply dict_set_entries in Hin.
    destruct Hin as [Hin | Hin]; [eapply Hd; eauto |].
    inversion Hin; subst. apply Hh.
  - intros e He. apply dict_set_entries in He.
    destruct He as [He | ->]; auto.
Qed.

(** Lines 100-106 of [remove_node], for one neighbour: a key that was
    not there is gone again at the end. *)
Lemma unlink_step_known (h : Heap) (d : SetDict) (unit node : Unit) :
  heap_known h -> refs_from d ->
  forall h1 d1 n h2 d2,
    dd_discard h d unit node = (h1, d1) ->
    dd_len h1 d1 unit = (n, h2, d2) ->
    heap_known h2
    /\ refs_from (if n =? 0 then dict_del_quiet d2 unit else d2)
    /\ forall e, In e (if n =? 0 then dict_del_quiet d2 unit else d2) ->
                 In e d.
Proof.
  intros Hh Hd h1 d1 n h2 d2 E1 E2.
  destruct (@dd_discard_known _ _ _ _ _ _ Hh Hd E1) as [Hh1 [Hd1 _]].
  destruct (@dd_len_known _ _ _ _ _ _ Hh1 Hd1 E2) as [[Hh2 [Hd2 _]] _].
  split; [exact Hh2 |].
  assert (Hsub : forall e,
             In e (if n =? 0 then dict_del_quiet d2 unit else d2) ->
             In e d).
  { unfold dd_discard, dd_len, dd_get in *.
    destruct (dict_find d unit) as [r |] eqn:Ef.
    - assert (d1 = d)
        by (destruct (set_remove node (heap_get h r));
            inversion E1; reflexivity).
      subst d1. rewrite Ef in E2. inversion E2; subst.
      intros e He. destruct (length (heap_get h2 r) =? 0); [| exact He].
      apply dict_del_entries in He. exact He.
    - unfold heap_alloc in E1. rewrite heap_get_alloc_new in E1.
      simpl in E1. inversion E1; subst. clear E1.
      rewrite (@dict_find_fresh d unit (length h) Ef) in E2.
      inversion E2; subst. rewrite heap_get_alloc_new. simpl.
      rewrite (@dict_del_fresh d unit (length h) Ef). auto. }
  split; [| exact Hsub].
  intros k r Hin. destruct (n =? 0); [| eapply Hd2; eauto].
  apply dict_del_entries in Hin. eapply Hd2; eauto.
Qed.

(** *** The loops *)

Lemma add_node_link_known (nds l : list Unit) (node : Unit)
    (neighbours : list Unit) :
  A node ->
  forall (h h' : Heap) (d d' : SetDict),
    heap_known h -> refs_from d ->
    add_node_link Unit_eq_dec nds l node neighbours h d = (h', d') ->
    heap_known h' /\ refs_from d'
    /\ forall e, In e d' -> In e d \/ In (fst e) nds.
Proof.
  intros Hn. unfold add_node_link.
  induction neighbours as [| x neighbours IH]; intros h h' d d' Hh Hd H;
    simpl in H.
  - inversion H; subst. auto.
  - destruct (mem x nds && negb (mem node l)) eqn:Ec.
    + destruct (dd_add h d x node) as [h1 d1] eqn:E1.
      destruct (@dd_add_known _ _ _ _ _ _ Hh Hd Hn E1) as [Hh1 [Hd1 He1]].
      destruct (IH _ _ _ _ Hh1 Hd1 H) as [Hh' [Hd' He']].
      split; [exact Hh' |]. split; [exact Hd' |].
      intros e He. destruct (He' e He) as [H1 | H1]; [| auto].
      destruct (He1 e H1) as [H2 | H2]; [auto |].
      right. rewrite H2. apply andb_true_iff in Ec.
      apply (mem_In Unit_eq_dec). apply Ec.
    + eapply IH; eauto.
Qed.

Lemma nodes_with_new_dependencys_known (stk : list Unit) :
  forall (acc deps : list Unit) (h h' : Heap) (aft aft' : SetDict),
    heap_known h -> refs_from aft ->
    fold_left
      (fun (st : list Unit * Heap * SetDict) stack_node =>
         let '(acc, h, aft) := st in
         let '(n, h, aft) := dd_len h aft stack_node in
         if 0 <? n then (acc ++ [stack_node], h, aft) else (acc, h, aft))
      stk (acc, h, aft) = (deps, h', aft') ->
    heap_known h' /\ refs_from aft'
    /\ forall e, In e aft' -> In e aft \/ In (fst e) stk.
Proof.
  induction stk as [| x stk IH]; intros acc deps h h' aft aft' Hh Hd H;
    simpl in H.
  - inversion H; subst. auto.
  - destruct (dd_len h aft x) as [[n h1] aft1] eqn:E1.
    destruct (@dd_len_known _ _ _ _ _ _ Hh Hd E1) as [[Hh1 [Hd1 He1]] _].
    assert (G : heap_known h' /\ refs_from aft'
                /\ forall e, In e aft' -> In e aft1 \/ In (fst e) stk).
    { destruct (0 <? n); eapply IH; eauto. }
    destruct G as [Hh' [Hd' He']].
    split; [exact Hh' |]. split; [exact Hd' |].
    intros e He. destruct (He' e He) as [H1 | H1]; [| right; right; exact H1].
    destruct (He1 e H1) as [H2 | H2]; [auto | right; left; auto].
Qed.

Lemma stack_remove_all_incl (l stk : list Unit) :
  incl (stack_remove_all Unit_eq_dec stk l) stk.
Proof.
  unfold stack_remove_all. revert stk.
  induction l as [| x l IH]; intros stk; simpl; [apply incl_refl |].
  destruct (remove_first Unit_eq_dec x stk) as [s |] eqn:E; [| apply IH].
  eapply incl_tran; [apply IH |].
  eapply remove_first_incl; eauto.
Qed.

Lemma remove_node_unlink_known (node : Unit) (neighbours : list Unit) :
  forall (h h' : Heap) (d d' : SetDict),
    heap_known h -> refs_from d ->
    remove_node_unlink Unit_eq_dec node neighbours h d = (h', d') ->
    heap_known h' /\ refs_from d' /\ forall e, In e d' -> In e d.
Proof.
  unfold remove_node_unlink.
  induction neighbours as [| x neighbours IH]; intros h h' d d' Hh Hd H;
    simpl in H.
  - inversion H; subst. auto.
  - destruct (dd_discard h d x node) as [h1 d1] eqn:E1.
    destruct (dd_len h1 d1 x) as [[n h2] d2] eqn:E2.
    destruct (@unlink_step_known h d x node Hh Hd h1 d1 n h2 d2 E1 E2)
      as [Hh2 [Hd3 He3]].
    assert (G : heap_known h' /\ refs_from d'
                /\ forall e, In e d' ->
                      In e (if n =? 0 then dict_del_quiet d2 x else d2)).
    { destruct (n =? 0); eapply IH; eauto. }
    destruct G as [Hh' [Hd' He']].
    split; [exact Hh' |]. split; [exact Hd' |]. auto.
Qed.

Lemma remove_node_rescan_known (self_lst : list Unit) (l : list Unit) :
  forall (h h' : Heap) (aft aft' : SetDict) (stk stk' : list Unit),
    heap_known h -> refs_from aft ->
    fold_left
      (fun (st : Heap * SetDict * list Unit) node =>
         let '(h, aft, stk) := st in
         if mem node self_lst then (h, aft, stk)
         else
           let '(n, h, aft) := dd_len h aft node in
           if n =? 0 then (h, aft, stk ++ [node]) else (h, aft, stk))
      l (h, aft, stk) = (h', aft', stk') ->
    heap_known h' /\ refs_from aft'
    /\ (forall e, In e aft' -> In e aft \/ In (fst e) l)
    /\ forall u, In u stk' -> In u stk \/ In u l.
Proof.
  induction l as [| x l IH]; intros h h' aft aft' stk stk' Hh Hd H;
    simpl in H.
  - inversion H; subst. auto.
  - destruct (mem x self_lst).
    + destruct (IH _ _ _ _ _ _ Hh Hd H) as [Hh' [Hd' [He' Hs']]].
      split; [exact Hh' |]. split; [exact Hd' |]. split.
      * intros e He. destruct (He' e He); [auto | right; right; auto].
      * intros u Hu. destruct (Hs' u Hu); [auto | right; right; auto].
    + destruct (dd_len h aft x) as [[n h1] aft1] eqn:E1.
      destruct (@dd_len_known _ _ _ _ _ _ Hh Hd E1) as [[Hh1 [Hd1 He1]] _].
      assert (G : heap_known h' /\ refs_from aft'
                  /\ (forall e, In e aft' -> In e aft1 \/ In (fst e) l)
                  /\ forall u, In u stk' -> In u (stk ++ [x]) \/ In u l).
      { destruct (n =? 0).
        - eapply IH; eauto.
        - destruct (IH _ _ _ _ _ _ Hh1 Hd1 H) as [P1 [P2 [P3 P4]]].
          repeat (split; [assumption |]).
          intros u Hu. destruct (P4 u Hu); [left | right]; auto.
          apply in_or_app. auto. }
      destruct G as [Hh' [Hd' [He' Hs']]].
      split; [exact Hh' |]. split; [exact Hd' |]. split.
      * intros e He. destruct (He' e He) as [H1 | H1];
          [| right; right; exact H1].
        destruct (He1 e H1) as [H2 | H2]; [auto | right; left; auto].
      * intros u Hu. destruct (Hs' u Hu) as [H1 | H1];
          [| right; right; exact H1].
        apply in_app_or in H1. destruct H1 as [H1 | [<- | []]]; auto.
        right. left. reflexivity.
Qed.

Lemma rescue_known (h : Heap) (aft aft' : SetDict) (stk stk' : list Unit) :
  rescue Unit_eq_dec h aft stk = (aft', stk') ->
  (forall e, In e aft' -> In e aft)
  /\ forall u, In u stk' -> In u stk \/ exists r, In (u, r) aft.
Proof.
  assert (Hdel : forall (l : list Unit) (d : SetDict) e,
             In e (fold_left (fun aft unit => dict_del_quiet aft unit) l d) ->
             In e d).
  { induction l as [| x l IH]; intros d e He; simpl in He; [exact He |].
    apply IH in He. apply dict_del_entries in He. exact He. }
  assert (Hpush : forall (d : SetDict) (s : list Unit) u,
             In u (fold_left
                     (fun stk (kr : Unit * Ref) =>
                        if length (heap_get h (snd kr)) =? 0
                        then stk ++ [fst kr] else stk) d s) ->
             In u s \/ exists r, In (u, r) d).
  { induction d as [| [k r] d IH]; intros s u Hu; simpl in Hu; [auto |].
    apply IH in Hu.
    destruct Hu as [Hu | [r0 Hu]]; [| right; exists r0; right; exact Hu].
    destruct (length (heap_get h r) =? 0); [| auto].
    apply in_app_or in Hu. destruct Hu as [Hu | [<- | []]]; [auto |].
    right. exists r. left. reflexivity. }
  unfold rescue. intros H. inversion H; subst. clear H. split.
  - intros e He. eapply Hdel; eauto.
  - intros u Hu. apply Hpush. exact Hu.
Qed.

Lemma release_known (node : Unit) (others : list Unit) :
  forall (h h' : Heap) (aft aft' : SetDict) (stk stk' : list Unit),
    heap_known h -> refs_from aft ->
    release Unit_eq_dec node others h aft stk = (h', aft', stk') ->
    heap_known h' /\ refs_from aft'
    /\ (forall e, In e aft' -> In e aft \/ In (fst e) others)
    /\ forall u, In u stk' -> In u stk \/ In u others.
Proof.
  unfold release.
  induction others as [| x others IH];
    intros h h' aft aft' stk stk' Hh Hd H; simpl in H.
  - inversion H; subst. auto.
  - destruct (dd_discard h aft x node) as [h1 aft1] eqn:E1.
    destruct (dd_len h1 aft1 x) as [[n h2] aft2] eqn:E2.
    destruct (@dd_discard_known _ _ _ _ _ _ Hh Hd E1) as [Hh1 [Hd1 He1]].
    destruct (@dd_len_known _ _ _ _ _ _ Hh1 Hd1 E2)
      as [[Hh2 [Hd2 He2]] _].
    assert (G : heap_known h' /\ refs_from aft'
                /\ (forall e, In e aft' -> In e aft2 \/ In (fst e) others)
                /\ forall u, In u stk' -> In u (stk ++ [x]) \/ In u others).
    { destruct (n =? 0).
      - destruct (IH h2 h' (dict_del_quiet aft2 x) aft' (stk ++ [x]) stk')
          as [P1 [P2 [P3 P4]]]; auto.
        { intros k r Hin. apply dict_del_entries in Hin.
          eapply Hd2; eauto. }
        repeat (split; [assumption |]). split; [| exact P4].
        intros e He. destruct (P3 e He) as [H1 | H1]; [| auto].
        left. apply dict_del_entries in H1. exact H1.
      - destruct (IH _ _ _ _ _ _ Hh2 Hd2 H) as [P1 [P2 [P3 P4]]].
        repeat (split; [assumption |]).
        intros u Hu. destruct (P4 u Hu); [left | right]; auto.
        apply in_or_app. auto. }
    destruct G as [Hh' [Hd' [He' Hs']]].
    split; [exact Hh' |]. split; [exact Hd' |]. split.
    + intros e He. destruct (He' e He) as [H1 | H1];
        [| right; right; exact H1].
      destruct (He2 e H1) as [H2 | H2]; [| right; left; auto].
      destruct (He1 e H2) as [H3 | H3]; [auto | right; left; auto].
    + intros u Hu. destruct (Hs' u Hu) as [H1 | H1];
        [| right; right; exact H1].
      apply in_app_or in H1. destruct H1 as [H1 | [<- | []]]; auto.
      right. left. reflexivity.
Qed.

(** *** The methods *)

Lemma keys_known_step (d d' : SetDict) :
  keys_known d ->
  (forall e, In e d' -> In e d \/ A (fst e)) ->
  keys_known d'.
Proof.
  intros Hk He k r Hin. destruct (He _ Hin) as [H | H]; [| exact H].
  eapply Hk; eauto.
Qed.

Lemma add_node_known (h h' : Heap) (k k' : KahnIterator) (node : Unit) :
  iterator_known (h, k) -> A node ->
  add_node Unit_eq_dec obj h k node = (h', k') ->
  iterator_known (h', k').
Proof.
  intros K Hn. pose proof K as [Hh [Ha [Hb [Hk [Hs [Hnd Hl]]]]]].
  simpl in Hh, Ha, Hb, Hk, Hs, Hnd, Hl.
  unfold add_node. destruct (mem node (lst k)).
  { intros H. inversion H; subst. exact K. }
  destruct (add_node_link Unit_eq_dec (nodes k) (lst k) node
              (after (obj node)) h (k_before k)) as [h1 bef1] eqn:E1.
  destruct (@add_node_link_known _ _ _ _ Hn _ _ _ _ Hh Hb E1)
    as [Hh1 [Hb1 _]].
  destruct (add_node_link Unit_eq_dec (nodes k) (lst k) node
              (before (obj node)) h1 (k_after k)) as [h2 aft2] eqn:E2.
  destruct (@add_node_link_known _ _ _ _ Hn _ _ _ _ Hh1 Ha E2)
    as [Hh2 [Ha2 He2]].
  assert (Hk2 : keys_known aft2).
  { apply keys_known_step with (d := k_after k); [exact Hk |].
    intros e He. destruct (He2 e He); auto. }
  clear E1 E2 He2.
  destruct (if 0 <? length (after (obj node))
            then dd_assign h2 aft2 node
                   (filter
                      (fun x => mem x (nodes k) && negb (mem x (lst k)))
                      (after (obj node)))
            else (h2, aft2)) as [h3 aft3] eqn:E3.
  assert (S3 : entry_step h2 aft2 h3 aft3 node).
  { destruct (0 <? length (after (obj node))).
    - refine (@dd_assign_known h2 h3 aft2 aft3 node _ Hh2 Ha2 _ E3).
      intros u Hu. apply filter_In in Hu. destruct Hu as [_ Hu].
      apply andb_true_iff in Hu. apply Hnd.
      apply (mem_In Unit_eq_dec). apply Hu.
    - inversion E3; subst. repeat split; auto; apply Hh2. }
  destruct S3 as [Hh3 [Ha3 He3]].
  assert (Hk3 : keys_known aft3).
  { apply keys_known_step with (d := aft2); [exact Hk2 |].
    intros e He. destruct (He3 e He) as [H | H]; [auto |].
    right. rewrite H. exact Hn. }
  clear E3 He3.
  destruct (if 0 <? length (before (obj node))
            then dd_assign h3 bef1 node
                   (filter (fun x => mem x (nodes k)) (before (obj node)))
            else (h3, bef1)) as [h4 bef4] eqn:E4.
  assert (S4 : entry_step h3 bef1 h4 bef4 node).
  { destruct (0 <? length (before (obj node))).
    - refine (@dd_assign_known h3 h4 bef1 bef4 node _ Hh3 Hb1 _ E4).
      intros u Hu. apply filter_In in Hu. destruct Hu as [_ Hu].
      apply Hnd. apply (mem_In Unit_eq_dec). exact Hu.
    - inversion E4; subst. repeat split; auto; apply Hh3. }
  destruct S4 as [Hh4 [Hb4 _]]. clear E4.
  destruct (if length (after (obj node)) =? 0 then (true, h4, aft3)
            else
              let '(r, h, aft) := dd_get h4 aft3 node in
              (forallb (fun x => mem x (lst k)) (heap_get h r), h, aft))
    as [[ready h5] aft5] eqn:E5.
  assert (S5 : entry_step h4 aft3 h5 aft5 node).
  { destruct (length (after (obj node)) =? 0).
    - inversion E5; subst. repeat split; auto; apply Hh4.
    - destruct (dd_get h4 aft3 node) as [[r hg] ag] eqn:Eg.
      inversion E5; subst.
      apply (@dd_get_known _ _ _ _ _ _ Hh4 Ha3 Eg). }
  destruct S5 as [Hh5 [Ha5 He5]].
  assert (Hk5 : keys_known aft5).
  { apply keys_known_step with (d := aft3); [exact Hk3 |].
    intros e He. destruct (He5 e He) as [H | H]; [auto |].
    right. rewrite H. exact Hn. }
  clear E5 He5.
  set (stk := if ready then stack k ++ [node] else stack k).
  assert (Hstk : forall u, In u stk -> A u).
  { subst stk. intros u Hu. destruct ready; [| auto].
    apply in_app_or in Hu. destruct Hu as [Hu | [<- | []]]; auto. }
  destruct (nodes_with_new_dependencys Unit_eq_dec h5 aft5 stk)
    as [[deps h6] aft6] eqn:E6.
  unfold nodes_with_new_dependencys in E6.
  destruct (@nodes_with_new_dependencys_known _ _ _ _ _ _ _ Hh5 Ha5 E6)
    as [Hh6 [Ha6 He6]].
  intros H. inversion H; subst h' k'. clear H.
  split; [exact Hh6 |]. simpl.
  split; [exact Ha6 |]. split; [exact Hb4 |]. split; [| split; [| split]].
  - apply keys_known_step with (d := aft5); [exact Hk5 |].
    intros e He. destruct (He6 e He); auto.
  - intros u Hu. apply Hstk. eapply stack_remove_all_incl; eauto.
  - intros u Hu. apply set_add_In in Hu. destruct Hu as [Hu | ->]; auto.
  - exact Hl.
Qed.

Lemma KahnIterator_init_known (h h' : Heap) (k' : KahnIterator)
    (units : list Unit) :
  heap_known h -> (forall u, In u units -> A u) ->
  KahnIterator_init Unit_eq_dec obj h units = (h', k') ->
  iterator_known (h', k').
Proof.
  intros Hh Hu. unfold KahnIterator_init.
  assert (K : iterator_known (h, KahnIterator_empty)).
  { split; [exact Hh |]. simpl.
    repeat split; try (intros ? ? []); intros ? []. }
  revert K. generalize (@KahnIterator_empty Unit). revert h Hh.
  induction units as [| x units IH]; intros h Hh k K H; simpl in H.
  - inversion H; subst. exact K.
  - destruct (add_node Unit_eq_dec obj h k x) as [h1 k1] eqn:E1.
    assert (K1 : iterator_known (h1, k1)).
    { eapply add_node_known; eauto. apply Hu. left. reflexivity. }
    apply (IH (fun u Hin => Hu u (or_intror Hin)) h1 (proj1 K1) k1 K1 H).
Qed.

Lemma dict_del_quiet_known (d : SetDict) (k : Unit) :
  refs_from d -> refs_from (dict_del_quiet d k).
Proof.
  intros Hd k' r Hin. apply dict_del_entries in Hin. eapply Hd; eauto.
Qed.

Lemma remove_node_known (ord : SetOrder) (h h' : Heap)
    (k k' : KahnIterator) (node : Unit) (e : option Exn) :
  iterator_known (h, k) ->
  remove_node Unit_eq_dec obj ord h k node = (e, h', k') ->
  iterator_known (h', k').
Proof.
  intros K. pose proof K as [Hh [Ha [Hb [Hk [Hs [Hnd Hl]]]]]].
  simpl in Hh, Ha, Hb, Hk, Hs, Hnd, Hl.
  unfold remove_node. destruct (mem node (lst k)).
  { intros H. inversion H; subst. exact K. }
  destruct (remove_node_unlink Unit_eq_dec node (after (obj node)) h
              (k_before k)) as [h1 bef1] eqn:E1.
  destruct (@remove_node_unlink_known _ _ _ _ _ _ Hh Hb E1)
    as [Hh1 [Hb1 _]].
  destruct (remove_node_unlink Unit_eq_dec node (before (obj node)) h1
              (k_after k)) as [h2 aft2] eqn:E2.
  destruct (@remove_node_unlink_known _ _ _ _ _ _ Hh1 Ha E2)
    as [Hh2 [Ha2 He2]].
  clear E1 E2.
  set (aft3 := dict_del_quiet aft2 node).
  set (bef3 := dict_del_quiet bef1 node).
  set (stk := match remove_first Unit_eq_dec node (stack k) with
              | Some s => s
              | None => stack k
              end).
  assert (Ha3 : refs_from aft3) by (apply dict_del_quiet_known; exact Ha2).
  assert (Hb3 : refs_from bef3) by (apply dict_del_quiet_known; exact Hb1).
  assert (Hk3 : keys_known aft3).
  { apply keys_known_step with (d := k_after k); [exact Hk |].
    intros x Hx. left. apply He2. apply dict_del_entries in Hx. exact Hx. }
  assert (Hstk : forall u, In u stk -> A u).
  { subst stk. intros u Hu.
    destruct (remove_first Unit_eq_dec node (stack k)) as [s |] eqn:Er;
      [| auto].
    apply Hs. eapply remove_first_incl; eauto. }
  destruct (set_remove node (nodes k)) as [nds |] eqn:Es.
  - assert (Hnds : forall u, In u nds -> A u).
    { intros u Hu. apply Hnd. apply set_remove_spec in Es. apply Es, Hu. }
    assert (Hord : forall u, In u (ord nds) -> A u).
    { intros u Hu. apply Hnds.
      eapply Permutation_in; [apply iter_order_perm | exact Hu]. }
    destruct (remove_node_rescan Unit_eq_dec ord (lst k) nds h2 aft3 stk)
      as [[h4 aft4] stk4] eqn:E4.
    unfold remove_node_rescan in E4.
    destruct (@remove_node_rescan_known _ _ _ _ _ _ _ _ Hh2 Ha3 E4)
      as [Hh4 [Ha4 [He4 Hs4]]].
    intros H. inversion H; subst h' k'. clear H.
    split; [exact Hh4 |]. simpl.
    split; [exact Ha4 |]. split; [exact Hb3 |]. split; [| split; [| split]].
    + apply keys_known_step with (d := aft3); [exact Hk3 |].
      intros x Hx. destruct (He4 x Hx); auto.
    + intros u Hu. destruct (Hs4 u Hu); auto.
    + exact Hnds.
    + exact Hl.
  - intros H. inversion H; subst h' k'. clear H.
    split; [exact Hh2 |]. simpl. auto 10.
Qed.

Lemma refill_stack_known (h : Heap) (k : KahnIterator) (aft : SetDict)
    (stk : list Unit) (cycle : bool) :
  iterator_known (h, k) ->
  refill_stack Unit_eq_dec h k = (aft, stk, cycle) ->
  refs_from aft /\ keys_known aft /\ forall u, In u stk -> A u.
Proof.
  intros [Hh [Ha [Hb [Hk [Hs [Hnd Hl]]]]]].
  simpl in Hh, Ha, Hb, Hk, Hs, Hnd, Hl.
  unfold refill_stack.
  assert (Same : (k_after k, stack k, false) = (aft, stk, cycle) ->
                 refs_from aft /\ keys_known aft
                 /\ forall u, In u stk -> A u).
  { intros H. inversion H; subst. auto. }
  destruct (stack k) as [| x s] eqn:Est; [| exact Same].
  destruct (has_pending h (k_after k)); [| exact Same].
  destruct (rescue Unit_eq_dec h (k_after k) []) as [aft1 stk1] eqn:Er.
  destruct (rescue_known Er) as [He1 Hs1].
  intros H. inversion H; subst. clear H. split; [| split].
  - intros k0 r Hin. eapply Ha. apply He1. exact Hin.
  - intros k0 r Hin. eapply Hk. apply He1. exact Hin.
  - intros u Hu. destruct (Hs1 u Hu) as [[] | [r Hin]]. eapply Hk; eauto.
Qed.

Lemma next_known (ord : SetOrder) (fuel : nat) :
  forall (h h' : Heap) (k k' : KahnIterator) (r : NextResult),
    iterator_known (h, k) ->
    next Unit_eq_dec obj fuel ord h k = (r, h', k') ->
    iterator_known (h', k')
    /\ forall node, r = Produced node -> A node.
Proof.
  induction fuel as [| fuel IH]; intros h h' k k' r K H; simpl in H.
  - inversion H; subst. split; [exact K | discriminate].
  - destruct (refill_stack Unit_eq_dec h k) as [[aft stk] cycle] eqn:Er.
    destruct (refill_stack_known K Er) as [Ha1 [Hk1 Hs1]].
    pose proof K as [Hh [Ha [Hb [Hk [Hs [Hnd Hl]]]]]].
    simpl in Hh, Ha, Hb, Hk, Hs, Hnd, Hl.
    destruct cycle.
    { inversion H; subst. split; [| discriminate].
      split; [exact Hh |]. simpl. auto 10. }
    destruct stk as [| node stk].
    { inversion H; subst. split; [| discriminate].
      split; [exact Hh |]. simpl. auto 10. }
    assert (Hn : A node) by (apply Hs1; left; reflexivity).
    destruct (dd_get h (k_before k) node) as [[rf h1] bef1] eqn:Eg.
    destruct (@dd_get_known _ _ _ _ _ _ Hh Hb Eg)
      as [[Hh1 [Hb1 _]] [_ [Hm _]]].
    assert (Hord : forall u, In u (ord (heap_get h1 rf)) -> A u).
    { intros u Hu. apply Hm.
      eapply Permutation_in; [apply iter_order_perm | exact Hu]. }
    destruct (release Unit_eq_dec node (ord (heap_get h1 rf)) h1 aft stk)
      as [[h2 aft2] stk2] eqn:El.
    destruct (@release_known _ _ _ _ _ _ _ _ Hh1 Ha1 El)
      as [Hh2 [Ha2 [He2 Hs2]]].
    assert (Hk2 : keys_known aft2).
    { apply keys_known_step with (d := aft); [exact Hk1 |].
      intros e He. destruct (He2 e He); auto. }
    assert (Hstk2 : forall u, In u stk2 -> A u).
    { intros u Hu. destruct (Hs2 u Hu); [| auto].
      apply Hs1. right. assumption. }
    destruct (excluded Unit_eq_dec obj (lst k) node).
    + eapply IH; [| exact H].
      split; [exact Hh2 |]. simpl. auto 10.
    + inversion H; subst. split.
      * split; [exact Hh2 |]. simpl.
        repeat (split; [assumption |]).
        intros u Hu. apply in_app_or in Hu.
        destruct Hu as [Hu | [<- | []]]; auto.
      * intros n E. inversion E; subst. exact Hn.
Qed.

Lemma perform_known (l : list (@Call Unit)) :
  forall (st st' : Heap * KahnIterator) (answers : list (@Answer Unit)),
    iterator_known st ->
    (forall node, In (AddNode node) l -> A node) ->
    perform Unit_eq_dec obj l st = (answers, st') ->
    iterator_known st'
    /\ forall node, In (Got (Produced node)) answers -> A node.
Proof.
  induction l as [| c l IH]; intros st st' answers K Hl H; simpl in H.
  - inversion H; subst. split; [exact K | intros ? []].
  - destruct (call Unit_eq_dec obj c st) as [a st1] eqn:Ec.
    destruct (perform Unit_eq_dec obj l st1) as [rs st2] eqn:Ep.
    inversion H; subst. clear H.
    assert (K1 : iterator_known st1
                 /\ forall node, a = Got (Produced node) -> A node).
    { destruct st as [h k]. destruct c as [node | ord node | fuel ord];
        simpl in Ec.
      - inversion Ec; subst. split; [| discriminate].
        destruct (add_node Unit_eq_dec obj h k node) as [h1 k1] eqn:Ea.
        eapply add_node_known; eauto. apply Hl. left. reflexivity.
      - destruct (remove_node Unit_eq_dec obj ord h k node)
          as [[e h1] k1] eqn:Ea.
        inversion Ec; subst. split; [| discriminate].
        eapply remove_node_known; eauto.
      - destruct (next Unit_eq_dec obj fuel ord h k) as [[r h1] k1] eqn:Ea.
        inversion Ec; subst.
        destruct (@next_known _ _ _ _ _ _ _ K Ea) as [K1 Hr].
        split; [exact K1 |]. intros node E. inversion E; subst.
        apply Hr. reflexivity. }
    destruct K1 as [K1 Ha].
    destruct (IH st1 st' rs K1) as [K2 Hrs]; auto.
    { intros node Hin. apply Hl. right. exact Hin. }
    split; [exact K2 |].
    intros node [E | Hin]; [apply Ha; exact E | apply Hrs; exact Hin].
Qed.

End KnownNodes.

Section AddedNodes.
Context {Unit : Type}.
Variable Unit_eq_dec : forall x y : Unit, {x = y} + {x <> y}.
Variable obj : Unit -> ConfigUnit Unit.

Local Abbreviation Heap := (@Heap Unit).
Local Abbreviation KahnIterator := (@KahnIterator Unit).

Lemma heap_known_start (A : Unit -> Prop) (h : Heap) :
  heap_known A (length h) h.
Proof.
  split; [apply le_n |]. intros r u Hr Hu.
  unfold heap_get in Hu. rewrite nth_overflow in Hu by exact Hr.
  destruct Hu.
Qed.

Lemma iterator_known_weaken (A B : Unit -> Prop) (n0 : nat)
    (st : Heap * KahnIterator) :
  (forall u, A u -> B u) ->
  iterator_known A n0 st -> iterator_known B n0 st.
Proof.
  intros AB [[Hn Hh] [Ha [Hb [Hk [Hs [Hnd Hl]]]]]].
  split; [split; [exact Hn | intros r u Hr Hu; eapply AB, Hh; eauto] |].
  split; [exact Ha |]. split; [exact Hb |].
  split; [intros k r Hin; eapply AB, Hk; eauto |].
  repeat split; intros u Hu; apply AB; auto.
Qed.

(** X18. Whatever calls were made on an iterator, a unit that [next]
    returns was given to the constructor or to an [add_node] call
    before: the iterator makes up no unit out of the [before] and
    [after] lists of the units it was given. *)
Theorem next_returns_added_units_only (h0 : Heap) (units : list Unit)
    (l : list (@Call Unit)) (node : Unit) :
  In (Got (Produced node))
     (fst (perform Unit_eq_dec obj l
             (KahnIterator_init Unit_eq_dec obj h0 units))) ->
  In node units \/ In (AddNode node) l.
Proof.
  set (A := fun u : Unit => In u units \/ In (AddNode u) l).
  destruct (KahnIterator_init Unit_eq_dec obj h0 units) as [h1 k1] eqn:Ei.
  assert (K : iterator_known A (length h0) (h1, k1)).
  { eapply KahnIterator_init_known; [apply heap_known_start | | exact Ei].
    intros u Hu. left. exact Hu. }
  destruct (perform Unit_eq_dec obj l (h1, k1)) as [answers st'] eqn:Ep.
  simpl. intros Hin.
  assert (Hl : forall n, In (AddNode n) l -> A n)
    by (intros n Hn; right; exact Hn).
  destruct (@perform_known Unit Unit_eq_dec obj A (length h0) l
              (h1, k1) st' answers K Hl Ep) as [_ Hr].
  apply Hr. exact Hin.
Qed.

End AddedNodes.

(** ** The engine sets up selected units only *)

(** A property every pass of a loop keeps, raising or not, holds when
    the loop ends. *)
Lemma for_each_keeps {A S : Type} (body : S -> A -> option Exn * S)
    (P : S -> Prop) :
  (forall s x e s', body s x = (e, s') -> P s -> P s') ->
  forall l s e s', for_each body l s = (e, s') -> P s -> P s'.
Proof.
  intros Hstep l s e s' H.
  exact (@for_each_always A S body (fun s s' => P s -> P s')
           (fun _ p => p) (fun _ _ _ f g p => g (f p)) Hstep l s e s' H).
Qed.

Section SelectedOnly.
Context {Unit : Type}.
Variable Unit_eq_dec : forall x y : Unit, {x = y} + {x <> y}.
Variable obj : Unit -> ConfigUnit Unit.
Variable beh : @Behaviour Unit.
Variable n0 : nat.

Local Abbreviation Heap := (@Heap Unit).
Local Abbreviation Config := (@Config Unit).
Local Abbreviation SetOrder := (@SetOrder Unit).
Local Abbreviation mem := (mem Unit_eq_dec).
Local Abbreviation add_target := (add_target Unit_eq_dec obj).
Local Abbreviation add_targets := (add_targets Unit_eq_dec obj).
Local Abbreviation exclude_others := (exclude_others Unit_eq_dec obj).
Local Abbreviation Config_init := (Config_init Unit_eq_dec obj).
Local Abbreviation next := (next Unit_eq_dec obj).
Local Abbreviation setup_unit := (setup_unit Unit_eq_dec obj beh).
Local Abbreviation init := (init Unit_eq_dec obj beh).
Local Abbreviation selected_only := (@selected_only Unit n0).

Lemma exclude_others_selected (ord : SetOrder) (target container : Unit)
    (st st' : Heap * Config) (e : option Exn) :
  exclude_others ord target container st = (e, st') ->
  selected_only st -> selected_only st'.
Proof.
  unfold exclude_others. destruct (exclusive (obj container)).
  2:{ intros H. inversion H; subst. auto. }
  apply for_each_keeps.
  clear. intros [h self] y e [h' self'] Hb K.
  destruct (eqb_unit Unit_eq_dec y target).
  - inversion Hb; subst. exact K.
  - destruct (remove_node Unit_eq_dec obj ord h (unit_iterator self) y)
      as [[e1 h1] k1] eqn:Er.
    pose proof (@remove_node_known Unit Unit_eq_dec obj _ n0 ord h h1
                  (unit_iterator self) k1 y e1 K Er) as K1.
    destruct e1; inversion Hb; subst; exact K1.
Qed.

Lemma add_target_selected (ord : SetOrder) (fuel : nat) :
  forall (h h' : Heap) (self self' : Config) (target : Unit)
         (force : bool) (e : option Exn),
    add_target fuel ord h self target force = (e, (h', self')) ->
    selected_only (h, self) -> selected_only (h', self').
Proof.
  induction fuel as [| fuel IH]; intros h h' self self' target force e H K.
  - inversion H; subst. exact K.
  - rewrite add_target_S in H.
    destruct (mem target (targets self));
      [inversion H; subst; exact K |].
    destruct (mem target (blacklisted_targets self));
      [inversion H; subst; exact K |].
    destruct (force
              || existsb (fun container => mem container (targets self))
                   (belongs (obj target)));
      [| inversion H; subst; exact K].
    cbv zeta in H.
    destruct (add_node Unit_eq_dec obj h
                (unit_iterator
                   (set_targets self (targets self ++ [target]))) target)
      as [h0 k0] eqn:Ea.
    assert (K0 : selected_only
                   (h0, set_iterator
                          (set_targets self (targets self ++ [target])) k0)).
    { unfold selected_only. simpl.
      refine (@add_node_known Unit Unit_eq_dec obj _ n0 h h0
                (unit_iterator self) k0 target _ _ Ea).
      - eapply iterator_known_weaken; [| exact K].
        intros u Hu. apply in_or_app. left. exact Hu.
      - apply in_or_app. right. left. reflexivity. }
    match type of H with
    | match ?loop with _ => _ end = _ => destruct loop as [e1 st1] eqn:E1
    end.
    assert (K1 : selected_only st1).
    { revert E1 K0. apply for_each_keeps.
      intros [h1 s1] x e2 [h2 s2] Hx. simpl in Hx. eapply IH; eauto. }
    destruct e1 as [e1 |]; [inversion H; subst; exact K1 |].
    revert H K1. apply for_each_keeps.
    intros s x e2 s' Hx. eapply exclude_others_selected; eauto.
Qed.

Lemma add_targets_selected (ord : SetOrder) (fuel : nat) (l : list Unit)
    (st st' : Heap * Config) (e : option Exn) :
  add_targets fuel ord l st = (e, st') ->
  selected_only st -> selected_only st'.
Proof.
  unfold add_targets. apply for_each_keeps.
  intros [h1 s1] x e2 [h2 s2] Hx. simpl in Hx.
  eapply add_target_selected; eauto.
Qed.

Lemma init_selected (ord : SetOrder) (limit steps : nat) :
  forall (h h' : Heap) (self self' : Config) (r : InitResult),
    init steps limit ord h self = (r, (h', self')) ->
    selected_only (h, self) ->
    targets self' = targets self /\ selected_only (h', self').
Proof.
  induction steps as [| steps IH]; intros h h' self self' r H K.
  - inversion H; subst. auto.
  - rewrite init_S in H.
    destruct (next limit ord h (unit_iterator self)) as [[res h1] k1] eqn:En.
    destruct (@next_known Unit Unit_eq_dec obj _ n0 ord limit h h1
                (unit_iterator self) k1 res K En) as [K1 _].
    destruct res as [unit | e].
    2:{ assert (Hs : (h', self') = (h1, set_iterator self k1))
          by (destruct e; inversion H; reflexivity).
        inversion Hs; subst. split; [reflexivity | exact K1]. }
    cbv beta iota zeta in H.
    destruct (setup_unit_spec Unit_eq_dec obj beh (set_iterator self k1) unit)
      as [Es | [instance Es]]; rewrite Es in H; clear Es.
    + simpl in H. apply IH in H; [| exact K1]. exact H.
    + simpl in H.
      destruct (setup beh unit (calls self)) as [result | e] eqn:Eu.
      * destruct result as [v |].
        -- inversion H; subst. split; [reflexivity | exact K1].
        -- apply IH in H; [| exact K1]. exact H.
      * assert (Hs : h' = h1 /\ targets self' = targets self
                     /\ unit_iterator self' = k1)
          by (destruct e; inversion H; subst; simpl; auto).
        destruct Hs as [-> [Ht Hi]]. split; [exact Ht |].
        unfold selected_only. simpl. rewrite Ht, Hi. exact K1.
Qed.

(** Selecting targets calls nothing and leaves the history alone. *)
Lemma exclude_others_quiet (ord : SetOrder) (target container : Unit)
    (st st' : Heap * Config) (e : option Exn) :
  exclude_others ord target container st = (e, st') ->
  calls (snd st) = [] /\ ran_units (snd st) = [] ->
  calls (snd st') = [] /\ ran_units (snd st') = [].
Proof.
  unfold exclude_others. destruct (exclusive (obj container)).
  2:{ intros H. inversion H; subst. auto. }
  apply for_each_keeps
    with (P := fun s : Heap * Config =>
                 calls (snd s) = [] /\ ran_units (snd s) = []).
  clear. intros [h self] y e [h' self'] Hb K.
  destruct (eqb_unit Unit_eq_dec y target).
  - inversion Hb; subst. exact K.
  - destruct (remove_node Unit_eq_dec obj ord h (unit_iterator self) y)
      as [[e1 h1] k1].
    destruct e1; inversion Hb; subst; exact K.
Qed.

Lemma add_target_quiet (ord : SetOrder) (fuel : nat) :
  forall (h h' : Heap) (self self' : Config) (target : Unit)
         (force : bool) (e : option Exn),
    add_target fuel ord h self target force = (e, (h', self')) ->
    calls self = [] /\ ran_units self = [] ->
    calls self' = [] /\ ran_units self' = [].
Proof.
  induction fuel as [| fuel IH]; intros h h' self self' target force e H K.
  - inversion H; subst. exact K.
  - rewrite add_target_S in H.
    destruct (mem target (targets self));
      [inversion H; subst; exact K |].
    destruct (mem target (blacklisted_targets self));
      [inversion H; subst; exact K |].
    destruct (force
              || existsb (fun container => mem container (targets self))
                   (belongs (obj target)));
      [| inversion H; subst; exact K].
    cbv zeta in H.
    destruct (add_node Unit_eq_dec obj h
                (unit_iterator
                   (set_targets self (targets self ++ [target]))) target)
      as [h0 k0].
    match type of H with
    | match ?loop with _ => _ end = _ => destruct loop as [e1 st1] eqn:E1
    end.
    assert (K1 : calls (snd st1) = [] /\ ran_units (snd st1) = []).
    { revert E1 K.
      apply for_each_keeps
        with (P := fun s : Heap * Config =>
                     calls (snd s) = [] /\ ran_units (snd s) = []).
      intros [h1 s1] x e2 [h2 s2] Hx. simpl in Hx. simpl. eapply IH; eauto. }
    destruct e1 as [e1 |]; [inversion H; subst; exact K1 |].
    revert H K1.
    apply for_each_keeps
      with (P := fun s : Heap * Config =>
                   calls (snd s) = [] /\ ran_units (snd s) = []).
    intros s x e2 s' Hx. eapply exclude_others_quiet; eauto.
Qed.

Lemma add_targets_quiet (ord : SetOrder) (fuel : nat) (l : list Unit)
    (st st' : Heap * Config) (e : option Exn) :
  add_targets fuel ord l st = (e, st') ->
  calls (snd st) = [] /\ ran_units (snd st) = [] ->
  calls (snd st') = [] /\ ran_units (snd st') = [].
Proof.
  unfold add_targets.
  apply for_each_keeps
    with (P := fun s : Heap * Config =>
                 calls (snd s) = [] /\ ran_units (snd s) = []).
  intros [h1 s1] x e2 [h2 s2] Hx. simpl in Hx. simpl.
  eapply add_target_quiet; eauto.
Qed.

End SelectedOnly.

Section SelectedUnits.
Context {Unit : Type}.
Variable Unit_eq_dec : forall x y : Unit, {x = y} + {x <> y}.
Variable obj : Unit -> ConfigUnit Unit.
Variable beh : @Behaviour Unit.

Local Abbreviation Heap := (@Heap Unit).
Local Abbreviation Config := (@Config Unit).
Local Abbreviation SetOrder := (@SetOrder Unit).
Local Abbreviation add_targets := (add_targets Unit_eq_dec obj).
Local Abbreviation Config_init := (Config_init Unit_eq_dec obj).
Local Abbreviation init := (init Unit_eq_dec obj beh).

(** X19. A configuration is built with some targets, more targets may
    be added with [add_targets] (whether that raises or not), and then
    [init] runs, however it ends.  Every unit whose setup phase [init]
    calls and every unit it records in the history is one of the
    targets of the configuration: a unit that is only named in the
    [before] or [after] list of a target is never set up. *)
Theorem init_sets_up_targets_only
    (fuel fuel' steps limit : nat) (ord ord' ord'' : SetOrder)
    (h0 h h1 h2 : Heap) (func : option FinalTarget)
    (selected : option (list Unit)) (more : list Unit)
    (self self1 self2 : Config) (e : option Exn) (r : InitResult) :
  Config_init fuel ord h0 func selected = (None, (h, self)) ->
  add_targets fuel' ord' more (h, self) = (e, (h1, self1)) ->
  init steps limit ord'' h1 self1 = (r, (h2, self2)) ->
  (forall u, In (EvSetup u) (calls self2) -> In u (targets self2))
  /\ (forall u, In u (ran_units self2) -> In u (targets self2)).
Proof.
  intros Hc Ha Hi.
  set (start := mkConfig func [] [] (@KahnIterator_empty Unit) [] [] None []).
  assert (K0 : selected_only (length h0) (h0, start)).
  { split; [apply heap_known_start |]. simpl.
    repeat split; try (intros ? ? []); intros ? []. }
  assert (K : selected_only (length h0) (h, self)
              /\ calls self = [] /\ ran_units self = []).
  { unfold Config_init in Hc. fold start in Hc.
    destruct selected as [l |].
    - split.
      + apply (@add_targets_selected Unit Unit_eq_dec obj (length h0) ord
                 fuel l (h0, start) (h, self) None Hc K0).
      + apply (@add_targets_quiet Unit Unit_eq_dec obj ord fuel l
                 (h0, start) (h, self) None Hc). simpl. auto.
    - inversion Hc; subst. simpl. auto. }
  destruct K as [K Q].
  pose proof (@add_targets_selected Unit Unit_eq_dec obj (length h0) ord'
                fuel' more (h, self) (h1, self1) e Ha K) as K1.
  pose proof (@add_targets_quiet Unit Unit_eq_dec obj ord' fuel' more
                (h, self) (h1, self1) e Ha Q) as [Qc Qr].
  simpl in Qc, Qr.
  destruct (@init_selected Unit Unit_eq_dec obj beh (length h0) ord'' limit
              steps h1 h2 self1 self2 r Hi K1) as [Ht K2].
  destruct (@init_pass Unit Unit_eq_dec obj beh ord'' limit steps h1 self1 r
              h2 self2 Hi) as [produced [Hl [_ [Hcalls Hran]]]].
  assert (Hp : forall u, In u produced -> In u (targets self2)).
  { intros u Hu.
    destruct K2 as [_ [_ [_ [_ [_ [_ Hlst]]]]]]. simpl in Hlst.
    apply Hlst. rewrite Hl. apply in_or_app. right. exact Hu. }
  split.
  - intros u Hu. rewrite Hcalls, Qc in Hu. simpl in Hu.
    apply in_map_iff in Hu. destruct Hu as [v [E Hv]].
    inversion E; subst. apply filter_In in Hv. apply Hp, Hv.
  - intros u Hu.
    destruct Hran as [Hran | [pre [v [ex [Ep [Hran _]]]]]];
      rewrite Hran, Qr in Hu; simpl in Hu.
    + apply Hp. exact Hu.
    + apply Hp. rewrite Ep. apply in_or_app. left. exact Hu.
Qed.

End SelectedUnits.

(** ** The further properties at work on concrete units *)

Section MoreWitnesses.
Import Examples.

(** The three units that wait for each other: [next] raises
    [CycleException], and raises it again. *)
Lemma exhausted_or_blocked_iterator_stays_so_witness :
  let built := KahnIterator_init U_eq_dec cycle3 [] [a; b; c] in
  let blocked :=
    next U_eq_dec cycle3 2 insertion_order (fst built) (snd built) in
  fst (fst blocked) = Raised CycleException
  /\ next U_eq_dec cycle3 1 reversed_order (snd (fst blocked)) (snd blocked)
     = (Raised CycleException, snd (fst blocked), snd blocked).
Proof.
  intros built blocked. split; [vm_compute; reflexivity |].
  apply (@exhausted_or_blocked_iterator_stays_so U U_eq_dec cycle3 2 0
           insertion_order reversed_order (fst built) (snd (fst blocked))
           (snd built) (snd blocked) CycleException).
  - vm_compute. reflexivity.
  - right. reflexivity.
Defined.

(** b is removed from the iterator of a, b, c, d; removing it again
    raises [KeyError]. *)
Lemma node_is_removed_only_once_witness :
  let built := KahnIterator_init U_eq_dec mirrored [] [a; b; c; d] in
  let removed :=
    remove_node U_eq_dec mirrored insertion_order (fst built) (snd built) b in
  fst (fst removed) = None
  /\ fst (fst (remove_node U_eq_dec mirrored reversed_order
                 (snd (fst removed)) (snd removed) b))
     = Some KeyError.
Proof.
  intros built removed. split; [vm_compute; reflexivity |].
  apply (@node_is_removed_only_once U U_eq_dec mirrored insertion_order
           reversed_order (fst built) (snd (fst removed)) (snd built)
           (snd removed) b).
  vm_compute. reflexivity.
Defined.

(** a, b and a again come out as a, b, a. *)
Lemma unconstrained_units_come_out_in_the_order_given_witness :
  fst (perform U_eq_dec unrelated
         (repeat (Next 1 reversed_order) 4)
         (KahnIterator_init U_eq_dec unrelated [] [a; b; a]))
  = [Got (Produced a); Got (Produced b); Got (Produced a);
     Got (Raised StopIteration)].
Proof.
  apply (@unconstrained_units_come_out_in_the_order_given U U_eq_dec
           unrelated [a; b; a] [] 0 reversed_order).
  intros u _. split; [reflexivity | split; [reflexivity | intros g []]].
Defined.


(** a is set up, then the iterator finds c and d waiting for each
    other: [run] raises [CycleException] and a is not torn down. *)
Lemma run_tears_nothing_down_when_init_raises_witness :
  let built :=
    snd (Config_init U_eq_dec stray_cycle 5 insertion_order [] None
           (Some [a; c; d])) in
  let raised :=
    snd (init U_eq_dec stray_cycle quiet 9 9 insertion_order (fst built)
           (snd built)) in
  fst (run U_eq_dec stray_cycle quiet G 5 9 9 insertion_order (fst built)
         None (snd built) None) = Some CycleException
  /\ (forall u, ~ In (EvTeardown u) (calls (snd raised)))
  /\ In a (ran_units (snd raised)).
Proof.
  intros built raised.
  destruct (@run_tears_nothing_down_when_init_raises U U_eq_dec stray_cycle
              quiet G 5 9 9 insertion_order (fst built) (fst built)
              (fst raised) None (snd built) (snd built) (snd raised) None
              CycleException)
    as [Hrun [Hcalls Hran]].
  - vm_compute. reflexivity.
  - vm_compute. reflexivity.
  - split; [rewrite Hrun; reflexivity |]. split.
    + intros u Hu. apply Hcalls in Hu. vm_compute in Hu. exact Hu.
    + vm_compute. auto.
Defined.

(** Selecting the coroutine unit x selects G, which it depends on. *)
Lemma forced_add_target_keeps_the_selection_closed_witness :
  let config := mkConfig None [] [] KahnIterator_empty [] [] None [] in
  let selected :=
    add_target U_eq_dec with_coroutine 5 insertion_order [] config x true in
  fst selected = None
  /\ selection_closed with_coroutine (snd (snd selected))
  /\ settled (snd (snd selected)) x.
Proof.
  intros config selected. split; [vm_compute; reflexivity |].
  apply (@forced_add_target_keeps_the_selection_closed U U_eq_dec
           with_coroutine insertion_order 5 [] (fst (snd selected)) config
           (snd (snd selected)) x).
  - intros t [].
  - vm_compute. reflexivity.
Defined.

(** The units of [stray_cycle], where the synchronous pass records a
    twice: the asynchronous pass records it once. *)
Lemma async_init_sets_no_unit_up_twice_witness :
  let built :=
    snd (Config_init U_eq_dec stray_cycle 5 insertion_order [] None
           (Some [a; c; d])) in
  let passed :=
    async_init U_eq_dec stray_cycle quiet 9 9 insertion_order (fst built)
      (snd built) in
  ran_units (snd (snd passed)) = [a]
  /\ NoDup (ran_units (snd (snd passed)))
  /\ exists called,
       calls (snd (snd passed)) = calls (snd built) ++ map EvSetup called
       /\ NoDup called.
Proof.
  intros built passed. split; [vm_compute; reflexivity |].
  destruct (@async_init_sets_no_unit_up_twice U U_eq_dec stray_cycle quiet
              insertion_order 9 9 (fst built) (snd built) (fst passed)
              (fst (snd passed)) (snd (snd passed)))
    as [Hn [_ [called [Hc [Hd _]]]]].
  - vm_compute. reflexivity.
  - vm_compute. constructor.
  - split; [exact Hn |]. exists called. split; [exact Hc | exact Hd].
Defined.

End MoreWitnesses.

Section RegistrationWitnesses.
Import Examples Registrations.

Lemma newcomer_unreferenced : unreferenced newcomer d.
Proof. intros v Hv. destruct v; simpl; tauto. Defined.

Lemma newcomer_consistent_without : consistent_without newcomer d.
Proof. intros u v Hu Hv. destruct u, v; simpl; tauto. Defined.

Lemma newcomer_contains (v : U) : incl (contains (newcomer v)) [x; y].
Proof. destruct v; simpl; intros u Hu; try contradiction; exact Hu. Defined.

(** Registering d, which runs before the group G of x and y. *)
Lemma add_unit_of_a_new_unit_keeps_the_relations_mirrored_witness :
  exists s' N,
    (forall fuel, N <= fuel ->
       add_unit U_eq_dec fuel 5 insertion_order nothing_registered newcomer
         [] d "units.d"
       = UnitAdded (mkRegistry [("units.d", d)] []) s' [])
    /\ relation_consistent s'.
Proof.
  apply (@add_unit_of_a_new_unit_keeps_the_relations_mirrored U U_eq_dec 5
           insertion_order nothing_registered newcomer [] [] d "units.d"
           [x; y] []).
  - reflexivity.
  - reflexivity.
  - simpl. tauto.
  - exact newcomer_contains.
  - exact newcomer_unreferenced.
  - exact newcomer_consistent_without.
Defined.

Lemma add_unit_writes_the_relations_of_the_unit_on_both_sides_witness :
  exists s' N,
    (forall fuel, N <= fuel ->
       add_unit U_eq_dec fuel 5 insertion_order nothing_registered newcomer
         [] d "units.d"
       = UnitAdded (mkRegistry [("units.d", d)] []) s' [])
    /\ own_relations_mirrored s' d.
Proof.
  destruct (@add_unit_writes_the_relations_of_the_unit_on_both_sides U
              U_eq_dec 5 insertion_order nothing_registered newcomer [] []
              d "units.d" [x; y] [])
    as [s' [N [H [P _]]]].
  - reflexivity.
  - reflexivity.
  - simpl. tauto.
  - exact newcomer_contains.
  - exists s', N. split; [exact H | exact P].
Defined.

(** d is registered with 9 passes allowed; its path is then taken. *)
Lemma path_is_registered_only_once_witness :
  exists reg' s' h',
    add_unit U_eq_dec 9 5 insertion_order nothing_registered newcomer [] d
      "units.d" = UnitAdded reg' s' h'
    /\ after (s' x) = [d] /\ before (s' d) = [G; x; y]
    /\ add_unit U_eq_dec 1 1 reversed_order reg' s' h' a "units.d"
       = AddUnitRaised PlainException reg' s' h'.
Proof.
  destruct (add_unit U_eq_dec 9 5 insertion_order nothing_registered
              newcomer [] d "units.d") as [reg' s' h' | |] eqn:E;
    [| exfalso; revert E; vm_compute; discriminate
     | exfalso; revert E; vm_compute; discriminate].
  exists reg', s', h'. split; [reflexivity |].
  assert (Hs : s' = match add_unit U_eq_dec 9 5 insertion_order
                            nothing_registered newcomer [] d "units.d" with
                    | UnitAdded _ s1 _ => s1
                    | _ => newcomer
                    end) by (rewrite E; reflexivity).
  split; [rewrite Hs; vm_compute; reflexivity |].
  split; [rewrite Hs; vm_compute; reflexivity |].
  apply (@path_is_registered_only_once U U_eq_dec 9 1 5 1 insertion_order
           reversed_order nothing_registered reg' newcomer s' [] h' d a
           "units.d").
  exact E.
Defined.

End RegistrationWitnesses.

Section SignalWitnesses.
Import Handlers.



(** Handler 9 is added to ready and removed again. *)
Lemma remove_signal_handler_undoes_add_signal_handler_witness :
  fst (signal_handlers
         (snd (remove_signal_handler Nat.eq_dec
                 (add_signal_handler (register_handlers registrations)
                    "ready" 9) "ready" 9)) "ready")
  = [1; 2; 5; 7].
Proof.
  destruct (@remove_signal_handler_undoes_add_signal_handler nat Nat.eq_dec
              (register_handlers registrations) "ready" 9) as [_ H].
  - vm_compute. intuition discriminate.
  - rewrite H. reflexivity.
Defined.

End SignalWitnesses.

Section VariableWitnesses.

(** A module with an ordinary name, a dunder name and a name that only
    starts with two underscores. *)
Lemma load_from_module_takes_all_but_the_dunder_names_witness :
  let module := [("DEBUG", 1); ("__doc__", 2); ("__private", 3)] in
  Config_get (load_from_module [("DEBUG", 0)] module) "DEBUG" 9 = 1
  /\ Config_get (load_from_module [("DEBUG", 0)] module) "__doc__" 9 = 9
  /\ Config_get (load_from_module [("DEBUG", 0)] module) "__private" 9 = 3.
Proof.
  intros module.
  assert (ND : NoDup (map fst module)).
  { repeat constructor; simpl; intuition discriminate. }
  rewrite !(@load_from_module_takes_all_but_the_dunder_names nat module
              [("DEBUG", 0)] _ 9 ND).
  repeat split.
Defined.

(** VERBOSE has a default and is set to 2; ARGS has none and is not
    set. *)
Lemma ConfigVar_get_after_set_witness :
  let verbose := mkConfigVar "VERBOSE" (Some 0) in
  let args := mkConfigVar "ARGS" None in
  exists config',
    ConfigVar_set verbose 2 (Some []) None = Ok config'
    /\ ConfigVar_get verbose (Some config') None = Ok 2
    /\ ConfigVar_get args (Some config') None = Error LookupError.
Proof.
  intros verbose args.
  destruct (@ConfigVar_get_after_set nat verbose args 2 [] None None)
    as [config' [Hs [Hg Ho]]].
  exists config'. split; [exact Hs |]. split; [exact Hg |].
  destruct Ho as [Ho1 Ho2]; [discriminate |].
  rewrite Ho1, Ho2. reflexivity.
Defined.

End VariableWitnesses.

Section SetFuncWitnesses.
Import Examples.

(** A coroutine function is set on a fresh config, with G in the role
    of [ASYNC_UNIT]. *)
Lemma set_func_sets_the_function_once_witness :
  let config := mkConfig None [] [] KahnIterator_empty [] [] None [] in
  let set :=
    Config_set_func U_eq_dec with_coroutine G 5 insertion_order [] config
      (Some (FinalFunction true)) in
  fst set = None
  /\ c_func (snd (snd set)) = Some (FinalFunction true)
  /\ settled (snd (snd set)) G
  /\ Config_set_func U_eq_dec with_coroutine G 5 insertion_order
       (fst (snd set)) (snd (snd set)) None
     = (Some PlainException, snd set).
Proof.
  intros config set. split; [vm_compute; reflexivity |].
  destruct (@set_func_sets_the_function_once U U_eq_dec with_coroutine G 5 5
              insertion_order insertion_order [] (fst (snd set)) config
              (snd (snd set)) (FinalFunction true) None)
    as [Hf [Ha Hagain]].
  - vm_compute. reflexivity.
  - split; [exact Hf |]. split; [apply Ha; reflexivity |].
    rewrite Hagain. vm_compute. reflexivity.
Defined.

End SetFuncWitnesses.

Section KnownNodesWitnesses.
Import Examples.

(** d is returned after it was inserted. *)
Lemma next_returns_added_units_only_witness :
  let l :=
    [Next 5 insertion_order; AddNode d; Next 5 insertion_order] in
  In (Got (Produced d))
     (fst (perform U_eq_dec declared l
             (KahnIterator_init U_eq_dec declared [] [a; b; c])))
  /\ (In d [a; b; c] \/ In (AddNode d) l).
Proof.
  intros l.
  assert (H : In (Got (Produced d))
                (fst (perform U_eq_dec declared l
                        (KahnIterator_init U_eq_dec declared [] [a; b; c]))))
    by (vm_compute; tauto).
  split; [exact H |].
  exact (@next_returns_added_units_only U U_eq_dec declared [] [a; b; c] l d
           H).
Defined.

(** Only b is selected; a, which b names in its [after] list, is not
    set up. *)
Lemma init_sets_up_targets_only_witness :
  let built :=
    Config_init U_eq_dec pair 5 insertion_order [] None (Some [b]) in
  let ran :=
    init U_eq_dec pair quiet 5 5 insertion_order (fst (snd built))
      (snd (snd built)) in
  In a (after (pair b))
  /\ targets (snd (snd ran)) = [b]
  /\ calls (snd (snd ran)) = [EvSetup b]
  /\ (forall u, In (EvSetup u) (calls (snd (snd ran))) ->
        In u (targets (snd (snd ran))))
  /\ (forall u, In u (ran_units (snd (snd ran))) ->
        In u (targets (snd (snd ran)))).
Proof.
  intros built ran.
  split; [simpl; tauto |]. split; [vm_compute; reflexivity |].
  split; [vm_compute; reflexivity |].
  apply (@init_sets_up_targets_only U U_eq_dec pair quiet 5 0 5 5
           insertion_order insertion_order insertion_order []
           (fst (snd built)) (fst (snd built)) (fst (snd ran)) None
           (Some [b]) [] (snd (snd built)) (snd (snd built)) (snd (snd ran))
           None (fst ran)).
  - vm_compute. reflexivity.
  - vm_compute. reflexivity.
  - vm_compute. reflexivity.
Defined.

End KnownNodesWitnesses.
